(** * A shallow embedding of [vector.h]: [RawMemory<T>] and [Vector<T>]

    The C++ code manages raw storage by hand, so the embedding keeps what the
    code keeps: a heap of storage blocks whose slots are either raw or hold a
    live element, [RawMemory] and [Vector] values made of a pointer and
    [size_t] fields, and [Vector] objects that live at addresses, so that
    [this != &rhs] means what it means in the source.  Methods are programs in
    a state monad with two abnormal outcomes: a C++ exception ([Throw]) and
    undefined behaviour or a failed [assert] ([Fault]). *)

From Stdlib Require Import ZArith Lia.
From stdpp Require Import base option list gmap.

Open Scope Z_scope.

(** ** [size_t] *)

Definition size_t_modulus : Z := 2 ^ 64.

(** Arithmetic on [size_t] is modulo [2^64]. *)
Definition wrap (z : Z) : Z := z mod size_t_modulus.

(** ** Pointers: [T*] is a block (or none, for a null pointer) and an offset
    counted in elements. *)

Record ptr := Ptr { base : option nat; off : Z }.

Definition nullptr : ptr := Ptr None 0.

Definition ptr_add (p : ptr) (k : Z) : ptr := Ptr (base p) (off p + k).

(** [p - q]; defined only inside one block (or between null pointers). *)
Definition ptr_diff (p q : ptr) : option Z :=
  if decide (base p = base q) then Some (off p - off q) else None.

(** ** Storage *)

Inductive slot (T : Type) : Type :=
| Raw
| Live (v : T).
Arguments Raw {T}.
Arguments Live {T} v.

(** [RawMemory<T>]: lines 81-82. *)
Record RawMemory := mkRawMemory { buffer_ : ptr; capacity_ : Z }.

(** [Vector<T>]: lines 206-207. *)
Record Vector := mkVector { data_ : RawMemory; size_ : Z }.

(** The program state.  [objs] holds the [Vector] objects by address, [heap]
    the blocks handed out by [operator new], [next] the next fresh block.
    [raw_destroyed] is a ghost log: the addresses at which a destructor was
    run on a slot that held no live element. *)
Record state (T : Type) := mkState {
  objs : gmap nat Vector;
  heap : gmap nat (list (slot T));
  next : nat;
  raw_destroyed : list ptr
}.
Arguments mkState {T}.
Arguments objs {T}.
Arguments heap {T}.
Arguments next {T}.
Arguments raw_destroyed {T}.

Definition set_objs {T} (o : gmap nat Vector) (s : state T) : state T :=
  mkState o (heap s) (next s) (raw_destroyed s).

Definition set_heap {T} (h : gmap nat (list (slot T))) (s : state T) : state T :=
  mkState (objs s) h (next s) (raw_destroyed s).

(** ** Outcomes and the monad *)

Inductive outcome (S A : Type) : Type :=
| Ok (a : A) (s : S)
| Throw (s : S)
| Fault.
Arguments Ok {S A}.
Arguments Throw {S A}.
Arguments Fault {S A}.

Definition M (T A : Type) : Type := state T → outcome (state T) A.

Definition ret {T A} (a : A) : M T A := fun s => Ok a s.

Definition bind {T A B} (m : M T A) (k : A → M T B) : M T B :=
  fun s => match m s with
           | Ok a s' => k a s'
           | Throw s' => Throw s'
           | Fault => Fault
           end.

(** Stack unwinding: when [m] throws, [cleanup] runs and the exception
    goes on. *)
Definition unwinding {T A} (m : M T A) (cleanup : M T unit) : M T A :=
  fun s => match m s with
           | Throw s' => match cleanup s' with
                         | Ok _ s'' => Throw s''
                         | Throw s'' => Throw s''
                         | Fault => Fault
                         end
           | r => r
           end.

Declare Scope cpp_scope.
Delimit Scope cpp_scope with cpp.
Notation "'let!' x := m 'in' k" := (bind m (fun x => k))
  (at level 10, x name, m at level 100, k at level 200) : cpp_scope.
Notation "m ;; k" := (bind m (fun _ => k))
  (at level 100, k at level 200, right associativity) : cpp_scope.
Open Scope cpp_scope.

(** [assert(b)]. *)
Definition assert {T} (b : bool) : M T unit :=
  fun s => if b then Ok tt s else Fault.

(** ** Slots of the heap *)

Definition slot_at {T} (h : gmap nat (list (slot T))) (p : ptr) : option (slot T) :=
  match base p with
  | Some b =>
      match h !! b with
      | Some blk => if 0 <=? off p then blk !! Z.to_nat (off p) else None
      | None => None
      end
  | None => None
  end.

Definition set_slot {T} (h : gmap nat (list (slot T))) (p : ptr) (c : slot T)
  : option (gmap nat (list (slot T))) :=
  match base p with
  | Some b =>
      match h !! b with
      | Some blk =>
          if (0 <=? off p) && (off p <? Z.of_nat (length blk))
          then Some (<[b := <[Z.to_nat (off p) := c]> blk]> h)
          else None
      | None => None
      end
  | None => None
  end.

(** ** The element type and the allocator

    The code is a template over the element type [T].  What it asks of [T]
    and of the allocator is gathered in one interface:
    - [sizeof_T] is [sizeof(T)];
    - [relocate_by_move] is the [if constexpr] condition of
      [UninitializedCopyMove] (line 211),
      [is_nothrow_move_constructible_v<T> || !is_copy_constructible_v<T>];
    - [moved_from x] is what a moved-from element that held [x] holds;
    - [value_init] and [default_init] are the results of value- and
      default-initialisation, and [init_throws s] says whether the default
      constructor throws in state [s];
    - [copy_throws s x] says whether copying [x] (by construction or by
      assignment) throws in state [s];
    - [alloc_fails s n] says whether [operator new(n)] finds no memory in
      state [s].
    Destructors do not throw.  Neither do the move constructor and the move
    assignment of an element: the element types covered are those whose
    moves never throw, whether they are declared [noexcept]
    ([relocate_by_move] is then true) or not. *)

(** No object is larger than [PTRDIFF_MAX] bytes. *)
Definition PTRDIFF_MAX : Z := 2 ^ 63 - 1.

Class Env (T : Type) := {
  sizeof_T : Z;
  sizeof_T_pos : 0 < sizeof_T;
  sizeof_T_max : sizeof_T ≤ PTRDIFF_MAX;
  relocate_by_move : bool;
  moved_from : T → T;
  value_init : T;
  default_init : T;
  init_throws : state T → bool;
  copy_throws : state T → T → bool;
  alloc_fails : state T → Z → bool
}.


Section Model.

Context {T : Type} {E : Env T}.

Local Abbreviation M := (M T).

(** *** Element-level primitives *)

(** Reading [*p]: the slot must hold a live element. *)
Definition read (p : ptr) : M T :=
  fun s => match slot_at (heap s) p with
           | Some (Live v) => Ok v s
           | _ => Fault
           end.

(** [new (p) T(v)] once the value [v] of the new element is known. *)
Definition construct_at (p : ptr) (v : T) : M unit :=
  fun s => match set_slot (heap s) p (Live v) with
           | Some h => Ok tt (set_heap h s)
           | None => Fault
           end.

(** [*p = v] onto a live element. *)
Definition assign_at (p : ptr) (v : T) : M unit :=
  fun s => match slot_at (heap s) p with
           | Some (Live _) =>
               match set_slot (heap s) p (Live v) with
               | Some h => Ok tt (set_heap h s)
               | None => Fault
               end
           | _ => Fault
           end.

(** [std::destroy_at(p)].  On a raw slot no element dies: the address is
    logged in [raw_destroyed] and the slot stays raw. *)
Definition destroy_at (p : ptr) : M unit :=
  fun s => match slot_at (heap s) p with
           | Some (Live _) =>
               match set_slot (heap s) p Raw with
               | Some h => Ok tt (set_heap h s)
               | None => Fault
               end
           | Some Raw =>
               Ok tt (mkState (objs s) (heap s) (next s) (raw_destroyed s ++ [p]))
           | None => Fault
           end.

(** Evaluating a copy of [x]; this is where [T(const T&)] and
    [T::operator=(const T&)] may throw. *)
Definition copy_value (x : T) : M T :=
  fun s => if copy_throws s x then Throw s else Ok x s.

(** Moving out of [*p]: yields the value and leaves [*p] moved-from. *)
Definition move_out (p : ptr) : M T :=
  let! x := read p in
  assign_at p (moved_from x);;
  ret x.

(** The constructor arguments of [Emplace], [EmplaceBack], [Insert] and
    [PushBack] when they refer to an object outside the heap (a variable of
    the caller, a temporary): an lvalue holding [v] to copy, or an rvalue
    holding [v] to move from. *)
Inductive ctor_arg : Type :=
| CopyOf (v : T)
| MoveOf (v : T).

Definition arg_value (a : ctor_arg) : T :=
  match a with CopyOf v => v | MoveOf v => v end.

(** Evaluating [T(std::forward<Args>(args)...)]. *)
Definition make (a : ctor_arg) : M T :=
  match a with
  | CopyOf v => copy_value v
  | MoveOf v => ret v
  end.

(** [new (p) T(std::forward<Args>(args)...)]. *)
Definition construct_from (p : ptr) (a : ctor_arg) : M unit :=
  let! v := make a in construct_at p v.

(** *** The standard algorithms the code calls *)

(** [last - first] as a loop count; a negative distance never terminates
    properly. *)
Definition distance (first last : ptr) : M nat :=
  fun s => match ptr_diff last first with
           | Some d => if 0 <=? d then Ok (Z.to_nat d) s else Fault
           | None => Fault
           end.

Fixpoint destroy_loop (first : ptr) (n : nat) : M unit :=
  match n with
  | O => ret tt
  | S k => destroy_at first;; destroy_loop (ptr_add first 1) k
  end.

(** [std::destroy_n(first, n)]. *)
Definition destroy_n (first : ptr) (n : Z) : M unit :=
  destroy_loop first (Z.to_nat n).

(** [std::destroy(first, last)]. *)
Definition destroy (first last : ptr) : M unit :=
  let! n := distance first last in destroy_loop first n.

(** [std::uninitialized_copy_n]: when a copy throws, the elements already
    built are destroyed and the exception goes on. *)
Fixpoint uninitialized_copy_loop (first : ptr) (n : nat) (d_first : ptr) : M unit :=
  match n with
  | O => ret tt
  | S k =>
      let! x := read first in
      let! y := copy_value x in
      construct_at d_first y;;
      unwinding (uninitialized_copy_loop (ptr_add first 1) k (ptr_add d_first 1))
                (destroy_at d_first)
  end.

Definition uninitialized_copy_n (first : ptr) (n : Z) (d_first : ptr) : M unit :=
  uninitialized_copy_loop first (Z.to_nat n) d_first.

(** [std::uninitialized_move_n]. *)
Fixpoint uninitialized_move_loop (first : ptr) (n : nat) (d_first : ptr) : M unit :=
  match n with
  | O => ret tt
  | S k =>
      let! x := move_out first in
      construct_at d_first x;;
      uninitialized_move_loop (ptr_add first 1) k (ptr_add d_first 1)
  end.

Definition uninitialized_move_n (first : ptr) (n : Z) (d_first : ptr) : M unit :=
  uninitialized_move_loop first (Z.to_nat n) d_first.

(** Evaluating [T()], which gives [v]; this is where the default
    constructor may throw. *)
Definition init_value (v : T) : M T :=
  fun s => if init_throws s then Throw s else Ok v s.

(** The loop of [std::uninitialized_value_construct_n] and
    [std::uninitialized_default_construct_n]: when a constructor throws,
    the elements already built are destroyed and the exception goes on. *)
Fixpoint fill_loop (v : T) (first : ptr) (n : nat) : M unit :=
  match n with
  | O => ret tt
  | S k =>
      let! x := init_value v in
      construct_at first x;;
      unwinding (fill_loop v (ptr_add first 1) k) (destroy_at first)
  end.

(** [std::uninitialized_value_construct_n]. *)
Definition uninitialized_value_construct_n (first : ptr) (n : Z) : M unit :=
  fill_loop value_init first (Z.to_nat n).

(** [std::uninitialized_default_construct_n]. *)
Definition uninitialized_default_construct_n (first : ptr) (n : Z) : M unit :=
  fill_loop default_init first (Z.to_nat n).

(** [std::move(first, last, d_first)]: move-assigns front to back. *)
Fixpoint move_loop (first : ptr) (n : nat) (d_first : ptr) : M unit :=
  match n with
  | O => ret tt
  | S k =>
      let! x := move_out first in
      assign_at d_first x;;
      move_loop (ptr_add first 1) k (ptr_add d_first 1)
  end.

Definition std_move (first last d_first : ptr) : M unit :=
  let! n := distance first last in move_loop first n d_first.

(** [std::move_backward(first, last, d_last)]: move-assigns back to front. *)
Fixpoint move_backward_loop (n : nat) (last d_last : ptr) : M unit :=
  match n with
  | O => ret tt
  | S k =>
      let! x := move_out (ptr_add last (-1)) in
      assign_at (ptr_add d_last (-1)) x;;
      move_backward_loop k (ptr_add last (-1)) (ptr_add d_last (-1))
  end.

Definition move_backward (first last d_last : ptr) : M unit :=
  let! n := distance first last in move_backward_loop n last d_last.

(** [p - q] on iterators. *)
Definition pdiff (p q : ptr) : M Z :=
  fun s => match ptr_diff p q with
           | Some d => Ok d s
           | None => Fault
           end.

(** *** The allocator *)

(** [operator new(bytes)]: throws [std::bad_alloc], always so above
    [PTRDIFF_MAX], or hands out a fresh block of raw slots, as many as fit in
    [bytes]. *)
Definition operator_new (bytes : Z) : M ptr :=
  fun s => if (PTRDIFF_MAX <? bytes) || alloc_fails s bytes then Throw s
           else Ok (Ptr (Some (next s)) 0)
                   (mkState (objs s)
                            (<[next s := replicate (Z.to_nat (bytes / sizeof_T)) Raw]> (heap s))
                            (S (next s))
                            (raw_destroyed s)).

(** [operator delete(buf)]: nothing for a null pointer; otherwise [buf] must
    be the start of a block that is still allocated.  The block is released
    whatever its slots hold: no destructor is run on an element still live
    in it. *)
Definition operator_delete (buf : ptr) : M unit :=
  fun s => match base buf with
           | None => if off buf =? 0 then Ok tt s else Fault
           | Some b =>
               if off buf =? 0
               then match heap s !! b with
                    | Some _ => Ok tt (set_heap (delete b (heap s)) s)
                    | None => Fault
                    end
               else Fault
           end.

(** *** [RawMemory<T>] (lines 10-83) *)

(** Lines 72-74. *)
Definition Allocate (n : Z) : M ptr :=
  if n =? 0 then ret nullptr else operator_new (wrap (n * sizeof_T)).

(** Lines 77-79. *)
Definition Deallocate (buf : ptr) : M unit := operator_delete buf.

(** [RawMemory() = default], with the member initialisers of lines 81-82. *)
Definition RawMemory_default : RawMemory := mkRawMemory nullptr 0.

(** [explicit RawMemory(size_t capacity)], lines 14-17. *)
Definition RawMemory_new (capacity : Z) : M RawMemory :=
  let! buf := Allocate capacity in
  ret (mkRawMemory buf capacity).

(** [Swap], lines 53-56; the result is [( *this, other)]. *)
Definition RawMemory_Swap (this other : RawMemory) : RawMemory * RawMemory :=
  let '(b1, b2) := (buffer_ other, buffer_ this) in
  let '(c1, c2) := (capacity_ other, capacity_ this) in
  (mkRawMemory b1 c1, mkRawMemory b2 c2).

(** [RawMemory(RawMemory&& other)], lines 22-24: the new object starts from
    its member initialisers and swaps; the result is [( *this, other)]. *)
Definition RawMemory_move (other : RawMemory) : RawMemory * RawMemory :=
  RawMemory_Swap RawMemory_default other.

(** [operator=(RawMemory&& rhs)], lines 25-28; the result is [( *this, rhs)]. *)
Definition RawMemory_move_assign (this rhs : RawMemory) : RawMemory * RawMemory :=
  RawMemory_Swap this rhs.

(** [~RawMemory()], lines 30-32. *)
Definition RawMemory_dtor (m : RawMemory) : M unit := Deallocate (buffer_ m).

(** [operator+], lines 34-38. *)
Definition RawMemory_plus (m : RawMemory) (offset : Z) : M ptr :=
  assert (offset <=? capacity_ m);;
  ret (ptr_add (buffer_ m) offset).

(** [operator[]], lines 48-51; the reference is the address of the slot. *)
Definition RawMemory_at (m : RawMemory) (index : Z) : M ptr :=
  assert (index <? capacity_ m);;
  ret (ptr_add (buffer_ m) index).

Definition GetAddress (m : RawMemory) : ptr := buffer_ m.

Definition RawMemory_Capacity (m : RawMemory) : Z := capacity_ m.

(** *** [Vector<T>] (lines 85-380) *)

Definition load (this : nat) : M Vector :=
  fun s => match objs s !! this with
           | Some v => Ok v s
           | None => Fault
           end.

Definition store (this : nat) (v : Vector) : M unit :=
  fun s => Ok tt (set_objs (<[this := v]> (objs s)) s).

Definition set_size (this : nat) (n : Z) : M unit :=
  let! v := load this in store this (mkVector (data_ v) n).

(** A local [Vector] variable gets an address nobody uses, and gives it
    back at the end of its scope. *)
Definition local_object : M nat :=
  fun s => Ok (fresh (dom (objs s))) s.

Definition end_of_scope (a : nat) : M unit :=
  fun s => Ok tt (set_objs (delete a (objs s)) s).

(** Lines 132-149. *)
Definition begin_ (this : nat) : M ptr :=
  let! v := load this in ret (GetAddress (data_ v)).

Definition end_ (this : nat) : M ptr :=
  let! v := load this in RawMemory_plus (data_ v) (size_ v).

Definition cbegin (this : nat) : M ptr := begin_ this.

Definition cend (this : nat) : M ptr := end_ this.

(** Lines 188-194. *)
Definition Size (this : nat) : M Z :=
  let! v := load this in ret (size_ v).

Definition Capacity (this : nat) : M Z :=
  let! v := load this in ret (RawMemory_Capacity (data_ v)).

(** [operator[]], lines 200-203; the reference is the address of the slot. *)
Definition index (this : nat) (i : Z) : M ptr :=
  let! v := load this in
  assert (i <? size_ v);;
  RawMemory_at (data_ v) i.

(** Lines 209-216. *)
Definition UninitializedCopyMove (from : ptr) (size : Z) (to : ptr) : M unit :=
  if relocate_by_move
  then uninitialized_move_n from size to
  else uninitialized_copy_n from size to.

(** [Vector() noexcept = default], line 91. *)
Definition Vector_default (this : nat) : M unit :=
  store this (mkVector RawMemory_default 0).

(** [explicit Vector(size_t size)], lines 244-249.  When the body throws,
    the member [data_] is destroyed and no object comes to exist. *)
Definition Vector_sized (this : nat) (size : Z) : M unit :=
  let! d := RawMemory_new size in
  unwinding (uninitialized_value_construct_n (GetAddress d) size)
            (RawMemory_dtor d);;
  store this (mkVector d size).

(** [Vector(const Vector& other)], lines 251-256. *)
Definition Vector_copy (this other : nat) : M unit :=
  let! o := load other in
  let! d := RawMemory_new (size_ o) in
  unwinding (uninitialized_copy_n (GetAddress (data_ o)) (size_ o) (GetAddress d))
            (RawMemory_dtor d);;
  store this (mkVector d (size_ o)).

(** [~Vector()], lines 264-267, followed by the destructor of the member
    [data_].  The fields of the object stay where they are: its own storage
    belongs to whoever declared it. *)
Definition Vector_dtor (this : nat) : M unit :=
  let! v := load this in
  destroy_n (GetAddress (data_ v)) (size_ v);;
  RawMemory_dtor (data_ v).

(** [Swap], lines 311-315. *)
Definition Swap (this other : nat) : M unit :=
  let! a := load this in
  let! b := load other in
  let '(da, db) := RawMemory_Swap (data_ a) (data_ b) in
  store this (mkVector da (size_ a));;
  store other (mkVector db (size_ b));;
  let! a := load this in
  let! b := load other in
  store this (mkVector (data_ a) (size_ b));;
  store other (mkVector (data_ b) (size_ a)).

(** The lifetime of the object at [a] is over: its storage is still there,
    but it holds no [Vector] any more, and every later use of it, its
    destructor included, is undefined. *)
Definition end_of_lifetime (a : nat) : M unit :=
  fun s => Ok tt (set_objs (delete a (objs s)) s).

(** [Vector(Vector&& other) noexcept], lines 258-262.  Line 261 calls the
    destructor of [other], which ends the lifetime of [other]. *)
Definition Vector_move (this other : nat) : M unit :=
  Vector_default this;;
  Swap this other;;
  Vector_dtor other;;
  end_of_lifetime other.

(** [Reserve], lines 269-277. *)
Definition Reserve (this : nat) (new_capacity : Z) : M unit :=
  let! v := load this in
  if new_capacity >? RawMemory_Capacity (data_ v) then
    let! new_data := RawMemory_new new_capacity in
    unwinding
      (UninitializedCopyMove (GetAddress (data_ v)) (size_ v) (GetAddress new_data);;
       destroy_n (GetAddress (data_ v)) (RawMemory_Capacity (data_ v)))
      (RawMemory_dtor new_data);;
    let '(d, new_data') := RawMemory_Swap (data_ v) new_data in
    store this (mkVector d (size_ v));;
    RawMemory_dtor new_data'
  else ret tt.

(** The loops of lines 284-286 and 289-291: [data_[i] = rhs.data_[i]]. *)
Fixpoint copy_assign_loop (d r : RawMemory) (i : Z) (n : nat) : M unit :=
  match n with
  | O => ret tt
  | S k =>
      let! src := RawMemory_at r i in
      let! x := read src in
      let! y := copy_value x in
      let! dst := RawMemory_at d i in
      assign_at dst y;;
      copy_assign_loop d r (i + 1) k
  end.

(** [operator=(const Vector& rhs)], lines 279-301. *)
Definition operator_assign (this rhs : nat) : M unit :=
  if negb (Nat.eqb this rhs) then
    let! v := load this in
    let! r := load rhs in
    if RawMemory_Capacity (data_ v) >=? size_ r then
      (if size_ v >? size_ r then
         copy_assign_loop (data_ v) (data_ r) 0 (Z.to_nat (size_ r));;
         let! p := RawMemory_plus (data_ v) (size_ r) in
         destroy_n p (wrap (size_ v - size_ r))
       else
         copy_assign_loop (data_ v) (data_ r) 0 (Z.to_nat (size_ v));;
         let! p := RawMemory_plus (data_ r) (size_ v) in
         let! q := RawMemory_plus (data_ v) (size_ v) in
         uninitialized_copy_n p (wrap (size_ r - size_ v)) q);;
      set_size this (size_ r)
    else
      let! temp := local_object in
      Vector_copy temp rhs;;
      Swap this temp;;
      Vector_dtor temp;;
      end_of_scope temp
  else ret tt.

(** [operator=(Vector&& rhs) noexcept], lines 303-309. *)
Definition operator_assign_move (this rhs : nat) : M unit :=
  if negb (Nat.eqb this rhs) then Swap this rhs else ret tt.

(** [Resize], lines 317-329. *)
Definition Resize (this : nat) (new_size : Z) : M unit :=
  let! v := load this in
  if size_ v >? new_size then
    let! p := RawMemory_plus (data_ v) new_size in
    destroy_n p (wrap (size_ v - new_size));;
    set_size this new_size
  else if new_size >? size_ v then
    (if RawMemory_Capacity (data_ v) <? new_size
     then Reserve this new_size else ret tt);;
    let! v := load this in
    let! p := RawMemory_plus (data_ v) (size_ v) in
    uninitialized_default_construct_n p (wrap (new_size - size_ v));;
    set_size this new_size
  else ret tt.

(** The body shared by the two [PushBack] overloads (lines 333-342 and
    348-357) and [EmplaceBack] (lines 369-378), which differ only in the
    constructor argument.  The new element is built before any element of
    the vector is touched (lines 335 and 340), so an lvalue argument that is
    an element of the vector is copied as it was before the call. *)
Definition push (this : nat) (a : ctor_arg) : M unit :=
  let! v := load this in
  (if size_ v =? RawMemory_Capacity (data_ v) then
     let! temp := RawMemory_new (if size_ v =? 0 then 1 else wrap (2 * size_ v)) in
     unwinding
       (let! p := RawMemory_plus temp (size_ v) in
        construct_from p a;;
        UninitializedCopyMove (GetAddress (data_ v)) (size_ v) (GetAddress temp);;
        destroy_n (GetAddress (data_ v)) (size_ v))
       (RawMemory_dtor temp);;
     let '(d, temp') := RawMemory_Swap (data_ v) temp in
     store this (mkVector d (size_ v));;
     RawMemory_dtor temp'
   else
     let! p := RawMemory_plus (data_ v) (size_ v) in
     construct_from p a);;
  let! v := load this in
  set_size this (wrap (size_ v + 1)).

(** [PushBack(const T& value)], lines 331-343. *)
Definition PushBack (this : nat) (value : T) : M unit :=
  push this (CopyOf value).

(** [PushBack(T&& value)], lines 346-358. *)
Definition PushBack_rvalue (this : nat) (value : T) : M unit :=
  push this (MoveOf value).

(** [PopBack], lines 360-364. *)
Definition PopBack (this : nat) : M unit :=
  let! v := load this in
  let! e1 := RawMemory_plus (data_ v) (size_ v) in
  let! e2 := RawMemory_plus (data_ v) (size_ v) in
  destroy (ptr_add e1 (-1)) e2;;
  set_size this (wrap (size_ v - 1)).

(** [EmplaceBack], lines 366-380; the reference is the address of the slot. *)
Definition EmplaceBack (this : nat) (a : ctor_arg) : M ptr :=
  push this a;;
  let! v := load this in
  let! e := RawMemory_plus (data_ v) (size_ v) in
  ret (ptr_add e (-1)).

(** [Emplace], lines 158-179.  The arguments are references: [mk] evaluates
    [T(std::forward<Args>(args)...)] when the code does (lines 163, 167 and
    171), in the state of that moment. *)
Definition Emplace_from (mk : M T) (this : nat) (pos : ptr) : M ptr :=
  let! cb := cbegin this in
  let! d := pdiff pos cb in
  let position := wrap d in
  let! v := load this in
  (if RawMemory_Capacity (data_ v) >? size_ v then
     if position =? size_ v then
       let! b := begin_ this in
       let! x := mk in
       construct_at (ptr_add b position) x
     else
       let! e := end_ this in
       let! l := end_ this in
       let! x := move_out (ptr_add l (-1)) in
       construct_at e x;;
       let! b := begin_ this in
       let! l := end_ this in
       let! e := end_ this in
       move_backward (ptr_add b position) (ptr_add l (-1)) e;;
       let! x := mk in
       let! p := RawMemory_at (data_ v) position in
       assign_at p x
   else
     let! temp := RawMemory_new (if size_ v =? 0 then 1 else wrap (2 * size_ v)) in
     unwinding
       (let! p := RawMemory_plus temp position in
        (let! x := mk in construct_at p x);;
        let! b := begin_ this in
        UninitializedCopyMove b position (GetAddress temp);;
        let! b := begin_ this in
        let! ce := cend this in
        let! n := pdiff ce pos in
        let! q := RawMemory_plus temp position in
        UninitializedCopyMove (ptr_add b position) (wrap n) (ptr_add q 1);;
        destroy_n (GetAddress (data_ v)) (size_ v))
       (RawMemory_dtor temp);;
     let '(d, temp') := RawMemory_Swap (data_ v) temp in
     store this (mkVector d (size_ v));;
     RawMemory_dtor temp');;
  let! v := load this in
  set_size this (wrap (size_ v + 1));;
  let! b := begin_ this in
  ret (ptr_add b position).

(** [Emplace] with an argument outside the heap. *)
Definition Emplace (this : nat) (pos : ptr) (a : ctor_arg) : M ptr :=
  Emplace_from (make a) this pos.

(** [Insert], lines 151-156, with a [value] outside the heap. *)
Definition Insert (this : nat) (pos : ptr) (value : T) : M ptr :=
  Emplace this pos (CopyOf value).

Definition Insert_rvalue (this : nat) (pos : ptr) (value : T) : M ptr :=
  Emplace this pos (MoveOf value).

(** [Insert(pos, value)], lines 151-153, with [value] bound to the element
    at [q], as in [v.Insert(pos, v[j])]: the element is read when the copy
    is made. *)
Definition Insert_element (this : nat) (pos q : ptr) : M ptr :=
  Emplace_from (let! x := read q in copy_value x) this pos.

(** [Erase], lines 181-186. *)
Definition Erase (this : nat) (pos : ptr) : M ptr :=
  let! b := begin_ this in
  let! cb := cbegin this in
  let! d := pdiff pos cb in
  let! e := end_ this in
  let! b' := begin_ this in
  let! cb' := cbegin this in
  let! d' := pdiff pos cb' in
  std_move (ptr_add b (d + 1)) e (ptr_add b' d');;
  let! v := load this in
  set_size this (wrap (size_ v - 1));;
  let! e := end_ this in
  destroy_at e;;
  let! v := load this in
  let! cb := cbegin this in
  let! d := pdiff pos cb in
  RawMemory_plus (data_ v) (wrap d).

End Model.

(** * Reasoning about the model *)

(** ** The monad *)

Section Monad.

Context {T : Type}.

Lemma bind_ok {A B} (m : M T A) (k : A → M T B) s a s' :
  m s = Ok a s' → bind m k s = k a s'.
Proof. unfold bind. by intros ->. Qed.

Lemma bind_throw {A B} (m : M T A) (k : A → M T B) s s' :
  m s = Throw s' → bind m k s = Throw s'.
Proof. unfold bind. by intros ->. Qed.

Lemma bind_fault {A B} (m : M T A) (k : A → M T B) s :
  m s = Fault → bind m k s = Fault.
Proof. unfold bind. by intros ->. Qed.

Lemma bind_ret {A B} (a : A) (k : A → M T B) s : bind (ret a) k s = k a s.
Proof. reflexivity. Qed.

Lemma bind_inv_ok {A B} (m : M T A) (k : A → M T B) s b s2 :
  bind m k s = Ok b s2 → ∃ a s1, m s = Ok a s1 ∧ k a s1 = Ok b s2.
Proof. unfold bind. destruct (m s); [eauto | done | done]. Qed.

Lemma unwinding_ok {A} (m : M T A) c s a s' :
  m s = Ok a s' → unwinding m c s = Ok a s'.
Proof. unfold unwinding. by intros ->. Qed.

Lemma unwinding_throw {A} (m : M T A) c s s' s'' :
  m s = Throw s' → c s' = Ok tt s'' → unwinding m c s = Throw s''.
Proof. unfold unwinding. by intros -> ->. Qed.

Lemma assert_true s : assert (T := T) true s = Ok tt s.
Proof. reflexivity. Qed.

End Monad.

(** ** Pointers into a block *)

(** The address of slot [i] of block [b]. *)
Definition slot_ptr (b i : nat) : ptr := Ptr (Some b) (Z.of_nat i).

Lemma ptr_add_slot_ptr b i (k : nat) :
  ptr_add (slot_ptr b i) (Z.of_nat k) = slot_ptr b (i + k).
Proof. unfold ptr_add, slot_ptr. simpl. f_equal. lia. Qed.

Lemma ptr_add_1 b i : ptr_add (slot_ptr b i) 1 = slot_ptr b (S i).
Proof. unfold ptr_add, slot_ptr. simpl. f_equal. lia. Qed.

Lemma ptr_add_m1 b i : ptr_add (slot_ptr b (S i)) (-1) = slot_ptr b i.
Proof. unfold ptr_add, slot_ptr. simpl. f_equal. lia. Qed.

Lemma ptr_add_Z b z : 0 ≤ z → ptr_add (Ptr (Some b) 0) z = slot_ptr b (Z.to_nat z).
Proof. intros. unfold ptr_add, slot_ptr. simpl. f_equal. lia. Qed.

Lemma ptr_diff_slot_ptr b i j :
  ptr_diff (slot_ptr b i) (slot_ptr b j) = Some (Z.of_nat i - Z.of_nat j).
Proof. unfold ptr_diff, slot_ptr. simpl. by rewrite decide_True. Qed.

Section Slots.

Context {T : Type}.
Implicit Types (h : gmap nat (list (slot T))) (blk : list (slot T)).

Lemma slot_at_block h b i blk :
  h !! b = Some blk → slot_at h (slot_ptr b i) = blk !! i.
Proof.
  intros Hb. unfold slot_at, slot_ptr. simpl. rewrite Hb.
  rewrite (proj2 (Z.leb_le _ _)) by lia. by rewrite Nat2Z.id.
Qed.

Lemma set_slot_block h b i blk c :
  h !! b = Some blk → (i < length blk)%nat →
  set_slot h (slot_ptr b i) c = Some (<[b := <[i := c]> blk]> h).
Proof.
  intros Hb Hi. unfold set_slot, slot_ptr. simpl. rewrite Hb.
  rewrite (proj2 (Z.leb_le _ _)) by lia. rewrite (proj2 (Z.ltb_lt _ _)) by lia.
  simpl. by rewrite Nat2Z.id.
Qed.

Lemma slot_at_null h z : slot_at h (Ptr None z) = None.
Proof. reflexivity. Qed.

End Slots.

(** ** The element-level primitives on a known block *)

Section Primitives.

Context {T : Type} {E : Env T}.
Implicit Types (h : gmap nat (list (slot T))) (blk : list (slot T)).
Implicit Types (o : gmap nat Vector) (n : nat) (r : list ptr).

Lemma read_block o h n r b i blk x :
  h !! b = Some blk → blk !! i = Some (Live x) →
  read (slot_ptr b i) (mkState o h n r) = Ok x (mkState o h n r).
Proof.
  intros Hb Hi. unfold read. simpl. by rewrite (slot_at_block _ _ _ _ Hb), Hi.
Qed.

Lemma construct_at_block o h n r b i blk x :
  h !! b = Some blk → (i < length blk)%nat →
  construct_at (slot_ptr b i) x (mkState o h n r)
  = Ok tt (mkState o (<[b := <[i := Live x]> blk]> h) n r).
Proof.
  intros Hb Hi. unfold construct_at. simpl.
  by rewrite (set_slot_block _ _ _ _ _ Hb Hi).
Qed.

Lemma assign_at_block o h n r b i blk x y :
  h !! b = Some blk → blk !! i = Some (Live y) →
  assign_at (slot_ptr b i) x (mkState o h n r)
  = Ok tt (mkState o (<[b := <[i := Live x]> blk]> h) n r).
Proof.
  intros Hb Hi. unfold assign_at. simpl.
  rewrite (slot_at_block _ _ _ _ Hb), Hi.
  by rewrite (set_slot_block _ _ _ _ _ Hb (lookup_lt_Some _ _ _ Hi)).
Qed.

Lemma destroy_at_live o h n r b i blk y :
  h !! b = Some blk → blk !! i = Some (Live y) →
  destroy_at (slot_ptr b i) (mkState o h n r)
  = Ok tt (mkState o (<[b := <[i := Raw]> blk]> h) n r).
Proof.
  intros Hb Hi. unfold destroy_at. simpl.
  rewrite (slot_at_block _ _ _ _ Hb), Hi.
  by rewrite (set_slot_block _ _ _ _ _ Hb (lookup_lt_Some _ _ _ Hi)).
Qed.

Lemma destroy_at_raw o h n r b i blk :
  h !! b = Some blk → blk !! i = Some Raw →
  destroy_at (slot_ptr b i) (mkState o h n r)
  = Ok tt (mkState o h n (r ++ [slot_ptr b i])).
Proof.
  intros Hb Hi. unfold destroy_at. simpl.
  by rewrite (slot_at_block _ _ _ _ Hb), Hi.
Qed.

Lemma move_out_block o h n r b i blk x :
  h !! b = Some blk → blk !! i = Some (Live x) →
  move_out (slot_ptr b i) (mkState o h n r)
  = Ok x (mkState o (<[b := <[i := Live (moved_from x)]> blk]> h) n r).
Proof.
  intros Hb Hi. unfold move_out.
  rewrite (bind_ok _ _ _ _ _ (read_block o h n r b i blk x Hb Hi)).
  by rewrite (bind_ok _ _ _ _ _ (assign_at_block o h n r b i blk _ x Hb Hi)).
Qed.

End Primitives.

(** ** The loops of the standard algorithms *)

(** The addresses of the raw slots among [cs], which start at slot [i] of
    block [b]. *)
Fixpoint raw_slots {T} (b i : nat) (cs : list (slot T)) : list ptr :=
  match cs with
  | [] => []
  | Raw :: cs' => slot_ptr b i :: raw_slots b (S i) cs'
  | Live _ :: cs' => raw_slots b (S i) cs'
  end.

(** What the slot left behind by a shift to the left holds: the moved-from
    state of the last element moved, or [y] when nothing moved. *)
Fixpoint vacated_back {T} {E : Env T} (y : T) (xs : list T) : T :=
  match xs with
  | [] => y
  | x :: xs' => vacated_back (moved_from x) xs'
  end.

(** The same for a shift to the right: the first element moved. *)
Definition vacated_front {T} {E : Env T} (y : T) (xs : list T) : T :=
  match xs with
  | [] => y
  | x :: _ => moved_from x
  end.

Section Loops.

Context {T : Type} {E : Env T}.
Implicit Types (h : gmap nat (list (slot T))) (blk P Q cs : list (slot T)).
Implicit Types (o : gmap nat Vector) (n : nat) (r : list ptr) (xs : list T).

Lemma raw_slots_live b i xs : raw_slots b i (Live <$> xs) = [].
Proof. revert i. induction xs as [|x xs IH]; intros i; simpl; auto. Qed.

Lemma raw_slots_app b i cs1 cs2 :
  raw_slots b i (cs1 ++ cs2)
  = raw_slots b i cs1 ++ raw_slots b (i + length cs1) cs2.
Proof.
  revert i. induction cs1 as [|c cs1 IH]; intros i; simpl.
  - by rewrite Nat.add_0_r.
  - replace (i + S (length cs1))%nat with (S i + length cs1)%nat by lia.
    destruct c; simpl; by rewrite IH.
Qed.

Lemma raw_slots_replicate b i k :
  raw_slots (T := T) b i (replicate k Raw)
  = (λ j, slot_ptr b (i + j)) <$> seq 0 k.
Proof.
  revert i. induction k as [|k IH]; intros i; simpl; [done|].
  rewrite Nat.add_0_r. f_equal. rewrite IH, <- fmap_S_seq, <- list_fmap_compose.
  apply list_fmap_ext. intros _ j _. simpl. f_equal. lia.
Qed.

Lemma insert2_twice h bf bt (X Y X' Y' : list (slot T)) :
  bf ≠ bt →
  <[bt := Y']> (<[bf := X']> (<[bt := Y]> (<[bf := X]> h)))
  = <[bt := Y']> (<[bf := X']> h).
Proof.
  intros Hne. rewrite (insert_insert_ne _ bf bt X' Y) by done.
  by rewrite !insert_insert_eq.
Qed.

Lemma middle_lookup P (c : slot T) Q : (P ++ c :: Q) !! length P = Some c.
Proof. by apply list_lookup_middle. Qed.

Lemma middle_insert P (c c' : slot T) Q :
  <[length P := c']> (P ++ c :: Q) = P ++ c' :: Q.
Proof. by rewrite insert_app_r_alt, Nat.sub_diag by lia. Qed.

Lemma snoc_app P (c : slot T) Q : (P ++ [c]) ++ Q = P ++ c :: Q.
Proof. by rewrite <- app_assoc. Qed.

Lemma destroy_loop_spec o h n r b P cs Q :
  h !! b = Some (P ++ cs ++ Q) →
  destroy_loop (slot_ptr b (length P)) (length cs) (mkState o h n r)
  = Ok tt (mkState o (<[b := P ++ replicate (length cs) Raw ++ Q]> h) n
                   (r ++ raw_slots b (length P) cs)).
Proof.
  revert P h r. induction cs as [|c cs IH]; intros P h r Hb; simpl in Hb |- *.
  - unfold ret. by rewrite app_nil_r, insert_id.
  - destruct c as [|y].
    + erewrite bind_ok; [|by eapply destroy_at_raw; [|apply middle_lookup]].
      rewrite ptr_add_1.
      specialize (IH (P ++ [Raw]) h (r ++ [slot_ptr b (length P)])).
      rewrite length_app, Nat.add_1_r, !snoc_app in IH.
      rewrite IH by done. by rewrite <- app_assoc.
    + erewrite bind_ok; [|by eapply destroy_at_live; [|apply middle_lookup]].
      rewrite ptr_add_1, middle_insert.
      specialize (IH (P ++ [Raw]) (<[b:=P ++ Raw :: cs ++ Q]> h) r).
      rewrite length_app, Nat.add_1_r, !snoc_app in IH.
      rewrite IH by apply lookup_insert_eq. by rewrite insert_insert_eq.
Qed.

Lemma fill_loop_spec v o h n r b P k Q :
  h !! b = Some (P ++ replicate k Raw ++ Q) →
  match fill_loop v (slot_ptr b (length P)) k (mkState o h n r) with
  | Ok _ s' => s' = mkState o (<[b := P ++ replicate k (Live v) ++ Q]> h) n r
  | Throw s' => s' = mkState o h n r ∧ ∃ s1, init_throws s1 = true
  | Fault => False
  end.
Proof.
  revert P h. induction k as [|k IH]; intros P h Hb; simpl in Hb |- *.
  - unfold ret. by rewrite insert_id.
  - unfold bind at 1. unfold init_value at 1.
    destruct (init_throws _) eqn:Hthrow; [by eauto|].
    erewrite bind_ok; [|eapply construct_at_block; [done|]]; cycle 1.
    { rewrite length_app. simpl. lia. }
    rewrite ptr_add_1, middle_insert.
    specialize (IH (P ++ [Live v]) (<[b:=P ++ Live v :: replicate k Raw ++ Q]> h)).
    rewrite length_app, Nat.add_1_r, !snoc_app in IH.
    unfold unwinding.
    destruct (fill_loop _ _ _ _) as [[] s'|s'|].
    + rewrite IH by apply lookup_insert_eq. by rewrite insert_insert_eq.
    + destruct IH as [-> Hc]; [apply lookup_insert_eq|].
      erewrite destroy_at_live; [|apply lookup_insert_eq|apply middle_lookup].
      rewrite middle_insert, insert_insert_eq, insert_id by done. done.
    + apply IH, lookup_insert_eq.
Qed.

Lemma uninitialized_move_loop_spec o h n r bf bt F1 F2 T1 T2 xs cs :
  bf ≠ bt → length cs = length xs →
  h !! bf = Some (F1 ++ (Live <$> xs) ++ F2) →
  h !! bt = Some (T1 ++ cs ++ T2) →
  uninitialized_move_loop (slot_ptr bf (length F1)) (length xs)
                          (slot_ptr bt (length T1)) (mkState o h n r)
  = Ok tt (mkState o (<[bt := T1 ++ (Live <$> xs) ++ T2]>
                      (<[bf := F1 ++ (Live <$> (moved_from <$> xs)) ++ F2]> h)) n r).
Proof.
  intros Hne. revert cs F1 T1 h.
  induction xs as [|x xs IH]; intros cs F1 T1 h Hlen Hf Ht.
  - destruct cs; [|done]. simpl in *. unfold ret.
    by rewrite (insert_id h bf), insert_id.
  - destruct cs as [|c cs]; [done|]. simpl in *.
    erewrite bind_ok; [|by eapply move_out_block; [|apply middle_lookup]].
    rewrite middle_insert.
    erewrite bind_ok; [|eapply construct_at_block]; cycle 1.
    { rewrite lookup_insert_ne by done. exact Ht. }
    { rewrite length_app. simpl. lia. }
    rewrite !ptr_add_1, middle_insert.
    specialize (IH cs (F1 ++ [Live (moved_from x)]) (T1 ++ [Live x])).
    rewrite !length_app, !Nat.add_1_r, !snoc_app in IH.
    rewrite IH.
    + by rewrite insert2_twice.
    + lia.
    + rewrite lookup_insert_ne by done. apply lookup_insert_eq.
    + apply lookup_insert_eq.
Qed.

Lemma uninitialized_copy_loop_spec o h n r bf bt F1 F2 T1 T2 xs :
  bf ≠ bt →
  h !! bf = Some (F1 ++ (Live <$> xs) ++ F2) →
  h !! bt = Some (T1 ++ replicate (length xs) Raw ++ T2) →
  match uninitialized_copy_loop (slot_ptr bf (length F1)) (length xs)
                                (slot_ptr bt (length T1)) (mkState o h n r) with
  | Ok _ s' => s' = mkState o (<[bt := T1 ++ (Live <$> xs) ++ T2]> h) n r
  | Throw s' => s' = mkState o h n r ∧ ∃ s1 x, copy_throws s1 x = true
  | Fault => False
  end.
Proof.
  intros Hne. revert F1 T1 h.
  induction xs as [|x xs IH]; intros F1 T1 h Hf Ht.
  - simpl in *. unfold ret. by rewrite insert_id.
  - simpl in *.
    erewrite bind_ok; [|by eapply read_block; [|apply middle_lookup]].
    unfold bind at 1. unfold copy_value at 1.
    destruct (copy_throws _ x) eqn:Hthrow; [by eauto|].
    erewrite bind_ok; [|eapply construct_at_block; [exact Ht|]]; cycle 1.
    { rewrite length_app. simpl. lia. }
    rewrite !ptr_add_1, middle_insert.
    specialize (IH (F1 ++ [Live x]) (T1 ++ [Live x])
                   (<[bt:=T1 ++ Live x :: replicate (length xs) Raw ++ T2]> h)).
    rewrite !length_app, !Nat.add_1_r, !snoc_app in IH.
    unfold unwinding.
    destruct (uninitialized_copy_loop _ _ _ _) as [[] s'|s'|].
    + rewrite IH; [by rewrite insert_insert_eq| |apply lookup_insert_eq].
      by rewrite lookup_insert_ne.
    + destruct IH as [-> Hc]; [by rewrite lookup_insert_ne|apply lookup_insert_eq|].
      erewrite destroy_at_live; [|apply lookup_insert_eq|apply middle_lookup].
      rewrite middle_insert, insert_insert_eq, insert_id by done. done.
    + apply IH; [by rewrite lookup_insert_ne|apply lookup_insert_eq].
Qed.

Lemma middle_lookup2 P (c c' : slot T) Q :
  (P ++ c :: c' :: Q) !! S (length P) = Some c'.
Proof.
  rewrite <- (snoc_app P c (c' :: Q)).
  replace (S (length P)) with (length (P ++ [c])) by (rewrite length_app; simpl; lia).
  apply middle_lookup.
Qed.

Lemma middle_insert2 P (c c' d : slot T) Q :
  <[S (length P) := d]> (P ++ c :: c' :: Q) = P ++ c :: d :: Q.
Proof.
  rewrite <- (snoc_app P c (c' :: Q)), <- (snoc_app P c (d :: Q)).
  replace (S (length P)) with (length (P ++ [c])) by (rewrite length_app; simpl; lia).
  apply middle_insert.
Qed.

Lemma move_loop_spec o h n r b P y xs Q :
  h !! b = Some (P ++ Live y :: (Live <$> xs) ++ Q) →
  move_loop (slot_ptr b (S (length P))) (length xs)
            (slot_ptr b (length P)) (mkState o h n r)
  = Ok tt (mkState o (<[b := P ++ (Live <$> xs) ++ Live (vacated_back y xs) :: Q]> h) n r).
Proof.
  revert P y h. induction xs as [|x xs IH]; intros P y h Hb.
  - cbn [length move_loop vacated_back]. unfold ret. by rewrite insert_id.
  - rewrite fmap_cons in Hb. rewrite <- app_comm_cons in Hb.
    cbn [length move_loop vacated_back].
    erewrite bind_ok; [|by eapply move_out_block; [|apply middle_lookup2]].
    rewrite middle_insert2.
    erewrite bind_ok;
      [|eapply assign_at_block; [apply lookup_insert_eq|apply middle_lookup]].
    rewrite !ptr_add_1, middle_insert, insert_insert_eq.
    specialize (IH (P ++ [Live x]) (moved_from x)
                   (<[b:=P ++ Live x :: Live (moved_from x) :: (Live <$> xs) ++ Q]> h)).
    rewrite !length_app, !Nat.add_1_r, !snoc_app in IH.
    rewrite IH by apply lookup_insert_eq.
    by rewrite insert_insert_eq, fmap_cons, <- app_comm_cons.
Qed.

Lemma vacated_front_snoc y xs x :
  vacated_front y (xs ++ [x]) = vacated_front (moved_from x) xs.
Proof. by destruct xs. Qed.

Lemma move_backward_loop_spec o h n r b P y xs Q :
  h !! b = Some (P ++ (Live <$> xs) ++ Live y :: Q) →
  move_backward_loop (length xs) (slot_ptr b (length P + length xs))
                     (slot_ptr b (S (length P + length xs))) (mkState o h n r)
  = Ok tt (mkState o (<[b := P ++ Live (vacated_front y xs) :: (Live <$> xs) ++ Q]> h) n r).
Proof.
  revert y Q h. induction xs as [|x xs IH] using rev_ind; intros y Q h Hb.
  - simpl in *. unfold ret. by rewrite insert_id.
  - rewrite length_app, Nat.add_1_r. cbn [move_backward_loop].
    replace (length P + S (length xs))%nat
      with (S (length P + length xs)) by lia.
    rewrite !ptr_add_m1.
    assert (Hlen : (length P + length xs)%nat = length (P ++ (Live <$> xs))).
    { by rewrite length_app, length_fmap. }
    rewrite Hlen.
    assert (Hb' : h !! b = Some ((P ++ (Live <$> xs)) ++ Live x :: Live y :: Q)).
    { rewrite Hb, fmap_app. by rewrite <- !app_assoc. }
    erewrite bind_ok; [|by eapply move_out_block; [exact Hb'|apply middle_lookup]].
    rewrite middle_insert.
    erewrite bind_ok;
      [|eapply assign_at_block; [apply lookup_insert_eq|apply middle_lookup2]].
    rewrite middle_insert2, insert_insert_eq, <- Hlen.
    rewrite (IH (moved_from x) (Live x :: Q));
      [|by rewrite lookup_insert_eq, <- app_assoc].
    rewrite insert_insert_eq, vacated_front_snoc, fmap_app.
    by rewrite <- !app_assoc.
Qed.

End Loops.

(** ** Specifications of runs

    [runs m s Q X]: run from [s], the program [m] either ends normally in a
    result and state satisfying [Q], or throws in a state satisfying [X]; it
    does not fault. *)

Definition runs {T A} (m : M T A) (s : state T)
    (Q : A → state T → Prop) (X : state T → Prop) : Prop :=
  match m s with
  | Ok a s' => Q a s'
  | Throw s' => X s'
  | Fault => False
  end.

Section Runs.

Context {T : Type}.

Lemma runs_ret {A} (a : A) (s : state T) Q X : Q a s → runs (ret a) s Q X.
Proof. done. Qed.

Lemma runs_bind {A B} (m : M T A) (k : A → M T B) s Q X :
  runs m s (λ a s1, runs (k a) s1 Q X) X → runs (bind m k) s Q X.
Proof. unfold runs, bind. by destruct (m s). Qed.

Lemma runs_eq {A} (m : M T A) s a s' (Q : A → state T → Prop) X :
  m s = Ok a s' → Q a s' → runs m s Q X.
Proof. unfold runs. by intros ->. Qed.

Lemma runs_step {A B} (m : M T A) (k : A → M T B) s a s' Q X :
  m s = Ok a s' → runs (k a) s' Q X → runs (bind m k) s Q X.
Proof. intros Hm Hk. apply runs_bind. by eapply runs_eq. Qed.

Lemma runs_conseq {A} (m : M T A) s (Q Q' : A → state T → Prop) (X X' : state T → Prop) :
  runs m s Q X → (∀ a s', Q a s' → Q' a s') → (∀ s', X s' → X' s') →
  runs m s Q' X'.
Proof. unfold runs. destruct (m s); auto. Qed.

Lemma runs_unwinding {A} (m : M T A) c s Q X :
  runs m s Q (λ s1, runs c s1 (λ _ s2, X s2) X) → runs (unwinding m c) s Q X.
Proof.
  unfold runs, unwinding. destruct (m s) as [a s1|s1|]; [done| |done].
  by destruct (c s1).
Qed.

Lemma runs_step_or_throw {A B} (m : M T A) (k : A → M T B) s Q0 X0 Q X :
  runs m s Q0 X0 →
  (∀ a s', Q0 a s' → runs (k a) s' Q X) → (∀ s', X0 s' → X s') →
  runs (bind m k) s Q X.
Proof.
  intros Hm Hk Hx. apply runs_bind. eapply runs_conseq; [exact Hm|exact Hk|exact Hx].
Qed.

Lemma runs_ok_inv {A} (m : M T A) s Q X a s' :
  runs m s Q X → m s = Ok a s' → Q a s'.
Proof. unfold runs. intros H Hm. by rewrite Hm in H. Qed.

Lemma runs_throw_inv {A} (m : M T A) s Q X s' :
  runs m s Q X → m s = Throw s' → X s'.
Proof. unfold runs. intros H Hm. by rewrite Hm in H. Qed.

Lemma runs_no_fault {A} (m : M T A) s Q X : runs m s Q X → m s ≠ Fault.
Proof. unfold runs. intros H Hm. by rewrite Hm in H. Qed.

End Runs.

(** ** What a vector is in memory *)

Section Representation.

Context {T : Type} {E : Env T}.
Implicit Types (h : gmap nat (list (slot T))) (blk : list (slot T)).
Implicit Types (o : gmap nat Vector) (n : nat) (r : list ptr) (l : list T).
Implicit Types (v : Vector) (m : RawMemory).

(** The block of a vector with elements [l] and capacity [cap]: the live
    elements, then raw slots. *)
Definition block_of l (cap : Z) : list (slot T) :=
  (Live <$> l) ++ replicate (Z.to_nat cap - length l) Raw.

(** An arena and the block it holds: an empty arena has a null handle and no
    block, any other owns a block of [capacity_] slots. *)
Definition arena h m blk : Prop :=
  0 ≤ capacity_ m ∧ capacity_ m * sizeof_T ≤ PTRDIFF_MAX ∧
  length blk = Z.to_nat (capacity_ m) ∧
  if capacity_ m =? 0 then buffer_ m = nullptr
  else ∃ b, buffer_ m = slot_ptr b 0 ∧ h !! b = Some blk.

(** The invariant of [Vector]: [size_ ≤ capacity_], slots [[0, size_)] hold
    the elements [l], slots [[size_, capacity_)] are raw. *)
Definition rep h v l : Prop :=
  size_ v = Z.of_nat (length l) ∧
  size_ v ≤ capacity_ (data_ v) ∧
  arena h (data_ v) (block_of l (capacity_ (data_ v))).

(** Blocks from [n] on have not been handed out. *)
Definition unused_from h n : Prop := ∀ b, (n ≤ b)%nat → h !! b = None.

(** The heap once the block of [m] is released, or replaced by [blk]. *)
Definition release h m : gmap nat (list (slot T)) :=
  match base (buffer_ m) with
  | Some b => delete b h
  | None => h
  end.

Definition overwrite h m blk : gmap nat (list (slot T)) :=
  match base (buffer_ m) with
  | Some b => <[b := blk]> h
  | None => h
  end.

(** An allocation of [bytes] bytes is refused. *)
Definition refused (s : state T) (bytes : Z) : Prop :=
  PTRDIFF_MAX < bytes ∨ alloc_fails s bytes = true.

(** Some copy of an element throws. *)
Definition copy_may_throw : Prop := ∃ s x, copy_throws s x = true.

(** Some default construction of an element throws. *)
Definition init_may_throw : Prop := ∃ s, init_throws s = true.

Lemma length_block_of l cap :
  Z.of_nat (length l) ≤ cap → length (block_of l cap) = Z.to_nat cap.
Proof. intros. unfold block_of. rewrite length_app, length_fmap, length_replicate. lia. Qed.

Lemma block_of_full l : block_of l (Z.of_nat (length l)) = Live <$> l.
Proof.
  unfold block_of. rewrite Nat2Z.id, Nat.sub_diag. simpl. by rewrite app_nil_r.
Qed.

Lemma block_of_nil (cap : Z) : block_of [] cap = replicate (Z.to_nat cap) Raw.
Proof. unfold block_of. simpl. by rewrite Nat.sub_0_r. Qed.

Lemma block_of_room l cap :
  Z.of_nat (length l) < cap →
  block_of l cap = (Live <$> l) ++ Raw :: replicate (Z.to_nat cap - S (length l)) Raw.
Proof.
  intros. unfold block_of. f_equal. rewrite <- replicate_S. f_equal. lia.
Qed.

Lemma block_of_lookup_live l cap i x :
  l !! i = Some x → block_of l cap !! i = Some (Live x).
Proof.
  intros Hi. unfold block_of. rewrite lookup_app_l.
  - by rewrite list_lookup_fmap, Hi.
  - rewrite length_fmap. by eapply lookup_lt_Some.
Qed.

Lemma cap_le_max (c : Z) : 0 ≤ c → c * sizeof_T ≤ PTRDIFF_MAX → c ≤ PTRDIFF_MAX.
Proof. pose proof sizeof_T_pos. nia. Qed.

Lemma rep_size_nonneg h v l : rep h v l → 0 ≤ size_ v.
Proof. intros [-> _]. lia. Qed.

Lemma rep_empty h : rep h (mkVector RawMemory_default 0) [].
Proof.
  unfold rep, arena. simpl. repeat split; try done; unfold PTRDIFF_MAX; lia.
Qed.

(** The representation only looks at the block the vector owns. *)
Lemma rep_frame h h' v l :
  rep h v l →
  (∀ b, base (buffer_ (data_ v)) = Some b → h' !! b = h !! b) →
  rep h' v l.
Proof.
  intros (Hs & Hc & H0 & Hm & Hl & Hb) Hsame. repeat split; try done.
  destruct (capacity_ (data_ v) =? 0); [done|].
  destruct Hb as (b & Hbuf & Hblk). exists b. split; [done|].
  rewrite Hsame; [done|]. by rewrite Hbuf.
Qed.

Lemma rep_null h v l : rep h v l → capacity_ (data_ v) = 0 →
  buffer_ (data_ v) = nullptr ∧ l = [] ∧ size_ v = 0.
Proof.
  intros (Hs & Hc & H0 & Hm & Hl & Hb) Hz. rewrite Hz in *. simpl in Hb.
  split; [done|]. assert (length l = 0%nat) by lia.
  split; [by apply nil_length_inv | lia].
Qed.

Lemma rep_block h v l : rep h v l → capacity_ (data_ v) ≠ 0 →
  ∃ b, buffer_ (data_ v) = slot_ptr b 0 ∧
       h !! b = Some (block_of l (capacity_ (data_ v))).
Proof.
  intros (Hs & Hc & H0 & Hm & Hl & Hb) Hz.
  by rewrite (proj2 (Z.eqb_neq _ _) Hz) in Hb.
Qed.

End Representation.

(** ** Steps of the methods *)

Section Steps.

Context {T : Type} {E : Env T}.
Implicit Types (h : gmap nat (list (slot T))) (blk : list (slot T)).
Implicit Types (o : gmap nat Vector) (n : nat) (r : list ptr) (l xs : list T).
Implicit Types (v : Vector) (m : RawMemory).

Lemma load_eq o h n r this v :
  o !! this = Some v → load this (mkState o h n r) = Ok v (mkState o h n r).
Proof. unfold load. simpl. by intros ->. Qed.

Lemma store_eq o h n r this v :
  store this v (mkState o h n r) = Ok tt (mkState (<[this := v]> o) h n r).
Proof. reflexivity. Qed.

Lemma set_size_eq o h n r this v k :
  o !! this = Some v →
  set_size this k (mkState o h n r)
  = Ok tt (mkState (<[this := mkVector (data_ v) k]> o) h n r).
Proof. intros Hv. unfold set_size. by rewrite (bind_ok _ _ _ _ _ (load_eq o h n r this v Hv)). Qed.

Lemma RawMemory_plus_eq m k (s : state T) :
  k ≤ capacity_ m → RawMemory_plus m k s = Ok (ptr_add (buffer_ m) k) s.
Proof.
  intros Hk. unfold RawMemory_plus, bind, assert.
  by rewrite (proj2 (Z.leb_le _ _) Hk).
Qed.

Lemma RawMemory_at_eq m k (s : state T) :
  k < capacity_ m → RawMemory_at m k s = Ok (ptr_add (buffer_ m) k) s.
Proof.
  intros Hk. unfold RawMemory_at, bind, assert.
  by rewrite (proj2 (Z.ltb_lt _ _) Hk).
Qed.

Lemma ptr_add_0 b i : ptr_add (slot_ptr b i) 0 = slot_ptr b i.
Proof. unfold ptr_add, slot_ptr. simpl. f_equal. lia. Qed.

Lemma ptr_add_nat b (k : nat) : ptr_add (slot_ptr b 0) (Z.of_nat k) = slot_ptr b k.
Proof. by rewrite ptr_add_slot_ptr. Qed.

Lemma operator_delete_null (s : state T) : operator_delete nullptr s = Ok tt s.
Proof. reflexivity. Qed.

Lemma operator_delete_block o h n r b blk :
  h !! b = Some blk →
  operator_delete (slot_ptr b 0) (mkState o h n r) = Ok tt (mkState o (delete b h) n r).
Proof. intros Hb. unfold operator_delete. simpl. by rewrite Hb. Qed.

Lemma RawMemory_dtor_spec o h n r m blk :
  arena h m blk →
  RawMemory_dtor m (mkState o h n r) = Ok tt (mkState o (release h m) n r).
Proof.
  intros (H0 & Hm & Hl & Hb). unfold RawMemory_dtor, Deallocate, release.
  destruct (capacity_ m =? 0).
  - by rewrite Hb.
  - destruct Hb as (b & -> & Hblk). by erewrite operator_delete_block.
Qed.

Lemma wrap_small z : 0 ≤ z < size_t_modulus → wrap z = z.
Proof. intros. unfold wrap. by apply Z.mod_small. Qed.

Lemma PTRDIFF_MAX_lt : 2 * PTRDIFF_MAX < size_t_modulus.
Proof. unfold PTRDIFF_MAX, size_t_modulus. lia. Qed.

Lemma RawMemory_new_zero (s : state T) :
  RawMemory_new 0 s = Ok RawMemory_default s.
Proof. reflexivity. Qed.

Lemma RawMemory_new_spec o h n r c :
  0 < c → c * sizeof_T < size_t_modulus →
  runs (RawMemory_new c) (mkState o h n r)
    (λ m s', c * sizeof_T ≤ PTRDIFF_MAX ∧ m = mkRawMemory (slot_ptr n 0) c ∧
             s' = mkState o (<[n := replicate (Z.to_nat c) Raw]> h) (S n) r)
    (λ s', s' = mkState o h n r ∧ refused (mkState o h n r) (c * sizeof_T)).
Proof.
  intros Hc Hsmall. pose proof sizeof_T_pos as Hpos.
  unfold runs, RawMemory_new, bind, Allocate.
  rewrite (proj2 (Z.eqb_neq c 0)) by lia.
  unfold operator_new. rewrite wrap_small by nia.
  destruct (PTRDIFF_MAX <? c * sizeof_T) eqn:Hbig; simpl.
  { split; [done|]. left. by apply Z.ltb_lt. }
  destruct (alloc_fails _ _) eqn:Hfail; simpl.
  { split; [done|]. by right. }
  apply Z.ltb_ge in Hbig. rewrite Z.div_mul by lia. done.
Qed.

Lemma read_middle o h n r b i P Q x :
  h !! b = Some (P ++ Live x :: Q) → i = length P →
  read (slot_ptr b i) (mkState o h n r) = Ok x (mkState o h n r).
Proof. intros Hb ->. eapply read_block; [done|apply middle_lookup]. Qed.

Lemma construct_at_middle o h n r b i P c Q x :
  h !! b = Some (P ++ c :: Q) → i = length P →
  construct_at (slot_ptr b i) x (mkState o h n r)
  = Ok tt (mkState o (<[b := P ++ Live x :: Q]> h) n r).
Proof.
  intros Hb ->. erewrite construct_at_block; [|done|].
  - by rewrite middle_insert.
  - rewrite length_app. simpl. lia.
Qed.

Lemma assign_at_middle o h n r b i P y Q x :
  h !! b = Some (P ++ Live y :: Q) → i = length P →
  assign_at (slot_ptr b i) x (mkState o h n r)
  = Ok tt (mkState o (<[b := P ++ Live x :: Q]> h) n r).
Proof.
  intros Hb ->. erewrite assign_at_block; [|done|apply middle_lookup].
  by rewrite middle_insert.
Qed.

Lemma destroy_at_middle o h n r b i P y Q :
  h !! b = Some (P ++ Live y :: Q) → i = length P →
  destroy_at (slot_ptr b i) (mkState o h n r)
  = Ok tt (mkState o (<[b := P ++ Raw :: Q]> h) n r).
Proof.
  intros Hb ->. erewrite destroy_at_live; [|done|apply middle_lookup].
  by rewrite middle_insert.
Qed.

Lemma move_out_middle o h n r b i P Q x :
  h !! b = Some (P ++ Live x :: Q) → i = length P →
  move_out (slot_ptr b i) (mkState o h n r)
  = Ok x (mkState o (<[b := P ++ Live (moved_from x) :: Q]> h) n r).
Proof.
  intros Hb ->. erewrite move_out_block; [|done|apply middle_lookup].
  by rewrite middle_insert.
Qed.

(** How the elements leave the old block on relocation. *)
Definition relocated xs : list T :=
  if relocate_by_move then moved_from <$> xs else xs.

Lemma length_relocated xs : length (relocated xs) = length xs.
Proof. unfold relocated. destruct relocate_by_move; [apply length_fmap|done]. Qed.

Lemma UninitializedCopyMove_zero p q (s : state T) :
  UninitializedCopyMove p 0 q s = Ok tt s.
Proof. unfold UninitializedCopyMove. by destruct relocate_by_move. Qed.

Lemma UninitializedCopyMove_spec o h n r bf bt F1 F2 T1 T2 xs (k : Z) i j :
  k = Z.of_nat (length xs) → i = length F1 → j = length T1 → bf ≠ bt →
  h !! bf = Some (F1 ++ (Live <$> xs) ++ F2) →
  h !! bt = Some (T1 ++ replicate (length xs) Raw ++ T2) →
  runs (UninitializedCopyMove (slot_ptr bf i) k (slot_ptr bt j))
       (mkState o h n r)
       (λ _ s', s' = mkState o (<[bt := T1 ++ (Live <$> xs) ++ T2]>
                                (<[bf := F1 ++ (Live <$> relocated xs) ++ F2]> h)) n r)
       (λ s', s' = mkState o h n r ∧ copy_may_throw ∧ relocate_by_move = false).
Proof.
  intros -> -> -> Hne Hf Ht. unfold UninitializedCopyMove, relocated, runs.
  destruct relocate_by_move eqn:Hmode.
  - unfold uninitialized_move_n. rewrite Nat2Z.id.
    erewrite uninitialized_move_loop_spec; [done|done| |done|done].
    by rewrite length_replicate.
  - unfold uninitialized_copy_n. rewrite Nat2Z.id.
    pose proof (uninitialized_copy_loop_spec o h n r bf bt F1 F2 T1 T2 xs Hne Hf Ht) as H.
    destruct (uninitialized_copy_loop _ _ _ _) as [[] s'|s'|]; [| |done].
    + rewrite H. by rewrite (insert_id h bf).
    + destruct H as [-> ?]. done.
Qed.

Lemma destroy_n_zero p (s : state T) : destroy_n p 0 s = Ok tt s.
Proof. reflexivity. Qed.

Lemma destroy_n_spec o h n r b P cs Q (k : Z) i :
  k = Z.of_nat (length cs) → i = length P →
  h !! b = Some (P ++ cs ++ Q) →
  destroy_n (slot_ptr b i) k (mkState o h n r)
  = Ok tt (mkState o (<[b := P ++ replicate (length cs) Raw ++ Q]> h) n
                   (r ++ raw_slots b i cs)).
Proof.
  intros -> -> Hb. unfold destroy_n. rewrite Nat2Z.id. by apply destroy_loop_spec.
Qed.

(** [mk] yields [x] in state [s] and leaves the state as it is; if it
    throws instead, a copy threw, and the state is as it was as well. *)
Definition yields (mk : M T T) (s : state T) (x : T) : Prop :=
  runs mk s (λ y s', y = x ∧ s' = s) (λ s', s' = s ∧ copy_may_throw).

(** Evaluating the constructor arguments. *)
Lemma make_spec a (s : state T) :
  runs (make a) s (λ x s', x = arg_value a ∧ s' = s)
       (λ s', s' = s ∧ copy_may_throw).
Proof.
  unfold runs, make. destruct a as [x|x]; [|done].
  unfold copy_value. destruct (copy_throws s x) eqn:Hc; [|done].
  split; [done|]. by exists s, x.
Qed.

Lemma make_yields a (s : state T) : yields (make a) s (arg_value a).
Proof. apply make_spec. Qed.

(** Copying the element at [q]. *)
Lemma read_yields q (s : state T) x :
  read q s = Ok x s → yields (let! y := read q in copy_value y) s x.
Proof.
  intros Hq. unfold yields. eapply runs_step; [exact Hq|].
  unfold runs, copy_value. destruct (copy_throws s x) eqn:Hc; [|done].
  split; [done|]. by exists s, x.
Qed.

Lemma construct_with_middle mk x o h n r b i P c Q :
  h !! b = Some (P ++ c :: Q) → i = length P →
  yields mk (mkState o h n r) x →
  runs (let! y := mk in construct_at (slot_ptr b i) y) (mkState o h n r)
       (λ _ s', s' = mkState o (<[b := P ++ Live x :: Q]> h) n r)
       (λ s', s' = mkState o h n r ∧ copy_may_throw).
Proof.
  intros Hb Hi Hmk. apply runs_bind.
  eapply runs_conseq; [exact Hmk| |done].
  intros y s' [-> ->]. eapply runs_eq; [by eapply construct_at_middle|done].
Qed.

Lemma construct_from_middle o h n r b i P c Q a :
  h !! b = Some (P ++ c :: Q) → i = length P →
  runs (construct_from (slot_ptr b i) a) (mkState o h n r)
       (λ _ s', s' = mkState o (<[b := P ++ Live (arg_value a) :: Q]> h) n r)
       (λ s', s' = mkState o h n r ∧ copy_may_throw).
Proof.
  intros Hb Hi. unfold construct_from. apply runs_bind.
  eapply runs_conseq; [apply make_spec| |done].
  intros x s' [-> ->]. eapply runs_eq; [by eapply construct_at_middle|done].
Qed.

(** The pattern shared by every reallocation: a new arena [temp], a body
    that fills it from the old one, the swap, and the release of the old
    arena by the destructor of [temp]. *)
Lemma reallocation o h n r this v c (body : RawMemory → M T unit) blk blk_old blk_new r' z :
  0 < c → c * sizeof_T < size_t_modulus →
  unused_from h n → arena h (data_ v) blk →
  (c * sizeof_T ≤ PTRDIFF_MAX →
   runs (body (mkRawMemory (slot_ptr n 0) c))
        (mkState o (<[n := replicate (Z.to_nat c) Raw]> h) (S n) r)
        (λ _ s', s' = mkState o (<[n := blk_new]> (overwrite h (data_ v) blk_old)) (S n) r')
        (λ s', (∃ blk', s' = mkState o (<[n := blk']> h) (S n) r) ∧ copy_may_throw)) →
  runs (let! temp := RawMemory_new c in
        unwinding (body temp) (RawMemory_dtor temp);;
        let '(d, temp') := RawMemory_Swap (data_ v) temp in
        store this (mkVector d z);;
        RawMemory_dtor temp')
       (mkState o h n r)
       (λ _ s', c * sizeof_T ≤ PTRDIFF_MAX ∧
                s' = mkState (<[this := mkVector (mkRawMemory (slot_ptr n 0) c) z]> o)
                             (<[n := blk_new]> (release h (data_ v))) (S n) r')
       (λ s', objs s' = o ∧ heap s' = h ∧ raw_destroyed s' = r ∧
              (refused (mkState o h n r) (c * sizeof_T) ∨ copy_may_throw)).
Proof.
  intros Hc Hsmall Hfresh Har Hbody.
  apply runs_bind.
  eapply runs_conseq; [by apply RawMemory_new_spec| |].
  2:{ intros s' [-> Href]. simpl. auto. }
  intros m s' (Hle & -> & ->). specialize (Hbody Hle).
  apply runs_bind, runs_unwinding.
  eapply runs_conseq; [exact Hbody| |].
  - (* the body ended normally *)
    intros [] s' ->. unfold RawMemory_Swap. simpl.
    eapply runs_step; [apply store_eq|].
    destruct Har as (H0 & Hm & Hl & Hb).
    unfold runs, RawMemory_dtor, Deallocate, overwrite, release. simpl.
    destruct (capacity_ (data_ v) =? 0).
    + rewrite Hb. simpl. done.
    + destruct Hb as (b & -> & Hblk). simpl.
      assert (b ≠ n) as Hbn.
      { intros ->. rewrite Hfresh in Hblk; [done|lia]. }
      erewrite operator_delete_block; cycle 1.
      { rewrite lookup_insert_ne by done. apply lookup_insert_eq. }
      split; [done|]. f_equal.
      rewrite delete_insert_ne by done. by rewrite delete_insert_eq.
  - (* the body threw: [temp] is destroyed on the way out *)
    intros s' [[blk' ->] Hcopy].
    unfold RawMemory_dtor, Deallocate. simpl.
    unfold runs. erewrite operator_delete_block by apply lookup_insert_eq.
    simpl. rewrite delete_insert_eq, delete_id by (apply Hfresh; lia). auto.
Qed.

End Steps.

(** ** Appending: [PushBack] and [EmplaceBack] *)

(** Equalities of heaps are settled block by block. *)
Ltac heap_eq :=
  apply map_eq; intros ?;
  repeat (rewrite lookup_insert || rewrite lookup_delete);
  repeat case_decide; subst; try done; try congruence.

(** Projections of records that are given by their fields. *)
Ltac fields :=
  cbn [buffer_ capacity_ data_ size_ objs heap next raw_destroyed] in *.

(** The capacity after growth: [(size_ == 0) ? 1 : 2 * size_] when
    [size_ == capacity]. *)
Definition grown (v : Vector) : Z := Z.max 1 (2 * capacity_ (data_ v)).

Section Append.

Context {T : Type} {E : Env T}.
Implicit Types (h : gmap nat (list (slot T))) (blk : list (slot T)).
Implicit Types (o : gmap nat Vector) (n : nat) (r : list ptr) (l xs : list T).
Implicit Types (v : Vector) (m : RawMemory).

Lemma grown_eq h v l :
  rep h v l → size_ v = capacity_ (data_ v) →
  (if size_ v =? 0 then 1 else wrap (2 * size_ v)) = grown v
  ∧ 0 < grown v ∧ grown v * sizeof_T < size_t_modulus.
Proof.
  intros (Hs & Hc & H0 & Hm & Hl & Hb) Hfull. unfold grown.
  pose proof sizeof_T_pos. pose proof sizeof_T_max. pose proof PTRDIFF_MAX_lt.
  rewrite <- Hfull in *.
  destruct (size_ v =? 0) eqn:Hz.
  - apply Z.eqb_eq in Hz. rewrite Hz. simpl. repeat split; lia.
  - apply Z.eqb_neq in Hz.
    assert (size_ v ≤ PTRDIFF_MAX) by nia.
    rewrite wrap_small by lia. repeat split; nia.
Qed.

Lemma grow_body o h n r v l a :
  rep h v l → size_ v = capacity_ (data_ v) → unused_from h n →
  runs (let! p := RawMemory_plus (mkRawMemory (slot_ptr n 0) (grown v)) (size_ v) in
        construct_from p a;;
        UninitializedCopyMove (GetAddress (data_ v)) (size_ v)
                              (GetAddress (mkRawMemory (slot_ptr n 0) (grown v)));;
        destroy_n (GetAddress (data_ v)) (size_ v))
       (mkState o (<[n := replicate (Z.to_nat (grown v)) Raw]> h) (S n) r)
       (λ _ s', s' = mkState o
                  (<[n := block_of (l ++ [arg_value a]) (grown v)]>
                     (overwrite h (data_ v)
                                (replicate (Z.to_nat (capacity_ (data_ v))) Raw)))
                  (S n) r)
       (λ s', (∃ blk', s' = mkState o (<[n := blk']> h) (S n) r) ∧ copy_may_throw).
Proof.
  intros Hrep Hfull Hfresh.
  destruct (decide (capacity_ (data_ v) = 0)) as [Hz|Hnz].
  - (* the first growth, from the empty arena *)
    destruct (rep_null _ _ _ Hrep Hz) as (Hbuf & -> & Hsz).
    unfold grown, GetAddress, overwrite. rewrite Hz, Hsz, Hbuf. simpl.
    eapply runs_step; [by apply RawMemory_plus_eq|].
    fields. rewrite ptr_add_0. apply runs_bind.
    eapply runs_conseq.
    { eapply (construct_from_middle _ _ _ _ n 0%nat [] Raw []);
        [apply lookup_insert_eq|done]. }
    2:{ intros s' [-> Hc]. eauto. }
    intros [] s' ->. rewrite insert_insert_eq.
    eapply runs_step; [apply UninitializedCopyMove_zero|].
    eapply runs_eq; [apply destroy_n_zero|]. done.
  - (* doubling *)
    destruct (rep_block _ _ _ Hrep Hnz) as (b & Hbuf & Hblk).
    destruct Hrep as (Hs & Hc & H0 & Hm & Hl & _).
    rewrite <- Hfull, Hs in Hblk. rewrite block_of_full in Hblk.
    assert (b ≠ n) as Hbn.
    { intros ->. rewrite Hfresh in Hblk; [done|lia]. }
    assert (length l ≠ 0%nat) as Hl0 by lia.
    unfold grown, GetAddress, overwrite. rewrite <- Hfull, Hbuf, Hs. simpl.
    rewrite Z.max_r by lia.
    assert (Hsplit : replicate (Z.to_nat (2 * Z.of_nat (length l))) (@Raw T)
                     = replicate (length l) Raw ++ Raw :: replicate (length l - 1) Raw).
    { rewrite <- replicate_S, <- replicate_add. f_equal. lia. }
    rewrite Hsplit.
    eapply runs_step; [apply RawMemory_plus_eq; simpl; lia|].
    fields. rewrite ptr_add_nat. apply runs_bind.
    eapply runs_conseq.
    { eapply construct_from_middle;
        [apply lookup_insert_eq|by rewrite length_replicate]. }
    2:{ intros s' [-> Hcp]. eauto. }
    intros [] s' ->. rewrite insert_insert_eq.
    apply runs_bind.
    eapply runs_conseq.
    { eapply (UninitializedCopyMove_spec _ _ _ _ b n [] [] [] _ l); try done.
      - rewrite lookup_insert_ne by done. simpl. by rewrite app_nil_r.
      - apply lookup_insert_eq. }
    2:{ intros s' (-> & Hcp & _). eauto. }
    intros [] s' ->. simpl. rewrite app_nil_r.
    eapply runs_eq.
    { eapply (destroy_n_spec _ _ _ _ b [] (Live <$> relocated l) []); try done.
      - by rewrite length_fmap, length_relocated.
      - rewrite lookup_insert_ne by done. rewrite lookup_insert_eq.
        simpl. by rewrite app_nil_r. }
    rewrite raw_slots_live, app_nil_r. simpl. rewrite app_nil_r.
    rewrite length_fmap, length_relocated, Nat2Z.id.
    f_equal. unfold block_of.
    replace (Z.to_nat (2 * Z.of_nat (length l)) - length (l ++ [arg_value a]))%nat
      with (length l - 1)%nat by (rewrite length_app; simpl; lia).
    rewrite fmap_app, <- app_assoc. simpl.
    heap_eq.
Qed.

Lemma push_spec o h n r this v l a :
  o !! this = Some v → rep h v l → unused_from h n →
  runs (push this a) (mkState o h n r)
    (λ _ s',
       if size_ v =? capacity_ (data_ v)
       then grown v * sizeof_T ≤ PTRDIFF_MAX ∧
            s' = mkState
                   (<[this := mkVector (mkRawMemory (slot_ptr n 0) (grown v))
                                       (size_ v + 1)]> o)
                   (<[n := block_of (l ++ [arg_value a]) (grown v)]>
                      (release h (data_ v)))
                   (S n) r
       else s' = mkState
                   (<[this := mkVector (data_ v) (size_ v + 1)]> o)
                   (overwrite h (data_ v)
                      (block_of (l ++ [arg_value a]) (capacity_ (data_ v))))
                   n r)
    (λ s', objs s' = o ∧ heap s' = h ∧ raw_destroyed s' = r ∧
           ((size_ v = capacity_ (data_ v) ∧
             refused (mkState o h n r) (grown v * sizeof_T))
            ∨ copy_may_throw)).
Proof.
  intros Hv Hrep Hfresh. unfold push, RawMemory_Capacity.
  eapply runs_step; [by apply load_eq|].
  pose proof (rep_size_nonneg _ _ _ Hrep) as Hnn.
  assert (Hwrap : wrap (size_ v + 1) = size_ v + 1).
  { destruct Hrep as (Hs & Hc & H0 & Hm & Hl & _).
    pose proof (cap_le_max _ H0 Hm) as Hcap.
    apply wrap_small. unfold PTRDIFF_MAX, size_t_modulus in *. lia. }
  apply runs_bind.
  destruct (size_ v =? capacity_ (data_ v)) eqn:Hfull.
  - apply Z.eqb_eq in Hfull.
    destruct (grown_eq _ _ _ Hrep Hfull) as (-> & Hpos & Hsmall).
    eapply runs_conseq.
    { eapply (reallocation o h n r this v (grown v)); try done.
      - destruct Hrep as (_ & _ & Har). exact Har.
      - intros _. by apply grow_body. }
    + intros [] s' [Hle ->].
      eapply runs_step; [apply load_eq, lookup_insert_eq|].
      eapply runs_eq; [apply set_size_eq, lookup_insert_eq|].
      simpl. rewrite Hwrap, insert_insert_eq. done.
    + intros s' (? & ? & ? & [?|?]); auto 10.
  - apply Z.eqb_neq in Hfull.
    assert (Hnz : capacity_ (data_ v) ≠ 0).
    { destruct Hrep as (Hs & Hc & _). lia. }
    destruct (rep_block _ _ _ Hrep Hnz) as (b & Hbuf & Hblk).
    destruct Hrep as (Hs & Hc & H0 & Hm & Hl & _).
    rewrite block_of_room in Hblk by lia.
    eapply runs_step; [by apply RawMemory_plus_eq|].
    rewrite Hbuf, Hs, ptr_add_nat.
    eapply runs_conseq.
    { eapply construct_from_middle; [done|by rewrite length_fmap]. }
    2:{ intros s' [-> Hcp]. simpl. auto. }
    intros [] s' ->.
    eapply runs_step; [by apply load_eq|].
    eapply runs_eq; [by apply set_size_eq|].
    rewrite Hwrap, Hs. unfold overwrite. rewrite Hbuf. simpl.
    do 2 f_equal. unfold block_of.
    rewrite fmap_app, <- app_assoc, length_app. simpl.
    do 3 f_equal. lia.
Qed.

End Append.

(** ** [PopBack] and reading by index *)

Section PopAndRead.

Context {T : Type} {E : Env T}.
Implicit Types (h : gmap nat (list (slot T))) (blk : list (slot T)).
Implicit Types (o : gmap nat Vector) (n : nat) (r : list ptr) (l xs : list T).
Implicit Types (v : Vector) (m : RawMemory).

Lemma distance_eq b i j (s : state T) :
  (i ≤ j)%nat → distance (slot_ptr b i) (slot_ptr b j) s = Ok (j - i)%nat s.
Proof.
  intros Hij. unfold distance. rewrite ptr_diff_slot_ptr.
  rewrite (proj2 (Z.leb_le _ _)) by lia. do 2 f_equal. lia.
Qed.

Lemma destroy_spec o h n r b P cs Q i j :
  i = length P → j = (i + length cs)%nat →
  h !! b = Some (P ++ cs ++ Q) →
  destroy (slot_ptr b i) (slot_ptr b j) (mkState o h n r)
  = Ok tt (mkState o (<[b := P ++ replicate (length cs) Raw ++ Q]> h) n
                   (r ++ raw_slots b i cs)).
Proof.
  intros -> -> Hb. unfold destroy.
  erewrite bind_ok; [|apply distance_eq; lia].
  replace (length P + length cs - length P)%nat with (length cs) by lia.
  by apply destroy_loop_spec.
Qed.

Lemma rep_bounds h v l :
  rep h v l →
  0 ≤ size_ v ≤ capacity_ (data_ v) ∧ capacity_ (data_ v) ≤ PTRDIFF_MAX ∧
  size_ v = Z.of_nat (length l).
Proof.
  intros (Hs & Hc & H0 & Hm & _). pose proof (cap_le_max _ H0 Hm). lia.
Qed.

Lemma PopBack_spec o h n r this v l x :
  o !! this = Some v → rep h v (l ++ [x]) →
  PopBack this (mkState o h n r)
  = Ok tt (mkState (<[this := mkVector (data_ v) (size_ v - 1)]> o)
                   (overwrite h (data_ v) (block_of l (capacity_ (data_ v))))
                   n r).
Proof.
  intros Hv Hrep. unfold PopBack.
  destruct (rep_bounds _ _ _ Hrep) as (Hsz & Hcap & Hlen).
  rewrite length_app in Hlen. simpl in Hlen.
  assert (Hnz : capacity_ (data_ v) ≠ 0) by lia.
  destruct (rep_block _ _ _ Hrep Hnz) as (b & Hbuf & Hblk).
  erewrite bind_ok; [|by apply load_eq].
  erewrite bind_ok; [|apply RawMemory_plus_eq; lia].
  erewrite bind_ok; [|apply RawMemory_plus_eq; lia].
  rewrite Hbuf, Hlen.
  replace (Z.of_nat (length l + 1)) with (Z.of_nat (S (length l))) by lia.
  rewrite ptr_add_nat, ptr_add_m1.
  unfold block_of in Hblk. rewrite fmap_app, <- app_assoc in Hblk.
  erewrite bind_ok; cycle 1.
  { eapply (destroy_spec _ _ _ _ b (Live <$> l) [Live x]);
      [by rewrite length_fmap|simpl; lia|done]. }
  erewrite set_size_eq by done. simpl. rewrite app_nil_r.
  rewrite wrap_small by (unfold PTRDIFF_MAX, size_t_modulus in *; lia).
  unfold overwrite. rewrite Hbuf. simpl.
  do 3 f_equal. unfold block_of. f_equal.
  rewrite <- replicate_S. f_equal. rewrite length_app. simpl. lia.
Qed.

(** Reading [v[i]]: [operator[]] and a read through the reference. *)
Lemma index_read o h n r this v l i x :
  o !! this = Some v → rep h v l → l !! i = Some x →
  (let! p := index this (Z.of_nat i) in read p) (mkState o h n r)
  = Ok x (mkState o h n r).
Proof.
  intros Hv Hrep Hi.
  destruct (rep_bounds _ _ _ Hrep) as (Hsz & Hcap & Hlen).
  pose proof (lookup_lt_Some _ _ _ Hi) as Hlt.
  assert (Hnz : capacity_ (data_ v) ≠ 0) by lia.
  destruct (rep_block _ _ _ Hrep Hnz) as (b & Hbuf & Hblk).
  unfold index.
  erewrite bind_ok; [|erewrite bind_ok; [|by apply load_eq]]; cycle 1.
  { unfold bind at 1, assert. rewrite (proj2 (Z.ltb_lt _ _)) by lia.
    apply RawMemory_at_eq. lia. }
  rewrite Hbuf, ptr_add_nat.
  eapply read_block; [done|]. by apply block_of_lookup_live.
Qed.

Lemma Size_eq o h n r this v :
  o !! this = Some v → Size this (mkState o h n r) = Ok (size_ v) (mkState o h n r).
Proof. intros Hv. unfold Size. by erewrite bind_ok; [|by apply load_eq]. Qed.

Lemma Capacity_eq o h n r this v :
  o !! this = Some v →
  Capacity this (mkState o h n r) = Ok (capacity_ (data_ v)) (mkState o h n r).
Proof. intros Hv. unfold Capacity. by erewrite bind_ok; [|by apply load_eq]. Qed.

End PopAndRead.

(** ** The two kinds of outcome of an operation on one vector *)

Section Outcomes.

Context {T : Type} {E : Env T}.
Implicit Types (h : gmap nat (list (slot T))) (blk : list (slot T)).
Implicit Types (o : gmap nat Vector) (n : nat) (r : list ptr) (l xs : list T).
Implicit Types (v : Vector) (m : RawMemory).

(** In place: the elements change, the arena stays. *)
Lemma rep_in_place h v l l' :
  rep h v l → Z.of_nat (length l') ≤ capacity_ (data_ v) →
  rep (overwrite h (data_ v) (block_of l' (capacity_ (data_ v))))
      (mkVector (data_ v) (Z.of_nat (length l'))) l'.
Proof.
  intros (Hs & Hc & H0 & Hm & Hl & Hb) Hle. unfold rep, arena. fields.
  repeat split; try done; try lia.
  { by apply length_block_of. }
  unfold overwrite. destruct (capacity_ (data_ v) =? 0) eqn:Hz; [done|].
  destruct Hb as (b & Hbuf & Hblk). exists b. split; [done|].
  rewrite Hbuf. simpl. apply lookup_insert_eq.
Qed.

(** Reallocated: a new arena at the unused block [n]. *)
Lemma rep_reallocated h n c l' :
  0 < c → c * sizeof_T ≤ PTRDIFF_MAX → Z.of_nat (length l') ≤ c →
  rep (<[n := block_of l' c]> h)
      (mkVector (mkRawMemory (slot_ptr n 0) c) (Z.of_nat (length l'))) l'.
Proof.
  intros Hc Hm Hle. unfold rep, arena. fields.
  repeat split; try done; try lia.
  { by apply length_block_of. }
  rewrite (proj2 (Z.eqb_neq c 0)) by lia.
  exists n. split; [done|]. apply lookup_insert_eq.
Qed.

Lemma unused_overwrite h n m blk blk' :
  unused_from h n → arena h m blk → unused_from (overwrite h m blk') n.
Proof.
  intros Hf (H0 & Hm & Hl & Hb) b Hle. unfold overwrite.
  destruct (capacity_ m =? 0); [rewrite Hb; simpl; by apply Hf|].
  destruct Hb as (b' & -> & Hblk). simpl.
  rewrite lookup_insert_ne; [by apply Hf|].
  intros ->. rewrite Hf in Hblk; done.
Qed.

Lemma unused_reallocated h n m blk' :
  unused_from h n → unused_from (<[n := blk']> (release h m)) (S n).
Proof.
  intros Hf b Hle. rewrite lookup_insert_ne by lia.
  unfold release. destruct (base (buffer_ m)) as [b'|]; [|apply Hf; lia].
  rewrite lookup_delete. case_decide; [done|]. apply Hf. lia.
Qed.

End Outcomes.

(** ** One vector, seen as the list of its elements *)

(** An allocation was refused or a copy threw: the only reasons why an
    operation throws. *)
Definition failure {T} {E : Env T} : Prop :=
  (∃ s bytes, refused s bytes) ∨ copy_may_throw.

(** The vector at address [this] is well formed and holds the elements [l]. *)
Definition holds {T} {E : Env T} (s : state T) (this : nat) (l : list T) : Prop :=
  ∃ v, objs s !! this = Some v ∧ rep (heap s) v l ∧ unused_from (heap s) (next s).

Section Holds.

Context {T : Type} {E : Env T}.
Implicit Types (h : gmap nat (list (slot T))) (blk : list (slot T)).
Implicit Types (o : gmap nat Vector) (n : nat) (r : list ptr) (l xs : list T).
Implicit Types (v : Vector) (m : RawMemory).

Lemma holds_in_place o h n r r' this v l l' z :
  rep h v l → unused_from h n →
  Z.of_nat (length l') ≤ capacity_ (data_ v) → z = Z.of_nat (length l') →
  holds (mkState (<[this := mkVector (data_ v) z]> o)
                 (overwrite h (data_ v) (block_of l' (capacity_ (data_ v)))) n r')
        this l'.
Proof.
  intros Hrep Hf Hle ->. eexists. fields. split; [apply lookup_insert_eq|].
  split; [by eapply rep_in_place|].
  destruct Hrep as (_ & _ & Har). by eapply unused_overwrite.
Qed.

Lemma holds_reallocated o h n r' this m c l' z :
  unused_from h n → 0 < c → c * sizeof_T ≤ PTRDIFF_MAX →
  Z.of_nat (length l') ≤ c → z = Z.of_nat (length l') →
  holds (mkState (<[this := mkVector (mkRawMemory (slot_ptr n 0) c) z]> o)
                 (<[n := block_of l' c]> (release h m)) (S n) r')
        this l'.
Proof.
  intros Hf Hc Hm Hle ->. eexists. fields. split; [apply lookup_insert_eq|].
  split; [by apply rep_reallocated|by apply unused_reallocated].
Qed.

Lemma holds_Size s this l :
  holds s this l → Size this s = Ok (Z.of_nat (length l)) s.
Proof.
  destruct s as [o h n r]. intros (v & Hv & Hrep & _). fields.
  erewrite Size_eq by done. destruct Hrep as (-> & _). done.
Qed.

Lemma holds_read s this l i x :
  holds s this l → l !! i = Some x →
  (let! p := index this (Z.of_nat i) in read p) s = Ok x s.
Proof.
  destruct s as [o h n r]. intros (v & Hv & Hrep & _) Hi. fields.
  by eapply index_read.
Qed.

Lemma PopBack_holds s this l x :
  holds s this (l ++ [x]) →
  ∃ s', PopBack this s = Ok tt s' ∧ holds s' this l.
Proof.
  destruct s as [o h n r]. intros (v & Hv & Hrep & Hf). fields.
  eexists. split; [by eapply PopBack_spec|].
  destruct (rep_bounds _ _ _ Hrep) as (Hsz & Hcap & Hlen).
  rewrite length_app in Hlen. simpl in Hlen.
  eapply holds_in_place; try done; lia.
Qed.

End Holds.

(** ** Sequences of [PushBack] and [PopBack] *)

Inductive stack_op (T : Type) : Type :=
| Push (x : T)
| PushRvalue (x : T)
| Pop.
Arguments Push {T} x.
Arguments PushRvalue {T} x.
Arguments Pop {T}.

Definition run_stack_op {T} {E : Env T} (this : nat) (op : stack_op T) : M T unit :=
  match op with
  | Push x => PushBack this x
  | PushRvalue x => PushBack_rvalue this x
  | Pop => PopBack this
  end.

Fixpoint run_stack_ops {T} {E : Env T} (this : nat) (ops : list (stack_op T)) : M T unit :=
  match ops with
  | [] => ret tt
  | op :: ops' => run_stack_op this op;; run_stack_ops this ops'
  end.

(** The same sequence on a list, last in first out; [None] when [Pop] meets
    the empty list. *)
Fixpoint stack_model {T} (l : list T) (ops : list (stack_op T)) : option (list T) :=
  match ops with
  | [] => Some l
  | Push x :: ops' => stack_model (l ++ [x]) ops'
  | PushRvalue x :: ops' => stack_model (l ++ [x]) ops'
  | Pop :: ops' =>
      match l with
      | [] => None
      | _ :: _ => stack_model (removelast l) ops'
      end
  end.

Fixpoint pushes {T} (ops : list (stack_op T)) : Z :=
  match ops with
  | [] => 0
  | Pop :: ops' => pushes ops'
  | _ :: ops' => 1 + pushes ops'
  end.

Fixpoint pops {T} (ops : list (stack_op T)) : Z :=
  match ops with
  | [] => 0
  | Pop :: ops' => 1 + pops ops'
  | _ :: ops' => pops ops'
  end.

Section Stack.

Context {T : Type} {E : Env T}.

Lemma stack_model_length (ops : list (stack_op T)) l l' :
  stack_model l ops = Some l' →
  Z.of_nat (length l') = Z.of_nat (length l) + pushes ops - pops ops.
Proof.
  revert l. induction ops as [|[x|x|] ops IH]; intros l Hm; simpl in *.
  - injection Hm as <-. lia.
  - apply IH in Hm. rewrite length_app in Hm. simpl in Hm. lia.
  - apply IH in Hm. rewrite length_app in Hm. simpl in Hm. lia.
  - destruct l as [|y l]; [done|]. apply IH in Hm.
    assert (length (removelast (y :: l)) = length l) as Hl.
    { pose proof (f_equal length (app_removelast_last y (l := y :: l) ltac:(done))) as Hx.
      rewrite length_app in Hx. simpl in Hx. simpl. lia. }
    rewrite Hl in Hm. simpl. lia.
Qed.

End Stack.

(** ** [Emplace] and [Erase] *)

(** Equalities between pointers into one block. *)
Ltac ptr_eq := unfold ptr_add, slot_ptr; simpl; f_equal; lia.

Section Shifts.

Context {T : Type} {E : Env T}.
Implicit Types (h : gmap nat (list (slot T))) (blk P Q : list (slot T)).
Implicit Types (o : gmap nat Vector) (n : nat) (r : list ptr) (l xs : list T).
Implicit Types (v : Vector) (m : RawMemory).

Lemma pdiff_eq b i j (s : state T) :
  pdiff (slot_ptr b i) (slot_ptr b j) s = Ok (Z.of_nat i - Z.of_nat j) s.
Proof. unfold pdiff. by rewrite ptr_diff_slot_ptr. Qed.

Lemma std_move_spec o h n r b P y xs Q i j k :
  i = length P → j = S i → k = (j + length xs)%nat →
  h !! b = Some (P ++ Live y :: (Live <$> xs) ++ Q) →
  std_move (slot_ptr b j) (slot_ptr b k) (slot_ptr b i) (mkState o h n r)
  = Ok tt (mkState o (<[b := P ++ (Live <$> xs) ++ Live (vacated_back y xs) :: Q]> h) n r).
Proof.
  intros -> -> -> Hb. unfold std_move.
  erewrite bind_ok; [|apply distance_eq; lia].
  replace (S (length P) + length xs - S (length P))%nat with (length xs) by lia.
  by apply move_loop_spec.
Qed.

Lemma move_backward_spec o h n r b P y xs Q i j k :
  i = length P → j = (i + length xs)%nat → k = S j →
  h !! b = Some (P ++ (Live <$> xs) ++ Live y :: Q) →
  move_backward (slot_ptr b i) (slot_ptr b j) (slot_ptr b k) (mkState o h n r)
  = Ok tt (mkState o (<[b := P ++ Live (vacated_front y xs) :: (Live <$> xs) ++ Q]> h) n r).
Proof.
  intros -> -> -> Hb. unfold move_backward.
  erewrite bind_ok; [|apply distance_eq; lia].
  replace (length P + length xs - length P)%nat with (length xs) by lia.
  by apply move_backward_loop_spec.
Qed.

Lemma begin_eq o h n r this v :
  o !! this = Some v →
  begin_ this (mkState o h n r) = Ok (buffer_ (data_ v)) (mkState o h n r).
Proof. intros Hv. unfold begin_. by erewrite bind_ok; [|by apply load_eq]. Qed.

Lemma end_eq o h n r this v :
  o !! this = Some v → size_ v ≤ capacity_ (data_ v) →
  end_ this (mkState o h n r)
  = Ok (ptr_add (buffer_ (data_ v)) (size_ v)) (mkState o h n r).
Proof.
  intros Hv Hle. unfold end_. erewrite bind_ok; [|by apply load_eq].
  by apply RawMemory_plus_eq.
Qed.

(** The list after an insertion at index [i]. *)
Definition inserted l (i : nat) (x : T) : list T := take i l ++ x :: drop i l.

Lemma length_inserted l i x : length (inserted l i x) = S (length l).
Proof.
  unfold inserted. rewrite length_app. simpl.
  rewrite length_take, length_drop. lia.
Qed.

Lemma Erase_spec o h n r this v l1 y l2 b :
  o !! this = Some v → rep h v (l1 ++ y :: l2) →
  buffer_ (data_ v) = slot_ptr b 0 →
  Erase this (slot_ptr b (length l1)) (mkState o h n r)
  = Ok (slot_ptr b (length l1))
       (mkState (<[this := mkVector (data_ v) (size_ v - 1)]> o)
                (overwrite h (data_ v) (block_of (l1 ++ l2) (capacity_ (data_ v))))
                n r).
Proof.
  intros Hv Hrep Hbuf. unfold Erase, cbegin.
  destruct (rep_bounds _ _ _ Hrep) as (Hsz & Hcap & Hlen).
  rewrite length_app in Hlen. simpl in Hlen.
  assert (Hnz : capacity_ (data_ v) ≠ 0) by lia.
  destruct (rep_block _ _ _ Hrep Hnz) as (b' & Hbuf' & Hblk).
  rewrite Hbuf in Hbuf'. injection Hbuf' as <-.
  unfold block_of in Hblk. rewrite fmap_app, <- app_assoc in Hblk.
  rewrite fmap_cons, <- app_comm_cons in Hblk.
  erewrite bind_ok; [|by apply begin_eq].
  erewrite bind_ok; [|by apply begin_eq].
  rewrite Hbuf.
  erewrite bind_ok; [|apply pdiff_eq].
  erewrite bind_ok; [|apply end_eq; [done|lia]].
  erewrite bind_ok; [|by apply begin_eq].
  erewrite bind_ok; [|by apply begin_eq].
  rewrite Hbuf.
  erewrite bind_ok; [|apply pdiff_eq].
  replace (ptr_add (slot_ptr b 0) (Z.of_nat (length l1) - Z.of_nat 0 + 1))
    with (slot_ptr b (S (length l1))) by ptr_eq.
  replace (ptr_add (slot_ptr b 0) (size_ v))
    with (slot_ptr b (S (length l1) + length l2)) by (rewrite Hlen; ptr_eq).
  replace (ptr_add (slot_ptr b 0) (Z.of_nat (length l1) - Z.of_nat 0))
    with (slot_ptr b (length l1)) by ptr_eq.
  erewrite bind_ok; cycle 1.
  { eapply (std_move_spec _ _ _ _ b (Live <$> l1) y l2); try done.
    by rewrite length_fmap. }
  erewrite bind_ok; [|by apply load_eq].
  erewrite bind_ok; [|by apply set_size_eq].
  rewrite wrap_small by (unfold PTRDIFF_MAX, size_t_modulus in *; lia).
  erewrite bind_ok; [|apply end_eq; [apply lookup_insert_eq|simpl; lia]].
  fields. rewrite Hbuf.
  replace (ptr_add (slot_ptr b 0) (size_ v - 1))
    with (slot_ptr b (length l1 + length l2)) by (rewrite Hlen; ptr_eq).
  erewrite bind_ok; cycle 1.
  { eapply (destroy_at_middle _ _ _ _ b _ ((Live <$> l1) ++ (Live <$> l2))).
    - rewrite lookup_insert_eq. by rewrite <- app_assoc.
    - by rewrite length_app, !length_fmap. }
  erewrite bind_ok; [|apply load_eq, lookup_insert_eq].
  erewrite bind_ok; [|apply begin_eq, lookup_insert_eq].
  fields. rewrite Hbuf.
  erewrite bind_ok; [|apply pdiff_eq].
  rewrite wrap_small by (unfold PTRDIFF_MAX, size_t_modulus in *; lia).
  erewrite RawMemory_plus_eq by (simpl; lia).
  fields. rewrite Hbuf.
  replace (ptr_add (slot_ptr b 0) (Z.of_nat (length l1) - Z.of_nat 0))
    with (slot_ptr b (length l1)) by ptr_eq.
  unfold overwrite. rewrite Hbuf. simpl.
  rewrite insert_insert_eq. do 3 f_equal.
  unfold block_of. rewrite fmap_app, <- !app_assoc. do 2 f_equal.
  rewrite <- replicate_S. f_equal. rewrite !length_app. simpl. lia.
Qed.

Lemma split_at_last l i :
  (i < length l)%nat → ∃ mid z, l = take i l ++ mid ++ [z].
Proof.
  intros Hi. destruct (exists_last (l := drop i l)) as (mid & z & Hd).
  { intros Hnil. apply (f_equal length) in Hnil.
    rewrite length_drop in Hnil. simpl in Hnil. lia. }
  exists mid, z. by rewrite <- Hd, take_drop.
Qed.

(** The block of the vector when [Emplace] builds the new element on the
    path without reallocation (lines 162-168).  For an insertion at the end
    it is untouched.  Before an element [y], the elements from the position
    on are one slot up and the slot at the position holds what the move left
    of [y]: the block of the list with [moved_from y] inserted, and one more
    live slot than [size_]. *)
Definition before_construction l (i : nat) (cap : Z) : list (slot T) :=
  match l !! i with
  | Some y => block_of (inserted l i (moved_from y)) cap
  | None => block_of l cap
  end.

Lemma vacated_front_hd (z : T) mid :
  vacated_front (moved_from z) mid = moved_from (hd z mid).
Proof. by destruct mid. Qed.

Lemma before_construction_middle l1 mid z (cap : Z) :
  before_construction (l1 ++ mid ++ [z]) (length l1) cap
  = (Live <$> l1) ++ Live (moved_from (hd z mid)) :: (Live <$> mid)
    ++ Live z :: replicate (Z.to_nat cap - S (length (l1 ++ mid ++ [z]))) Raw.
Proof.
  unfold before_construction.
  assert ((l1 ++ mid ++ [z]) !! length l1 = Some (hd z mid)) as ->.
  { rewrite lookup_app_r, Nat.sub_diag by lia. by destruct mid. }
  unfold inserted, block_of.
  rewrite take_app_length, drop_app_length.
  rewrite !fmap_app, fmap_cons, !fmap_app, <- !app_assoc. simpl.
  rewrite <- !app_assoc. simpl. do 5 f_equal.
  repeat (rewrite ?length_app; simpl). lia.
Qed.

Lemma before_construction_end l (cap : Z) :
  before_construction l (length l) cap = block_of l cap.
Proof. unfold before_construction. by rewrite lookup_ge_None_2. Qed.

Lemma Emplace_from_in_place mk x o h n r this v l i b :
  o !! this = Some v → rep h v l →
  size_ v < capacity_ (data_ v) → (i ≤ length l)%nat →
  buffer_ (data_ v) = slot_ptr b 0 →
  yields mk (mkState o (<[b := before_construction l i (capacity_ (data_ v))]> h) n r) x →
  runs (Emplace_from mk this (slot_ptr b i)) (mkState o h n r)
    (λ p s',
       p = slot_ptr b i ∧
       s' = mkState (<[this := mkVector (data_ v) (size_ v + 1)]> o)
                    (overwrite h (data_ v)
                       (block_of (inserted l i x) (capacity_ (data_ v))))
                    n r)
    (λ s', s' = mkState o (<[b := before_construction l i (capacity_ (data_ v))]> h) n r ∧
           copy_may_throw).
Proof.
  intros Hv Hrep Hroom Hi Hbuf Hmk.
  unfold Emplace_from, cbegin, cend, RawMemory_Capacity.
  destruct (rep_bounds _ _ _ Hrep) as (Hsz & Hcap & Hlen).
  assert (Hnz : capacity_ (data_ v) ≠ 0) by lia.
  destruct (rep_block _ _ _ Hrep Hnz) as (b' & Hbuf' & Hblk).
  rewrite Hbuf in Hbuf'. injection Hbuf' as <-.
  eapply runs_step; [by apply begin_eq|]. rewrite Hbuf.
  eapply runs_step; [apply pdiff_eq|]. cbv zeta.
  replace (wrap (Z.of_nat i - Z.of_nat 0)) with (Z.of_nat i); cycle 1.
  { rewrite wrap_small; unfold PTRDIFF_MAX, size_t_modulus in *; lia. }
  eapply runs_step; [by apply load_eq|].
  rewrite (proj2 (Z.gtb_lt _ _)) by lia.
  assert (Htail : ∀ blk,
    runs (let! v0 := load this in
          set_size this (wrap (size_ v0 + 1));;
          let! b0 := begin_ this in ret (ptr_add b0 (Z.of_nat i)))
      (mkState o (<[b := blk]> h) n r)
      (λ p s', p = slot_ptr b i ∧
               s' = mkState (<[this := mkVector (data_ v) (size_ v + 1)]> o)
                            (<[b := blk]> h) n r)
      (λ _, False)).
  { intros blk.
    eapply runs_step; [by apply load_eq|].
    eapply runs_step; [by apply set_size_eq|].
    rewrite wrap_small by (unfold PTRDIFF_MAX, size_t_modulus in *; lia).
    eapply runs_step; [apply begin_eq, lookup_insert_eq|].
    fields. rewrite Hbuf, ptr_add_nat. by apply runs_ret. }
  apply runs_bind.
  destruct (Z.of_nat i =? size_ v) eqn:Hend.
  - (* at the end: the new element is built in the raw slot *)
    apply Z.eqb_eq in Hend. assert (i = length l) as -> by lia.
    eapply runs_step; [by apply begin_eq|]. rewrite Hbuf, ptr_add_nat.
    rewrite before_construction_end, (insert_id h b) in Hmk by done.
    rewrite before_construction_end, (insert_id h b) by done.
    rewrite block_of_room in Hblk by lia.
    eapply runs_conseq.
    { eapply construct_with_middle; [done|by rewrite length_fmap|exact Hmk]. }
    2:{ done. }
    intros [] s' ->.
    eapply runs_conseq; [apply Htail| |done].
    intros p s' [-> ->]. split; [done|]. f_equal.
    unfold overwrite. rewrite Hbuf. simpl. f_equal.
    unfold inserted. rewrite firstn_all, drop_all.
    unfold block_of. rewrite fmap_app, <- app_assoc, length_app. simpl.
    do 3 f_equal. lia.
  - (* in the middle: the tail moves one slot to the right *)
    apply Z.eqb_neq in Hend. assert (i < length l)%nat as Hlt by lia.
    destruct (split_at_last l i Hlt) as (mid & z & Hl).
    set (l1 := take i l) in *.
    assert (length l1 = i) as Hl1 by (unfold l1; rewrite length_take; lia).
    assert (length l = (i + length mid + 1)%nat) as Hll.
    { rewrite Hl at 1. rewrite !length_app, Hl1. simpl. lia. }
    assert (inserted l i x = l1 ++ x :: mid ++ [z]) as Hins.
    { unfold inserted. fold l1. f_equal. f_equal.
      rewrite Hl at 1. by rewrite drop_app_length' by done. }
    rewrite block_of_room in Hblk by lia.
    rewrite Hl in Hblk at 1. rewrite !fmap_app, <- !app_assoc in Hblk.
    simpl in Hblk.
    eapply runs_step; [apply end_eq; [done|lia]|].
    eapply runs_step; [apply end_eq; [done|lia]|].
    rewrite Hbuf.
    replace (ptr_add (ptr_add (slot_ptr b 0) (size_ v)) (-1))
      with (slot_ptr b (i + length mid)) by (rewrite Hlen, Hll; ptr_eq).
    replace (ptr_add (slot_ptr b 0) (size_ v))
      with (slot_ptr b (S (i + length mid))) by (rewrite Hlen, Hll; ptr_eq).
    eapply runs_step.
    { eapply (move_out_middle _ _ _ _ b _ ((Live <$> l1) ++ (Live <$> mid))).
      - rewrite Hblk. by rewrite <- app_assoc.
      - by rewrite length_app, !length_fmap, Hl1. }
    eapply runs_step.
    { eapply (construct_at_middle _ _ _ _ b _
                (((Live <$> l1) ++ (Live <$> mid)) ++ [Live (moved_from z)])).
      - by rewrite lookup_insert_eq, snoc_app.
      - rewrite !length_app, !length_fmap, Hl1. simpl. lia. }
    rewrite insert_insert_eq.
    eapply runs_step; [by apply begin_eq|].
    eapply runs_step; [apply end_eq; [done|lia]|].
    eapply runs_step; [apply end_eq; [done|lia]|].
    rewrite Hbuf, ptr_add_nat.
    replace (ptr_add (ptr_add (slot_ptr b 0) (size_ v)) (-1))
      with (slot_ptr b (i + length mid)) by (rewrite Hlen, Hll; ptr_eq).
    replace (ptr_add (slot_ptr b 0) (size_ v))
      with (slot_ptr b (S (i + length mid))) by (rewrite Hlen, Hll; ptr_eq).
    eapply runs_step.
    { eapply (move_backward_spec _ _ _ _ b (Live <$> l1) (moved_from z) mid);
        [by rewrite length_fmap|done|done|].
      rewrite lookup_insert_eq. by rewrite <- !app_assoc. }
    rewrite insert_insert_eq.
    assert (Hview : before_construction l i (capacity_ (data_ v))
                    = (Live <$> l1) ++ Live (vacated_front (moved_from z) mid)
                        :: (Live <$> mid)
                        ++ Live z :: replicate (Z.to_nat (capacity_ (data_ v)) - S (length l)) Raw).
    { rewrite Hl at 1. rewrite <- Hl1 at 1.
      rewrite before_construction_middle, vacated_front_hd. by rewrite <- Hl. }
    rewrite Hview in Hmk. rewrite Hview.
    apply runs_bind.
    eapply runs_conseq; [exact Hmk| |done].
    intros x' s' [-> ->].
    eapply runs_step; [apply RawMemory_at_eq; lia|].
    rewrite Hbuf, ptr_add_nat.
    eapply runs_eq.
    { eapply assign_at_middle; [apply lookup_insert_eq|by rewrite length_fmap]. }
    rewrite insert_insert_eq.
    eapply runs_conseq; [apply Htail| |done].
    intros p s' [-> ->]. split; [done|]. f_equal.
    unfold overwrite. rewrite Hbuf. simpl. f_equal.
    rewrite Hins. unfold block_of.
    rewrite !fmap_app, <- !app_assoc. simpl. rewrite fmap_app, <- app_assoc.
    simpl. do 4 f_equal.
    rewrite !length_app. simpl. rewrite length_app. simpl.
    f_equal. lia.
Qed.

Lemma Emplace_in_place o h n r this v l i a b :
  o !! this = Some v → rep h v l →
  size_ v < capacity_ (data_ v) → (i ≤ length l)%nat →
  buffer_ (data_ v) = slot_ptr b 0 →
  runs (Emplace this (slot_ptr b i) a) (mkState o h n r)
    (λ p s',
       p = slot_ptr b i ∧
       s' = mkState (<[this := mkVector (data_ v) (size_ v + 1)]> o)
                    (overwrite h (data_ v)
                       (block_of (inserted l i (arg_value a)) (capacity_ (data_ v))))
                    n r)
    (λ _, copy_may_throw).
Proof.
  intros Hv Hrep Hroom Hi Hbuf. unfold Emplace.
  eapply runs_conseq;
    [by eapply Emplace_from_in_place; [..|apply make_yields]|done|by intros s' [_ ?]].
Qed.

Lemma emplace_body mk x o h n r this v l i :
  o !! this = Some v → rep h v l → size_ v = capacity_ (data_ v) →
  unused_from h n → (i ≤ length l)%nat →
  yields mk (mkState o (<[n := replicate (Z.to_nat (grown v)) Raw]> h) (S n) r) x →
  runs (let! p := RawMemory_plus (mkRawMemory (slot_ptr n 0) (grown v)) (Z.of_nat i) in
        (let! y := mk in construct_at p y);;
        let! b := begin_ this in
        UninitializedCopyMove b (Z.of_nat i)
                              (GetAddress (mkRawMemory (slot_ptr n 0) (grown v)));;
        let! b := begin_ this in
        let! ce := cend this in
        let! k := pdiff ce (ptr_add (buffer_ (data_ v)) (Z.of_nat i)) in
        let! q := RawMemory_plus (mkRawMemory (slot_ptr n 0) (grown v)) (Z.of_nat i) in
        UninitializedCopyMove (ptr_add b (Z.of_nat i)) (wrap k) (ptr_add q 1);;
        destroy_n (GetAddress (data_ v)) (size_ v))
       (mkState o (<[n := replicate (Z.to_nat (grown v)) Raw]> h) (S n) r)
       (λ _ s', s' = mkState o
                  (<[n := block_of (inserted l i x) (grown v)]>
                     (overwrite h (data_ v)
                                (replicate (Z.to_nat (capacity_ (data_ v))) Raw)))
                  (S n) r)
       (λ s', (∃ blk', s' = mkState o (<[n := blk']> h) (S n) r) ∧ copy_may_throw).
Proof.
  intros Hv Hrep Hfull Hfresh Hi Hmk. unfold cend, GetAddress.
  destruct (rep_bounds _ _ _ Hrep) as (Hsz & Hcap & Hlen).
  destruct (decide (capacity_ (data_ v) = 0)) as [Hz|Hnz].
  - (* the first growth, from the empty arena *)
    destruct (rep_null _ _ _ Hrep Hz) as (Hbuf & -> & Hsz0).
    assert (i = 0%nat) as -> by (simpl in Hi; lia).
    unfold grown in Hmk. rewrite Hz in Hmk. simpl in Hmk.
    unfold grown, overwrite. rewrite Hz, Hsz0, Hbuf. simpl.
    eapply runs_step; [by apply RawMemory_plus_eq|].
    fields. rewrite ptr_add_0. apply runs_bind.
    eapply runs_conseq.
    { eapply (construct_with_middle mk x _ _ _ _ n 0%nat [] Raw []);
        [apply lookup_insert_eq|done|exact Hmk]. }
    2:{ intros s' [-> Hc]. eauto. }
    intros [] s' ->. rewrite insert_insert_eq.
    eapply runs_step; [by apply begin_eq|].
    eapply runs_step; [apply UninitializedCopyMove_zero|].
    eapply runs_step; [by apply begin_eq|].
    eapply runs_step; [apply end_eq; [done|lia]|].
    rewrite Hbuf, Hsz0.
    eapply runs_step; [reflexivity|].
    eapply runs_step; [by apply RawMemory_plus_eq|].
    eapply runs_step; [apply UninitializedCopyMove_zero|].
    eapply runs_eq; [apply destroy_n_zero|]. done.
  - (* doubling *)
    destruct (rep_block _ _ _ Hrep Hnz) as (b & Hbuf & Hblk).
    rewrite <- Hfull, Hlen in Hblk. rewrite block_of_full in Hblk.
    assert (b ≠ n) as Hbn.
    { intros ->. rewrite Hfresh in Hblk; [done|lia]. }
    set (l1 := take i l). set (l2 := drop i l).
    assert (l = l1 ++ l2) as Hl by (unfold l1, l2; by rewrite take_drop).
    assert (length l1 = i) as Hl1 by (unfold l1; rewrite length_take; lia).
    assert (length l = (i + length l2)%nat) as Hll.
    { rewrite Hl at 1. rewrite length_app. lia. }
    rewrite Hl in Hblk at 1. rewrite fmap_app in Hblk.
    unfold grown in Hmk. rewrite <- Hfull, Hlen, Z.max_r in Hmk by lia.
    unfold grown, overwrite. rewrite <- Hfull, Hbuf, Hlen. simpl.
    rewrite Z.max_r by lia.
    assert (Hsplit : replicate (Z.to_nat (2 * Z.of_nat (length l))) (@Raw T)
                     = replicate i Raw ++ Raw
                         :: replicate (length l2) Raw ++ replicate (length l - 1) Raw).
    { rewrite <- replicate_add, <- replicate_S, <- replicate_add. f_equal. lia. }
    rewrite Hsplit. rewrite Hsplit in Hmk.
    eapply runs_step; [apply RawMemory_plus_eq; simpl; lia|].
    fields. rewrite ptr_add_nat. apply runs_bind.
    eapply runs_conseq.
    { eapply construct_with_middle;
        [apply lookup_insert_eq|by rewrite length_replicate|exact Hmk]. }
    2:{ intros s' [-> Hcp]. eauto. }
    intros [] s' ->. rewrite insert_insert_eq.
    eapply runs_step; [by apply begin_eq|]. rewrite Hbuf.
    apply runs_bind.
    eapply runs_conseq.
    { eapply (UninitializedCopyMove_spec _ _ _ _ b n [] (Live <$> l2) []
                (Live (x) :: replicate (length l2) Raw
                   ++ replicate (length l - 1) Raw) l1); try done.
      - by rewrite Hl1.
      - by rewrite lookup_insert_ne.
      - rewrite lookup_insert_eq, Hl1. done. }
    2:{ intros s' (-> & Hcp & _). eauto. }
    intros [] s' ->. simpl.
    eapply runs_step; [apply begin_eq; done|].
    eapply runs_step; [apply end_eq; [done|lia]|].
    rewrite Hbuf, Hlen, !ptr_add_nat.
    eapply runs_step; [apply pdiff_eq|].
    eapply runs_step; [apply RawMemory_plus_eq; simpl; lia|].
    fields. rewrite ptr_add_nat, ptr_add_1.
    replace (wrap (Z.of_nat (length l) - Z.of_nat i)) with (Z.of_nat (length l2));
      cycle 1.
    { rewrite wrap_small; unfold PTRDIFF_MAX, size_t_modulus in *; lia. }
    apply runs_bind.
    eapply runs_conseq.
    { eapply (UninitializedCopyMove_spec _ _ _ _ b n (Live <$> relocated l1) []
                ((Live <$> l1) ++ [Live (x)])
                (replicate (length l - 1) Raw) l2); try done.
      - by rewrite length_fmap, length_relocated.
      - rewrite length_app, length_fmap, Hl1. simpl. lia.
      - rewrite lookup_insert_ne by done. rewrite lookup_insert_eq.
        by rewrite app_nil_r.
      - rewrite lookup_insert_eq. by rewrite <- app_assoc. }
    2:{ intros s' (-> & Hcp & Hmode). split; [|done].
        unfold relocated. rewrite Hmode. simpl.
        eexists. f_equal. rewrite (insert_insert_ne _ b n) by done.
        rewrite insert_insert_eq. by rewrite (insert_id h b). }
    intros [] s' ->. rewrite insert2_twice by done.
    eapply runs_eq.
    { eapply (destroy_n_spec _ _ _ _ b []
                ((Live <$> relocated l1) ++ (Live <$> relocated l2)) []); try done.
      - rewrite length_app, !length_fmap, !length_relocated. lia.
      - rewrite lookup_insert_ne by done. rewrite lookup_insert_eq.
        simpl. by rewrite !app_nil_r. }
    rewrite <- fmap_app, raw_slots_live, app_nil_r. simpl. rewrite app_nil_r.
    rewrite length_fmap, length_app, !length_relocated, Hl1, <- Hll, Nat2Z.id.
    assert (Hnew : block_of (inserted l i (x)) (2 * Z.of_nat (length l))
                   = ((Live <$> l1) ++ [Live (x)]) ++ (Live <$> l2)
                       ++ replicate (length l - 1) Raw).
    { unfold block_of, inserted. fold l1 l2.
      rewrite fmap_app, fmap_cons, <- !app_assoc. simpl. do 3 f_equal.
      rewrite length_app. simpl. f_equal. lia. }
    rewrite Hnew. clearbody l1 l2. f_equal; [heap_eq|apply app_nil_r].
Qed.

Lemma Emplace_from_reallocates mk x o h n r this v l i :
  o !! this = Some v → rep h v l → size_ v = capacity_ (data_ v) →
  unused_from h n → (i ≤ length l)%nat →
  yields mk (mkState o (<[n := replicate (Z.to_nat (grown v)) Raw]> h) (S n) r) x →
  runs (Emplace_from mk this (ptr_add (buffer_ (data_ v)) (Z.of_nat i))) (mkState o h n r)
    (λ p s',
       grown v * sizeof_T ≤ PTRDIFF_MAX ∧ p = slot_ptr n i ∧
       s' = mkState
              (<[this := mkVector (mkRawMemory (slot_ptr n 0) (grown v))
                                  (size_ v + 1)]> o)
              (<[n := block_of (inserted l i (x)) (grown v)]>
                 (release h (data_ v)))
              (S n) r)
    (λ s', objs s' = o ∧ heap s' = h ∧ raw_destroyed s' = r ∧
           (refused (mkState o h n r) (grown v * sizeof_T) ∨ copy_may_throw)).
Proof.
  intros Hv Hrep Hfull Hfresh Hi Hmk. unfold Emplace_from, cbegin, RawMemory_Capacity.
  destruct (rep_bounds _ _ _ Hrep) as (Hsz & Hcap & Hlen).
  eapply runs_step; [by apply begin_eq|].
  eapply runs_step.
  { unfold pdiff, ptr_diff, ptr_add. simpl. by rewrite decide_True. }
  cbv zeta.
  replace (wrap (off (buffer_ (data_ v)) + Z.of_nat i - off (buffer_ (data_ v))))
    with (Z.of_nat i); cycle 1.
  { rewrite wrap_small; unfold PTRDIFF_MAX, size_t_modulus in *; lia. }
  eapply runs_step; [by apply load_eq|].
  replace (capacity_ (data_ v) >? size_ v) with false; cycle 1.
  { symmetry. rewrite Z.gtb_ltb. apply Z.ltb_ge. lia. }
  destruct (grown_eq _ _ _ Hrep Hfull) as (-> & Hpos & Hsmall).
  apply runs_bind.
  eapply runs_conseq.
  { eapply (reallocation o h n r this v (grown v)); try done.
    - destruct Hrep as (_ & _ & Har). exact Har.
    - intros _. by apply emplace_body. }
  2:{ by intros s' ?. }
  intros [] s' [Hle ->].
  eapply runs_step; [apply load_eq, lookup_insert_eq|].
  eapply runs_step; [apply set_size_eq, lookup_insert_eq|].
  eapply runs_step; [apply begin_eq, lookup_insert_eq|].
  fields. rewrite ptr_add_nat, insert_insert_eq.
  rewrite wrap_small by (unfold PTRDIFF_MAX, size_t_modulus in *; lia).
  by apply runs_ret.
Qed.

Lemma Emplace_reallocates o h n r this v l i a :
  o !! this = Some v → rep h v l → size_ v = capacity_ (data_ v) →
  unused_from h n → (i ≤ length l)%nat →
  runs (Emplace this (ptr_add (buffer_ (data_ v)) (Z.of_nat i)) a) (mkState o h n r)
    (λ p s',
       grown v * sizeof_T ≤ PTRDIFF_MAX ∧ p = slot_ptr n i ∧
       s' = mkState
              (<[this := mkVector (mkRawMemory (slot_ptr n 0) (grown v))
                                  (size_ v + 1)]> o)
              (<[n := block_of (inserted l i (arg_value a)) (grown v)]>
                 (release h (data_ v)))
              (S n) r)
    (λ s', objs s' = o ∧ heap s' = h ∧ raw_destroyed s' = r ∧
           (refused (mkState o h n r) (grown v * sizeof_T) ∨ copy_may_throw)).
Proof.
  intros Hv Hrep Hfull Hfresh Hi. unfold Emplace.
  by eapply Emplace_from_reallocates; [..|apply make_yields].
Qed.

End Shifts.

(** ** [Emplace], [Erase] and [EmplaceBack] on the list of elements *)

Section Positions.

Context {T : Type} {E : Env T}.
Implicit Types (h : gmap nat (list (slot T))) (blk P Q : list (slot T)).
Implicit Types (o : gmap nat Vector) (n : nat) (r : list ptr) (l xs : list T).
Implicit Types (v : Vector) (m : RawMemory).

(** The vector at [this] is well formed, holds [l], and its arena is block
    [b] with capacity [c]. *)
Definition holds_at (s : state T) (this : nat) l (b : nat) (c : Z) : Prop :=
  ∃ v, objs s !! this = Some v ∧ rep (heap s) v l ∧ unused_from (heap s) (next s) ∧
       buffer_ (data_ v) = slot_ptr b 0 ∧ capacity_ (data_ v) = c.

Lemma holds_at_holds s this l b c : holds_at s this l b c → holds s this l.
Proof. intros (v & ? & ? & ? & _). by exists v. Qed.

Lemma holds_at_read s this l b c i x :
  holds_at s this l b c → l !! i = Some x → read (slot_ptr b i) s = Ok x s.
Proof.
  destruct s as [o h n r]. intros (v & Hv & Hrep & _ & Hbuf & Hc) Hi. fields.
  destruct (rep_bounds _ _ _ Hrep) as (Hsz & Hcap & Hlen).
  pose proof (lookup_lt_Some _ _ _ Hi) as Hlt.
  assert (Hnz : capacity_ (data_ v) ≠ 0) by lia.
  destruct (rep_block _ _ _ Hrep Hnz) as (b' & Hbuf' & Hblk).
  rewrite Hbuf in Hbuf'. injection Hbuf' as <-.
  eapply read_block; [done|]. by apply block_of_lookup_live.
Qed.

Lemma holds_at_Capacity s this l b c :
  holds_at s this l b c → Capacity this s = Ok c s.
Proof.
  destruct s as [o h n r]. intros (v & Hv & _ & _ & _ & <-). fields.
  by apply Capacity_eq.
Qed.

(** The block of the arena has exactly [c] slots. *)
Lemma holds_at_block s this l b c :
  holds_at s this l b c → 0 < c →
  ∃ blk, heap s !! b = Some blk ∧ Z.of_nat (length blk) = c.
Proof.
  intros (v & Hv & Hrep & _ & Hbuf & <-) Hc.
  destruct (rep_bounds _ _ _ Hrep) as (Hsz & Hcap & Hlen).
  destruct (rep_block _ _ _ Hrep ltac:(lia)) as (b' & Hbuf' & Hblk).
  rewrite Hbuf in Hbuf'. injection Hbuf' as <-.
  eexists. split; [done|]. rewrite length_block_of; lia.
Qed.

Lemma push_holds_at o h n r this v l a :
  o !! this = Some v → rep h v l → unused_from h n →
  runs (push this a) (mkState o h n r)
    (λ _ s', ∃ b,
       holds_at s' this (l ++ [arg_value a]) b
                (if size_ v =? capacity_ (data_ v) then grown v
                 else capacity_ (data_ v)))
    (λ s', objs s' = o ∧ heap s' = h ∧ raw_destroyed s' = r ∧ failure).
Proof.
  intros Hv Hrep Hf.
  destruct (rep_bounds _ _ _ Hrep) as (Hsz & Hcap & Hlen).
  eapply runs_conseq; [by apply push_spec| |].
  - intros [] s' Hs'.
    destruct (size_ v =? capacity_ (data_ v)) eqn:Hfull.
    + destruct Hs' as [Hle ->]. apply Z.eqb_eq in Hfull.
      exists n. eexists. fields. split; [apply lookup_insert_eq|].
      replace (size_ v + 1) with (Z.of_nat (length (l ++ [arg_value a])))
        by (rewrite length_app; simpl; lia).
      split; [|split; [by apply unused_reallocated|done]].
      apply rep_reallocated; [unfold grown; lia|done|].
      rewrite length_app. simpl. unfold grown. lia.
    + subst s'. apply Z.eqb_neq in Hfull.
      destruct (rep_block _ _ _ Hrep ltac:(lia)) as (b & Hbuf & Hblk).
      exists b. eexists. fields. split; [apply lookup_insert_eq|].
      replace (size_ v + 1) with (Z.of_nat (length (l ++ [arg_value a])))
        by (rewrite length_app; simpl; lia).
      split; [|split; [|done]].
      * eapply rep_in_place; [done|]. rewrite length_app. simpl. lia.
      * destruct Hrep as (_ & _ & Har). by eapply unused_overwrite.
  - intros s' (? & ? & ? & [[_ Href]|Hc]); repeat split; try done;
      [left|right]; eauto.
Qed.

Lemma Emplace_holds_at o h n r this v l i a :
  o !! this = Some v → rep h v l → unused_from h n → (i ≤ length l)%nat →
  runs (Emplace this (ptr_add (buffer_ (data_ v)) (Z.of_nat i)) a) (mkState o h n r)
    (λ p s', ∃ b,
       p = slot_ptr b i ∧
       holds_at s' this (inserted l i (arg_value a)) b
                (if size_ v =? capacity_ (data_ v) then grown v
                 else capacity_ (data_ v)))
    (λ s', failure ∧
           (size_ v = capacity_ (data_ v) →
            objs s' = o ∧ heap s' = h ∧ raw_destroyed s' = r)).
Proof.
  intros Hv Hrep Hf Hi.
  destruct (rep_bounds _ _ _ Hrep) as (Hsz & Hcap & Hlen).
  destruct (size_ v =? capacity_ (data_ v)) eqn:Hfull.
  - apply Z.eqb_eq in Hfull.
    eapply runs_conseq; [by apply Emplace_reallocates| |].
    + intros p s' (Hle & -> & ->). exists n. split; [done|].
      eexists. fields. split; [apply lookup_insert_eq|].
      replace (size_ v + 1) with (Z.of_nat (length (inserted l i (arg_value a))))
        by (rewrite length_inserted; lia).
      split; [|split; [by apply unused_reallocated|done]].
      apply rep_reallocated; [unfold grown; lia|done|].
      rewrite length_inserted. unfold grown. lia.
    + intros s' (? & ? & ? & [Href|Hc]); (split; [|done]); [left|right]; eauto.
  - apply Z.eqb_neq in Hfull.
    destruct (rep_block _ _ _ Hrep ltac:(lia)) as (b & Hbuf & Hblk).
    rewrite Hbuf, ptr_add_nat.
    eapply runs_conseq; [eapply Emplace_in_place; try done; lia| |].
    + intros p s' (-> & ->). exists b. split; [done|].
      eexists. fields. split; [apply lookup_insert_eq|].
      replace (size_ v + 1) with (Z.of_nat (length (inserted l i (arg_value a))))
        by (rewrite length_inserted; lia).
      split; [|split; [|done]].
      * eapply rep_in_place; [done|]. rewrite length_inserted. lia.
      * destruct Hrep as (_ & _ & Har). by eapply unused_overwrite.
    + intros s' Hc. split; [by right|]. intros; lia.
Qed.

Lemma Erase_holds_at s this l1 y l2 b c :
  holds_at s this (l1 ++ y :: l2) b c →
  ∃ s', Erase this (slot_ptr b (length l1)) s = Ok (slot_ptr b (length l1)) s'
        ∧ holds_at s' this (l1 ++ l2) b c.
Proof.
  destruct s as [o h n r]. intros (v & Hv & Hrep & Hf & Hbuf & Hc). fields.
  destruct (rep_bounds _ _ _ Hrep) as (Hsz & Hcap & Hlen).
  rewrite length_app in Hlen. simpl in Hlen.
  eexists. split; [by eapply Erase_spec|].
  eexists. fields. split; [apply lookup_insert_eq|].
  replace (size_ v - 1) with (Z.of_nat (length (l1 ++ l2)))
    by (rewrite length_app; lia).
  split; [|split; [|done]].
  - eapply rep_in_place; [done|]. rewrite length_app. lia.
  - destruct Hrep as (_ & _ & Har). by eapply unused_overwrite.
Qed.

Lemma inserted_lookup l i x : (i ≤ length l)%nat → inserted l i x !! i = Some x.
Proof.
  intros Hi. unfold inserted. apply list_lookup_middle.
  rewrite length_take. lia.
Qed.

Lemma EmplaceBack_holds_at o h n r this v l a :
  o !! this = Some v → rep h v l → unused_from h n →
  runs (EmplaceBack this a) (mkState o h n r)
    (λ p s', ∃ b,
       p = slot_ptr b (length l) ∧
       holds_at s' this (l ++ [arg_value a]) b
                (if size_ v =? capacity_ (data_ v) then grown v
                 else capacity_ (data_ v)))
    (λ s', objs s' = o ∧ heap s' = h ∧ raw_destroyed s' = r ∧ failure).
Proof.
  intros Hv Hrep Hf. unfold EmplaceBack. apply runs_bind.
  eapply runs_conseq; [by apply push_holds_at| |done].
  intros [] [o' h' n' r'] Hpost. cbv beta in Hpost. destruct Hpost as (b & Hh).
  pose proof Hh as (v' & Hv' & Hrep' & _ & Hbuf & _). fields.
  destruct (rep_bounds _ _ _ Hrep') as (Hsz & Hcap & Hlen).
  rewrite length_app in Hlen. simpl in Hlen.
  eapply runs_step; [by apply load_eq|].
  eapply runs_step; [apply RawMemory_plus_eq; lia|].
  apply runs_ret. exists b. split; [|done]. rewrite Hbuf, Hlen. ptr_eq.
Qed.

Lemma holds_at_begin s this l b c :
  holds_at s this l b c → begin_ this s = Ok (slot_ptr b 0) s.
Proof.
  destruct s as [o h n r]. intros (v & Hv & _ & _ & <- & _). fields.
  by apply begin_eq.
Qed.

Lemma holds_at_end s this l b c :
  holds_at s this l b c → end_ this s = Ok (slot_ptr b (length l)) s.
Proof.
  destruct s as [o h n r]. intros (v & Hv & Hrep & _ & Hbuf & _). fields.
  destruct (rep_bounds _ _ _ Hrep) as (Hsz & Hcap & Hlen).
  erewrite end_eq; [|done|lia]. rewrite Hbuf, Hlen. by rewrite ptr_add_nat.
Qed.

(** Freshness of a given heap is checked by computation. *)
Lemma unused_check h n :
  bool_decide (map_Forall (λ b _, (b < n)%nat) h) = true → unused_from h n.
Proof.
  intros Hall%bool_decide_eq_true b Hb.
  destruct (h !! b) eqn:Hl; [|done]. apply Hall in Hl. lia.
Qed.

End Positions.

(** ** [Reserve] *)

(** The addresses of the slots [[size_, capacity)] of a vector: the raw part
    of its arena. *)
Definition raw_part (v : Vector) : list ptr :=
  match base (buffer_ (data_ v)) with
  | Some b =>
      (λ j, slot_ptr b (Z.to_nat (size_ v) + j))
        <$> seq 0 (Z.to_nat (capacity_ (data_ v) - size_ v))
  | None => []
  end.

Section Reserve.

Context {T : Type} {E : Env T}.
Implicit Types (h : gmap nat (list (slot T))) (blk P Q : list (slot T)).
Implicit Types (o : gmap nat Vector) (n : nat) (r : list ptr) (l xs : list T).
Implicit Types (v : Vector) (m : RawMemory).

Lemma reserve_body o h n r v l c :
  rep h v l → capacity_ (data_ v) < c → unused_from h n →
  runs (UninitializedCopyMove (GetAddress (data_ v)) (size_ v)
                              (GetAddress (mkRawMemory (slot_ptr n 0) c));;
        destroy_n (GetAddress (data_ v)) (RawMemory_Capacity (data_ v)))
       (mkState o (<[n := replicate (Z.to_nat c) Raw]> h) (S n) r)
       (λ _ s', s' = mkState o
                  (<[n := block_of l c]>
                     (overwrite h (data_ v)
                                (replicate (Z.to_nat (capacity_ (data_ v))) Raw)))
                  (S n) (r ++ raw_part v))
       (λ s', (∃ blk', s' = mkState o (<[n := blk']> h) (S n) r) ∧ copy_may_throw).
Proof.
  intros Hrep Hc Hfresh. unfold GetAddress, RawMemory_Capacity, raw_part.
  destruct (rep_bounds _ _ _ Hrep) as (Hsz & Hcap & Hlen).
  destruct (decide (capacity_ (data_ v) = 0)) as [Hz|Hnz].
  - destruct (rep_null _ _ _ Hrep Hz) as (Hbuf & -> & Hsz0).
    unfold overwrite. rewrite Hz, Hsz0, Hbuf. simpl.
    eapply runs_step; [apply UninitializedCopyMove_zero|].
    eapply runs_eq; [apply destroy_n_zero|].
    by rewrite block_of_nil, app_nil_r.
  - destruct (rep_block _ _ _ Hrep Hnz) as (b & Hbuf & Hblk).
    assert (b ≠ n) as Hbn.
    { intros ->. rewrite Hfresh in Hblk; [done|lia]. }
    unfold block_of in Hblk. unfold overwrite. rewrite Hbuf. simpl.
    set (k := (Z.to_nat (capacity_ (data_ v)) - length l)%nat) in *.
    assert (Hsplit : replicate (Z.to_nat c) (@Raw T)
                     = replicate (length l) Raw ++ replicate (Z.to_nat c - length l) Raw).
    { rewrite <- replicate_add. f_equal. lia. }
    rewrite Hsplit, Hlen.
    apply runs_bind.
    eapply runs_conseq.
    { eapply (UninitializedCopyMove_spec _ _ _ _ b n [] (replicate k Raw) []
                (replicate (Z.to_nat c - length l) Raw) l); try done.
      - by rewrite lookup_insert_ne.
      - apply lookup_insert_eq. }
    2:{ intros s' (-> & Hcp & _). eauto. }
    intros [] s' ->. simpl.
    eapply runs_eq.
    { eapply (destroy_n_spec _ _ _ _ b []
                ((Live <$> relocated l) ++ replicate k Raw) []); try done.
      - rewrite length_app, length_fmap, length_relocated, length_replicate. lia.
      - rewrite lookup_insert_ne by done. rewrite lookup_insert_eq.
        simpl. by rewrite app_nil_r. }
    rewrite raw_slots_app, raw_slots_live, raw_slots_replicate.
    rewrite length_fmap, length_relocated. simpl. rewrite app_nil_r.
    rewrite length_app, length_fmap, length_relocated, length_replicate.
    rewrite Nat2Z.id.
    replace (length l + k)%nat with (Z.to_nat (capacity_ (data_ v))) by lia.
    replace (Z.to_nat (capacity_ (data_ v) - Z.of_nat (length l))) with k by lia.
    clearbody k. f_equal. unfold block_of. heap_eq.
Qed.

Lemma Reserve_spec o h n r this v l c :
  o !! this = Some v → rep h v l → unused_from h n →
  capacity_ (data_ v) < c → c * sizeof_T < size_t_modulus →
  runs (Reserve this c) (mkState o h n r)
    (λ _ s',
       c * sizeof_T ≤ PTRDIFF_MAX ∧
       s' = mkState (<[this := mkVector (mkRawMemory (slot_ptr n 0) c) (size_ v)]> o)
                    (<[n := block_of l c]> (release h (data_ v)))
                    (S n) (r ++ raw_part v))
    (λ s', objs s' = o ∧ heap s' = h ∧ raw_destroyed s' = r ∧
           (refused (mkState o h n r) (c * sizeof_T) ∨ copy_may_throw)).
Proof.
  intros Hv Hrep Hf Hc Hsmall. unfold Reserve.
  destruct (rep_bounds _ _ _ Hrep) as (Hsz & Hcap & Hlen).
  eapply runs_step; [by apply load_eq|].
  unfold RawMemory_Capacity at 1. rewrite (proj2 (Z.gtb_lt _ _)) by lia.
  eapply (reallocation o h n r this v c); try done; try lia.
  - destruct Hrep as (_ & _ & Har). exact Har.
  - intros _. by apply reserve_body.
Qed.

Lemma Reserve_enough o h n r this v c :
  o !! this = Some v → c ≤ capacity_ (data_ v) →
  Reserve this c (mkState o h n r) = Ok tt (mkState o h n r).
Proof.
  intros Hv Hc. unfold Reserve. erewrite bind_ok; [|by apply load_eq].
  unfold RawMemory_Capacity. replace (c >? capacity_ (data_ v)) with false; [done|].
  symmetry. rewrite Z.gtb_ltb. apply Z.ltb_ge. lia.
Qed.

End Reserve.

(** ** Construction, [Swap] and assignment *)

Section Assign.

Context {T : Type} {E : Env T}.
Implicit Types (h : gmap nat (list (slot T))) (blk P Q : list (slot T)).
Implicit Types (o : gmap nat Vector) (n : nat) (r : list ptr) (l xs : list T).
Implicit Types (v w : Vector) (m : RawMemory).

Lemma Swap_spec o h n r this other v w :
  o !! this = Some v → o !! other = Some w →
  Swap this other (mkState o h n r)
  = Ok tt (mkState (<[other := v]> (<[this := w]> o)) h n r).
Proof.
  intros Hv Hw. unfold Swap, RawMemory_Swap.
  erewrite bind_ok; [|by apply load_eq].
  erewrite bind_ok; [|by apply load_eq].
  cbv zeta iota beta.
  erewrite bind_ok; [|apply store_eq].
  erewrite bind_ok; [|apply store_eq].
  destruct v as [[bv cv] sv], w as [[bw cw] sw]. fields.
  destruct (decide (this = other)) as [->|Hne].
  - rewrite Hv in Hw. injection Hw as <- <- <-.
    erewrite bind_ok; [|apply load_eq, lookup_insert_eq].
    erewrite bind_ok; [|apply load_eq, lookup_insert_eq].
    erewrite bind_ok; [|apply store_eq].
    rewrite store_eq. fields. by rewrite !insert_insert_eq.
  - erewrite bind_ok; cycle 1.
    { apply load_eq. rewrite lookup_insert_ne by done. apply lookup_insert_eq. }
    erewrite bind_ok; [|apply load_eq, lookup_insert_eq].
    erewrite bind_ok; [|apply store_eq].
    rewrite store_eq. fields. do 2 f_equal.
    apply map_eq. intros k.
    repeat (rewrite lookup_insert; case_decide); subst; done.
Qed.

Lemma Vector_default_spec o h n r this :
  Vector_default this (mkState o h n r)
  = Ok tt (mkState (<[this := mkVector RawMemory_default 0]> o) h n r).
Proof. reflexivity. Qed.

Lemma Vector_dtor_empty o h n r this :
  o !! this = Some (mkVector RawMemory_default 0) →
  Vector_dtor this (mkState o h n r) = Ok tt (mkState o h n r).
Proof.
  intros Hv. unfold Vector_dtor. by erewrite bind_ok; [|by apply load_eq].
Qed.

Lemma Vector_move_spec o h n r this other w :
  o !! other = Some w → this ≠ other →
  Vector_move this other (mkState o h n r)
  = Ok tt (mkState (delete other (<[this := w]> o)) h n r).
Proof.
  intros Hw Hne. unfold Vector_move.
  erewrite bind_ok; [|apply Vector_default_spec].
  erewrite bind_ok; cycle 1.
  { apply Swap_spec; [apply lookup_insert_eq|by rewrite lookup_insert_ne]. }
  rewrite insert_insert_eq.
  erewrite bind_ok; [|apply Vector_dtor_empty, lookup_insert_eq].
  unfold end_of_lifetime, set_objs. fields. by rewrite delete_insert_eq.
Qed.

(** [Vector(const Vector& other)]. *)
Lemma Vector_copy_spec o h n r this other w lr :
  o !! other = Some w → rep h w lr → unused_from h n → 0 < size_ w →
  runs (Vector_copy this other) (mkState o h n r)
    (λ _ s', s' = mkState
                    (<[this := mkVector (mkRawMemory (slot_ptr n 0) (size_ w)) (size_ w)]> o)
                    (<[n := Live <$> lr]> h) (S n) r)
    (λ s', objs s' = o ∧ heap s' = h ∧ raw_destroyed s' = r ∧
           (refused (mkState o h n r) (size_ w * sizeof_T) ∨ copy_may_throw)).
Proof.
  intros Hw Hrep Hf Hpos. unfold Vector_copy, GetAddress.
  destruct (rep_bounds _ _ _ Hrep) as (Hsz & Hcap & Hlen).
  destruct (rep_block _ _ _ Hrep ltac:(lia)) as (b & Hbuf & Hblk).
  assert (b ≠ n) as Hbn.
  { intros ->. rewrite Hf in Hblk; [done|lia]. }
  assert (Hbytes : size_ w * sizeof_T ≤ PTRDIFF_MAX).
  { destruct Hrep as (_ & _ & _ & Hm & _). pose proof sizeof_T_pos. nia. }
  pose proof PTRDIFF_MAX_lt as Hlt.
  eapply runs_step; [by apply load_eq|].
  apply runs_bind.
  eapply runs_conseq; [apply RawMemory_new_spec; lia| |].
  2:{ intros s' [-> Href]. simpl. auto. }
  intros d s' (_ & -> & ->). fields.
  apply runs_bind, runs_unwinding. rewrite Hbuf, Hlen.
  unfold uninitialized_copy_n. rewrite !Nat2Z.id.
  unfold block_of in Hblk.
  pose proof (uninitialized_copy_loop_spec o
                (<[n := replicate (length lr) Raw]> h) (S n) r b n []
                (replicate (Z.to_nat (capacity_ (data_ w)) - length lr) Raw)
                [] [] lr Hbn) as Hloop.
  simpl in Hloop. rewrite app_nil_r in Hloop.
  specialize (Hloop ltac:(by rewrite lookup_insert_ne)
                    ltac:(apply lookup_insert_eq)).
  unfold runs at 1.
  destruct (uninitialized_copy_loop _ _ _ _) as [[] s'|s'|]; [| |done].
  - subst s'. rewrite insert_insert_eq, app_nil_r.
    eapply runs_eq; [apply store_eq|]. done.
  - destruct Hloop as [-> Hcp].
    unfold RawMemory_dtor, Deallocate. simpl. unfold runs.
    erewrite operator_delete_block by apply lookup_insert_eq.
    simpl. rewrite delete_insert_eq, delete_id by (apply Hf; lia). auto.
Qed.

Lemma Vector_dtor_spec o h n r this v l :
  o !! this = Some v → rep h v l →
  Vector_dtor this (mkState o h n r) = Ok tt (mkState o (release h (data_ v)) n r).
Proof.
  intros Hv Hrep. unfold Vector_dtor, GetAddress.
  destruct (rep_bounds _ _ _ Hrep) as (Hsz & Hcap & Hlen).
  erewrite bind_ok; [|by apply load_eq].
  destruct (decide (capacity_ (data_ v) = 0)) as [Hz|Hnz].
  - destruct (rep_null _ _ _ Hrep Hz) as (Hbuf & -> & Hsz0).
    unfold RawMemory_dtor, Deallocate, release. rewrite Hbuf, Hsz0. reflexivity.
  - destruct (rep_block _ _ _ Hrep Hnz) as (b & Hbuf & Hblk).
    rewrite Hbuf, Hlen. unfold block_of in Hblk.
    erewrite bind_ok; cycle 1.
    { eapply (destroy_n_spec _ _ _ _ b [] (Live <$> l)); try done.
      by rewrite length_fmap. }
    rewrite raw_slots_live, app_nil_r.
    unfold RawMemory_dtor, Deallocate. rewrite Hbuf.
    erewrite operator_delete_block by apply lookup_insert_eq.
    unfold release. rewrite Hbuf. simpl. by rewrite delete_insert_eq.
Qed.

(** Copy assignment when the capacity of [this] is too small: copy into a
    temporary, swap, destroy the temporary. *)
Lemma operator_assign_reallocates o h n r this rhs v w l lr :
  this ≠ rhs → o !! this = Some v → o !! rhs = Some w →
  rep h v l → rep h w lr → unused_from h n →
  capacity_ (data_ v) < size_ w →
  runs (operator_assign this rhs) (mkState o h n r)
    (λ _ s', s' = mkState
                    (<[this := mkVector (mkRawMemory (slot_ptr n 0) (size_ w)) (size_ w)]> o)
                    (<[n := Live <$> lr]> (release h (data_ v))) (S n) r)
    (λ s', objs s' = o ∧ heap s' = h ∧ raw_destroyed s' = r ∧
           (refused (mkState o h n r) (size_ w * sizeof_T) ∨ copy_may_throw)).
Proof.
  intros Hne Hv Hw Hrep Hrep' Hf Hsmall. unfold operator_assign.
  destruct (rep_bounds _ _ _ Hrep) as (Hsz & Hcap & Hlen).
  rewrite (proj2 (Nat.eqb_neq _ _) Hne). cbn [negb].
  eapply runs_step; [by apply load_eq|].
  eapply runs_step; [by apply load_eq|].
  unfold RawMemory_Capacity.
  replace (capacity_ (data_ v) >=? size_ w) with false; cycle 1.
  { symmetry. rewrite Z.geb_leb. apply Z.leb_gt. lia. }
  eapply runs_step; [reflexivity|]. fields.
  set (temp := fresh (dom o)).
  assert (o !! temp = None) as Htemp.
  { apply not_elem_of_dom. apply is_fresh. }
  assert (temp ≠ this) as Hts by (intros Heq; rewrite Heq, Hv in Htemp; done).
  assert (temp ≠ rhs) as Htr by (intros Heq; rewrite Heq, Hw in Htemp; done).
  clearbody temp.
  apply runs_bind.
  eapply runs_conseq; [apply Vector_copy_spec; try done; lia| |done].
  intros [] s' ->.
  eapply runs_step.
  { apply Swap_spec; [by rewrite lookup_insert_ne|apply lookup_insert_eq]. }
  eapply runs_step.
  { eapply (Vector_dtor_spec _ _ _ _ temp v l); [apply lookup_insert_eq|].
    eapply rep_frame; [done|]. intros b Hb.
    rewrite lookup_insert_ne; [done|].
    intros <-. destruct (decide (capacity_ (data_ v) = 0)) as [Hz|Hnz].
    - destruct (rep_null _ _ _ Hrep Hz) as (Hbuf & _). by rewrite Hbuf in Hb.
    - destruct (rep_block _ _ _ Hrep Hnz) as (b' & Hbuf & Hblk).
      rewrite Hbuf in Hb. injection Hb as <-.
      rewrite Hf in Hblk; [done|lia]. }
  unfold end_of_scope, set_objs, runs. fields. f_equal.
  - heap_eq.
  - unfold release. destruct (base (buffer_ (data_ v))) as [b|] eqn:Hb; [|done].
    rewrite delete_insert_ne; [done|].
    intros <-. destruct (decide (capacity_ (data_ v) = 0)) as [Hz|Hnz].
    + destruct (rep_null _ _ _ Hrep Hz) as (Hbuf & _). by rewrite Hbuf in Hb.
    + destruct (rep_block _ _ _ Hrep Hnz) as (b' & Hbuf & Hblk).
      rewrite Hbuf in Hb. injection Hb as <-.
      rewrite Hf in Hblk; [done|lia].
Qed.

End Assign.

(** ** Sized construction, [Resize] and copy assignment in place *)

Section Resize.

Context {T : Type} {E : Env T}.
Implicit Types (h : gmap nat (list (slot T))) (blk P Q : list (slot T)).
Implicit Types (o : gmap nat Vector) (n : nat) (r : list ptr) (l xs : list T).
Implicit Types (v w : Vector) (m : RawMemory).

Lemma fill_n_spec x o h n r b P Q (k : Z) (d i : nat) Ok_post :
  k = Z.of_nat d → i = length P →
  h !! b = Some (P ++ replicate d Raw ++ Q) →
  Ok_post (mkState o (<[b := P ++ replicate d (Live x) ++ Q]> h) n r) →
  runs (fill_loop x (slot_ptr b i) (Z.to_nat k)) (mkState o h n r)
       (λ _ s', Ok_post s')
       (λ s', s' = mkState o h n r ∧ init_may_throw).
Proof.
  intros -> -> Hb Hpost. rewrite Nat2Z.id.
  pose proof (fill_loop_spec x o h n r b P d Q Hb) as Hfill.
  unfold runs. destruct (fill_loop _ _ _ _) as [[] s'|s'|]; [by subst|done|done].
Qed.

Lemma fmap_replicate_live (k : nat) (x : T) :
  replicate k (Live x) = Live <$> replicate k x.
Proof. by rewrite fmap_replicate. Qed.

(** [explicit Vector(size_t size)]. *)
Lemma Vector_sized_spec o h n r this k :
  0 ≤ k → k * sizeof_T < size_t_modulus → unused_from h n →
  runs (Vector_sized this k) (mkState o h n r)
    (λ _ s',
       if k =? 0
       then s' = mkState (<[this := mkVector RawMemory_default 0]> o) h n r
       else k * sizeof_T ≤ PTRDIFF_MAX ∧
            s' = mkState (<[this := mkVector (mkRawMemory (slot_ptr n 0) k) k]> o)
                         (<[n := block_of (replicate (Z.to_nat k) value_init) k]> h)
                         (S n) r)
    (λ s', objs s' = o ∧ heap s' = h ∧ raw_destroyed s' = r ∧ 0 < k ∧
           (refused (mkState o h n r) (k * sizeof_T) ∨ init_may_throw)).
Proof.
  intros Hk Hsmall Hf. unfold Vector_sized, GetAddress.
  destruct (k =? 0) eqn:Hz.
  - apply Z.eqb_eq in Hz. subst k.
    eapply runs_step; [apply RawMemory_new_zero|].
    eapply runs_step; [reflexivity|].
    eapply runs_eq; [apply store_eq|]. done.
  - apply Z.eqb_neq in Hz. apply runs_bind.
    eapply runs_conseq; [apply RawMemory_new_spec; lia| |].
    2:{ intros s' [-> Href]. fields. repeat split; try done; [lia|by left]. }
    intros d s' (Hle & -> & ->). fields.
    apply runs_bind, runs_unwinding.
    unfold uninitialized_value_construct_n.
    eapply runs_conseq.
    { eapply (fill_n_spec value_init _ _ _ _ n [] [] k (Z.to_nat k) 0%nat
                (λ s', s' = mkState o (<[n := replicate (Z.to_nat k) (Live value_init)]> h)
                                    (S n) r)); [lia|done| |].
      - rewrite lookup_insert_eq. simpl. by rewrite app_nil_r.
      - simpl. by rewrite app_nil_r, insert_insert_eq. }
    + intros [] s' ->.
      eapply runs_eq; [apply store_eq|].
      split; [done|]. do 2 f_equal.
      unfold block_of. rewrite !length_replicate.
      replace (Z.to_nat k - Z.to_nat k)%nat with 0%nat by lia. simpl.
      by rewrite app_nil_r, fmap_replicate.
    + intros s' [-> Hinit].
      unfold runs, RawMemory_dtor, Deallocate. simpl.
      erewrite operator_delete_block by apply lookup_insert_eq.
      fields. rewrite delete_insert_eq, delete_id by (apply Hf; lia).
      repeat split; try done; [lia|by right].
Qed.

(** [Vector(const Vector& other)] of an empty vector. *)
Lemma Vector_copy_empty o h n r this other w :
  o !! other = Some w → size_ w = 0 →
  Vector_copy this other (mkState o h n r)
  = Ok tt (mkState (<[this := mkVector RawMemory_default 0]> o) h n r).
Proof.
  intros Hw Hz. unfold Vector_copy.
  erewrite bind_ok; [|by apply load_eq]. rewrite Hz.
  erewrite bind_ok; [|apply RawMemory_new_zero].
  reflexivity.
Qed.

(** [Resize] to a smaller size. *)
Lemma Resize_shrinks o h n r this v l k :
  o !! this = Some v → rep h v l → 0 ≤ k < size_ v →
  Resize this k (mkState o h n r)
  = Ok tt (mkState (<[this := mkVector (data_ v) k]> o)
                   (overwrite h (data_ v)
                      (block_of (take (Z.to_nat k) l) (capacity_ (data_ v))))
                   n r).
Proof.
  intros Hv Hrep Hk. unfold Resize.
  destruct (rep_bounds _ _ _ Hrep) as (Hsz & Hcap & Hlen).
  destruct (rep_block _ _ _ Hrep ltac:(lia)) as (b & Hbuf & Hblk).
  erewrite bind_ok; [|by apply load_eq].
  rewrite (proj2 (Z.gtb_lt _ _)) by lia.
  erewrite bind_ok; [|apply RawMemory_plus_eq; lia].
  rewrite Hbuf.
  replace (ptr_add (slot_ptr b 0) k) with (slot_ptr b (Z.to_nat k)) by ptr_eq.
  rewrite wrap_small by (unfold PTRDIFF_MAX, size_t_modulus in *; lia).
  unfold block_of in Hblk.
  rewrite <- (take_drop (Z.to_nat k) l) in Hblk at 1.
  rewrite fmap_app, <- app_assoc in Hblk.
  erewrite bind_ok; cycle 1.
  { eapply destroy_n_spec; [| |exact Hblk].
    - rewrite length_fmap, length_drop. lia.
    - rewrite length_fmap, length_take. lia. }
  rewrite raw_slots_live, app_nil_r.
  erewrite set_size_eq by done.
  unfold overwrite. rewrite Hbuf. simpl. do 3 f_equal.
  unfold block_of. f_equal.
  rewrite length_fmap, length_drop, length_take, <- replicate_add.
  f_equal. lia.
Qed.

(** [Resize] to a larger size within the capacity. *)
Lemma Resize_fills o h n r this v l k :
  o !! this = Some v → rep h v l → size_ v < k ≤ capacity_ (data_ v) →
  runs (Resize this k) (mkState o h n r)
    (λ _ s',
       s' = mkState (<[this := mkVector (data_ v) k]> o)
                    (overwrite h (data_ v)
                       (block_of (l ++ replicate (Z.to_nat (k - size_ v)) default_init)
                                 (capacity_ (data_ v))))
                    n r)
    (λ s', s' = mkState o h n r ∧ init_may_throw).
Proof.
  intros Hv Hrep Hk. unfold Resize, RawMemory_Capacity.
  destruct (rep_bounds _ _ _ Hrep) as (Hsz & Hcap & Hlen).
  destruct (rep_block _ _ _ Hrep ltac:(lia)) as (b & Hbuf & Hblk).
  eapply runs_step; [by apply load_eq|].
  replace (size_ v >? k) with false
    by (symmetry; rewrite Z.gtb_ltb; apply Z.ltb_ge; lia).
  rewrite (proj2 (Z.gtb_lt _ _)) by lia.
  replace (capacity_ (data_ v) <? k) with false by (symmetry; apply Z.ltb_ge; lia).
  eapply runs_step; [reflexivity|].
  eapply runs_step; [by apply load_eq|].
  eapply runs_step; [apply RawMemory_plus_eq; lia|].
  rewrite Hbuf, Hlen, ptr_add_nat.
  rewrite wrap_small by (unfold PTRDIFF_MAX, size_t_modulus in *; lia).
  unfold uninitialized_default_construct_n.
  set (d := Z.to_nat (k - Z.of_nat (length l))).
  assert (Hraw : replicate (Z.to_nat (capacity_ (data_ v)) - length l) (@Raw T)
                 = replicate d Raw
                     ++ replicate (Z.to_nat (capacity_ (data_ v)) - length l - d) Raw).
  { rewrite <- replicate_add. f_equal. lia. }
  unfold block_of in Hblk. rewrite Hraw in Hblk.
  apply runs_bind.
  eapply runs_conseq.
  { eapply (fill_n_spec default_init o h n r b (Live <$> l) _ _ d (length l)
              (λ s', s' = mkState o
                            (<[b := (Live <$> l) ++ replicate d (Live default_init) ++
                                    replicate (Z.to_nat (capacity_ (data_ v)) - length l - d)
                                              Raw]> h) n r));
      [unfold d; lia|by rewrite length_fmap|exact Hblk|done]. }
  2:{ done. }
  intros [] s' ->.
  eapply runs_eq; [by apply set_size_eq|].
  unfold overwrite. rewrite Hbuf. simpl. do 3 f_equal.
  unfold block_of. rewrite fmap_app, <- app_assoc, fmap_replicate.
  rewrite length_app, length_replicate. do 3 f_equal. lia.
Qed.

(** [Resize] beyond the capacity: [Reserve], then the new elements.  When
    a default constructor throws, [Reserve] has already replaced the
    arena. *)
Lemma Resize_reallocates o h n r this v l k :
  o !! this = Some v → rep h v l → unused_from h n →
  capacity_ (data_ v) < k → k * sizeof_T < size_t_modulus →
  runs (Resize this k) (mkState o h n r)
    (λ _ s',
       k * sizeof_T ≤ PTRDIFF_MAX ∧
       s' = mkState (<[this := mkVector (mkRawMemory (slot_ptr n 0) k) k]> o)
                    (<[n := block_of (l ++ replicate (Z.to_nat (k - size_ v)) default_init) k]>
                       (release h (data_ v)))
                    (S n) (r ++ raw_part v))
    (λ s', (objs s' = o ∧ heap s' = h ∧ raw_destroyed s' = r ∧
            (refused (mkState o h n r) (k * sizeof_T) ∨ copy_may_throw)) ∨
           (k * sizeof_T ≤ PTRDIFF_MAX ∧
            s' = mkState (<[this := mkVector (mkRawMemory (slot_ptr n 0) k) (size_ v)]> o)
                         (<[n := block_of l k]> (release h (data_ v)))
                         (S n) (r ++ raw_part v) ∧
            init_may_throw)).
Proof.
  intros Hv Hrep Hf Hk Hsmall. unfold Resize, RawMemory_Capacity.
  destruct (rep_bounds _ _ _ Hrep) as (Hsz & Hcap & Hlen).
  eapply runs_step; [by apply load_eq|].
  replace (size_ v >? k) with false
    by (symmetry; rewrite Z.gtb_ltb; apply Z.ltb_ge; lia).
  rewrite (proj2 (Z.gtb_lt _ _)) by lia.
  rewrite (proj2 (Z.ltb_lt _ _)) by lia.
  apply runs_bind.
  eapply runs_conseq; [by apply Reserve_spec| |by left].
  intros [] s' (Hle & ->).
  pose proof (cap_le_max k ltac:(lia) Hle) as Hkmax.
  eapply runs_step; [apply load_eq, lookup_insert_eq|]. fields.
  eapply runs_step; [apply RawMemory_plus_eq; simpl; lia|].
  fields. rewrite Hlen, ptr_add_nat.
  rewrite wrap_small by (unfold PTRDIFF_MAX, size_t_modulus in *; lia).
  unfold uninitialized_default_construct_n.
  set (d := Z.to_nat (k - Z.of_nat (length l))).
  assert (Hnew : block_of l k = (Live <$> l) ++ replicate d Raw ++ []).
  { unfold block_of. rewrite app_nil_r. do 2 f_equal. lia. }
  apply runs_bind.
  eapply runs_conseq.
  { eapply (fill_n_spec default_init
              (<[this := mkVector (mkRawMemory (slot_ptr n 0) k)
                                  (Z.of_nat (length l))]> o)
              (<[n := block_of l k]> (release h (data_ v))) (S n)
              (r ++ raw_part v) n (Live <$> l) [] _ d (length l)
              (λ s', s' = mkState
                       (<[this := mkVector (mkRawMemory (slot_ptr n 0) k)
                                           (Z.of_nat (length l))]> o)
                       (<[n := (Live <$> l) ++ replicate d (Live default_init) ++ []]>
                          (release h (data_ v))) (S n) (r ++ raw_part v)));
      [unfold d; lia|by rewrite length_fmap| |].
    - rewrite lookup_insert_eq. by rewrite Hnew.
    - by rewrite insert_insert_eq. }
  - intros [] s' ->.
    eapply runs_eq; [apply set_size_eq, lookup_insert_eq|].
    split; [done|]. rewrite !insert_insert_eq. fields. do 2 f_equal.
    unfold block_of. rewrite fmap_app, <- app_assoc, fmap_replicate.
    rewrite length_app, length_replicate.
    replace (Z.to_nat k - (length l + d))%nat with 0%nat by lia. done.
  - intros s' [-> Hinit]. by right.
Qed.

Lemma Resize_same o h n r this v k :
  o !! this = Some v → k = size_ v →
  Resize this k (mkState o h n r) = Ok tt (mkState o h n r).
Proof.
  intros Hv ->. unfold Resize. erewrite bind_ok; [|by apply load_eq].
  by rewrite !Z.gtb_ltb, Z.ltb_irrefl.
Qed.

End Resize.

Section AssignInPlace.

Context {T : Type} {E : Env T}.
Implicit Types (h : gmap nat (list (slot T))) (blk P Q : list (slot T)).
Implicit Types (o : gmap nat Vector) (n : nat) (r : list ptr) (l xs ys : list T).
Implicit Types (v w : Vector) (m : RawMemory).

Lemma copy_assign_loop_spec o h n r bv bw cv cw V1 ys V2 W1 xs W2 (i : nat) :
  bv ≠ bw → length ys = length xs → i = length V1 → i = length W1 →
  Z.of_nat (i + length xs) ≤ cv → Z.of_nat (i + length xs) ≤ cw →
  h !! bv = Some (V1 ++ (Live <$> ys) ++ V2) →
  h !! bw = Some (W1 ++ (Live <$> xs) ++ W2) →
  runs (copy_assign_loop (mkRawMemory (slot_ptr bv 0) cv)
                         (mkRawMemory (slot_ptr bw 0) cw)
                         (Z.of_nat i) (length xs))
       (mkState o h n r)
       (λ _ s', s' = mkState o (<[bv := V1 ++ (Live <$> xs) ++ V2]> h) n r)
       (λ s', (∃ blk', s' = mkState o (<[bv := blk']> h) n r) ∧ copy_may_throw).
Proof.
  intros Hne. revert ys V1 W1 i h.
  induction xs as [|x xs IH]; intros ys V1 W1 i h Hlen Hi Hi' Hcv Hcw Hv Hw.
  - destruct ys; [|done]. simpl. apply runs_ret. by rewrite insert_id.
  - destruct ys as [|y ys]; [done|].
    rewrite !fmap_cons in Hv, Hw. rewrite <- !app_comm_cons in Hv, Hw.
    cbn [length] in *. cbn [copy_assign_loop].
    eapply runs_step; [apply RawMemory_at_eq; simpl; lia|].
    fields. rewrite ptr_add_nat.
    eapply runs_step; [by eapply read_middle|].
    apply runs_bind.
    unfold runs at 1, copy_value at 1.
    destruct (copy_throws _ x) eqn:Hthrow.
    { split; [|by exists (mkState o h n r), x].
      eexists. by rewrite insert_id. }
    eapply runs_step; [apply RawMemory_at_eq; simpl; lia|].
    fields. rewrite ptr_add_nat.
    eapply runs_step; [by eapply assign_at_middle|].
    replace (Z.of_nat i + 1) with (Z.of_nat (S i)) by lia.
    eapply runs_conseq.
    { eapply (IH ys (V1 ++ [Live x]) (W1 ++ [Live x]) (S i)).
      - lia.
      - rewrite length_app. simpl. lia.
      - rewrite length_app. simpl. lia.
      - lia.
      - lia.
      - by rewrite lookup_insert_eq, snoc_app.
      - rewrite lookup_insert_ne by done. by rewrite snoc_app. }
    2:{ intros s' [[blk' ->] Hc]. split; [|done].
        eexists. by rewrite insert_insert_eq. }
    intros [] s' ->. rewrite insert_insert_eq, snoc_app.
    by rewrite fmap_cons, <- app_comm_cons.
Qed.

Lemma uninitialized_copy_n_zero p q (s : state T) :
  uninitialized_copy_n p 0 q s = Ok tt s.
Proof. reflexivity. Qed.

Lemma overwrite_block h m blk b :
  buffer_ m = slot_ptr b 0 → overwrite h m blk = <[b := blk]> h.
Proof. intros Hb. unfold overwrite. by rewrite Hb. Qed.

Lemma overwrite_null h m blk : buffer_ m = nullptr → overwrite h m blk = h.
Proof. intros Hb. unfold overwrite. by rewrite Hb. Qed.

(** Copy assignment when the capacity of [this] suffices: the common
    prefix is assigned, then the tail is destroyed or copied. *)
Lemma operator_assign_in_place o h n r this rhs v w l lr :
  this ≠ rhs → o !! this = Some v → o !! rhs = Some w →
  rep h v l → rep h w lr →
  (∀ b, base (buffer_ (data_ v)) = Some b → base (buffer_ (data_ w)) ≠ Some b) →
  size_ w ≤ capacity_ (data_ v) →
  runs (operator_assign this rhs) (mkState o h n r)
    (λ _ s', s' = mkState (<[this := mkVector (data_ v) (size_ w)]> o)
                          (overwrite h (data_ v) (block_of lr (capacity_ (data_ v))))
                          n r)
    (λ s', (∃ blk', s' = mkState o (overwrite h (data_ v) blk') n r) ∧
           copy_may_throw).
Proof.
  intros Hne Hv Hw Hrep Hrep' Hdisj Hfit. unfold operator_assign.
  destruct (rep_bounds _ _ _ Hrep) as (Hsz & Hcap & Hlen).
  destruct (rep_bounds _ _ _ Hrep') as (Hsz' & Hcap' & Hlen').
  rewrite (proj2 (Nat.eqb_neq _ _) Hne). cbn [negb].
  eapply runs_step; [by apply load_eq|].
  eapply runs_step; [by apply load_eq|].
  unfold RawMemory_Capacity.
  replace (capacity_ (data_ v) >=? size_ w) with true
    by (symmetry; rewrite Z.geb_leb; apply Z.leb_le; lia).
  apply runs_bind.
  assert (Hfinish : ∀ h',
    h' = overwrite h (data_ v) (block_of lr (capacity_ (data_ v))) →
    runs (set_size this (size_ w)) (mkState o h' n r)
      (λ _ s', s' = mkState (<[this := mkVector (data_ v) (size_ w)]> o)
                            (overwrite h (data_ v) (block_of lr (capacity_ (data_ v))))
                            n r)
      (λ s', (∃ blk', s' = mkState o (overwrite h (data_ v) blk') n r) ∧
             copy_may_throw)).
  { intros h' ->. eapply runs_eq; [by apply set_size_eq|done]. }
  destruct (decide (lr = [])) as [->|Hlr].
  - (* the source is empty: no element is read *)
    change (size_ w = 0) in Hlen'. rewrite Hlen'.
    destruct (decide (capacity_ (data_ v) = 0)) as [Hz|Hnz].
    + destruct (rep_null _ _ _ Hrep Hz) as (Hbuf & -> & Hsz0).
      rewrite Hsz0. simpl.
      eapply runs_step; [reflexivity|].
      eapply runs_step; [apply RawMemory_plus_eq; lia|].
      eapply runs_step; [apply RawMemory_plus_eq; lia|].
      eapply runs_eq; [apply uninitialized_copy_n_zero|].
      rewrite <- Hlen'. apply Hfinish. by rewrite overwrite_null.
    + destruct (rep_block _ _ _ Hrep Hnz) as (bv & Hbuf & Hblk).
      unfold block_of in Hblk.
      destruct (size_ v >? 0) eqn:Hcmp.
      * eapply runs_step; [reflexivity|].
        eapply runs_step; [apply RawMemory_plus_eq; lia|].
        rewrite Hbuf, ptr_add_0, Z.sub_0_r.
        rewrite wrap_small by (unfold PTRDIFF_MAX, size_t_modulus in *; lia).
        eapply runs_eq.
        { eapply (destroy_n_spec _ _ _ _ bv [] (Live <$> l)); try done.
          by rewrite length_fmap. }
        rewrite raw_slots_live, app_nil_r. simpl.
        rewrite <- Hlen'. apply Hfinish.
        rewrite (overwrite_block _ _ _ bv) by done. f_equal.
        unfold block_of. simpl. rewrite length_fmap, <- replicate_add.
        f_equal. lia.
      * rewrite Z.gtb_ltb in Hcmp. apply Z.ltb_ge in Hcmp.
        assert (l = []) as -> by (apply nil_length_inv; lia).
        change (size_ v = 0) in Hlen. rewrite Hlen.
        eapply runs_step; [reflexivity|].
        eapply runs_step; [apply RawMemory_plus_eq; lia|].
        eapply runs_step; [apply RawMemory_plus_eq; lia|].
        eapply runs_eq; [apply uninitialized_copy_n_zero|].
        rewrite <- Hlen'. apply Hfinish.
        rewrite (overwrite_block _ _ _ bv) by done. by rewrite insert_id.
  - (* the source has elements: both vectors own a block *)
    assert (0 < length lr)%nat as Hpos.
    { destruct lr; [done|]. simpl. lia. }
    destruct (rep_block _ _ _ Hrep ltac:(lia)) as (bv & Hbuf & Hblk).
    destruct (rep_block _ _ _ Hrep' ltac:(lia)) as (bw & Hbuf' & Hblk').
    assert (bv ≠ bw) as Hbb.
    { intros ->. eapply Hdisj; [by rewrite Hbuf|by rewrite Hbuf']. }
    unfold block_of in Hblk, Hblk'.
    destruct (size_ v >? size_ w) eqn:Hcmp.
    + (* [this] is longer: assign, then destroy the tail *)
      apply Z.gtb_lt in Hcmp.
      assert (Hk : length (take (length lr) l) = length lr)
        by (rewrite length_take; lia).
      rewrite <- (take_drop (length lr) l) in Hblk at 1.
      rewrite fmap_app, <- app_assoc in Hblk.
      eapply (runs_step_or_throw _ _ _
                (λ _ s', s' = mkState o
                   (<[bv := (Live <$> lr) ++ (Live <$> drop (length lr) l)
                            ++ replicate (Z.to_nat (capacity_ (data_ v)) - length l) Raw]> h)
                   n r)
                (λ s', (∃ blk', s' = mkState o (<[bv := blk']> h) n r) ∧ copy_may_throw));
        [| |intros s' [[blk' ->] Hc]; split; [|done]; exists blk';
             by rewrite (overwrite_block _ _ _ bv)].
      { rewrite Hlen', Nat2Z.id.
        destruct v as [[pv cv] sv], w as [[pw cw] sw]. fields. subst pv pw.
        eapply (copy_assign_loop_spec _ _ _ _ bv bw cv cw []
                  (take (length lr) l) _ [] lr _ 0%nat); try done; simpl; lia. }
      intros [] s' ->.
      eapply runs_step; [apply RawMemory_plus_eq; lia|].
      rewrite Hbuf, Hlen', ptr_add_nat.
      rewrite wrap_small by (unfold PTRDIFF_MAX, size_t_modulus in *; lia).
      eapply runs_eq.
      { eapply (destroy_n_spec _ _ _ _ bv (Live <$> lr)
                  (Live <$> drop (length lr) l));
          [|by rewrite length_fmap|apply lookup_insert_eq].
        rewrite length_fmap, length_drop. lia. }
      rewrite raw_slots_live, app_nil_r, insert_insert_eq.
      rewrite <- Hlen'. apply Hfinish.
      rewrite (overwrite_block _ _ _ bv) by done. f_equal.
      unfold block_of. f_equal.
      rewrite length_fmap, length_drop, <- replicate_add. f_equal. lia.
    + (* [this] is not longer: assign, then copy the tail *)
      rewrite Z.gtb_ltb in Hcmp. apply Z.ltb_ge in Hcmp.
      assert (Hk : length (take (length l) lr) = length l)
        by (rewrite length_take; lia).
      assert (Hd : (length l + length (drop (length l) lr))%nat = length lr).
      { rewrite length_drop. lia. }
      assert (Hraw : replicate (Z.to_nat (capacity_ (data_ v)) - length l) (@Raw T)
                     = replicate (length (drop (length l) lr)) Raw
                         ++ replicate (Z.to_nat (capacity_ (data_ v)) - length lr) Raw).
      { rewrite <- replicate_add. f_equal. lia. }
      rewrite Hraw in Hblk.
      rewrite <- (take_drop (length l) lr) in Hblk' at 1.
      rewrite fmap_app, <- app_assoc in Hblk'.
      eapply (runs_step_or_throw _ _ _
                (λ _ s', s' = mkState o
                   (<[bv := (Live <$> take (length l) lr)
                            ++ replicate (length (drop (length l) lr)) Raw
                            ++ replicate (Z.to_nat (capacity_ (data_ v)) - length lr) Raw]> h)
                   n r)
                (λ s', (∃ blk', s' = mkState o (<[bv := blk']> h) n r) ∧ copy_may_throw));
        [| |intros s' [[blk' ->] Hc]; split; [|done]; exists blk';
             by rewrite (overwrite_block _ _ _ bv)].
      { rewrite Hlen, Nat2Z.id. rewrite <- Hk at 1.
        destruct v as [[pv cv] sv], w as [[pw cw] sw]. fields. subst pv pw.
        eapply (copy_assign_loop_spec _ _ _ _ bv bw cv cw [] l _ []
                  (take (length l) lr) _ 0%nat); try done; simpl; lia. }
      intros [] s' ->.
      eapply runs_step; [apply RawMemory_plus_eq; lia|].
      eapply runs_step; [apply RawMemory_plus_eq; lia|].
      rewrite Hbuf, Hbuf', Hlen, !ptr_add_nat.
      rewrite wrap_small by (unfold PTRDIFF_MAX, size_t_modulus in *; lia).
      unfold uninitialized_copy_n.
      replace (Z.to_nat (size_ w - Z.of_nat (length l)))
        with (length (drop (length l) lr)) by lia.
      pose proof (uninitialized_copy_loop_spec o
                    (<[bv := (Live <$> take (length l) lr)
                        ++ replicate (length (drop (length l) lr)) Raw
                        ++ replicate (Z.to_nat (capacity_ (data_ v)) - length lr) Raw]> h)
                    n r bw bv (Live <$> take (length l) lr)
                    (replicate (Z.to_nat (capacity_ (data_ w)) - length lr) Raw)
                    (Live <$> take (length l) lr)
                    (replicate (Z.to_nat (capacity_ (data_ v)) - length lr) Raw)
                    (drop (length l) lr) ltac:(done)) as Hloop.
      rewrite !length_fmap, Hk in Hloop.
      specialize (Hloop ltac:(by rewrite lookup_insert_ne)
                        ltac:(apply lookup_insert_eq)).
      eapply runs_conseq; [exact Hloop| |].
      2:{ intros s' [-> Hc]. split; [|done].
          eexists. by rewrite (overwrite_block _ _ _ bv). }
      intros [] s' ->. rewrite insert_insert_eq.
      apply Hfinish.
      rewrite (overwrite_block _ _ _ bv) by done. f_equal.
      unfold block_of.
      by rewrite app_assoc, <- fmap_app, take_drop.
Qed.

End AssignInPlace.

(** ** All the vectors of a state *)

(** A state is well formed when every vector in it satisfies the invariant
    of [Vector], no two vectors share a block, and the blocks from [next] on
    are unused. *)
Definition wf {T} {E : Env T} (s : state T) : Prop :=
  unused_from (heap s) (next s) ∧
  (∀ a v, objs s !! a = Some v → ∃ l, rep (heap s) v l) ∧
  (∀ a1 a2 v1 v2 b,
     objs s !! a1 = Some v1 → objs s !! a2 = Some v2 →
     base (buffer_ (data_ v1)) = Some b → base (buffer_ (data_ v2)) = Some b →
     a1 = a2).

Section WellFormed.

Context {T : Type} {E : Env T}.
Implicit Types (h : gmap nat (list (slot T))) (blk P Q : list (slot T)).
Implicit Types (o : gmap nat Vector) (n : nat) (r : list ptr) (l xs ys : list T).
Implicit Types (v w : Vector) (m : RawMemory).

Lemma rep_owned h v l b :
  rep h v l → base (buffer_ (data_ v)) = Some b →
  buffer_ (data_ v) = slot_ptr b 0 ∧ is_Some (h !! b).
Proof.
  intros Hrep Hb. destruct (decide (capacity_ (data_ v) = 0)) as [Hz|Hnz].
  - destruct (rep_null _ _ _ Hrep Hz) as (Hnull & _). by rewrite Hnull in Hb.
  - destruct (rep_block _ _ _ Hrep Hnz) as (b' & Hbuf & Hblk).
    rewrite Hbuf in Hb. injection Hb as <-. eauto.
Qed.

Lemma wf_update o h n r h' n' r' this v' l' :
  wf (mkState o h n r) →
  rep h' v' l' → unused_from h' n' →
  (∀ a v b, a ≠ this → o !! a = Some v → base (buffer_ (data_ v)) = Some b →
     h' !! b = h !! b ∧ base (buffer_ (data_ v')) ≠ Some b) →
  wf (mkState (<[this := v']> o) h' n' r').
Proof.
  intros (Hf & Hreps & Hown) Hrep' Hf' Hframe. fields.
  split; [done|]. fields. split.
  - intros a v. rewrite lookup_insert. case_decide.
    + intros [= <-]. eauto.
    + intros Hv. destruct (Hreps a v Hv) as (l & Hl). exists l.
      eapply rep_frame; [done|]. intros b Hb. by eapply Hframe.
  - intros a1 a2 v1 v2 b. rewrite !lookup_insert.
    repeat case_decide; subst; try done.
    + intros [= <-] Hv2 Hb1 Hb2.
      destruct (Hframe a2 v2 b ltac:(done) Hv2 Hb2) as [_ Hne]. done.
    + intros Hv1 [= <-] Hb1 Hb2.
      destruct (Hframe a1 v1 b ltac:(done) Hv1 Hb1) as [_ Hne]. done.
    + apply Hown.
Qed.

Lemma wf_in_place o h n r r' this v l' z :
  wf (mkState o h n r) → o !! this = Some v →
  Z.of_nat (length l') ≤ capacity_ (data_ v) → z = Z.of_nat (length l') →
  wf (mkState (<[this := mkVector (data_ v) z]> o)
              (overwrite h (data_ v) (block_of l' (capacity_ (data_ v)))) n r').
Proof.
  intros Hwf Hv Hle ->. pose proof Hwf as (Hf & Hreps & Hown). fields.
  destruct (Hreps _ _ Hv) as (l & Hrep).
  eapply wf_update; [exact Hwf|by eapply rep_in_place| |].
  - destruct Hrep as (_ & _ & Har). by eapply unused_overwrite.
  - intros a va b Hne Hva Hb. fields.
    assert (base (buffer_ (data_ v)) ≠ Some b) as Hnb.
    { intros Hb'. apply Hne. by eapply Hown. }
    split; [|done]. unfold overwrite.
    destruct (base (buffer_ (data_ v))) as [bv|]; [|done].
    rewrite lookup_insert_ne; [done|]. congruence.
Qed.

Lemma wf_new_block o h n r r' h0 this c l' z :
  wf (mkState o h n r) →
  (∀ a v b, a ≠ this → o !! a = Some v → base (buffer_ (data_ v)) = Some b →
     h0 !! b = h !! b) →
  unused_from h0 n →
  0 < c → c * sizeof_T ≤ PTRDIFF_MAX →
  Z.of_nat (length l') ≤ c → z = Z.of_nat (length l') →
  wf (mkState (<[this := mkVector (mkRawMemory (slot_ptr n 0) c) z]> o)
              (<[n := block_of l' c]> h0) (S n) r').
Proof.
  intros Hwf Hsame Hf0 Hc Hm Hle ->. pose proof Hwf as (Hf & Hreps & Hown). fields.
  eapply wf_update; [exact Hwf|by apply rep_reallocated| |].
  - intros b Hb. rewrite lookup_insert_ne by lia. apply Hf0. lia.
  - intros a va b Hne Hva Hb. fields.
    destruct (Hreps _ _ Hva) as (la & Hla).
    destruct (rep_owned _ _ _ _ Hla Hb) as [_ [blk Hblk]].
    assert (b ≠ n) as Hbn.
    { intros ->. rewrite Hf in Hblk; [done|lia]. }
    split; [|simpl; congruence].
    rewrite lookup_insert_ne by done. by eapply Hsame.
Qed.

Lemma wf_reallocated o h n r r' this v c l' z :
  wf (mkState o h n r) → o !! this = Some v →
  0 < c → c * sizeof_T ≤ PTRDIFF_MAX →
  Z.of_nat (length l') ≤ c → z = Z.of_nat (length l') →
  wf (mkState (<[this := mkVector (mkRawMemory (slot_ptr n 0) c) z]> o)
              (<[n := block_of l' c]> (release h (data_ v))) (S n) r').
Proof.
  intros Hwf Hv Hc Hm Hle Hz. pose proof Hwf as (Hf & Hreps & Hown). fields.
  eapply wf_new_block; try done.
  - intros a va b Hne Hva Hb. unfold release.
    destruct (base (buffer_ (data_ v))) as [bv|] eqn:Hbv; [|done].
    rewrite lookup_delete_ne; [done|]. intros ->.
    apply Hne. by eapply Hown.
  - intros b Hb. unfold release.
    destruct (base (buffer_ (data_ v))) as [bv|]; [|by apply Hf].
    rewrite lookup_delete. case_decide; [done|]. by apply Hf.
Qed.

Lemma wf_constructed o h n r this c l' z :
  wf (mkState o h n r) →
  0 < c → c * sizeof_T ≤ PTRDIFF_MAX →
  Z.of_nat (length l') ≤ c → z = Z.of_nat (length l') →
  wf (mkState (<[this := mkVector (mkRawMemory (slot_ptr n 0) c) z]> o)
              (<[n := block_of l' c]> h) (S n) r).
Proof.
  intros Hwf Hc Hm Hle Hz. pose proof Hwf as (Hf & _). fields.
  by eapply wf_new_block.
Qed.

Lemma wf_constructed_empty o h n r this :
  wf (mkState o h n r) →
  wf (mkState (<[this := mkVector RawMemory_default 0]> o) h n r).
Proof.
  intros Hwf. pose proof Hwf as (Hf & _). fields.
  eapply wf_update; [exact Hwf|apply rep_empty|done|].
  intros a va b _ _ _. split; done.
Qed.

Lemma wf_swap o h n r a b v w :
  wf (mkState o h n r) → o !! a = Some v → o !! b = Some w →
  wf (mkState (<[b := v]> (<[a := w]> o)) h n r).
Proof.
  intros (Hf & Hreps & Hown) Hv Hw. fields.
  assert (Hlook : ∀ c u, (<[b := v]> (<[a := w]> o)) !! c = Some u →
            ∃ c', o !! c' = Some u ∧
              ((c = b ∧ c' = a) ∨ (c = a ∧ c ≠ b ∧ c' = b) ∨ (c ≠ a ∧ c ≠ b ∧ c' = c))).
  { intros c u. rewrite !lookup_insert. repeat case_decide; subst.
    - intros [= <-]. eauto 10.
    - intros [= <-]. exists b. eauto 10.
    - intros Hu. exists c. eauto 10. }
  split; [done|]. fields. split.
  - intros c u Hu. destruct (Hlook c u Hu) as (c' & Hc' & _). eauto.
  - intros c1 c2 u1 u2 blk Hu1 Hu2 Hb1 Hb2.
    destruct (Hlook c1 u1 Hu1) as (c1' & Hc1 & Hr1).
    destruct (Hlook c2 u2 Hu2) as (c2' & Hc2 & Hr2).
    pose proof (Hown _ _ _ _ _ Hc1 Hc2 Hb1 Hb2) as Heq.
    destruct Hr1 as [[? ?]|[(? & ? & ?)|(? & ? & ?)]],
             Hr2 as [[? ?]|[(? & ? & ?)|(? & ? & ?)]]; congruence.
Qed.

Lemma wf_moved o h n r this src w :
  wf (mkState o h n r) → o !! src = Some w → this ≠ src →
  wf (mkState (delete src (<[this := w]> o)) h n r).
Proof.
  intros (Hf & Hreps & Hown) Hw Hne. fields.
  split; [done|]. fields. split.
  - intros a v. rewrite lookup_delete, lookup_insert. repeat case_decide; subst.
    + done.
    + intros [= <-]. eauto.
    + eauto.
  - intros a1 a2 v1 v2 b. rewrite !lookup_delete, !lookup_insert.
    repeat case_decide; subst; try done.
    + intros [= <-] Hv2 Hb1 Hb2.
      pose proof (Hown _ _ _ _ _ Hw Hv2 Hb1 Hb2). done.
    + intros Hv1 [= <-] Hb1 Hb2.
      pose proof (Hown _ _ _ _ _ Hv1 Hw Hb1 Hb2). done.
    + apply Hown.
Qed.

End WellFormed.

(** ** Well-formed states: consequences *)

Section Preservation.

Context {T : Type} {E : Env T}.
Implicit Types (h : gmap nat (list (slot T))) (blk P Q : list (slot T)).
Implicit Types (o : gmap nat Vector) (n : nat) (r : list ptr) (l xs ys : list T).
Implicit Types (v w : Vector) (m : RawMemory) (a : ctor_arg (T := T)).

Lemma wf_rep o h n r this v :
  wf (mkState o h n r) → o !! this = Some v →
  unused_from h n ∧ ∃ l, rep h v l.
Proof. intros (Hf & Hreps & _) Hv. fields. split; [done|]. by eapply Hreps. Qed.

Lemma grown_room v l :
  size_ v = capacity_ (data_ v) → size_ v = Z.of_nat (length l) →
  0 < grown v ∧ Z.of_nat (S (length l)) ≤ grown v.
Proof. unfold grown. lia. Qed.

Lemma size_le_max h w lr :
  rep h w lr → size_ w * sizeof_T ≤ PTRDIFF_MAX.
Proof.
  intros (Hs & Hc & H0 & Hm & _). pose proof sizeof_T_pos. nia.
Qed.

End Preservation.

(** ** Sequences of public operations *)

(** A call of the public interface.  Vectors are named by their addresses;
    a position is given by its distance from [begin()]. *)
Inductive op (T : Type) : Type :=
| NewVector (this : nat)
| NewSized (this : nat) (size : Z)
| NewCopy (this other : nat)
| NewMove (this other : nat)
| CallAssign (this rhs : nat)
| CallMoveAssign (this rhs : nat)
| CallSwap (this other : nat)
| CallReserve (this : nat) (new_capacity : Z)
| CallResize (this : nat) (new_size : Z)
| CallPushBack (this : nat) (value : T)
| CallPushBackRvalue (this : nat) (value : T)
| CallPopBack (this : nat)
| CallEmplaceBack (this : nat) (a : ctor_arg (T := T))
| CallInsert (this : nat) (i : nat) (value : T)
| CallInsertRvalue (this : nat) (i : nat) (value : T)
| CallEmplace (this : nat) (i : nat) (a : ctor_arg (T := T))
| CallErase (this : nat) (i : nat).
Arguments NewVector {T} this.
Arguments NewSized {T} this size.
Arguments NewCopy {T} this other.
Arguments NewMove {T} this other.
Arguments CallAssign {T} this rhs.
Arguments CallMoveAssign {T} this rhs.
Arguments CallSwap {T} this other.
Arguments CallReserve {T} this new_capacity.
Arguments CallResize {T} this new_size.
Arguments CallPushBack {T} this value.
Arguments CallPushBackRvalue {T} this value.
Arguments CallPopBack {T} this.
Arguments CallEmplaceBack {T} this a.
Arguments CallInsert {T} this i value.
Arguments CallInsertRvalue {T} this i value.
Arguments CallEmplace {T} this i a.
Arguments CallErase {T} this i.

(** The invariant of one vector, slot by slot. *)
Definition invariant {T} (h : gmap nat (list (slot T))) (v : Vector) : Prop :=
  0 ≤ size_ v ≤ capacity_ (data_ v) ∧
  (capacity_ (data_ v) = 0 → buffer_ (data_ v) = nullptr) ∧
  (capacity_ (data_ v) ≠ 0 →
   ∃ b blk,
     buffer_ (data_ v) = slot_ptr b 0 ∧ h !! b = Some blk ∧
     Z.of_nat (length blk) = capacity_ (data_ v) ∧
     (∀ i : nat, Z.of_nat i < size_ v → ∃ x, blk !! i = Some (Live x)) ∧
     (∀ i : nat, size_ v ≤ Z.of_nat i < capacity_ (data_ v) → blk !! i = Some Raw)).

Section Sequences.

Context {T : Type} {E : Env T}.
Implicit Types (h : gmap nat (list (slot T))) (blk P Q : list (slot T)).
Implicit Types (o : gmap nat Vector) (n : nat) (r : list ptr) (l xs ys : list T).
Implicit Types (v w : Vector) (m : RawMemory) (s : state T) (c : op T).

(** The position [begin() + i]. *)
Definition nth_position (this : nat) (i : nat) : M T ptr :=
  let! b := begin_ this in
  ret (ptr_add b (Z.of_nat i)).

Definition exec c : M T unit :=
  match c with
  | NewVector this => Vector_default this
  | NewSized this size => Vector_sized this size
  | NewCopy this other => Vector_copy this other
  | NewMove this other => Vector_move this other
  | CallAssign this rhs => operator_assign this rhs
  | CallMoveAssign this rhs => operator_assign_move this rhs
  | CallSwap this other => Swap this other
  | CallReserve this new_capacity => Reserve this new_capacity
  | CallResize this new_size => Resize this new_size
  | CallPushBack this value => PushBack this value
  | CallPushBackRvalue this value => PushBack_rvalue this value
  | CallPopBack this => PopBack this
  | CallEmplaceBack this a => let! _ := EmplaceBack this a in ret tt
  | CallInsert this i value =>
      let! pos := nth_position this i in
      let! _ := Insert this pos value in ret tt
  | CallInsertRvalue this i value =>
      let! pos := nth_position this i in
      let! _ := Insert_rvalue this pos value in ret tt
  | CallEmplace this i a =>
      let! pos := nth_position this i in
      let! _ := Emplace this pos a in ret tt
  | CallErase this i =>
      let! pos := nth_position this i in
      let! _ := Erase this pos in ret tt
  end.

Fixpoint run (cs : list (op T)) : M T unit :=
  match cs with
  | [] => ret tt
  | c :: cs' => exec c;; run cs'
  end.

(** What a call requires of the state it is made in: the vectors it names
    exist, a move constructor is given another object, [PopBack] and [Erase]
    have an element to remove, a position is within [[begin(), end()]], and
    a requested size or capacity is a [size_t] whose byte count is one
    too. *)
Definition fits (k : Z) : bool := (0 <=? k) && (k * sizeof_T <? size_t_modulus).

Definition with_size s (this : nat) (p : Z → bool) : bool :=
  match objs s !! this with
  | Some v => p (size_ v)
  | None => false
  end.

Definition alive s (this : nat) : bool := with_size s this (λ _, true).

Definition pre s c : bool :=
  match c with
  | NewVector _ => true
  | NewSized _ size => fits size
  | NewCopy _ other => alive s other
  | NewMove this other => alive s other && negb (this =? other)%nat
  | CallAssign this rhs | CallMoveAssign this rhs | CallSwap this rhs =>
      alive s this && alive s rhs
  | CallReserve this k | CallResize this k => alive s this && fits k
  | CallPushBack this _ | CallPushBackRvalue this _ | CallEmplaceBack this _ =>
      alive s this
  | CallPopBack this => with_size s this (λ z, 0 <? z)
  | CallInsert this i _ | CallInsertRvalue this i _ | CallEmplace this i _ =>
      with_size s this (λ z, Z.of_nat i <=? z)
  | CallErase this i => with_size s this (λ z, Z.of_nat i <? z)
  end.

(** Every call of the sequence is made in a state that meets its
    requirement; a sequence cut short by an exception is admissible up to
    there. *)
Fixpoint admissible (cs : list (op T)) s : bool :=
  match cs with
  | [] => true
  | c :: cs' =>
      pre s c &&
      match exec c s with
      | Ok _ s1 => admissible cs' s1
      | _ => true
      end
  end.

Lemma with_size_true s this p :
  with_size s this p = true → ∃ v, objs s !! this = Some v ∧ p (size_ v) = true.
Proof. unfold with_size. destruct (objs s !! this); [eauto|done]. Qed.

Lemma alive_true s this : alive s this = true → ∃ v, objs s !! this = Some v.
Proof. intros H. destruct (with_size_true _ _ _ H) as (v & Hv & _). eauto. Qed.

Lemma fits_true k : fits k = true → 0 ≤ k ∧ k * sizeof_T < size_t_modulus.
Proof. unfold fits. intros [H1 H2]%andb_prop. lia. Qed.

Lemma wf_invariant s this v :
  wf s → objs s !! this = Some v → invariant (heap s) v.
Proof.
  intros (_ & Hreps & _) Hv. destruct (Hreps _ _ Hv) as (l & Hrep).
  destruct (rep_bounds _ _ _ Hrep) as (Hsz & Hcap & Hlen).
  split; [done|]. split.
  - intros Hz. by destruct (rep_null _ _ _ Hrep Hz).
  - intros Hnz. destruct (rep_block _ _ _ Hrep Hnz) as (b & Hbuf & Hblk).
    exists b, (block_of l (capacity_ (data_ v))).
    split; [done|]. split; [done|]. split.
    { rewrite length_block_of; lia. }
    unfold block_of. split.
    + intros i Hi. destruct (lookup_lt_is_Some_2 l i) as [x Hx]; [lia|].
      exists x. rewrite lookup_app_l by (rewrite length_fmap; lia).
      by rewrite list_lookup_fmap, Hx.
    + intros i Hi. rewrite lookup_app_r by (rewrite length_fmap; lia).
      apply lookup_replicate_2. rewrite length_fmap. lia.
Qed.

Lemma wf_empty : wf (mkState (T := T) ∅ ∅ 0 []).
Proof.
  split; [|split]; fields.
  - intros b _. apply lookup_empty.
  - intros a v Hv. by rewrite lookup_empty in Hv.
  - intros a1 a2 v1 v2 b Hv. by rewrite lookup_empty in Hv.
Qed.

End Sequences.

(** ** Why a call throws *)

Section Causes.

Context {T : Type} {E : Env T}.
Implicit Types (h : gmap nat (list (slot T))) (blk P Q : list (slot T)).
Implicit Types (o : gmap nat Vector) (n : nat) (r : list ptr) (l xs : list T).
Implicit Types (v : Vector) (m : RawMemory) (s : state T).

(** A run that cannot throw returns. *)
Lemma runs_returns {A} (mA : M T A) s (Q : A → state T → Prop) X :
  runs mA s Q X → (∀ s', ¬ X s') → ∃ a s', mA s = Ok a s' ∧ Q a s'.
Proof.
  unfold runs. intros Hrun Hx. destruct (mA s) as [a s'|s'|]; [eauto| |done].
  by destruct (Hx s').
Qed.

(** Why a call that needs one more slot throws from state [s]: the arena of
    [v] is full and the allocation of the larger one is refused in [s], or
    a copy throws. *)
Definition growth_fails s v : Prop :=
  (size_ v = capacity_ (data_ v) ∧ refused s (grown v * sizeof_T))
  ∨ copy_may_throw.

Lemma runs_both {A} (mA : M T A) s (Q Q' : A → state T → Prop) X X' :
  runs mA s Q X → runs mA s Q' X' →
  runs mA s (λ a s', Q a s' ∧ Q' a s') (λ s', X s' ∧ X' s').
Proof. unfold runs. by destruct (mA s). Qed.

Lemma push_at o h n r this v l a :
  o !! this = Some v → rep h v l → unused_from h n →
  runs (push this a) (mkState o h n r)
    (λ _ s', ∃ b,
       holds_at s' this (l ++ [arg_value a]) b
                (if size_ v =? capacity_ (data_ v) then grown v
                 else capacity_ (data_ v)))
    (λ _, growth_fails (mkState o h n r) v).
Proof.
  intros Hv Hrep Hf.
  eapply runs_conseq;
    [apply runs_both; [by apply push_holds_at|by apply push_spec]| |].
  - by intros [] s' [? _].
  - by intros s' (_ & _ & _ & _ & ?).
Qed.

Lemma EmplaceBack_at o h n r this v l a :
  o !! this = Some v → rep h v l → unused_from h n →
  runs (EmplaceBack this a) (mkState o h n r)
    (λ p s', ∃ b,
       p = slot_ptr b (length l) ∧
       holds_at s' this (l ++ [arg_value a]) b
                (if size_ v =? capacity_ (data_ v) then grown v
                 else capacity_ (data_ v)))
    (λ _, growth_fails (mkState o h n r) v).
Proof.
  intros Hv Hrep Hf. unfold EmplaceBack. apply runs_bind.
  eapply runs_conseq; [by apply push_at| |done].
  intros [] [o' h' n' r'] Hpost. cbv beta in Hpost. destruct Hpost as (b & Hh).
  pose proof Hh as (v' & Hv' & Hrep' & _ & Hbuf & _). fields.
  destruct (rep_bounds _ _ _ Hrep') as (Hsz & Hcap & Hlen).
  rewrite length_app in Hlen. simpl in Hlen.
  eapply runs_step; [by apply load_eq|].
  eapply runs_step; [apply RawMemory_plus_eq; lia|].
  apply runs_ret. exists b. split; [|done]. rewrite Hbuf, Hlen. ptr_eq.
Qed.

(** The state in which [Emplace] evaluates the constructor arguments: with
    the new arena allocated (line 171), or with the elements shifted in the
    old one (lines 163 and 167). *)
Definition construction_state o h n r v l (i : nat) : state T :=
  if size_ v =? capacity_ (data_ v)
  then mkState o (<[n := replicate (Z.to_nat (grown v)) Raw]> h) (S n) r
  else mkState o (overwrite h (data_ v)
                    (before_construction l i (capacity_ (data_ v)))) n r.

Lemma Emplace_from_at mk x o h n r this v l i :
  o !! this = Some v → rep h v l → unused_from h n → (i ≤ length l)%nat →
  yields mk (construction_state o h n r v l i) x →
  runs (Emplace_from mk this (ptr_add (buffer_ (data_ v)) (Z.of_nat i)))
       (mkState o h n r)
    (λ p s', ∃ b,
       p = slot_ptr b i ∧
       holds_at s' this (inserted l i x) b
                (if size_ v =? capacity_ (data_ v) then grown v
                 else capacity_ (data_ v)))
    (λ _, growth_fails (mkState o h n r) v).
Proof.
  intros Hv Hrep Hf Hi Hmk. unfold construction_state in Hmk.
  destruct (rep_bounds _ _ _ Hrep) as (Hsz & Hcap & Hlen).
  destruct (size_ v =? capacity_ (data_ v)) eqn:Hfull.
  - apply Z.eqb_eq in Hfull.
    eapply runs_conseq; [by eapply Emplace_from_reallocates| |].
    + intros p s' (Hle & -> & ->). exists n. split; [done|].
      eexists. fields. split; [apply lookup_insert_eq|].
      replace (size_ v + 1) with (Z.of_nat (length (inserted l i x)))
        by (rewrite length_inserted; lia).
      split; [|split; [by apply unused_reallocated|done]].
      apply rep_reallocated; [unfold grown; lia|done|].
      rewrite length_inserted. unfold grown. lia.
    + intros s' (_ & _ & _ & [Href|Hc]); [by left|by right].
  - apply Z.eqb_neq in Hfull.
    destruct (rep_block _ _ _ Hrep ltac:(lia)) as (b & Hbuf & Hblk).
    unfold overwrite in Hmk. rewrite Hbuf in Hmk. simpl in Hmk.
    rewrite Hbuf, ptr_add_nat.
    eapply runs_conseq; [eapply Emplace_from_in_place; try done; lia| |].
    + intros p s' (-> & ->). exists b. split; [done|].
      eexists. fields. split; [apply lookup_insert_eq|].
      replace (size_ v + 1) with (Z.of_nat (length (inserted l i x)))
        by (rewrite length_inserted; lia).
      split; [|split; [|done]].
      * eapply rep_in_place; [done|]. rewrite length_inserted. lia.
      * destruct Hrep as (_ & _ & Har). by eapply unused_overwrite.
    + intros s' [_ Hc]. by right.
Qed.

Lemma Emplace_at o h n r this v l i a :
  o !! this = Some v → rep h v l → unused_from h n → (i ≤ length l)%nat →
  runs (Emplace this (ptr_add (buffer_ (data_ v)) (Z.of_nat i)) a) (mkState o h n r)
    (λ p s', ∃ b,
       p = slot_ptr b i ∧
       holds_at s' this (inserted l i (arg_value a)) b
                (if size_ v =? capacity_ (data_ v) then grown v
                 else capacity_ (data_ v)))
    (λ _, growth_fails (mkState o h n r) v).
Proof.
  intros Hv Hrep Hf Hi. unfold Emplace.
  by eapply Emplace_from_at; [..|apply make_yields].
Qed.

(** *** An argument that is an element in the heap *)

(** Every live slot of the block is still live when the new element is
    built. *)
Lemma before_construction_live l i (cap : Z) (j : nat) y :
  Z.of_nat (length l) < cap →
  block_of l cap !! j = Some (Live y) →
  ∃ x, before_construction l i cap !! j = Some (Live x).
Proof.
  intros Hroom Hj. unfold before_construction.
  destruct (l !! i) as [yi|] eqn:Hi; [|eauto].
  assert (j < length l)%nat as Hlt.
  { unfold block_of in Hj. destruct (decide (j < length l)%nat); [done|].
    rewrite lookup_app_r in Hj by (rewrite length_fmap; lia).
    apply lookup_replicate in Hj. by destruct Hj. }
  destruct (lookup_lt_is_Some_2 (inserted l i (moved_from yi)) j) as [x Hx].
  { rewrite length_inserted. lia. }
  exists x. by apply block_of_lookup_live.
Qed.

Lemma read_inv q s y :
  read q s = Ok y s →
  ∃ b blk, q = slot_ptr b (Z.to_nat (off q)) ∧ heap s !! b = Some blk ∧
           blk !! Z.to_nat (off q) = Some (Live y).
Proof.
  unfold read, slot_at. destruct q as [[b|] z]; simpl; [|done].
  destruct (heap s !! b) as [blk|] eqn:Hb; [|done].
  destruct (0 <=? z) eqn:Hz; [|done]. apply Z.leb_le in Hz.
  destruct (blk !! Z.to_nat z) as [[|x]|] eqn:Hx; try done.
  intros [= ->]. exists b, blk. split; [|done].
  unfold slot_ptr. f_equal. lia.
Qed.

(** An element that can be read before the call can be read when the new
    element is built; it is the same element unless it lies in the arena of
    the vector and the elements are shifted in place. *)
Lemma element_at_construction o h n r v l i q y :
  rep h v l → unused_from h n →
  read q (mkState o h n r) = Ok y (mkState o h n r) →
  ∃ x, read q (construction_state o h n r v l i)
       = Ok x (construction_state o h n r v l i) ∧
       (size_ v = capacity_ (data_ v) ∨ base q ≠ base (buffer_ (data_ v)) → x = y).
Proof.
  intros Hrep Hf Hq. unfold construction_state.
  destruct (rep_bounds _ _ _ Hrep) as (Hsz & Hcap & Hlen).
  destruct (read_inv _ _ _ Hq) as (bq & blk & Hqeq & Hblk & Hy). fields.
  rewrite Hqeq. rewrite Hqeq in Hq.
  destruct (size_ v =? capacity_ (data_ v)) eqn:Hfull.
  - exists y. split; [|done]. eapply read_block; [|done].
    rewrite lookup_insert_ne; [done|]. intros <-. rewrite Hf in Hblk; [done|lia].
  - apply Z.eqb_neq in Hfull.
    destruct (rep_block _ _ _ Hrep ltac:(lia)) as (b & Hbuf & Hb).
    unfold overwrite. rewrite Hbuf. simpl.
    destruct (decide (bq = b)) as [->|Hne].
    + rewrite Hb in Hblk. injection Hblk as <-.
      destruct (before_construction_live l i (capacity_ (data_ v)) _ y ltac:(lia) Hy)
        as (x & Hx).
      exists x. split; [eapply read_block; [apply lookup_insert_eq|done]|].
      intros [?|Hbase]; [lia|]. by destruct Hbase.
    + exists y. split; [eapply read_block; [by rewrite lookup_insert_ne|done]|done].
Qed.

Lemma Insert_element_at o h n r this v l i q y :
  o !! this = Some v → rep h v l → unused_from h n → (i ≤ length l)%nat →
  read q (mkState o h n r) = Ok y (mkState o h n r) →
  ∃ x, (size_ v = capacity_ (data_ v) ∨ base q ≠ base (buffer_ (data_ v)) → x = y) ∧
  runs (Insert_element this (ptr_add (buffer_ (data_ v)) (Z.of_nat i)) q)
       (mkState o h n r)
    (λ p s', ∃ b,
       p = slot_ptr b i ∧
       holds_at s' this (inserted l i x) b
                (if size_ v =? capacity_ (data_ v) then grown v
                 else capacity_ (data_ v)))
    (λ _, growth_fails (mkState o h n r) v).
Proof.
  intros Hv Hrep Hf Hi Hq.
  destruct (element_at_construction o h n r v l i q y Hrep Hf Hq) as (x & Hx & Hsame).
  exists x. split; [done|]. unfold Insert_element.
  eapply Emplace_from_at; try done. by apply read_yields.
Qed.

(** *** Sequences of [PushBack] and [PopBack] *)

(** The allocation of an arena of at most [k] elements is refused in some
    state. *)
Definition refused_up_to (k : Z) : Prop :=
  ∃ s c, 0 < c ≤ k ∧ refused s (c * sizeof_T).

Lemma refused_up_to_mono k k' : k ≤ k' → refused_up_to k → refused_up_to k'.
Proof. intros Hle (s & c & Hc & Href). exists s, c. split; [lia|done]. Qed.

Lemma pushes_nonneg (ops : list (stack_op T)) : 0 ≤ pushes ops.
Proof. induction ops as [|[x|x|] ops IH]; simpl; lia. Qed.

Lemma push_holds_cause s this l a :
  holds s this l →
  runs (push this a) s (λ _ s', holds s' this (l ++ [arg_value a]))
       (λ _, refused_up_to (Z.max 1 (2 * Z.of_nat (length l))) ∨ copy_may_throw).
Proof.
  destruct s as [o h n r]. intros (v & Hv & Hrep & Hf). fields.
  destruct (rep_bounds _ _ _ Hrep) as (Hsz & Hcap & Hlen).
  eapply runs_conseq; [by apply push_at| |].
  - intros [] s' (b & Hh). by eapply holds_at_holds.
  - intros s' [[Hfull Href]|Hc]; [left|by right].
    eexists _, (grown v). split; [|done]. unfold grown. lia.
Qed.

Lemma run_stack_ops_spec this (ops : list (stack_op T)) s l l' :
  holds s this l → stack_model l ops = Some l' →
  runs (run_stack_ops this ops) s (λ _ s', holds s' this l')
    (λ _, refused_up_to (Z.max 1 (2 * (Z.of_nat (length l) + pushes ops)))
          ∨ copy_may_throw).
Proof.
  revert s l. induction ops as [|op ops IH]; intros s l Hh Hm.
  - simpl in *. injection Hm as <-. done.
  - cbn [run_stack_ops]. apply runs_bind.
    pose proof (pushes_nonneg ops) as Hp.
    assert (Hpush : ∀ a, stack_model (l ++ [arg_value a]) ops = Some l' →
              runs (push this a) s
                (λ _ s1, runs (run_stack_ops this ops) s1 (λ _ s', holds s' this l')
                   (λ _, refused_up_to
                           (Z.max 1 (2 * (Z.of_nat (length l) + (1 + pushes ops))))
                         ∨ copy_may_throw))
                (λ _, refused_up_to
                        (Z.max 1 (2 * (Z.of_nat (length l) + (1 + pushes ops))))
                      ∨ copy_may_throw)).
    { intros a Hm'. eapply runs_conseq; [by apply push_holds_cause| |].
      - intros [] s' Hs'. eapply runs_conseq; [by eapply IH|done|].
        intros s'' [Href|Hc]; [left|by right].
        eapply refused_up_to_mono; [|done].
        rewrite length_app. simpl. lia.
      - intros s' [Href|Hc]; [left|by right].
        eapply refused_up_to_mono; [|done]. lia. }
    destruct op as [x|x|]; simpl in Hm; cbn [run_stack_op pushes].
    + by apply (Hpush (CopyOf x)).
    + by apply (Hpush (MoveOf x)).
    + destruct l as [|y l]; [done|].
      pose proof (app_removelast_last y (l := y :: l) ltac:(done)) as Hlast.
      rewrite Hlast in Hh.
      destruct (PopBack_holds _ _ _ _ Hh) as (s' & Hpop & Hs').
      eapply runs_eq; [done|].
      eapply runs_conseq; [by eapply IH|done|].
      intros s'' [Href|Hc]; [left|by right].
      eapply refused_up_to_mono; [|done].
      apply (f_equal length) in Hlast. rewrite length_app in Hlast.
      simpl in Hlast. simpl. lia.
Qed.

End Causes.

(** * The properties of the specification *)

(** ** An element type to run the code on *)

Lemma int_size_max : 4 ≤ PTRDIFF_MAX.
Proof. by vm_compute. Qed.

(** The element type of the examples: a class of four bytes that holds one
    [int] and gives it a default member initialiser,
    [struct Int { int value = 0; };].  It is trivially copyable, so a move
    is a copy and leaves its source as it is, and no constructor throws;
    value-initialisation and default-initialisation both give 0.  The
    allocator serves every request up to [PTRDIFF_MAX]. *)
#[export] Instance int_env : Env Z := {|
  sizeof_T := 4;
  sizeof_T_pos := eq_refl;
  sizeof_T_max := int_size_max;
  relocate_by_move := true;
  moved_from := λ x, x;
  value_init := 0;
  default_init := 0;
  init_throws := λ _, false;
  copy_throws := λ _ _, false;
  alloc_fails := λ _ _, false
|}.

(** With these elements nothing throws as long as the arenas stay within
    [PTRDIFF_MAX] bytes. *)
Lemma int_copies : ¬ copy_may_throw (E := int_env).
Proof. by intros (s & x & Hc). Qed.

Lemma int_inits : ¬ init_may_throw (E := int_env).
Proof. by intros (s & Hc). Qed.

Lemma int_allocates (s : state Z) (bytes : Z) :
  bytes ≤ PTRDIFF_MAX → ¬ refused s bytes.
Proof. intros Hle [Hbig|Hfail]; [lia|done]. Qed.

Lemma int_grows (s : state Z) (v : Vector) :
  grown v * 4 ≤ PTRDIFF_MAX → ¬ growth_fails s v.
Proof.
  intros Hle [[_ Href]|Hc]; [by eapply int_allocates|by apply int_copies].
Qed.

Lemma int_refused_up_to (k : Z) : k * 4 ≤ PTRDIFF_MAX → ¬ refused_up_to k.
Proof.
  intros Hle (s & c & Hc & Href). eapply int_allocates; [|done].
  change (sizeof_T (T := Z)) with 4. lia.
Qed.

(** A default-constructed vector at address 7, on an empty heap. *)
Definition one_empty_vector : state Z :=
  mkState {[ 7%nat := mkVector RawMemory_default 0 ]} ∅ 0 [].

(** ** C8: sequences of [PushBack] and [PopBack] *)

(** C8.  For every sequence of [PushBack] (either overload) and [PopBack] run
    on a well-formed vector holding [l], with [PopBack] only met when the
    vector is not empty ([stack_model l ops = Some l']): the run does not
    fault.  When it returns, [Size()] is the initial size plus the number
    of pushes minus the number of pops, and reading index [i] gives what the
    list [l'] has at [i], where [l'] is [l] after the same pushes at the back
    and removals of the last element.  It throws only if a copy of an
    element throws, or if the allocation of an arena of at most
    [max(1, 2 * (size + pushes))] elements is refused: where neither can
    happen, it returns. *)
Theorem push_pop_sequence {T} {E : Env T} (this : nat) (ops : list (stack_op T))
    o h n r v (l l' : list T) :
  o !! this = Some v → rep h v l → unused_from h n →
  stack_model l ops = Some l' →
  runs (run_stack_ops this ops) (mkState o h n r)
    (λ _ s',
       Size this s' = Ok (size_ v + pushes ops - pops ops) s' ∧
       ∀ (i : nat) x, l' !! i = Some x →
         (let! p := index this (Z.of_nat i) in read p) s' = Ok x s')
    (λ _, refused_up_to (Z.max 1 (2 * (size_ v + pushes ops))) ∨ copy_may_throw).
Proof.
  intros Hv Hrep Hf Hm.
  destruct (rep_bounds _ _ _ Hrep) as (Hsz & Hcap & Hlen).
  eapply runs_conseq; [eapply run_stack_ops_spec; [|exact Hm]| |].
  - exists v. by fields.
  - intros [] s' Hs'. split.
    + rewrite (holds_Size _ _ _ Hs'). do 2 f_equal.
      rewrite Hlen. by apply stack_model_length.
    + intros i x Hi. by eapply holds_read.
  - intros s'. by rewrite Hlen.
Qed.

(** Two pushes, a pop and a push on the empty vector return and leave
    [[1; 3]]. *)
Lemma push_pop_sequence_witness :
  ∃ s', run_stack_ops 7 [Push 1; Push 2; Pop; PushRvalue 3] one_empty_vector
        = Ok tt s' ∧
        Size (T := Z) 7 s' = Ok (0 + 3 - 1) s' ∧
        ∀ (i : nat) x, [1; 3] !! i = Some x →
          (let! p := index 7 (Z.of_nat i) in read p) s' = Ok x s'.
Proof.
  assert (Hrun : runs (run_stack_ops 7 [Push 1; Push 2; Pop; PushRvalue 3])
                   one_empty_vector
                   (λ _ s',
                      Size (T := Z) 7 s' = Ok (0 + 3 - 1) s' ∧
                      ∀ (i : nat) x, [1; 3] !! i = Some x →
                        (let! p := index 7 (Z.of_nat i) in read p) s' = Ok x s')
                   (λ _, refused_up_to (Z.max 1 (2 * (0 + 3))) ∨ copy_may_throw)).
  { apply (push_pop_sequence 7
             [Push 1; Push 2; Pop; PushRvalue 3]
             _ _ _ _ (mkVector RawMemory_default 0) [] [1; 3]).
    - reflexivity.
    - apply rep_empty.
    - intros b _. reflexivity.
    - reflexivity. }
  destruct (runs_returns _ _ _ _ Hrun) as ([] & s' & Heq & Hpost).
  - intros s' [Href|Hc]; [|by apply int_copies].
    revert Href. apply int_refused_up_to. by vm_compute.
  - by exists s'.
Defined.

(** A vector at address 7 holding [10; 20] in an arena of capacity 4, and
    one holding [10; 20] in an arena of capacity 2. *)
Definition two_of_four : state Z :=
  mkState {[ 7%nat := mkVector (mkRawMemory (slot_ptr 2 0) 4) 2 ]}
          {[ 2%nat := [Live 10; Live 20; Raw; Raw] ]} 3 [].

Definition two_of_two : state Z :=
  mkState {[ 7%nat := mkVector (mkRawMemory (slot_ptr 2 0) 2) 2 ]}
          {[ 2%nat := [Live 10; Live 20] ]} 3 [].

Lemma two_of_four_rep :
  rep (heap two_of_four) (mkVector (mkRawMemory (slot_ptr 2 0) 4) 2)
      [10; 20].
Proof.
  unfold rep, arena. simpl. repeat split; try reflexivity; try discriminate.
  exists 2%nat. split; reflexivity.
Qed.

Lemma two_of_four_fresh : unused_from (heap two_of_four) 3.
Proof. apply unused_check. by vm_compute. Qed.

Lemma two_of_two_fresh : unused_from (heap two_of_two) 3.
Proof. apply unused_check. by vm_compute. Qed.

Lemma two_of_two_rep :
  rep (heap two_of_two) (mkVector (mkRawMemory (slot_ptr 2 0) 2) 2)
      [10; 20].
Proof.
  unfold rep, arena. simpl. repeat split; try reflexivity; try discriminate.
  exists 2%nat. split; reflexivity.
Qed.

(** ** C3: the growth policy *)

(** After the call the vector at [this] has capacity [c], and its arena is a
    block of exactly [c] slots. *)
Definition adopted {T} (s' : state T) (this : nat) (c : Z) : Prop :=
  ∃ v' b blk,
    objs s' !! this = Some v' ∧ capacity_ (data_ v') = c ∧
    buffer_ (data_ v') = slot_ptr b 0 ∧
    heap s' !! b = Some blk ∧ Z.of_nat (length blk) = c.

Lemma holds_at_adopted {T} {E : Env T} (s' : state T) this l b c :
  holds_at s' this l b c → 0 < c → adopted s' this c.
Proof.
  intros Hh Hc. destruct (holds_at_block _ _ _ _ _ Hh Hc) as (blk & Hblk & Hlen).
  destruct Hh as (v' & Hv' & _ & _ & Hbuf & Hcap).
  by exists v', b, blk.
Qed.

(** C3.  On a well-formed vector whose size equals its capacity, each of
    [PushBack] (both overloads), [EmplaceBack], [Emplace] and [Insert] (both
    overloads, and [Insert] of a copy of an element in the heap, at any
    position of [[0, size]]) ends with the vector owning an arena of
    capacity [c = max(1, 2 * capacity)]: 1 from capacity 0, twice the
    capacity otherwise.  None of them faults, and each throws only if the
    allocation of the [c * sizeof(T)] bytes is refused in the state of the
    call, or a copy of an element throws: otherwise it returns. *)
Theorem growth_policy {T} {E : Env T} o h n r this v (l : list T) :
  o !! this = Some v → rep h v l → unused_from h n →
  size_ v = capacity_ (data_ v) →
  let c := Z.max 1 (2 * capacity_ (data_ v)) in
  let s := mkState o h n r in
  let pos (i : nat) := ptr_add (buffer_ (data_ v)) (Z.of_nat i) in
  let cause := refused s (c * sizeof_T) ∨ copy_may_throw in
  (∀ x, runs (PushBack this x) s (λ _ s', adopted s' this c) (λ _, cause)) ∧
  (∀ x, runs (PushBack_rvalue this x) s (λ _ s', adopted s' this c) (λ _, cause)) ∧
  (∀ a, runs (EmplaceBack this a) s (λ _ s', adopted s' this c) (λ _, cause)) ∧
  (∀ i a, (i ≤ length l)%nat →
     runs (Emplace this (pos i) a) s (λ _ s', adopted s' this c) (λ _, cause)) ∧
  (∀ i x, (i ≤ length l)%nat →
     runs (Insert this (pos i) x) s (λ _ s', adopted s' this c) (λ _, cause)) ∧
  (∀ i x, (i ≤ length l)%nat →
     runs (Insert_rvalue this (pos i) x) s (λ _ s', adopted s' this c) (λ _, cause)) ∧
  (∀ i q y, (i ≤ length l)%nat → read q s = Ok y s →
     runs (Insert_element this (pos i) q) s (λ _ s', adopted s' this c) (λ _, cause)) ∧
  (capacity_ (data_ v) = 0 → c = 1) ∧
  (capacity_ (data_ v) ≠ 0 → c = 2 * capacity_ (data_ v)).
Proof.
  intros Hv Hrep Hf Hfull c s pos cause.
  destruct (rep_bounds _ _ _ Hrep) as (Hsz & Hcap & Hlen).
  assert (Hc : 0 < c) by (unfold c; lia).
  assert (Hcause : ∀ s' : state T, growth_fails s v → cause).
  { intros _ [[_ Href]|Hcp]; [by left|by right]. }
  assert (Hpush : ∀ a, runs (push this a) s (λ _ s', adopted s' this c) (λ _, cause)).
  { intros a. eapply runs_conseq; [by apply push_at| |exact Hcause].
    intros [] s' (b & Hh). rewrite (proj2 (Z.eqb_eq _ _) Hfull) in Hh.
    by eapply holds_at_adopted. }
  assert (Hemp : ∀ i a, (i ≤ length l)%nat →
            runs (Emplace this (pos i) a) s (λ _ s', adopted s' this c) (λ _, cause)).
  { intros i a Hi.
    eapply runs_conseq; [by apply Emplace_at| |exact Hcause].
    intros p s' (b & _ & Hh). rewrite (proj2 (Z.eqb_eq _ _) Hfull) in Hh.
    by eapply holds_at_adopted. }
  split; [intros x; apply Hpush|]. split; [intros x; apply Hpush|].
  split.
  { intros a.
    eapply runs_conseq; [by apply EmplaceBack_at| |exact Hcause].
    intros p s' (b & _ & Hh). rewrite (proj2 (Z.eqb_eq _ _) Hfull) in Hh.
    by eapply holds_at_adopted. }
  split; [exact Hemp|]. split; [intros i x; apply Hemp|].
  split; [intros i x; apply Hemp|].
  split; [|unfold c; lia].
  intros i q y Hi Hq.
  destruct (Insert_element_at o h n r this v l i q y Hv Hrep Hf Hi Hq) as (x & _ & Hrun).
  eapply runs_conseq; [exact Hrun| |exact Hcause].
  intros p s' (b & _ & Hh). rewrite (proj2 (Z.eqb_eq _ _) Hfull) in Hh.
  by eapply holds_at_adopted.
Qed.

(** On a full vector of capacity 2, [PushBack] and [Emplace] in the middle
    return, with an arena of capacity 4. *)
Lemma growth_policy_witness :
  (∃ s', PushBack 7 30 two_of_two = Ok tt s' ∧ adopted s' 7 4) ∧
  (∃ p s', Emplace 7 (slot_ptr 2 1) (CopyOf 99) two_of_two = Ok p s' ∧
           adopted s' 7 4).
Proof.
  pose proof (growth_policy
                (objs two_of_two) (heap two_of_two) (next two_of_two) []
                7%nat (mkVector (mkRawMemory (slot_ptr 2 0) 2) 2) [10; 20]
                eq_refl two_of_two_rep
                two_of_two_fresh eq_refl)
    as (Hpush & _ & _ & Hemplace & _).
  assert (Hnever : ∀ s' : state Z,
            ¬ (refused two_of_two (Z.max 1 (2 * 2) * 4) ∨ copy_may_throw)).
  { intros _ [Href|Hc]; [|by apply int_copies].
    revert Href. apply int_allocates. by vm_compute. }
  split.
  - destruct (runs_returns _ _ _ _ (Hpush 30) Hnever) as ([] & s' & Heq & Hpost).
    by exists s'.
  - destruct (runs_returns _ _ _ _ (Hemplace 1%nat (CopyOf 99) ltac:(simpl; lia))
                Hnever) as (p & s' & Heq & Hpost).
    by exists p, s'.
Defined.

(** ** C5: [Insert] followed by [Erase] at the same position *)

(** What a caller sees of the elements: [Size()] and every [v[j]]. *)
Definition elements_are {T} {E : Env T} (s : state T) (this : nat) (l : list T) : Prop :=
  Size this s = Ok (Z.of_nat (length l)) s ∧
  ∀ (j : nat) y, l !! j = Some y →
    (let! p := index this (Z.of_nat j) in read p) s = Ok y s.

Lemma rep_elements_are {T} {E : Env T} (s : state T) this v l :
  objs s !! this = Some v → rep (heap s) v l → elements_are s this l.
Proof.
  destruct s as [o h n r]. intros Hv Hrep. fields. split.
  - erewrite Size_eq by done. by destruct Hrep as (-> & _).
  - intros j y Hj. by eapply index_read.
Qed.

Lemma holds_elements_are {T} {E : Env T} (s : state T) this l :
  holds s this l → elements_are s this l.
Proof. intros (v & Hv & Hrep & _). by eapply rep_elements_are. Qed.

(** C5.  On a well-formed vector holding [l], for every position [i] of
    [[0, size]]: [Insert] at [begin() + i] (either overload, [Emplace] with
    any argument, or [Insert] of a copy of an element in the heap, which may
    be an element of the vector itself) followed by [Erase] at the iterator
    it returned does not fault, and when it returns the vector is well
    formed, has the original size, and its element at every index is the
    original one.  The pair throws only if the insertion needs a larger
    arena whose allocation is refused in the state of the call, or a copy
    of an element throws: otherwise it returns.  ([Erase] moves elements,
    and the moves of the element types covered do not throw.) *)
Theorem insert_then_erase {T} {E : Env T} o h n r this v (l : list T) (i : nat) :
  o !! this = Some v → rep h v l → unused_from h n → (i ≤ length l)%nat →
  let s := mkState o h n r in
  let pos := ptr_add (buffer_ (data_ v)) (Z.of_nat i) in
  let restored (s' : state T) :=
    elements_are s' this l ∧ Size this s' = Ok (size_ v) s' ∧ holds s' this l in
  let cause :=
    (size_ v = capacity_ (data_ v) ∧
     refused s (Z.max 1 (2 * capacity_ (data_ v)) * sizeof_T))
    ∨ copy_may_throw in
  (∀ x, runs (let! it := Insert this pos x in Erase this it) s
          (λ _ s', restored s') (λ _, cause)) ∧
  (∀ x, runs (let! it := Insert_rvalue this pos x in Erase this it) s
          (λ _ s', restored s') (λ _, cause)) ∧
  (∀ a, runs (let! it := Emplace this pos a in Erase this it) s
          (λ _ s', restored s') (λ _, cause)) ∧
  (∀ q y, read q s = Ok y s →
     runs (let! it := Insert_element this pos q in Erase this it) s
          (λ _ s', restored s') (λ _, cause)).
Proof.
  intros Hv Hrep Hf Hi s pos restored cause.
  assert (Hback : ∀ (m : M T ptr) x c,
            runs m s (λ p s', ∃ b, p = slot_ptr b i ∧
                                   holds_at s' this (inserted l i x) b c)
                 (λ _, growth_fails s v) →
            runs (let! it := m in Erase this it) s (λ _ s', restored s')
                 (λ _, cause)).
  { intros m x c Hm. apply runs_bind.
    eapply runs_conseq; [exact Hm| |done].
    intros p s1 (b & -> & Hh). unfold inserted in Hh.
    destruct (Erase_holds_at _ _ _ _ _ _ _ Hh) as (s' & Hrun & Hh').
    rewrite length_take, Nat.min_l in Hrun by done.
    eapply runs_eq; [exact Hrun|].
    rewrite take_drop in Hh'. apply holds_at_holds in Hh'.
    pose proof (holds_elements_are _ _ _ Hh') as Hel.
    repeat split; try done; try apply Hel.
    destruct Hrep as (-> & _). apply Hel. }
  assert (Hall : ∀ a, runs (let! it := Emplace this pos a in Erase this it) s
                        (λ _ s', restored s') (λ _, cause)).
  { intros a. eapply Hback. by apply Emplace_at. }
  split; [intros x; apply Hall|]. split; [intros x; apply Hall|].
  split; [exact Hall|].
  intros q y Hq.
  destruct (Insert_element_at o h n r this v l i q y Hv Hrep Hf Hi Hq) as (x & _ & Hrun).
  eapply Hback. exact Hrun.
Qed.

(** With room left and an insertion in the middle, the pair returns, and so
    it does when the value inserted is the second element of the vector
    itself. *)
Lemma insert_then_erase_witness :
  (∃ p s', (let! it := Insert 7 (slot_ptr 2 1) 99 in Erase 7 it) two_of_four
           = Ok p s' ∧
           elements_are s' 7 [10; 20] ∧ Size 7 s' = Ok 2 s' ∧ holds s' 7 [10; 20]) ∧
  (∃ p s', (let! it := Insert_element 7 (slot_ptr 2 0) (slot_ptr 2 1) in Erase 7 it)
             two_of_four
           = Ok p s' ∧
           elements_are s' 7 [10; 20] ∧ Size 7 s' = Ok 2 s' ∧ holds s' 7 [10; 20]).
Proof.
  pose proof (insert_then_erase
                (objs two_of_four) (heap two_of_four) (next two_of_four) []
                7%nat (mkVector (mkRawMemory (slot_ptr 2 0) 4) 2) [10; 20])
    as Hthm.
  assert (Hnever : ∀ s' : state Z,
            ¬ ((2 = 4 ∧ refused two_of_four (Z.max 1 (2 * 4) * 4)) ∨ copy_may_throw)).
  { intros _ [[Hfull _]|Hc]; [done|by apply int_copies]. }
  split.
  - destruct (Hthm 1%nat eq_refl two_of_four_rep two_of_four_fresh ltac:(simpl; lia))
      as (Hinsert & _).
    destruct (runs_returns _ _ _ _ (Hinsert 99) Hnever) as (p & s' & Heq & Hpost).
    exists p, s'. split; [exact Heq|exact Hpost].
  - destruct (Hthm 0%nat eq_refl two_of_four_rep two_of_four_fresh ltac:(simpl; lia))
      as (_ & _ & _ & Helement).
    destruct (runs_returns _ _ _ _ (Helement (slot_ptr 2 1) 20 eq_refl) Hnever)
      as (p & s' & Heq & Hpost).
    exists p, s'. split; [exact Heq|exact Hpost].
Defined.

(** ** C10: the iterators and the reference returned *)

(** C10.  On a well-formed vector holding [l]:
    - [Emplace] (hence both [Insert] overloads) at [begin() + i], with
      [i ≤ size] and an argument outside the heap, returns [begin() + i] of
      the vector as it is after the call, and the element there is the new
      one, built from the argument;
    - [Insert] at [begin() + i] of a copy of an element in the heap returns
      [begin() + i] of the vector as it is after the call, and there is a
      live element there: a copy of the element given, if it lies outside
      the arena of the vector or the arena is replaced;
    - [Erase] at [begin() + i], where [l = l1 ++ y :: l2] and [i] is the
      length of [l1], returns [begin() + i]: that is [end()] when [y] was the
      last element, and otherwise the address of the element that followed
      [y] (the moves of the element types covered do not throw, so [Erase]
      always returns);
    - [EmplaceBack] returns the address of slot [Size() - 1] of the vector as
      it is after the call, and the element there is the new one.
    [Emplace], [Insert] and [EmplaceBack] throw only if the arena is full
    and the allocation of the larger one is refused in the state of the
    call, or a copy of an element throws: otherwise they return. *)
Theorem returned_positions {T} {E : Env T} o h n r this v (l : list T) :
  o !! this = Some v → rep h v l → unused_from h n →
  let s := mkState o h n r in
  let pos (i : nat) := ptr_add (buffer_ (data_ v)) (Z.of_nat i) in
  let cause :=
    (size_ v = capacity_ (data_ v) ∧
     refused s (Z.max 1 (2 * capacity_ (data_ v)) * sizeof_T))
    ∨ copy_may_throw in
  (∀ (i : nat) a, (i ≤ length l)%nat →
     runs (Emplace this (pos i) a) s
       (λ p s', ∃ b, begin_ this s' = Ok b s' ∧ p = ptr_add b (Z.of_nat i) ∧
                     read p s' = Ok (arg_value a) s')
       (λ _, cause)) ∧
  (∀ (i : nat) q y, (i ≤ length l)%nat → read q s = Ok y s →
     runs (Insert_element this (pos i) q) s
       (λ p s', ∃ b x, begin_ this s' = Ok b s' ∧ p = ptr_add b (Z.of_nat i) ∧
                       read p s' = Ok x s' ∧
                       (size_ v = capacity_ (data_ v) ∨
                        base q ≠ base (buffer_ (data_ v)) → x = y))
       (λ _, cause)) ∧
  (∀ l1 y l2, l = l1 ++ y :: l2 →
     ∃ s' b, Erase this (pos (length l1)) s
             = Ok (ptr_add b (Z.of_nat (length l1))) s' ∧
             begin_ this s' = Ok b s' ∧
             match l2 with
             | [] => end_ this s' = Ok (ptr_add b (Z.of_nat (length l1))) s'
             | z :: _ => read (ptr_add b (Z.of_nat (length l1))) s' = Ok z s'
             end) ∧
  (∀ a, runs (EmplaceBack this a) s
       (λ p s', ∃ b k, begin_ this s' = Ok b s' ∧ Size this s' = Ok k s' ∧
                       k = size_ v + 1 ∧ p = ptr_add b (k - 1) ∧
                       read p s' = Ok (arg_value a) s')
       (λ _, cause)).
Proof.
  intros Hv Hrep Hf s pos cause.
  destruct (rep_bounds _ _ _ Hrep) as (Hsz & Hcap & Hlen).
  split; [|split; [|split]].
  - intros i a Hi.
    eapply runs_conseq; [by apply Emplace_at| |done].
    intros p s' (b & -> & Hh). exists (slot_ptr b 0).
    split; [by eapply holds_at_begin|]. rewrite ptr_add_nat. split; [done|].
    eapply holds_at_read; [done|]. by apply inserted_lookup.
  - intros i q y Hi Hq.
    destruct (Insert_element_at o h n r this v l i q y Hv Hrep Hf Hi Hq)
      as (x & Hsame & Hrun).
    eapply runs_conseq; [exact Hrun| |done].
    intros p s' (b & -> & Hh). exists (slot_ptr b 0), x.
    split; [by eapply holds_at_begin|]. rewrite ptr_add_nat. split; [done|].
    split; [|done].
    eapply holds_at_read; [done|]. by apply inserted_lookup.
  - intros l1 y l2 ->.
    rewrite length_app in Hlen. simpl in Hlen.
    destruct (rep_block _ _ _ Hrep ltac:(lia)) as (b & Hbuf & Hblk).
    assert (Hh : holds_at s this (l1 ++ y :: l2) b (capacity_ (data_ v))).
    { by exists v. }
    destruct (Erase_holds_at _ _ _ _ _ _ _ Hh) as (s' & Hrun & Hh').
    exists s', (slot_ptr b 0). unfold pos. rewrite Hbuf, ptr_add_nat.
    split; [done|]. split; [by eapply holds_at_begin|].
    destruct l2 as [|z l2].
    + rewrite (holds_at_end _ _ _ _ _ Hh'). by rewrite app_nil_r.
    + eapply holds_at_read; [done|]. by apply list_lookup_middle.
  - intros a.
    eapply runs_conseq; [by apply EmplaceBack_at| |done].
    intros p s' (b & -> & Hh). exists (slot_ptr b 0), (size_ v + 1).
    split; [by eapply holds_at_begin|].
    split.
    { rewrite (holds_Size _ _ _ (holds_at_holds _ _ _ _ _ Hh)).
      rewrite length_app. simpl. do 2 f_equal. lia. }
    split; [done|]. split; [rewrite Hlen; ptr_eq|].
    eapply holds_at_read; [done|]. by apply list_lookup_middle.
Qed.

(** On a vector holding [10; 20] in an arena of capacity 4, [Emplace] of 99
    at position 1 returns [begin() + 1], where 99 is; [Insert] at position
    0 of the second element of the vector returns [begin()], where a live
    element is; [Erase] of the last element returns [end()]. *)
Lemma returned_positions_witness :
  (∃ p s' b, Emplace 7 (slot_ptr 2 1) (CopyOf 99) two_of_four = Ok p s' ∧
             begin_ 7 s' = Ok b s' ∧ p = ptr_add b 1 ∧ read p s' = Ok 99 s') ∧
  (∃ p s' b x, Insert_element 7 (slot_ptr 2 0) (slot_ptr 2 1) two_of_four = Ok p s' ∧
               begin_ 7 s' = Ok b s' ∧ p = ptr_add b 0 ∧ read p s' = Ok x s') ∧
  (∃ s' b, Erase 7 (slot_ptr 2 1) two_of_four
           = Ok (ptr_add b 1) s' ∧ begin_ 7 s' = Ok b s' ∧
           end_ 7 s' = Ok (ptr_add b 1) s').
Proof.
  pose proof (returned_positions
                (objs two_of_four) (heap two_of_four) (next two_of_four) []
                7%nat (mkVector (mkRawMemory (slot_ptr 2 0) 4) 2) [10; 20]
                eq_refl two_of_four_rep two_of_four_fresh)
    as (Hemplace & Helement & Herase & _).
  assert (Hnever : ∀ s' : state Z,
            ¬ ((2 = 4 ∧ refused two_of_four (Z.max 1 (2 * 4) * 4)) ∨ copy_may_throw)).
  { intros _ [[Hfull _]|Hc]; [done|by apply int_copies]. }
  split; [|split].
  - destruct (runs_returns _ _ _ _
                (Hemplace 1%nat (CopyOf 99) ltac:(simpl; lia)) Hnever)
      as (p & s' & Heq & b & Hpost).
    exists p, s', b. split; [exact Heq|exact Hpost].
  - destruct (runs_returns _ _ _ _
                (Helement 0%nat (slot_ptr 2 1) 20 ltac:(simpl; lia) eq_refl) Hnever)
      as (p & s' & Heq & b & x & Hbegin & Hp & Hread & _).
    exists p, s', b, x. split; [exact Heq|]. split; [exact Hbegin|].
    split; [exact Hp|exact Hread].
  - exact (Herase [10] 20 [] eq_refl).
Defined.

(** ** C1: [Reserve] *)

Lemma length_raw_part {T} {E : Env T} (h : gmap nat (list (slot T))) v l :
  rep h v l → Z.of_nat (length (raw_part v)) = capacity_ (data_ v) - size_ v.
Proof.
  intros Hrep. destruct (rep_bounds _ _ _ Hrep) as (Hsz & Hcap & Hlen).
  unfold raw_part. destruct (decide (capacity_ (data_ v) = 0)) as [Hz|Hnz].
  - destruct (rep_null _ _ _ Hrep Hz) as (-> & _). simpl. lia.
  - destruct (rep_block _ _ _ Hrep Hnz) as (b & -> & _). simpl.
    rewrite length_fmap, length_seq. lia.
Qed.

(** C1.  On a well-formed vector holding [l], [Reserve(c)] with [c] above
    the capacity (and [c * sizeof(T)] within [size_t]) does not fault and,
    unless the allocation is refused or a copy throws, ends with a new arena
    of exactly [c] slots that holds the same elements, the size unchanged and
    the old arena released.  But the destructor was run on every slot of the
    old arena: [raw_destroyed] has grown by the [capacity - size] raw slots
    [[size, capacity)], because line 274 destroys [data_.Capacity()] elements
    where the sibling paths (lines 174, 337, 352, 373) destroy [size_]. *)
Theorem reserve_destroys_whole_arena {T} {E : Env T} o h n r this v (l : list T) c :
  o !! this = Some v → rep h v l → unused_from h n →
  capacity_ (data_ v) < c → c * sizeof_T < size_t_modulus →
  runs (Reserve this c) (mkState o h n r)
    (λ _ s',
       adopted s' this c ∧ holds s' this l ∧ Size this s' = Ok (size_ v) s' ∧
       (∀ b, base (buffer_ (data_ v)) = Some b → heap s' !! b = None) ∧
       raw_destroyed s' = r ++ raw_part v ∧
       Z.of_nat (length (raw_part v)) = capacity_ (data_ v) - size_ v)
    (λ s', objs s' = o ∧ heap s' = h ∧ raw_destroyed s' = r ∧ failure).
Proof.
  intros Hv Hrep Hf Hc Hsmall.
  destruct (rep_bounds _ _ _ Hrep) as (Hsz & Hcap & Hlen).
  eapply runs_conseq; [by apply Reserve_spec| |].
  - intros [] s' (Hle & ->).
    assert (Hh : holds_at
                   (mkState (<[this := mkVector (mkRawMemory (slot_ptr n 0) c) (size_ v)]> o)
                            (<[n := block_of l c]> (release h (data_ v))) (S n)
                            (r ++ raw_part v)) this l n c).
    { eexists. fields. split; [apply lookup_insert_eq|]. rewrite Hlen.
      split; [apply rep_reallocated; lia|].
      split; [by apply unused_reallocated|done]. }
    split; [eapply holds_at_adopted; [done|lia]|].
    split; [by eapply holds_at_holds|].
    split.
    { rewrite (holds_Size _ _ _ (holds_at_holds _ _ _ _ _ Hh)). by rewrite Hlen. }
    split; [|split; [done|by eapply length_raw_part]].
    intros b Hb. fields. unfold release. rewrite Hb.
    rewrite lookup_insert_ne; [apply lookup_delete_eq|].
    intros <-. destruct (rep_block _ _ _ Hrep) as (b' & Hbuf & Hblk).
    { intros Hz. destruct (rep_null _ _ _ Hrep Hz) as (Hnull & _).
      by rewrite Hnull in Hb. }
    rewrite Hbuf in Hb. injection Hb as <-.
    rewrite Hf in Hblk; [done|lia].
  - intros s' (? & ? & ? & [Href|Hcp]); repeat split; try done; [left|right]; eauto.
Qed.

Lemma reserve_destroys_whole_arena_witness :
  runs (Reserve 7 10) two_of_four
       (λ _ s', raw_destroyed s' = [slot_ptr 2 2; slot_ptr 2 3])
       (λ _, failure).
Proof.
  eapply runs_conseq.
  - apply (reserve_destroys_whole_arena
             (objs two_of_four) (heap two_of_four) (next two_of_four) []
             7%nat (mkVector (mkRawMemory (slot_ptr 2 0) 4) 2) [10; 20] 10
             eq_refl two_of_four_rep two_of_four_fresh eq_refl eq_refl).
  - intros _ s' (_ & _ & _ & _ & Hlog & _). exact Hlog.
  - intros s' (_ & _ & _ & Hfail). exact Hfail.
Defined.

(** The run itself, on a vector of two [int]s in an arena of capacity 4:
    slots 2 and 3 of the old arena, which held nothing, were destroyed. *)
Example reserve_two_of_four :
  Reserve 7 10 two_of_four
  = Ok tt (mkState {[ 7%nat := mkVector (mkRawMemory (slot_ptr 3 0) 10) 2 ]}
                   {[ 3%nat := [Live 10; Live 20; Raw; Raw; Raw; Raw; Raw; Raw; Raw; Raw] ]}
                   4 [slot_ptr 2 2; slot_ptr 2 3]).
Proof. by vm_compute. Qed.

(** ** C2: moving an arena *)

(** The claim as it is stated: after a move construction and after a move
    assignment the source is empty. *)
Definition transfer_empties_source : Prop :=
  (∀ other, snd (RawMemory_move other) = RawMemory_default) ∧
  (∀ this rhs, snd (RawMemory_move_assign this rhs) = RawMemory_default).

(** Move assignment into an arena that owns a block leaves the source with
    that block: lines 25-28 swap. *)
Lemma move_assign_source_not_empty : ¬ transfer_empties_source.
Proof.
  intros [_ Hassign].
  specialize (Hassign (mkRawMemory (slot_ptr 1 0) 2) (mkRawMemory (slot_ptr 2 0) 4)).
  discriminate Hassign.
Qed.

(** C2, amended.  Move construction leaves the source empty (capacity 0,
    null handle) and gives its block to the new arena.  Move assignment
    exchanges the two arenas: the source ends with what the destination
    held, so it is empty exactly when the destination was.  In both cases
    each block is still held by exactly one of the two arenas: destroying
    both releases each block once and does not fault. *)
Theorem arena_transfer {T} {E : Env T} (this other : RawMemory) :
  RawMemory_move other = (other, RawMemory_default) ∧
  RawMemory_move_assign this other = (other, this) ∧
  (snd (RawMemory_move_assign this other) = RawMemory_default
   ↔ this = RawMemory_default) ∧
  ∀ o (h : gmap nat (list (slot T))) n r blk blk',
    arena h this blk → arena h other blk' →
    (capacity_ this ≠ 0 → buffer_ this ≠ buffer_ other) →
    (RawMemory_dtor (snd (RawMemory_move other));;
     RawMemory_dtor (fst (RawMemory_move other))) (mkState o h n r)
    = Ok tt (mkState o (release h other) n r) ∧
    (RawMemory_dtor (snd (RawMemory_move_assign this other));;
     RawMemory_dtor (fst (RawMemory_move_assign this other))) (mkState o h n r)
    = Ok tt (mkState o (release (release h this) other) n r).
Proof.
  assert (Hmove : RawMemory_move other = (other, RawMemory_default)).
  { by destruct other. }
  assert (Hassign : RawMemory_move_assign this other = (other, this)).
  { by destruct this, other. }
  split; [done|]. split; [done|]. split; [by rewrite Hassign|].
  intros o h n r blk blk' Hthis Hother Hdistinct.
  rewrite Hmove, Hassign. cbn [fst snd]. split.
  - erewrite bind_ok; [|apply operator_delete_null].
    by eapply RawMemory_dtor_spec.
  - erewrite bind_ok; [|by eapply RawMemory_dtor_spec].
    eapply RawMemory_dtor_spec.
    destruct Hother as (H0 & Hm & Hl & Hb). repeat split; try done.
    destruct (capacity_ other =? 0); [done|].
    destruct Hb as (b & Hbuf & Hblk). exists b. split; [done|].
    unfold release. destruct (base (buffer_ this)) as [b'|] eqn:Hb'; [|done].
    rewrite lookup_delete_ne; [done|]. intros ->.
    destruct Hthis as (_ & _ & _ & Hbt).
    destruct (capacity_ this =? 0) eqn:Hz.
    + by rewrite Hbt in Hb'.
    + destruct Hbt as (b2 & Hbuf2 & _). apply Z.eqb_neq in Hz.
      apply (Hdistinct Hz). rewrite Hbuf2, Hbuf. rewrite Hbuf2 in Hb'.
      by injection Hb' as ->.
Qed.

(** Two arenas of [int]s, one block each. *)
Definition two_arenas : gmap nat (list (slot Z)) :=
  {[ 1%nat := [Raw; Raw]; 2%nat := [Raw; Raw; Raw; Raw] ]}.

Lemma arena_transfer_witness :
  (RawMemory_dtor (T := Z) (mkRawMemory (slot_ptr 1 0) 2);;
   RawMemory_dtor (mkRawMemory (slot_ptr 2 0) 4)) (mkState ∅ two_arenas 3 [])
  = Ok tt (mkState ∅ (release (release two_arenas (mkRawMemory (slot_ptr 1 0) 2))
                              (mkRawMemory (slot_ptr 2 0) 4)) 3 []).
Proof.
  pose proof (arena_transfer (mkRawMemory (slot_ptr 1 0) 2)
                             (mkRawMemory (slot_ptr 2 0) 4))
    as (_ & _ & _ & Hfree).
  apply (Hfree ∅ two_arenas 3%nat [] [Raw; Raw] [Raw; Raw; Raw; Raw]).
  - unfold arena. simpl. repeat split; try reflexivity; try discriminate.
    exists 1%nat. split; reflexivity.
  - unfold arena. simpl. repeat split; try reflexivity; try discriminate.
    exists 2%nat. split; reflexivity.
  - intros _. discriminate.
Defined.

(** ** C7: move construction *)

(** C7.  Move-constructing a vector at [this] from the well-formed vector at
    [other], which holds [l]: the new vector has the fields the source had,
    on an unchanged heap, hence its size and its elements.  But the source
    is not left with size 0 and capacity 0: line 261 calls its destructor,
    so its lifetime is over.  No [Vector] is left at [other]; reading its
    size or its capacity is undefined, and so is the destructor that runs
    when the source goes out of scope. *)
Theorem move_construction_ends_source {T} {E : Env T} o h n r this other w
    (l : list T) :
  o !! other = Some w → this ≠ other → rep h w l →
  ∃ s', Vector_move this other (mkState o h n r) = Ok tt s' ∧
        objs s' !! this = Some w ∧ heap s' = h ∧
        Size this s' = Ok (size_ w) s' ∧ elements_are s' this l ∧
        objs s' !! other = None ∧
        Size other s' = Fault ∧ Capacity other s' = Fault ∧
        Vector_dtor other s' = Fault.
Proof.
  intros Hw Hne Hrep. eexists. split; [by apply Vector_move_spec|].
  assert (Hthis : delete other (<[this := w]> o) !! this = Some w).
  { rewrite lookup_delete_ne by done. apply lookup_insert_eq. }
  assert (Hother : delete other (<[this := w]> o) !! other = None).
  { apply lookup_delete_eq. }
  split; [done|]. split; [done|].
  split; [by erewrite Size_eq|].
  split; [by eapply rep_elements_are|].
  split; [done|].
  unfold Size, Capacity, Vector_dtor, bind, load. fields. by rewrite Hother.
Qed.

(** A vector at 8 move-constructed from the vector at 7, which holds
    [10; 20]: the vector at 8 holds [10; 20], and the one at 7 can no
    longer be used. *)
Lemma move_construction_ends_source_witness :
  ∃ s', Vector_move 8 7 two_of_four = Ok tt s' ∧
        objs s' !! 8%nat = Some (mkVector (mkRawMemory (slot_ptr 2 0) 4) 2) ∧
        heap s' = heap two_of_four ∧
        Size 8 s' = Ok 2 s' ∧ elements_are s' 8 [10; 20] ∧
        objs s' !! 7%nat = None ∧
        Size 7 s' = Fault ∧ Capacity 7 s' = Fault ∧
        Vector_dtor 7 s' = Fault.
Proof.
  apply (move_construction_ends_source
           (objs two_of_four) (heap two_of_four) (next two_of_four) []
           8%nat 7%nat (mkVector (mkRawMemory (slot_ptr 2 0) 4) 2) [10; 20]
           eq_refl ltac:(discriminate) two_of_four_rep).
Defined.

(** ** C9: self-assignment *)

(** C9.  Copy-assigning and move-assigning a vector to itself return at once
    ([this != &rhs] fails): the whole state, hence size, capacity and
    elements, is what it was. *)
Theorem self_assignment {T} {E : Env T} (a : nat) (s : state T) :
  operator_assign a a s = Ok tt s ∧ operator_assign_move a a s = Ok tt s.
Proof.
  unfold operator_assign, operator_assign_move. by rewrite Nat.eqb_refl.
Qed.

(** ** C6: copy assignment into too small an arena *)


(** A vector at 7 holding [5] in an arena of capacity 1, and a vector at 8
    holding [10; 20]. *)
Definition small_and_large : state Z :=
  mkState {[ 7%nat := mkVector (mkRawMemory (slot_ptr 1 0) 1) 1;
             8%nat := mkVector (mkRawMemory (slot_ptr 2 0) 2) 2 ]}
          {[ 1%nat := [Live 5]; 2%nat := [Live 10; Live 20] ]} 3 [].


(** ** C4: the invariant after any sequence of operations *)

(** A vector of four-byte elements at address 7 with capacity [2^62] and a
    block without a slot. *)
Definition capacity_without_storage : state Z :=
  mkState {[ 7%nat := mkVector (mkRawMemory (slot_ptr 0 0) (2 ^ 62)) 0 ]}
          {[ 0%nat := [] ]} 1 [].

(** C4.  The sequence [Vector<T> v; v.Reserve(2^62)] for elements of four
    bytes.  [Allocate] multiplies [n * sizeof(T)] in [size_t] (line 73):
    the byte count [2^62 * 4] wraps to 0.  The allocation of no bytes
    succeeds, the call returns normally, and the vector has size 0,
    capacity [2^62] and an arena whose block has no slot.  The invariant
    does not hold: slot 0 lies in [[size, capacity)] and is not a raw slot
    of the block.  The next [PushBack] finds [size < capacity] and
    constructs outside the block. *)
Theorem reserve_byte_count_wraps :
  wrap (2 ^ 62 * sizeof_T (T := Z)) = 0 ∧
  run [NewVector 7; CallReserve 7 (2 ^ 62)] (mkState ∅ ∅ 0 [])
  = Ok tt capacity_without_storage ∧
  Size 7 capacity_without_storage = Ok 0 capacity_without_storage ∧
  Capacity 7 capacity_without_storage = Ok (2 ^ 62) capacity_without_storage ∧
  heap capacity_without_storage !! 0%nat = Some [] ∧
  ¬ invariant (heap capacity_without_storage)
              (mkVector (mkRawMemory (slot_ptr 0 0) (2 ^ 62)) 0) ∧
  PushBack 7 1 capacity_without_storage = Fault.
Proof.
  split; [by vm_compute|]. split; [by vm_compute|].
  split; [by vm_compute|]. split; [by vm_compute|].
  split; [by vm_compute|]. split; [|by vm_compute].
  intros (_ & _ & Hblock). fields.
  destruct Hblock as (b & blk & Hbuf & Hblk & _ & _ & Hraw); [done|].
  injection Hbuf as <-.
  vm_compute in Hblk. injection Hblk as <-.
  specialize (Hraw 0%nat ltac:(lia)). discriminate Hraw.
Qed.

(** * Further properties of the code *)

(** ** Construction and destruction *)

Section Lifecycle.

Context {T : Type} {E : Env T}.
Implicit Types (h : gmap nat (list (slot T))) (blk : list (slot T)).
Implicit Types (o : gmap nat Vector) (n : nat) (r : list ptr) (l lr : list T).
Implicit Types (v w : Vector) (m : RawMemory).


Lemma unused_new_block h n blk :
  unused_from h n → unused_from (<[n := blk]> h) (S n).
Proof. intros Hf b Hb. rewrite lookup_insert_ne by lia. apply Hf. lia. Qed.

Lemma rep_new h n c l z :
  0 < c → c * sizeof_T ≤ PTRDIFF_MAX → z = Z.of_nat (length l) → z ≤ c →
  rep (<[n := block_of l c]> h) (mkVector (mkRawMemory (slot_ptr n 0) c) z) l.
Proof. intros ? ? -> ?. by apply rep_reallocated. Qed.

Lemma holds_new_empty o h n r this :
  unused_from h n →
  holds (mkState (<[this := mkVector RawMemory_default 0]> o) h n r) this [].
Proof.
  intros Hf. eexists. split; [apply lookup_insert_eq|].
  split; [apply rep_empty|done].
Qed.

Lemma holds_new_block o h n r this c l z :
  unused_from h n →
  0 < c → c * sizeof_T ≤ PTRDIFF_MAX → z = Z.of_nat (length l) → z ≤ c →
  holds (mkState (<[this := mkVector (mkRawMemory (slot_ptr n 0) c) z]> o)
                 (<[n := block_of l c]> h) (S n) r) this l.
Proof.
  intros Hf Hc Hm Hz Hle. eexists. split; [apply lookup_insert_eq|].
  split; [by apply rep_new|by apply unused_new_block].
Qed.

End Lifecycle.

(** X1.  [Vector(size)] (lines 244-249): when it returns, the new vector
    holds [size] value-initialised elements in an arena of capacity exactly
    [size]; for [size = 0] nothing is allocated.  The other objects are
    untouched.  It throws only for [size > 0], when the allocation of the
    [size * sizeof(T)] bytes is refused in the state of the call or a
    default constructor throws; the elements already built are destroyed,
    the block is released, and objects, heap and log are what they were. *)
Theorem sized_construction {T} {E : Env T} o (h : gmap nat (list (slot T))) n r this k :
  0 ≤ k → k * sizeof_T < size_t_modulus → unused_from h n →
  runs (Vector_sized this k) (mkState o h n r)
    (λ _ s', holds s' this (replicate (Z.to_nat k) value_init) ∧
             elements_are s' this (replicate (Z.to_nat k) value_init) ∧
             Capacity this s' = Ok k s' ∧
             (k = 0 → heap s' = h ∧ next s' = n) ∧
             (∀ a, a ≠ this → objs s' !! a = o !! a))
    (λ s', objs s' = o ∧ heap s' = h ∧ raw_destroyed s' = r ∧ 0 < k ∧
           (refused (mkState o h n r) (k * sizeof_T) ∨ init_may_throw)).
Proof.
  intros Hk0 Hk Hf.
  eapply runs_conseq; [by apply Vector_sized_spec| |done].
  intros [] s' Hpost. cbv beta in Hpost.
  assert (Hholds : holds s' this (replicate (Z.to_nat k) value_init) ∧
                   Capacity this s' = Ok k s' ∧
                   (k = 0 → heap s' = h ∧ next s' = n) ∧
                   (∀ a, a ≠ this → objs s' !! a = o !! a)).
  { destruct (k =? 0) eqn:Hz.
    - apply Z.eqb_eq in Hz. subst s' k. simpl.
      split; [by apply holds_new_empty|].
      split; [by erewrite Capacity_eq by apply lookup_insert_eq|].
      split; [done|].
      intros a Ha. fields. by rewrite lookup_insert_ne.
    - apply Z.eqb_neq in Hz. destruct Hpost as (Hmax & ->).
      split; [apply holds_new_block; try done; try rewrite length_replicate; lia|].
      split; [by erewrite Capacity_eq by apply lookup_insert_eq|].
      split; [lia|].
      intros a Ha. fields. by rewrite lookup_insert_ne. }
  destruct Hholds as (Hh & Hc & Hz & Ho).
  repeat split; try done; try apply (holds_elements_are _ _ _ Hh); by apply Hz.
Qed.

(** [Vector<Int>(3)] returns, with three elements 0 in an arena of capacity
    3. *)
Lemma sized_construction_witness :
  ∃ s', Vector_sized 7 3 (mkState ∅ ∅ 0 []) = Ok tt s' ∧
        holds s' 7 [0; 0; 0] ∧ elements_are s' 7 [0; 0; 0] ∧
        Capacity 7 s' = Ok 3 s' ∧
        (3 = 0 → heap s' = ∅ ∧ next s' = 0%nat) ∧
        (∀ a, a ≠ 7%nat → objs s' !! a = (∅ : gmap nat Vector) !! a).
Proof.
  eassert (Hrun : runs (Vector_sized 7 3) (mkState ∅ ∅ 0 []) _ _).
  { refine (sized_construction (T := Z) ∅ ∅ 0%nat [] 7%nat 3 _ _ _).
    - lia.
    - by vm_compute.
    - intros b _. apply lookup_empty. }
  destruct (runs_returns _ _ _ _ Hrun) as ([] & s' & Heq & Hpost).
  - intros s' (_ & _ & _ & _ & [Href|Hinit]); [|by apply int_inits].
    revert Href. apply int_allocates. by vm_compute.
  - by exists s'.
Defined.



(** X4.  Copy-constructing a local vector from a well-formed one and
    letting it die at the end of its scope leaves the objects, the heap and
    the log of destroyed raw slots as they were: the copy's block is
    released and nothing else is touched.  The same holds when the copy
    fails. *)
Theorem copy_then_destroy {T} {E : Env T} o (h : gmap nat (list (slot T))) n r
    temp other w (lr : list T) :
  o !! other = Some w → rep h w lr → unused_from h n → o !! temp = None →
  runs (Vector_copy temp other;; Vector_dtor temp;; end_of_scope temp)
       (mkState o h n r)
    (λ _ s', objs s' = o ∧ heap s' = h ∧ raw_destroyed s' = r)
    (λ s', objs s' = o ∧ heap s' = h ∧ raw_destroyed s' = r).
Proof.
  intros Hw Hrep Hf Htemp.
  destruct (rep_bounds _ _ _ Hrep) as (Hsz & Hcap & Hlen).
  pose proof (size_le_max _ _ _ Hrep) as Hmax.
  destruct (decide (size_ w = 0)) as [Hz|Hnz].
  - eapply runs_step; [by eapply Vector_copy_empty|].
    eapply runs_step; [apply Vector_dtor_empty, lookup_insert_eq|].
    eapply runs_eq; [reflexivity|]. fields.
    split; [|done]. rewrite delete_insert_eq. by apply delete_id.
  - eapply runs_step_or_throw;
      [eapply Vector_copy_spec; try done; lia| |by intros s' (? & ? & ? & _)].
    intros [] s' ->. cbv beta.
    eapply runs_step.
    { eapply Vector_dtor_spec; [apply lookup_insert_eq|].
      rewrite <- block_of_full, <- Hlen. apply rep_new; lia. }
    eapply runs_eq; [reflexivity|]. fields.
    split; [rewrite delete_insert_eq; by apply delete_id|].
    split; [|done]. unfold release. simpl.
    rewrite delete_insert_eq. apply delete_id, Hf. lia.
Qed.

Lemma copy_then_destroy_witness :
  runs (Vector_copy 8 7;; Vector_dtor 8;; end_of_scope 8) two_of_four
    (λ _ s', objs s' = objs two_of_four ∧ heap s' = heap two_of_four ∧
             raw_destroyed s' = [])
    (λ s', objs s' = objs two_of_four ∧ heap s' = heap two_of_four ∧
           raw_destroyed s' = []).
Proof.
  refine (copy_then_destroy (T := Z)
            (objs two_of_four) (heap two_of_four) (next two_of_four) []
            8%nat 7%nat (mkVector (mkRawMemory (slot_ptr 2 0) 4) 2) [10; 20]
            _ _ _ _).
  - reflexivity.
  - exact two_of_four_rep.
  - exact two_of_four_fresh.
  - reflexivity.
Defined.

(** X5.  [RawMemory(capacity)] (lines 14-17, 72-74): capacity 0 gives the
    null handle and allocates nothing; any other capacity whose byte count
    fits gives a block of exactly [capacity] raw slots that no existing
    block shares, and throws with the state unchanged when the allocation
    is refused.  Destroying the arena (lines 30-32, 77-79) gives the heap
    back as it was. *)
Theorem arena_allocation {T} {E : Env T} o (h : gmap nat (list (slot T))) n r c :
  0 ≤ c → c * sizeof_T < size_t_modulus → unused_from h n →
  runs (RawMemory_new c) (mkState o h n r)
    (λ m s', capacity_ m = c ∧
             (c = 0 → m = RawMemory_default ∧ s' = mkState o h n r) ∧
             arena (heap s') m (replicate (Z.to_nat c) Raw) ∧
             (∀ b, is_Some (h !! b) → base (buffer_ m) ≠ Some b ∧
                                      heap s' !! b = h !! b) ∧
             ∃ s'', RawMemory_dtor m s' = Ok tt s'' ∧ heap s'' = h)
    (λ s', s' = mkState o h n r ∧ refused (mkState o h n r) (c * sizeof_T)).
Proof.
  intros Hc0 Hc Hf. destruct (decide (c = 0)) as [->|Hnz].
  - eapply runs_eq; [apply RawMemory_new_zero|].
    split; [done|]. split; [done|]. split.
    { unfold arena. simpl. repeat split; try done; unfold PTRDIFF_MAX; lia. }
    split; [by intros b _|].
    eexists. split; [apply operator_delete_null|done].
  - eapply runs_conseq; [apply RawMemory_new_spec; [lia|done]| |done].
    intros m s' (Hmax & -> & ->). fields.
    assert (Har : arena (<[n := replicate (Z.to_nat c) Raw]> h)
                    (mkRawMemory (slot_ptr n 0) c) (replicate (Z.to_nat c) (Raw (T := T)))).
    { unfold arena. fields. repeat split; try done; try lia.
      - by rewrite length_replicate.
      - rewrite (proj2 (Z.eqb_neq c 0)) by done.
        exists n. split; [done|]. apply lookup_insert_eq. }
    split; [done|]. split; [done|]. split; [done|]. split.
    + intros b [blk Hblk].
      assert (b ≠ n) by (intros ->; rewrite Hf in Hblk; [done|lia]).
      split; [simpl; congruence|]. by rewrite lookup_insert_ne.
    + eexists. split; [by eapply RawMemory_dtor_spec|]. fields.
      unfold release. simpl. rewrite delete_insert_eq. apply delete_id, Hf. lia.
Qed.

Lemma arena_allocation_witness :
  runs (RawMemory_new 3) two_of_four
    (λ m s', capacity_ m = 3 ∧
             (3 = 0 → m = RawMemory_default ∧ s' = two_of_four) ∧
             arena (heap s') m [Raw; Raw; Raw] ∧
             (∀ b, is_Some (heap two_of_four !! b) →
                   base (buffer_ m) ≠ Some b ∧ heap s' !! b = heap two_of_four !! b) ∧
             ∃ s'', RawMemory_dtor m s' = Ok tt s'' ∧ heap s'' = heap two_of_four)
    (λ s', s' = two_of_four ∧ refused two_of_four (3 * 4)).
Proof.
  refine (arena_allocation (T := Z)
            (objs two_of_four) (heap two_of_four) (next two_of_four) [] 3 _ _ _).
  - lia.
  - by vm_compute.
  - exact two_of_four_fresh.
Defined.

(** ** Changing size and capacity *)

(** X6.  [Resize(k)] (lines 317-329) on a well-formed vector holding [l].
    When it returns, the vector holds the first [k] elements of [l] followed
    by [k - size] default-initialised elements, and its capacity is the
    larger of the old capacity and [k].  When [k] does not exceed the
    capacity, the arena is kept, nothing is allocated and no raw slot is
    destroyed; when it does, [Reserve] runs first, and its line 274 runs the
    destructor on the [capacity - size] raw slots of the old arena
    ([raw_part v]).
    It throws only when it grows ([size < k]).  Within the capacity, that is
    when a default constructor throws, and the state is what it was.  Beyond
    the capacity, either [Reserve] throws (the allocation of
    [k * sizeof(T)] bytes is refused in the state of the call, or a copy
    throws) and objects, heap and log are what they were, or a default
    constructor throws after [Reserve]: the vector then holds [l], as
    before, but in the new arena of capacity [k]. *)
Theorem resize_result {T} {E : Env T} o (h : gmap nat (list (slot T))) n r this v
    (l : list T) k :
  o !! this = Some v → rep h v l → unused_from h n →
  0 ≤ k → k * sizeof_T < size_t_modulus →
  let l' := take (Z.to_nat k) l ++ replicate (Z.to_nat k - length l) default_init in
  runs (Resize this k) (mkState o h n r)
    (λ _ s', holds s' this l' ∧ elements_are s' this l' ∧
             Capacity this s' = Ok (Z.max (capacity_ (data_ v)) k) s' ∧
             (k ≤ capacity_ (data_ v) →
              objs s' !! this = Some (mkVector (data_ v) k) ∧ next s' = n ∧
              raw_destroyed s' = r) ∧
             (capacity_ (data_ v) < k → raw_destroyed s' = r ++ raw_part v))
    (λ s', size_ v < k ∧
           ((objs s' = o ∧ heap s' = h ∧ raw_destroyed s' = r ∧
             if k <=? capacity_ (data_ v) then init_may_throw
             else refused (mkState o h n r) (k * sizeof_T) ∨ copy_may_throw)
            ∨ (capacity_ (data_ v) < k ∧ init_may_throw ∧
               holds s' this l ∧ Capacity this s' = Ok k s' ∧
               raw_destroyed s' = r ++ raw_part v))).
Proof.
  intros Hv Hrep Hf Hk0 Hk l'.
  destruct (rep_bounds _ _ _ Hrep) as (Hsz & Hcap & Hlen).
  assert (Hgoal : ∀ s' : state T,
            holds s' this l' →
            Capacity this s' = Ok (Z.max (capacity_ (data_ v)) k) s' →
            (k ≤ capacity_ (data_ v) →
             objs s' !! this = Some (mkVector (data_ v) k) ∧ next s' = n ∧
             raw_destroyed s' = r) →
            (capacity_ (data_ v) < k → raw_destroyed s' = r ++ raw_part v) →
            holds s' this l' ∧ elements_are s' this l' ∧
            Capacity this s' = Ok (Z.max (capacity_ (data_ v)) k) s' ∧
            (k ≤ capacity_ (data_ v) →
             objs s' !! this = Some (mkVector (data_ v) k) ∧ next s' = n ∧
             raw_destroyed s' = r) ∧
            (capacity_ (data_ v) < k → raw_destroyed s' = r ++ raw_part v)).
  { intros s' Hh Hc Hkeep Hlog. split; [done|].
    split; [by apply holds_elements_are|done]. }
  destruct (Z.lt_trichotomy k (size_ v)) as [Hlt|[Heq|Hlt]].
  - eapply runs_eq; [eapply Resize_shrinks; try done; lia|].
    assert (Hl' : l' = take (Z.to_nat k) l).
    { unfold l'. replace (Z.to_nat k - length l)%nat with 0%nat by lia.
      apply app_nil_r. }
    assert (Z.of_nat (length (take (Z.to_nat k) l)) = k)
      by (rewrite length_take; lia).
    apply Hgoal.
    + rewrite Hl'. eapply holds_in_place; try done; lia.
    + erewrite Capacity_eq by apply lookup_insert_eq. simpl. f_equal. lia.
    + intros _. fields. by rewrite lookup_insert_eq.
    + lia.
  - eapply runs_eq; [by eapply Resize_same|].
    assert (Hl' : l' = l).
    { unfold l'. replace (Z.to_nat k - length l)%nat with 0%nat by lia.
      rewrite app_nil_r. apply take_ge. lia. }
    apply Hgoal.
    + rewrite Hl'. by exists v.
    + erewrite Capacity_eq by done. f_equal. lia.
    + intros _. fields. split; [|done]. rewrite Hv, Heq. by destruct v.
    + lia.
  - assert (Hl' : l' = l ++ replicate (Z.to_nat (k - size_ v)) default_init).
    { unfold l'. rewrite take_ge by lia. do 2 f_equal. lia. }
    assert (Hfill : Z.of_nat (length l') = k).
    { rewrite Hl', length_app, length_replicate. lia. }
    destruct (decide (k ≤ capacity_ (data_ v))) as [Hle|Hgt].
    + eapply runs_conseq; [eapply Resize_fills; try done; lia| |].
      * intros [] s' ->. rewrite <- Hl'. apply Hgoal.
        -- eapply holds_in_place; try done; lia.
        -- erewrite Capacity_eq by apply lookup_insert_eq. simpl. f_equal. lia.
        -- intros _. fields. by rewrite lookup_insert_eq.
        -- lia.
      * intros s' [-> Hinit]. split; [done|]. left. fields.
        by rewrite (proj2 (Z.leb_le _ _) Hle).
    + eapply runs_conseq; [eapply Resize_reallocates; try done; lia| |].
      * intros [] s' (Hmax & ->). rewrite <- Hl'. apply Hgoal.
        -- eapply holds_reallocated; try done; lia.
        -- erewrite Capacity_eq by apply lookup_insert_eq. simpl. f_equal. lia.
        -- lia.
        -- done.
      * intros s' [(Ho & Hh & Hr & Hfail)|(Hmax & -> & Hinit)];
          (split; [done|]); [left|right].
        -- replace (k <=? capacity_ (data_ v)) with false
             by (symmetry; apply Z.leb_gt; lia). done.
        -- split; [lia|]. split; [done|].
           split; [eapply holds_reallocated; try done; lia|].
           split; [by erewrite Capacity_eq by apply lookup_insert_eq|done].
Qed.

(** [Resize(3)] on a vector holding [10; 20] in an arena of capacity 4
    returns and appends one default-initialised element. *)
Lemma resize_result_witness :
  ∃ s', Resize 7 3 two_of_four = Ok tt s' ∧
        holds s' 7 [10; 20; 0] ∧ elements_are s' 7 [10; 20; 0] ∧
        Capacity 7 s' = Ok 4 s' ∧
        objs s' !! 7%nat = Some (mkVector (mkRawMemory (slot_ptr 2 0) 4) 3) ∧
        next s' = 3%nat ∧ raw_destroyed s' = [].
Proof.
  assert (Hsmall : 3 * sizeof_T (T := Z) < size_t_modulus) by by vm_compute.
  pose proof (resize_result (T := Z)
                (objs two_of_four) (heap two_of_four) (next two_of_four) []
                7%nat (mkVector (mkRawMemory (slot_ptr 2 0) 4) 2) [10; 20] 3
                eq_refl two_of_four_rep two_of_four_fresh ltac:(lia) Hsmall)
    as Hrun.
  cbv zeta in Hrun.
  destruct (runs_returns _ _ _ _ Hrun) as ([] & s' & Heq & Hh & Hel & Hc & Hkeep & _).
  - intros s' (_ & [(_ & _ & _ & Hinit)|(Hgt & _)]); [by apply int_inits|done].
  - destruct (Hkeep ltac:(done)) as (Ho & Hn & Hr). by exists s'.
Defined.

(** ** Appending *)

Section InPlace.

Context {T : Type} {E : Env T}.
Implicit Types (h : gmap nat (list (slot T))) (blk : list (slot T)).
Implicit Types (o : gmap nat Vector) (n : nat) (r : list ptr) (l lr xs : list T).
Implicit Types (v w : Vector) (m : RawMemory) (a : ctor_arg (T := T)).

Lemma holds_at_in_place o h n r r' this v l l' b z :
  rep h v l → unused_from h n → buffer_ (data_ v) = slot_ptr b 0 →
  Z.of_nat (length l') ≤ capacity_ (data_ v) → z = Z.of_nat (length l') →
  holds_at (mkState (<[this := mkVector (data_ v) z]> o)
                    (overwrite h (data_ v) (block_of l' (capacity_ (data_ v)))) n r')
           this l' b (capacity_ (data_ v)).
Proof.
  intros Hrep Hf Hbuf Hle ->. exists (mkVector (data_ v) (Z.of_nat (length l'))).
  fields. split; [apply lookup_insert_eq|].
  split; [by eapply rep_in_place|].
  split; [|done]. destruct Hrep as (_ & _ & Har). by eapply unused_overwrite.
Qed.

(** What one append does to a vector that holds [l] at block [b] with
    capacity [c]. *)
Lemma push_result o h n r this v l a :
  o !! this = Some v → rep h v l → unused_from h n →
  runs (push this a) (mkState o h n r)
    (λ _ s', holds s' this (l ++ [arg_value a]) ∧
             (size_ v < capacity_ (data_ v) →
              objs s' !! this = Some (mkVector (data_ v) (size_ v + 1)) ∧
              next s' = n ∧
              ∀ b, buffer_ (data_ v) = slot_ptr b 0 →
                   holds_at s' this (l ++ [arg_value a]) b (capacity_ (data_ v))))
    (λ s', objs s' = o ∧ heap s' = h ∧ raw_destroyed s' = r ∧
           (size_ v < capacity_ (data_ v) → copy_may_throw)).
Proof.
  intros Hv Hrep Hf.
  destruct (rep_bounds _ _ _ Hrep) as (Hsz & Hcap & Hlen).
  eapply runs_conseq; [by eapply push_spec| |].
  - intros [] s' Hpost. cbv beta in Hpost.
    destruct (size_ v =? capacity_ (data_ v)) eqn:Hfull.
    + apply Z.eqb_eq in Hfull. destruct Hpost as [Hmax ->].
      destruct (grown_room v l Hfull Hlen) as [Hg Hroom].
      split; [|lia].
      eapply holds_reallocated; try done; rewrite length_app; simpl; lia.
    + apply Z.eqb_neq in Hfull. subst s'.
      assert (Hl1 : Z.of_nat (length (l ++ [arg_value a])) = size_ v + 1).
      { rewrite length_app. simpl. lia. }
      split; [eapply holds_in_place; try done; lia|].
      intros _. fields. split; [apply lookup_insert_eq|]. split; [done|].
      intros b Hbuf. eapply holds_at_in_place; try done; lia.
  - intros s' (Ho & Hh & Hr & Hwhy). repeat split; try done.
    intros Hroom. destruct Hwhy as [[Hfull _]|Hcp]; [lia|done].
Qed.

End InPlace.

(** X7.  [PushBack] (both overloads, lines 331-358) and [EmplaceBack]
    (lines 366-380) on a well-formed vector holding [l].  When the call
    returns, the vector holds [l] followed by the new element; with room
    left ([size < capacity]) the arena is kept and nothing is allocated, so
    the addresses of the elements stay valid.  The call throws only if the
    arena is full and the allocation of the larger one is refused in the
    state of the call, or a copy of an element throws (the moves of the
    element types covered do not throw); the vector is then what it was,
    with the same arena, size and elements.  The statement describes the
    vector; it says nothing of the element already built in the larger
    arena (lines 334, 348, 369). *)
Theorem push_back_guarantee {T} {E : Env T} o (h : gmap nat (list (slot T))) n r
    this v (l : list T) :
  o !! this = Some v → rep h v l → unused_from h n →
  let s := mkState o h n r in
  let appended (x : T) (s' : state T) :=
    holds s' this (l ++ [x]) ∧ elements_are s' this (l ++ [x]) ∧
    (size_ v < capacity_ (data_ v) →
     objs s' !! this = Some (mkVector (data_ v) (size_ v + 1)) ∧ next s' = n) in
  let kept (s' : state T) :=
    objs s' !! this = Some v ∧ rep (heap s') v l ∧ elements_are s' this l ∧
    growth_fails s v in
  (∀ x, runs (PushBack this x) s (λ _ s', appended x s') kept) ∧
  (∀ x, runs (PushBack_rvalue this x) s (λ _ s', appended x s') kept) ∧
  (∀ a, runs (EmplaceBack this a) s (λ _ s', appended (arg_value a) s') kept).
Proof.
  intros Hv Hrep Hf s appended kept.
  assert (Hpush : ∀ a, runs (push this a) s
                         (λ _ s', appended (arg_value a) s') kept).
  { intros a.
    eapply runs_conseq;
      [apply runs_both; [by apply push_result|by apply push_spec]| |].
    - intros [] s' [(Hh & Hroom) _]. split; [done|].
      split; [by apply holds_elements_are|].
      intros Hlt. by destruct (Hroom Hlt) as (? & ? & _).
    - intros [o' h' n' r'] [_ (Ho & Hh & Hr & Hwhy)]. fields. subst o' h' r'.
      split; [done|]. split; [done|].
      split; [by eapply rep_elements_are|done]. }
  split; [intros x; apply (Hpush (CopyOf x))|].
  split; [intros x; apply (Hpush (MoveOf x))|].
  intros a. unfold EmplaceBack.
  eapply runs_step_or_throw; [apply Hpush| |done].
  intros [] [o' h' n' r'] Happ. pose proof Happ as ((v' & Hv' & Hrep' & _) & _).
  fields. destruct (rep_bounds _ _ _ Hrep') as (Hsz & Hcap & Hlen).
  eapply runs_step; [by apply load_eq|].
  eapply runs_step; [apply RawMemory_plus_eq; lia|].
  by apply runs_ret.
Qed.

(** [PushBack(30)] on a vector holding [10; 20] in an arena of capacity 4
    returns and keeps the arena. *)
Lemma push_back_guarantee_witness :
  ∃ s', PushBack 7 30 two_of_four = Ok tt s' ∧
        holds s' 7 [10; 20; 30] ∧ elements_are s' 7 [10; 20; 30] ∧
        objs s' !! 7%nat = Some (mkVector (mkRawMemory (slot_ptr 2 0) 4) 3) ∧
        next s' = 3%nat.
Proof.
  pose proof (push_back_guarantee (T := Z)
                (objs two_of_four) (heap two_of_four) (next two_of_four) []
                7%nat (mkVector (mkRawMemory (slot_ptr 2 0) 4) 2) [10; 20]
                eq_refl two_of_four_rep two_of_four_fresh)
    as (Hpush & _).
  destruct (runs_returns _ _ _ _ (Hpush 30)) as ([] & s' & Heq & Hh & Hel & Hkeep).
  - intros s' (_ & _ & _ & Hfail). revert Hfail. apply int_grows. by vm_compute.
  - destruct (Hkeep ltac:(done)) as (Ho & Hn). by exists s'.
Defined.

(** ** Runs of appends *)

(** [for (const T& x : xs) v.PushBack(x);] *)
Fixpoint push_all {T} {E : Env T} (this : nat) (xs : list T) : M T unit :=
  match xs with
  | [] => ret tt
  | x :: xs' => PushBack this x;; push_all this xs'
  end.

Section Appends.

Context {T : Type} {E : Env T}.
Implicit Types (h : gmap nat (list (slot T))) (blk : list (slot T)).
Implicit Types (o : gmap nat Vector) (n : nat) (r : list ptr) (l lr xs : list T).
Implicit Types (v w : Vector) (m : RawMemory) (a : ctor_arg (T := T)).
Implicit Types (s : state T).

(** One append: the block and the capacity afterwards, and whether a block
    was allocated. *)
Lemma push_step s this l b c a :
  holds_at s this l b c →
  runs (push this a) s
    (λ _ s',
       if Z.of_nat (length l) =? c
       then (∃ b', holds_at s' this (l ++ [arg_value a]) b' (Z.max 1 (2 * c))) ∧
            next s' = S (next s)
       else holds_at s' this (l ++ [arg_value a]) b c ∧ next s' = next s)
    (λ _, if Z.of_nat (length l) =? c
          then refused s (Z.max 1 (2 * c) * sizeof_T) ∨ copy_may_throw
          else copy_may_throw).
Proof.
  destruct s as [o h n r]. intros (v & Hv & Hrep & Hf & Hbuf & Hc). fields.
  destruct (rep_bounds _ _ _ Hrep) as (Hsz & Hcap & Hlen).
  rewrite <- Hlen, <- Hc.
  eapply runs_conseq; [by eapply push_spec| |].
  - intros [] s' Hpost. cbv beta in Hpost.
    destruct (size_ v =? capacity_ (data_ v)) eqn:Hfull.
    + apply Z.eqb_eq in Hfull. destruct Hpost as [Hmax ->].
      destruct (grown_room v l Hfull Hlen) as [Hg Hroom].
      unfold grown in *.
      split; [|done]. exists n. eexists. fields.
      split; [apply lookup_insert_eq|]. fields.
      split; [apply rep_new; try done; try (rewrite length_app; simpl); lia|].
      split; [by apply unused_reallocated|done].
    + apply Z.eqb_neq in Hfull. subst s'. split; [|done].
      eapply holds_at_in_place; try done; rewrite length_app; simpl; lia.
  - intros s' (_ & _ & _ & Hwhy).
    destruct (size_ v =? capacity_ (data_ v)) eqn:Hfull.
    + destruct Hwhy as [[_ Href]|Hcp]; [by left|by right].
    + apply Z.eqb_neq in Hfull. destruct Hwhy as [[Heq _]|Hcp]; [lia|done].
Qed.

Lemma push_all_in_place xs : ∀ s this l b c,
  holds_at s this l b c → Z.of_nat (length l + length xs) ≤ c →
  runs (push_all this xs) s
    (λ _ s', holds_at s' this (l ++ xs) b c ∧ next s' = next s)
    (λ _, copy_may_throw).
Proof.
  induction xs as [|x xs IH]; intros s this l b c Hh Hroom.
  - apply runs_ret. by rewrite app_nil_r.
  - cbn [push_all length] in *. unfold PushBack.
    eapply runs_step_or_throw; [by apply push_step| |].
    + intros [] s1 Hpost. cbv beta in Hpost.
      rewrite (proj2 (Z.eqb_neq _ _)) in Hpost by lia.
      destruct Hpost as [Hh1 Hn1]. simpl in Hh1.
      eapply runs_conseq; [apply (IH s1 this (l ++ [x]) b c Hh1)| |done].
      * rewrite length_app. simpl. lia.
      * intros [] s' [Hh' Hn']. rewrite <- app_assoc in Hh'. simpl in Hh'.
        split; [done|congruence].
    + intros s1. by rewrite (proj2 (Z.eqb_neq _ _)) by lia.
Qed.

Lemma push_all_doubling xs : ∀ s this l b (k : nat),
  holds_at s this l b (2 ^ Z.of_nat k) →
  Z.of_nat (length l) ≤ 2 ^ Z.of_nat k < 2 * Z.of_nat (length l) →
  runs (push_all this xs) s
    (λ _ s', ∃ b' (k' : nat),
       holds_at s' this (l ++ xs) b' (2 ^ Z.of_nat k') ∧
       Z.of_nat (length (l ++ xs)) ≤ 2 ^ Z.of_nat k'
         < 2 * Z.of_nat (length (l ++ xs)) ∧
       Z.of_nat (next s') = Z.of_nat (next s) + Z.of_nat k' - Z.of_nat k)
    (λ _, refused_up_to (2 * Z.of_nat (length (l ++ xs))) ∨ copy_may_throw).
Proof.
  induction xs as [|x xs IH]; intros s this l b k Hh Hk.
  - apply runs_ret. exists b, k. rewrite app_nil_r. split; [done|]. lia.
  - cbn [push_all]. unfold PushBack.
    eapply runs_step_or_throw; [by apply push_step| |].
    + intros [] s1 Hpost. cbv beta in Hpost. simpl in Hpost.
      assert (Hfinish : ∀ b1 (k1 : nat),
                holds_at s1 this (l ++ [x]) b1 (2 ^ Z.of_nat k1) →
                Z.of_nat (length (l ++ [x])) ≤ 2 ^ Z.of_nat k1
                  < 2 * Z.of_nat (length (l ++ [x])) →
                Z.of_nat (next s1) = Z.of_nat (next s) + Z.of_nat k1 - Z.of_nat k →
                runs (push_all this xs) s1
                  (λ _ s', ∃ b' (k' : nat),
                     holds_at s' this (l ++ x :: xs) b' (2 ^ Z.of_nat k') ∧
                     Z.of_nat (length (l ++ x :: xs)) ≤ 2 ^ Z.of_nat k'
                       < 2 * Z.of_nat (length (l ++ x :: xs)) ∧
                     Z.of_nat (next s') = Z.of_nat (next s) + Z.of_nat k' - Z.of_nat k)
                  (λ _, refused_up_to (2 * Z.of_nat (length (l ++ x :: xs)))
                        ∨ copy_may_throw)).
      { intros b1 k1 Hh1 Hk1 Hn1.
        eapply runs_conseq; [by apply (IH s1 this (l ++ [x]) b1 k1)| |].
        - intros [] s' (b' & k' & Hh' & Hk' & Hn').
          rewrite <- app_assoc in Hh', Hk'. simpl in Hh', Hk'.
          exists b', k'. split; [done|]. split; [done|]. lia.
        - intros s'. by rewrite <- app_assoc. }
      assert (Hpow : 2 ^ Z.of_nat (S k) = 2 * 2 ^ Z.of_nat k).
      { rewrite Nat2Z.inj_succ. apply Z.pow_succ_r. lia. }
      assert (Hlen1 : Z.of_nat (length (l ++ [x])) = Z.of_nat (length l) + 1).
      { rewrite length_app. simpl. lia. }
      destruct (Z.of_nat (length l) =? 2 ^ Z.of_nat k) eqn:Hfull.
      * apply Z.eqb_eq in Hfull. destruct Hpost as [(b1 & Hh1) Hn1].
        apply (Hfinish b1 (S k)).
        -- rewrite Hpow. replace (Z.max 1 (2 * 2 ^ Z.of_nat k))
             with (2 * 2 ^ Z.of_nat k) in Hh1 by lia. done.
        -- rewrite Hpow, Hlen1. lia.
        -- rewrite Hn1. lia.
      * apply Z.eqb_neq in Hfull. destruct Hpost as [Hh1 Hn1].
        apply (Hfinish b k); [done|rewrite Hlen1; lia|rewrite Hn1; lia].
    + intros s1. destruct (Z.of_nat (length l) =? 2 ^ Z.of_nat k) eqn:Hfull;
        [|intros Hcp; by right].
      apply Z.eqb_eq in Hfull. intros [Href|Hcp]; [left|by right].
      eexists s, _. split; [|exact Href]. rewrite length_app. simpl. lia.
Qed.

End Appends.

(** X8.  Appending with room: on a well-formed vector that holds [l] in the
    block [b] with capacity [c], a run of [PushBack] calls that append [xs],
    with [size + length xs ≤ c], ends with the vector holding [l ++ xs] in
    the same block with the same capacity, and no block has been allocated;
    only a throwing copy can interrupt it.  This is what [Reserve] buys. *)
Theorem appends_within_capacity {T} {E : Env T} (s : state T) this (l xs : list T) b c :
  holds_at s this l b c → Z.of_nat (length l + length xs) ≤ c →
  runs (push_all this xs) s
    (λ _ s', holds_at s' this (l ++ xs) b c ∧ elements_are s' this (l ++ xs) ∧
             next s' = next s)
    (λ _, copy_may_throw).
Proof.
  intros Hh Hroom.
  eapply runs_conseq; [by apply push_all_in_place| |done].
  intros [] s' [Hh' Hn']. split; [done|]. split; [|done].
  by eapply holds_elements_are, holds_at_holds.
Qed.

Lemma two_of_four_holds_at : holds_at two_of_four 7 [10; 20] 2 4.
Proof.
  exists (mkVector (mkRawMemory (slot_ptr 2 0) 4) 2).
  split; [reflexivity|]. split; [exact two_of_four_rep|].
  split; [exact two_of_four_fresh|]. split; reflexivity.
Qed.

Lemma appends_within_capacity_witness :
  runs (push_all 7 [30; 40]) two_of_four
    (λ _ s', holds_at s' 7 ([10; 20] ++ [30; 40]) 2 4 ∧
             elements_are s' 7 ([10; 20] ++ [30; 40]) ∧
             next s' = next two_of_four)
    (λ _, copy_may_throw).
Proof.
  apply (appends_within_capacity two_of_four 7%nat [10; 20] [30; 40] 2%nat 4).
  - exact two_of_four_holds_at.
  - simpl. lia.
Defined.

(** X9.  Geometric growth: appending [n ≥ 1] elements by [PushBack] to a
    well-formed vector of capacity 0 ends with the [n] elements in an arena
    whose capacity is the power of two [2^k] with [n ≤ 2^k < 2n], after
    exactly [k + 1] allocations.  The run throws only if a copy of an
    element throws or the allocation of an arena of at most [2n] elements is
    refused: otherwise it returns. *)
Theorem appends_from_empty {T} {E : Env T} o (h : gmap nat (list (slot T))) n r
    this v (x : T) (xs : list T) :
  o !! this = Some v → rep h v [] → capacity_ (data_ v) = 0 → unused_from h n →
  runs (push_all this (x :: xs)) (mkState o h n r)
    (λ _ s', ∃ b (k : nat),
       holds_at s' this (x :: xs) b (2 ^ Z.of_nat k) ∧
       elements_are s' this (x :: xs) ∧
       Z.of_nat (length (x :: xs)) ≤ 2 ^ Z.of_nat k
         < 2 * Z.of_nat (length (x :: xs)) ∧
       next s' = (n + k + 1)%nat)
    (λ _, refused_up_to (2 * Z.of_nat (length (x :: xs))) ∨ copy_may_throw).
Proof.
  intros Hv Hrep Hcap Hf.
  destruct (rep_null _ _ _ Hrep Hcap) as (Hnull & _ & Hsize).
  cbn [push_all]. unfold PushBack.
  eapply runs_step_or_throw; [by eapply push_spec| |].
  - intros [] s1 Hpost. cbv beta in Hpost.
    rewrite (proj2 (Z.eqb_eq _ _)) in Hpost by lia.
    destruct Hpost as [Hmax ->].
    assert (Hg : grown v = 1) by (unfold grown; lia). rewrite Hg in *.
    assert (Hh1 : holds_at
                    (mkState (<[this := mkVector (mkRawMemory (slot_ptr n 0) 1)
                                                 (size_ v + 1)]> o)
                             (<[n := block_of ([] ++ [arg_value (CopyOf x)]) 1]>
                                (release h (data_ v))) (S n) r)
                    this ([] ++ [x]) n (2 ^ Z.of_nat 0)).
    { eexists. fields. split; [apply lookup_insert_eq|]. fields.
      split; [apply rep_new; simpl; lia|].
      split; [by apply unused_reallocated|done]. }
    eapply runs_conseq; [apply (push_all_doubling xs _ _ _ _ _ Hh1); simpl; lia| |done].
    intros [] s' (b & k & Hh' & Hk' & Hn'). simpl in Hh', Hk', Hn'.
    exists b, k. split; [done|].
    split; [by eapply holds_elements_are, holds_at_holds|].
    split; [done|]. lia.
  - intros s1 (_ & _ & _ & [[_ Href]|Hcp]); [left|by right].
    eexists _, (grown v). split; [|exact Href]. unfold grown. simpl. lia.
Qed.

(** Five appends to an empty vector return: the arena has capacity [2^k]
    with [5 ≤ 2^k < 10], that is 8, after [k + 1] allocations. *)
Lemma appends_from_empty_witness :
  ∃ s' b (k : nat),
    push_all 7 [1; 2; 3; 4; 5] one_empty_vector = Ok tt s' ∧
    holds_at s' 7 [1; 2; 3; 4; 5] b (2 ^ Z.of_nat k) ∧
    elements_are s' 7 [1; 2; 3; 4; 5] ∧
    Z.of_nat (length [1; 2; 3; 4; 5]) ≤ 2 ^ Z.of_nat k
      < 2 * Z.of_nat (length [1; 2; 3; 4; 5]) ∧
    next s' = (0 + k + 1)%nat.
Proof.
  pose proof (appends_from_empty (T := Z)
                (objs one_empty_vector) (heap one_empty_vector) 0%nat []
                7%nat (mkVector RawMemory_default 0) 1 [2; 3; 4; 5]
                eq_refl (rep_empty _) eq_refl (λ b _, eq_refl)) as Hrun.
  destruct (runs_returns _ _ _ _ Hrun) as ([] & s' & Heq & b & k & Hpost).
  - intros s' [Href|Hc]; [|by apply int_copies].
    revert Href. apply int_refused_up_to. by vm_compute.
  - exists s', b, k. split; [exact Heq|exact Hpost].
Defined.

(** ** Assignment and exchange *)

(** X10.  Copy assignment (lines 279-301) when the capacity of the
    destination suffices for the elements of the source: the destination
    keeps its arena, with its capacity, and ends holding the elements of the
    source; nothing is allocated, no raw slot is destroyed and the source is
    as it was.  Only a throwing copy can make it fail. *)
Theorem copy_assignment_in_place {T} {E : Env T} o (h : gmap nat (list (slot T))) n r
    this rhs v w (l lr : list T) :
  this ≠ rhs → o !! this = Some v → o !! rhs = Some w →
  rep h v l → rep h w lr → unused_from h n →
  (∀ b, base (buffer_ (data_ v)) = Some b → base (buffer_ (data_ w)) ≠ Some b) →
  size_ w ≤ capacity_ (data_ v) →
  runs (operator_assign this rhs) (mkState o h n r)
    (λ _ s', objs s' !! this = Some (mkVector (data_ v) (size_ w)) ∧
             holds s' this lr ∧ elements_are s' this lr ∧
             objs s' !! rhs = Some w ∧ rep (heap s') w lr ∧
             elements_are s' rhs lr ∧
             next s' = n ∧ raw_destroyed s' = r)
    (λ _, copy_may_throw).
Proof.
  intros Hne Hv Hw Hrep Hrepw Hf Hdisj Hle.
  destruct (rep_bounds _ _ _ Hrepw) as (Hszw & Hcapw & Hlenw).
  eapply runs_conseq;
    [eapply (operator_assign_in_place _ _ _ _ this rhs v w l lr); done|
    |by intros s' [_ ?]].
  intros [] s' ->. fields.
  assert (Hh : holds (mkState (<[this := mkVector (data_ v) (size_ w)]> o)
                        (overwrite h (data_ v) (block_of lr (capacity_ (data_ v)))) n r)
                     this lr).
  { eapply holds_in_place; try done; lia. }
  assert (Hrw : rep (overwrite h (data_ v) (block_of lr (capacity_ (data_ v)))) w lr).
  { eapply rep_frame; [done|]. intros b Hb. unfold overwrite.
    destruct (base (buffer_ (data_ v))) as [bv|] eqn:Hbv; [|done].
    rewrite lookup_insert_ne; [done|]. intros ->. by eapply Hdisj. }
  split; [apply lookup_insert_eq|]. split; [done|].
  split; [by apply holds_elements_are|].
  split; [by rewrite lookup_insert_ne|]. split; [done|].
  split; [|done].
  apply (rep_elements_are _ rhs w lr); [|done]. fields. by rewrite lookup_insert_ne.
Qed.

Lemma small_rep :
  rep (heap small_and_large) (mkVector (mkRawMemory (slot_ptr 1 0) 1) 1) [5].
Proof.
  unfold rep, arena. simpl. repeat split; try reflexivity; try discriminate.
  exists 1%nat. split; reflexivity.
Qed.

Lemma large_rep :
  rep (heap small_and_large) (mkVector (mkRawMemory (slot_ptr 2 0) 2) 2) [10; 20].
Proof.
  unfold rep, arena. simpl. repeat split; try reflexivity; try discriminate.
  exists 2%nat. split; reflexivity.
Qed.

Lemma small_and_large_unused : unused_from (heap small_and_large) 3.
Proof. apply unused_check. by vm_compute. Qed.

Lemma copy_assignment_in_place_witness :
  runs (operator_assign 8 7) small_and_large
    (λ _ s', objs s' !! 8%nat = Some (mkVector (mkRawMemory (slot_ptr 2 0) 2) 1) ∧
             holds s' 8 [5] ∧ elements_are s' 8 [5] ∧
             objs s' !! 7%nat = Some (mkVector (mkRawMemory (slot_ptr 1 0) 1) 1) ∧
             rep (heap s') (mkVector (mkRawMemory (slot_ptr 1 0) 1) 1) [5] ∧
             elements_are s' 7 [5] ∧
             next s' = 3%nat ∧ raw_destroyed s' = [])
    (λ _, copy_may_throw).
Proof.
  refine (copy_assignment_in_place (T := Z)
            (objs small_and_large) (heap small_and_large) (next small_and_large) []
            8%nat 7%nat
            (mkVector (mkRawMemory (slot_ptr 2 0) 2) 2)
            (mkVector (mkRawMemory (slot_ptr 1 0) 1) 1) [10; 20] [5]
            _ _ _ _ _ _ _ _).
  - discriminate.
  - reflexivity.
  - reflexivity.
  - exact large_rep.
  - exact small_rep.
  - exact small_and_large_unused.
  - intros b Hb. simpl in *. congruence.
  - simpl. lia.
Defined.

(** X11.  [Swap] (lines 311-315, 53-56) exchanges the arenas and the sizes
    of two vectors and touches neither the heap nor any other object, so
    each ends holding the elements of the other; it does not throw, and a
    second [Swap] restores the state. *)
Theorem swap_exchanges {T} {E : Env T} o (h : gmap nat (list (slot T))) n r
    this other v w :
  o !! this = Some v → o !! other = Some w →
  ∃ s', Swap this other (mkState o h n r) = Ok tt s' ∧
        objs s' !! this = Some w ∧ objs s' !! other = Some v ∧
        heap s' = h ∧ next s' = n ∧ raw_destroyed s' = r ∧
        (∀ a, a ≠ this → a ≠ other → objs s' !! a = o !! a) ∧
        (∀ l, rep h v l → elements_are s' other l) ∧
        (∀ l, rep h w l → elements_are s' this l) ∧
        Swap this other s' = Ok tt (mkState o h n r).
Proof.
  intros Hv Hw. eexists. split; [by apply Swap_spec|]. fields.
  assert (Hthis : (<[other := v]> (<[this := w]> o)) !! this = Some w).
  { destruct (decide (this = other)) as [->|Hne].
    - rewrite lookup_insert_eq. congruence.
    - rewrite lookup_insert_ne by done. apply lookup_insert_eq. }
  assert (Hother : (<[other := v]> (<[this := w]> o)) !! other = Some v)
    by apply lookup_insert_eq.
  split; [done|]. split; [done|]. split; [done|]. split; [done|]. split; [done|].
  split; [intros a ? ?; by rewrite !lookup_insert_ne|].
  split; [intros l Hl; by apply (rep_elements_are _ other v l)|].
  split; [intros l Hl; by apply (rep_elements_are _ this w l)|].
  rewrite (Swap_spec _ _ _ _ this other w v Hthis Hother). do 2 f_equal.
  apply map_eq. intros a. rewrite !lookup_insert.
  repeat case_decide; subst; congruence.
Qed.

Lemma swap_exchanges_witness :
  ∃ s', Swap 7 8 small_and_large = Ok tt s' ∧
        objs s' !! 7%nat = Some (mkVector (mkRawMemory (slot_ptr 2 0) 2) 2) ∧
        objs s' !! 8%nat = Some (mkVector (mkRawMemory (slot_ptr 1 0) 1) 1) ∧
        heap s' = heap small_and_large ∧ next s' = 3%nat ∧ raw_destroyed s' = [] ∧
        (∀ a, a ≠ 7%nat → a ≠ 8%nat → objs s' !! a = objs small_and_large !! a) ∧
        (∀ l, rep (heap small_and_large) (mkVector (mkRawMemory (slot_ptr 1 0) 1) 1) l →
              elements_are s' 8 l) ∧
        (∀ l, rep (heap small_and_large) (mkVector (mkRawMemory (slot_ptr 2 0) 2) 2) l →
              elements_are s' 7 l) ∧
        Swap 7 8 s' = Ok tt small_and_large.
Proof.
  refine (swap_exchanges (T := Z)
            (objs small_and_large) (heap small_and_large) (next small_and_large) []
            7%nat 8%nat
            (mkVector (mkRawMemory (slot_ptr 1 0) 1) 1)
            (mkVector (mkRawMemory (slot_ptr 2 0) 2) 2) _ _); reflexivity.
Defined.

(** X12.  Move assignment from another vector (lines 303-309) exchanges the
    two: the destination ends holding the elements of the source, in the
    arena of the source, and the source holds what the destination held;
    no element is copied, moved or destroyed and the heap is untouched.  The
    old elements of the destination die with the source: its destructor
    releases their block. *)
Theorem move_assignment {T} {E : Env T} o (h : gmap nat (list (slot T))) n r
    this rhs v w (l lr : list T) :
  this ≠ rhs → o !! this = Some v → o !! rhs = Some w →
  rep h v l → rep h w lr →
  ∃ s', operator_assign_move this rhs (mkState o h n r) = Ok tt s' ∧
        objs s' !! this = Some w ∧ objs s' !! rhs = Some v ∧ heap s' = h ∧
        elements_are s' this lr ∧ elements_are s' rhs l ∧
        ∃ s'', Vector_dtor rhs s' = Ok tt s'' ∧
               heap s'' = release h (data_ v) ∧ raw_destroyed s'' = r.
Proof.
  intros Hne Hv Hw Hrep Hrepw. unfold operator_assign_move.
  rewrite (proj2 (Nat.eqb_neq _ _) Hne). simpl.
  eexists. split; [by apply Swap_spec|]. fields.
  assert (Hthis : (<[rhs := v]> (<[this := w]> o)) !! this = Some w).
  { rewrite lookup_insert_ne by done. apply lookup_insert_eq. }
  assert (Hrhs : (<[rhs := v]> (<[this := w]> o)) !! rhs = Some v)
    by apply lookup_insert_eq.
  split; [done|]. split; [done|]. split; [done|].
  split; [by apply (rep_elements_are _ this w lr)|].
  split; [by apply (rep_elements_are _ rhs v l)|].
  eexists. split; [by eapply Vector_dtor_spec|]. done.
Qed.

Lemma move_assignment_witness :
  ∃ s', operator_assign_move 7 8 small_and_large = Ok tt s' ∧
        objs s' !! 7%nat = Some (mkVector (mkRawMemory (slot_ptr 2 0) 2) 2) ∧
        objs s' !! 8%nat = Some (mkVector (mkRawMemory (slot_ptr 1 0) 1) 1) ∧
        heap s' = heap small_and_large ∧
        elements_are s' 7 [10; 20] ∧ elements_are s' 8 [5] ∧
        ∃ s'', Vector_dtor 8 s' = Ok tt s'' ∧
               heap s'' = release (heap small_and_large) (mkRawMemory (slot_ptr 1 0) 1) ∧
               raw_destroyed s'' = [].
Proof.
  refine (move_assignment (T := Z)
            (objs small_and_large) (heap small_and_large) (next small_and_large) []
            7%nat 8%nat
            (mkVector (mkRawMemory (slot_ptr 1 0) 1) 1)
            (mkVector (mkRawMemory (slot_ptr 2 0) 2) 2) [5] [10; 20]
            _ _ _ _ _).
  - discriminate.
  - reflexivity.
  - reflexivity.
  - exact small_rep.
  - exact large_rep.
Defined.

(** ** Access *)

Section Access.

Context {T : Type} {E : Env T}.
Implicit Types (h : gmap nat (list (slot T))) (blk : list (slot T)).
Implicit Types (o : gmap nat Vector) (n : nat) (r : list ptr) (l lr xs : list T).
Implicit Types (v w : Vector) (m : RawMemory) (s : state T).

Lemma pdiff_ptr_add (p : ptr) (z : Z) s : pdiff (ptr_add p z) p s = Ok z s.
Proof.
  unfold pdiff, ptr_diff, ptr_add. simpl.
  rewrite decide_True by done. do 2 f_equal. lia.
Qed.

Lemma rep_read o h n r v l (i : nat) x :
  rep h v l → l !! i = Some x →
  read (ptr_add (buffer_ (data_ v)) (Z.of_nat i)) (mkState o h n r)
  = Ok x (mkState o h n r).
Proof.
  intros Hrep Hi.
  destruct (rep_bounds _ _ _ Hrep) as (Hsz & Hcap & Hlen).
  pose proof (lookup_lt_Some _ _ _ Hi) as Hlt.
  destruct (rep_block _ _ _ Hrep ltac:(lia)) as (b & Hbuf & Hblk).
  rewrite Hbuf, ptr_add_nat. eapply read_block; [done|].
  by apply block_of_lookup_live.
Qed.

End Access.

(** X13.  [operator[]] (lines 196-203, 44-51) on a well-formed vector holding
    [l]: for [i < size] the reference designates the element [l[i]]; for
    [i ≥ size] the assertion [index < size_] fails, also when [i] is within
    the capacity. *)
Theorem index_bounds {T} {E : Env T} o (h : gmap nat (list (slot T))) n r this v
    (l : list T) (i : Z) :
  o !! this = Some v → rep h v l → 0 ≤ i →
  let s := mkState o h n r in
  (i < size_ v →
   ∃ x, l !! Z.to_nat i = Some x ∧
        index this i s = Ok (ptr_add (buffer_ (data_ v)) i) s ∧
        read (ptr_add (buffer_ (data_ v)) i) s = Ok x s) ∧
  (size_ v ≤ i → index this i s = Fault).
Proof.
  intros Hv Hrep Hi s.
  destruct (rep_bounds _ _ _ Hrep) as (Hsz & Hcap & Hlen).
  unfold index, s. rewrite (bind_ok _ _ _ _ _ (load_eq o h n r this v Hv)).
  split.
  - intros Hlt. destruct (lookup_lt_is_Some_2 l (Z.to_nat i)) as [x Hx]; [lia|].
    exists x. split; [done|]. split.
    + unfold bind at 1, assert. rewrite (proj2 (Z.ltb_lt _ _)) by done.
      apply RawMemory_at_eq. lia.
    + rewrite <- (Z2Nat.id i) by done. by eapply rep_read.
  - intros Hge. unfold bind, assert. by rewrite (proj2 (Z.ltb_ge _ _)).
Qed.

Lemma index_bounds_witness :
  (1 < 2 →
   ∃ x, [10; 20] !! Z.to_nat 1 = Some x ∧
        index 7 1 two_of_four = Ok (ptr_add (slot_ptr 2 0) 1) two_of_four ∧
        read (ptr_add (slot_ptr 2 0) 1) two_of_four = Ok x two_of_four) ∧
  (2 ≤ 1 → index 7 1 two_of_four = Fault).
Proof.
  refine (index_bounds (T := Z)
            (objs two_of_four) (heap two_of_four) (next two_of_four) []
            7%nat (mkVector (mkRawMemory (slot_ptr 2 0) 4) 2) [10; 20] 1 _ _ _).
  - reflexivity.
  - exact two_of_four_rep.
  - lia.
Defined.

(** X14.  The iterators (lines 132-149) of a well-formed vector holding [l]:
    [begin()] and [cbegin()] are the start of the arena, [end()] and
    [cend()] are [begin() + size], so [end() - begin()] is [Size()] and the
    two coincide exactly when the vector is empty; reading [begin() + i] for
    [i < size] gives [l[i]].  None of them faults. *)
Theorem iterator_range {T} {E : Env T} o (h : gmap nat (list (slot T))) n r this v
    (l : list T) :
  o !! this = Some v → rep h v l →
  let s := mkState o h n r in
  ∃ b e, begin_ this s = Ok b s ∧ cbegin this s = Ok b s ∧
         end_ this s = Ok e s ∧ cend this s = Ok e s ∧
         e = ptr_add b (Z.of_nat (length l)) ∧
         pdiff e b s = Ok (Z.of_nat (length l)) s ∧
         Size this s = Ok (Z.of_nat (length l)) s ∧
         (b = e ↔ l = []) ∧
         ∀ (i : nat) x, l !! i = Some x →
           read (ptr_add b (Z.of_nat i)) s = Ok x s.
Proof.
  intros Hv Hrep s.
  destruct (rep_bounds _ _ _ Hrep) as (Hsz & Hcap & Hlen).
  exists (buffer_ (data_ v)), (ptr_add (buffer_ (data_ v)) (Z.of_nat (length l))).
  assert (Hb : begin_ this s = Ok (buffer_ (data_ v)) s) by by apply begin_eq.
  assert (He : end_ this s
               = Ok (ptr_add (buffer_ (data_ v)) (Z.of_nat (length l))) s).
  { rewrite <- Hlen. apply end_eq; [done|lia]. }
  split; [done|]. split; [done|]. split; [done|]. split; [done|].
  split; [done|]. split; [apply pdiff_ptr_add|].
  split; [unfold s; erewrite Size_eq by done; by rewrite Hlen|].
  split.
  - split.
    + intros Heq. apply (f_equal off) in Heq. unfold ptr_add in Heq. simpl in Heq.
      apply nil_length_inv. lia.
    + intros ->. unfold ptr_add. simpl. destruct (buffer_ (data_ v)). simpl.
      f_equal. lia.
  - intros i x Hi. by eapply rep_read.
Qed.

Lemma iterator_range_witness :
  ∃ b e, begin_ 7 two_of_four = Ok b two_of_four ∧
         cbegin 7 two_of_four = Ok b two_of_four ∧
         end_ 7 two_of_four = Ok e two_of_four ∧
         cend 7 two_of_four = Ok e two_of_four ∧
         e = ptr_add b (Z.of_nat (length [10; 20])) ∧
         pdiff e b two_of_four = Ok (Z.of_nat (length [10; 20])) two_of_four ∧
         Size 7 two_of_four = Ok (Z.of_nat (length [10; 20])) two_of_four ∧
         (b = e ↔ [10; 20] = []) ∧
         ∀ (i : nat) x, [10; 20] !! i = Some x →
           read (ptr_add b (Z.of_nat i)) two_of_four = Ok x two_of_four.
Proof.
  refine (iterator_range (T := Z)
            (objs two_of_four) (heap two_of_four) (next two_of_four) []
            7%nat (mkVector (mkRawMemory (slot_ptr 2 0) 4) 2) [10; 20] _ _).
  - reflexivity.
  - exact two_of_four_rep.
Defined.

(** ** Insertion and removal *)

(** X15.  [Emplace] and both [Insert] overloads (lines 151-179) at
    [begin() + i], [i ≤ size], with an argument outside the heap, on a
    well-formed vector holding [l]: when the call returns, the vector holds
    the first [i] elements of [l], the element built from the argument,
    then the rest of [l]; with room left the arena is kept and nothing is
    allocated.  The call throws only if the arena is full and the
    allocation of the larger one is refused in the state of the call, or a
    copy of an element throws (the moves of the element types covered do
    not throw); when the arena was full, the vector is then what it was.
    The statement describes the vector; it says nothing of the element
    already built in the larger arena (line 171). *)
Theorem insert_result {T} {E : Env T} o (h : gmap nat (list (slot T))) n r this v
    (l : list T) (i : nat) :
  o !! this = Some v → rep h v l → unused_from h n → (i ≤ length l)%nat →
  let s := mkState o h n r in
  let pos := ptr_add (buffer_ (data_ v)) (Z.of_nat i) in
  let placed (x : T) (s' : state T) :=
    holds s' this (take i l ++ x :: drop i l) ∧
    elements_are s' this (take i l ++ x :: drop i l) ∧
    (size_ v < capacity_ (data_ v) →
     objs s' !! this = Some (mkVector (data_ v) (size_ v + 1)) ∧ next s' = n) in
  let failed (s' : state T) :=
    growth_fails s v ∧
    (size_ v = capacity_ (data_ v) →
     objs s' !! this = Some v ∧ rep (heap s') v l ∧ elements_are s' this l) in
  (∀ a, runs (Emplace this pos a) s (λ _ s', placed (arg_value a) s') failed) ∧
  (∀ x, runs (Insert this pos x) s (λ _ s', placed x s') failed) ∧
  (∀ x, runs (Insert_rvalue this pos x) s (λ _ s', placed x s') failed).
Proof.
  intros Hv Hrep Hf Hi s pos placed failed.
  destruct (rep_bounds _ _ _ Hrep) as (Hsz & Hcap & Hlen).
  assert (Hall : ∀ a, runs (Emplace this pos a) s
                        (λ _ s', placed (arg_value a) s') failed).
  { intros a. unfold pos, s, placed, failed.
    destruct (decide (size_ v = capacity_ (data_ v))) as [Hfull|Hroom].
    - eapply runs_conseq; [eapply Emplace_reallocates; try done; lia| |].
      + intros p s' (Hmax & _ & ->).
        destruct (grown_room v l Hfull Hlen) as [Hg Hgl].
        assert (Hh : holds (mkState
                        (<[this := mkVector (mkRawMemory (slot_ptr n 0) (grown v))
                                            (size_ v + 1)]> o)
                        (<[n := block_of (inserted l i (arg_value a)) (grown v)]>
                           (release h (data_ v))) (S n) r)
                       this (inserted l i (arg_value a))).
        { eapply holds_reallocated; try done; rewrite length_inserted; lia. }
        split; [done|]. split; [by apply holds_elements_are|lia].
      + intros [o' h' n' r'] (Ho & Hh & Hr & Hwhy). fields. subst o' h' r'.
        split; [destruct Hwhy as [Href|Hcp]; [by left|by right]|].
        intros _. split; [done|]. split; [done|]. by eapply rep_elements_are.
    - assert (Hnz : capacity_ (data_ v) ≠ 0) by lia.
      destruct (rep_block _ _ _ Hrep Hnz) as (b & Hbuf & Hblk).
      rewrite Hbuf, ptr_add_nat.
      eapply runs_conseq; [eapply Emplace_in_place; try done; lia| |].
      + intros p s' (_ & ->).
        assert (Hh : holds (mkState (<[this := mkVector (data_ v) (size_ v + 1)]> o)
                        (overwrite h (data_ v)
                           (block_of (inserted l i (arg_value a)) (capacity_ (data_ v))))
                        n r)
                       this (inserted l i (arg_value a))).
        { eapply holds_in_place; try done; rewrite length_inserted; lia. }
        split; [done|]. split; [by apply holds_elements_are|].
        intros _. fields. by rewrite lookup_insert_eq.
      + intros s' Hcp. split; [by right|lia]. }
  split; [done|]. split; intros x; [apply (Hall (CopyOf x))|apply (Hall (MoveOf x))].
Qed.

(** [Insert(begin() + 1, 99)] on a vector holding [10; 20] in an arena of
    capacity 4 returns and keeps the arena. *)
Lemma insert_result_witness :
  ∃ p s', Insert 7 (ptr_add (slot_ptr 2 0) (Z.of_nat 1)) 99 two_of_four = Ok p s' ∧
          holds s' 7 [10; 99; 20] ∧ elements_are s' 7 [10; 99; 20] ∧
          objs s' !! 7%nat = Some (mkVector (mkRawMemory (slot_ptr 2 0) 4) (2 + 1)) ∧
          next s' = 3%nat.
Proof.
  pose proof (insert_result (T := Z)
                (objs two_of_four) (heap two_of_four) (next two_of_four) []
                7%nat (mkVector (mkRawMemory (slot_ptr 2 0) 4) 2) [10; 20] 1
                eq_refl two_of_four_rep two_of_four_fresh ltac:(simpl; lia))
    as (_ & Hinsert & _).
  destruct (runs_returns _ _ _ _ (Hinsert 99)) as (p & s' & Heq & Hh & Hel & Hkeep).
  - intros s' [Hfail _]. revert Hfail. apply int_grows. by vm_compute.
  - destruct (Hkeep ltac:(done)) as (Ho & Hn). by exists p, s'.
Defined.

(** What [Insert(begin() + i, v[j])] copies, where [v[j]] holds [y]: with
    room left and [i ≤ j] the elements from [i] on have been shifted when
    the copy is made (lines 165-167), and slot [j] then holds the element
    that preceded [y], or what the move left of [y] when [j = i]. *)
Definition copied_from_slot {T} {E : Env T} (l : list T) (i j : nat) (room : bool)
    (y : T) : T :=
  if room && (i <=? j)%nat
  then if (j =? i)%nat then moved_from y else default y (l !! (j - 1)%nat)
  else y.

Lemma inserted_lookup_lt {T} (l : list T) i j x :
  (j < i)%nat → (i ≤ length l)%nat → inserted l i x !! j = l !! j.
Proof.
  intros Hj Hi. unfold inserted.
  rewrite lookup_app_l by (rewrite length_take; lia).
  apply lookup_take_lt. lia.
Qed.

Lemma inserted_lookup_gt {T} (l : list T) i j x :
  (i < j)%nat → (i ≤ length l)%nat → inserted l i x !! j = l !! (j - 1)%nat.
Proof.
  intros Hj Hi. unfold inserted.
  rewrite lookup_app_r by (rewrite length_take; lia).
  rewrite length_take, Nat.min_l by lia.
  destruct (j - i)%nat as [|k] eqn:Hk; [lia|]. simpl.
  rewrite lookup_drop. f_equal. lia.
Qed.

(** X25.  [Insert(begin() + i, v[j])], the value being an element of the
    vector itself.  [Insert] takes the value by reference (line 151) and
    copies it when the new element is built.  When the arena is full the
    copy is made first (line 171), and when [j < i] slot [j] is not
    touched: the vector ends with a copy of [v[j]] at position [i].  But
    with room left and [i ≤ j] the elements from [i] on are shifted before
    the copy is made (lines 165-167): what is inserted is a copy of the
    element that preceded [v[j]], or of what the move left of [v[i]] when
    [j = i]. *)
Theorem insert_of_own_element {T} {E : Env T} o (h : gmap nat (list (slot T))) n r
    this v (l : list T) (i j : nat) (y : T) :
  o !! this = Some v → rep h v l → unused_from h n →
  (i ≤ length l)%nat → l !! j = Some y →
  let s := mkState o h n r in
  let pos (k : nat) := ptr_add (buffer_ (data_ v)) (Z.of_nat k) in
  let x := copied_from_slot l i j (size_ v <? capacity_ (data_ v)) y in
  runs (Insert_element this (pos i) (pos j)) s
    (λ p s', holds s' this (take i l ++ x :: drop i l) ∧
             elements_are s' this (take i l ++ x :: drop i l) ∧
             read p s' = Ok x s')
    (λ _, growth_fails s v).
Proof.
  intros Hv Hrep Hf Hi Hj s pos x.
  destruct (rep_bounds _ _ _ Hrep) as (Hsz & Hcap & Hlen).
  pose proof (lookup_lt_Some _ _ _ Hj) as Hjlt.
  destruct (rep_block _ _ _ Hrep ltac:(lia)) as (b & Hbuf & Hblk).
  assert (Hread : read (pos j) (construction_state o h n r v l i)
                  = Ok x (construction_state o h n r v l i)).
  { unfold pos, x, copied_from_slot, construction_state. rewrite Hbuf, ptr_add_nat.
    destruct (size_ v =? capacity_ (data_ v)) eqn:Hfull.
    - apply Z.eqb_eq in Hfull.
      replace (size_ v <? capacity_ (data_ v)) with false
        by (symmetry; apply Z.ltb_ge; lia). simpl.
      eapply read_block; [|by apply block_of_lookup_live].
      rewrite lookup_insert_ne; [done|]. intros <-. rewrite Hf in Hblk; [done|lia].
    - apply Z.eqb_neq in Hfull.
      rewrite (proj2 (Z.ltb_lt _ _)) by lia. simpl.
      unfold overwrite. rewrite Hbuf. simpl.
      eapply read_block; [apply lookup_insert_eq|].
      unfold before_construction.
      destruct (l !! i) as [yi|] eqn:Hyi.
      + apply block_of_lookup_live.
        destruct (Nat.lt_trichotomy j i) as [Hlt|[->|Hgt]].
        * rewrite (proj2 (Nat.leb_gt _ _)) by lia.
          by rewrite inserted_lookup_lt.
        * rewrite Nat.leb_refl, Nat.eqb_refl. rewrite inserted_lookup by done.
          congruence.
        * rewrite (proj2 (Nat.leb_le _ _)) by lia.
          rewrite (proj2 (Nat.eqb_neq _ _)) by lia.
          rewrite inserted_lookup_gt by lia.
          destruct (lookup_lt_is_Some_2 l (j - 1)) as [z Hz]; [lia|].
          by rewrite Hz.
      + apply lookup_ge_None_1 in Hyi.
        rewrite (proj2 (Nat.leb_gt _ _)) by lia.
        by apply block_of_lookup_live. }
  unfold Insert_element.
  eapply runs_conseq;
    [eapply (Emplace_from_at _ x); try done; by apply read_yields| |done].
  intros p s' (b' & -> & Hh). fold (inserted l i x).
  split; [by eapply holds_at_holds|].
  split; [by eapply holds_elements_are, holds_at_holds|].
  eapply holds_at_read; [done|]. by apply inserted_lookup.
Qed.

(** [v.Insert(v.begin(), v[1])] on a vector holding [10; 20] in an arena of
    capacity 4 returns with [10; 10; 20]: the element inserted is not a
    copy of [v[1]], which held 20. *)
Lemma insert_of_own_element_witness :
  ∃ p s', Insert_element 7 (slot_ptr 2 0) (slot_ptr 2 1) two_of_four = Ok p s' ∧
          holds s' 7 [10; 10; 20] ∧ elements_are s' 7 [10; 10; 20] ∧
          read p s' = Ok 10 s'.
Proof.
  pose proof (insert_of_own_element (T := Z)
                (objs two_of_four) (heap two_of_four) (next two_of_four) []
                7%nat (mkVector (mkRawMemory (slot_ptr 2 0) 4) 2) [10; 20]
                0%nat 1%nat 20
                eq_refl two_of_four_rep two_of_four_fresh ltac:(simpl; lia) eq_refl)
    as Hrun.
  destruct (runs_returns _ _ _ _ Hrun) as (p & s' & Heq & Hpost).
  - intros s'. apply int_grows. by vm_compute.
  - exists p, s'. split; [exact Heq|exact Hpost].
Defined.

(** X16.  [Erase] (lines 181-186) at the position of an element [y] of a
    well-formed vector holding [l1 ++ y :: l2], for an element type whose
    move assignment does not throw (the element types covered): the call
    returns the position it was given; the vector ends holding [l1 ++ l2]
    in the same arena; nothing is allocated, no raw slot is destroyed, and
    the other objects are untouched. *)
Theorem erase_result {T} {E : Env T} o (h : gmap nat (list (slot T))) n r this v
    (l1 : list T) (y : T) (l2 : list T) :
  o !! this = Some v → rep h v (l1 ++ y :: l2) → unused_from h n →
  let pos := ptr_add (buffer_ (data_ v)) (Z.of_nat (length l1)) in
  ∃ s', Erase this pos (mkState o h n r) = Ok pos s' ∧
        holds s' this (l1 ++ l2) ∧ elements_are s' this (l1 ++ l2) ∧
        objs s' !! this = Some (mkVector (data_ v) (size_ v - 1)) ∧
        (∀ a, a ≠ this → objs s' !! a = o !! a) ∧
        next s' = n ∧ raw_destroyed s' = r.
Proof.
  intros Hv Hrep Hf pos.
  destruct (rep_bounds _ _ _ Hrep) as (Hsz & Hcap & Hlen).
  rewrite length_app in Hlen. simpl in Hlen.
  destruct (rep_block _ _ _ Hrep ltac:(lia)) as (b & Hbuf & Hblk).
  unfold pos. rewrite Hbuf, ptr_add_nat.
  eexists. split; [by eapply Erase_spec|]. fields.
  assert (Hh : holds (mkState (<[this := mkVector (data_ v) (size_ v - 1)]> o)
                  (overwrite h (data_ v) (block_of (l1 ++ l2) (capacity_ (data_ v))))
                  n r) this (l1 ++ l2)).
  { eapply holds_in_place; try done; rewrite length_app; lia. }
  split; [done|]. split; [by apply holds_elements_are|].
  split; [apply lookup_insert_eq|].
  split; [intros a Ha; by rewrite lookup_insert_ne|done].
Qed.

Lemma erase_result_witness :
  ∃ s', Erase 7 (ptr_add (slot_ptr 2 0) (Z.of_nat (length [10]))) two_of_four
        = Ok (ptr_add (slot_ptr 2 0) (Z.of_nat (length [10]))) s' ∧
        holds s' 7 ([10] ++ []) ∧ elements_are s' 7 ([10] ++ []) ∧
        objs s' !! 7%nat = Some (mkVector (mkRawMemory (slot_ptr 2 0) 4) (2 - 1)) ∧
        (∀ a, a ≠ 7%nat → objs s' !! a = objs two_of_four !! a) ∧
        next s' = 3%nat ∧ raw_destroyed s' = [].
Proof.
  refine (erase_result (T := Z)
            (objs two_of_four) (heap two_of_four) (next two_of_four) []
            7%nat (mkVector (mkRawMemory (slot_ptr 2 0) 4) 2) [10] 20 [] _ _ _).
  - reflexivity.
  - exact two_of_four_rep.
  - exact two_of_four_fresh.
Defined.

(** X17.  Removal without an element: on a well-formed empty vector
    [PopBack] (lines 360-364) destroys the slot before [begin()], and on any
    well-formed vector [Erase(end())] (lines 181-186) moves from a range
    that starts after its end: the code has no guard and neither call has a
    defined result. *)
Theorem removal_without_element {T} {E : Env T} o (h : gmap nat (list (slot T))) n r
    this v (l : list T) :
  o !! this = Some v → rep h v l →
  let s := mkState o h n r in
  (l = [] → PopBack this s = Fault) ∧
  Erase this (ptr_add (buffer_ (data_ v)) (size_ v)) s = Fault.
Proof.
  intros Hv Hrep s.
  destruct (rep_bounds _ _ _ Hrep) as (Hsz & Hcap & Hlen).
  assert (Hload : load this s = Ok v s) by by apply load_eq.
  assert (Hbegin : begin_ this s = Ok (buffer_ (data_ v)) s) by by apply begin_eq.
  assert (Hend : end_ this s = Ok (ptr_add (buffer_ (data_ v)) (size_ v)) s).
  { apply end_eq; [done|lia]. }
  split.
  - intros ->. simpl in Hlen. unfold PopBack.
    rewrite (bind_ok _ _ _ _ _ Hload).
    rewrite (bind_ok _ _ _ _ _ (RawMemory_plus_eq (data_ v) (size_ v) s ltac:(lia))).
    rewrite (bind_ok _ _ _ _ _ (RawMemory_plus_eq (data_ v) (size_ v) s ltac:(lia))).
    apply bind_fault. unfold destroy.
    assert (Hd : distance (ptr_add (ptr_add (buffer_ (data_ v)) (size_ v)) (-1))
                          (ptr_add (buffer_ (data_ v)) (size_ v)) s = Ok 1%nat s).
    { unfold distance, ptr_diff, ptr_add. simpl. rewrite decide_True by done.
      replace (off (buffer_ (data_ v)) + size_ v
               - (off (buffer_ (data_ v)) + size_ v + -1)) with 1 by lia.
      done. }
    rewrite (bind_ok _ _ _ _ _ Hd). cbn [destroy_loop]. apply bind_fault.
    destruct (decide (capacity_ (data_ v) = 0)) as [Hz|Hnz].
    + destruct (rep_null _ _ _ Hrep Hz) as (-> & _). done.
    + destruct (rep_block _ _ _ Hrep Hnz) as (b & -> & Hblk).
      unfold destroy_at, slot_at, ptr_add, s. simpl.
      rewrite Hblk, Hlen. done.
  - unfold Erase. rewrite (bind_ok _ _ _ _ _ Hbegin). unfold cbegin.
    rewrite (bind_ok _ _ _ _ _ Hbegin).
    rewrite (bind_ok _ _ _ _ _ (pdiff_ptr_add _ _ s)).
    rewrite (bind_ok _ _ _ _ _ Hend).
    rewrite (bind_ok _ _ _ _ _ Hbegin).
    rewrite (bind_ok _ _ _ _ _ Hbegin).
    rewrite (bind_ok _ _ _ _ _ (pdiff_ptr_add _ _ s)).
    apply bind_fault. unfold std_move. apply bind_fault.
    unfold distance, ptr_diff, ptr_add. simpl. rewrite decide_True by done.
    rewrite (proj2 (Z.leb_gt _ _)) by lia. done.
Qed.

Lemma removal_without_element_witness :
  (([] : list Z) = [] → PopBack (T := Z) 7 one_empty_vector = Fault) ∧
  Erase (T := Z) 7 (ptr_add nullptr 0) one_empty_vector = Fault.
Proof.
  refine (removal_without_element (T := Z)
            (objs one_empty_vector) (heap one_empty_vector) 0%nat []
            7%nat (mkVector RawMemory_default 0) [] _ _).
  - reflexivity.
  - apply rep_empty.
Defined.

(** ** What a call changes *)

(** The shapes of the state after a call that ends normally, from the state
    [s] before it; [ns] are the addresses of the vectors the call names and
    [d] the raw slots it ran a destructor on.
    Either nothing changed, or one vector was rewritten in its arena, or it
    moved to a new block and released the old one, or a vector was constructed
    (with or without a block), or two vectors exchanged their fields, or one
    was constructed from another by a move, which ended the lifetime of the
    other, or one was destroyed. *)
Inductive effect {T} {E : Env T} (ns : list nat) (s : state T)
  : list ptr → state T → Prop :=
| effect_none d r' :
    r' = raw_destroyed s ++ d →
    effect ns s d (mkState (objs s) (heap s) (next s) r')
| effect_in_place this v l' z d r' :
    this ∈ ns → objs s !! this = Some v →
    z = Z.of_nat (length l') → z ≤ capacity_ (data_ v) →
    r' = raw_destroyed s ++ d →
    effect ns s d
      (mkState (<[this := mkVector (data_ v) z]> (objs s))
               (overwrite (heap s) (data_ v) (block_of l' (capacity_ (data_ v))))
               (next s) r')
| effect_reallocated this v c l' z d r' :
    this ∈ ns → objs s !! this = Some v →
    0 < c → c * sizeof_T ≤ PTRDIFF_MAX →
    z = Z.of_nat (length l') → z ≤ c →
    r' = raw_destroyed s ++ d →
    effect ns s d
      (mkState (<[this := mkVector (mkRawMemory (slot_ptr (next s) 0) c) z]> (objs s))
               (<[next s := block_of l' c]> (release (heap s) (data_ v)))
               (S (next s)) r')
| effect_constructed this c l' z :
    this ∈ ns → objs s !! this = None →
    0 < c → c * sizeof_T ≤ PTRDIFF_MAX →
    z = Z.of_nat (length l') → z ≤ c →
    effect ns s []
      (mkState (<[this := mkVector (mkRawMemory (slot_ptr (next s) 0) c) z]> (objs s))
               (<[next s := block_of l' c]> (heap s))
               (S (next s)) (raw_destroyed s))
| effect_constructed_empty this :
    this ∈ ns → objs s !! this = None →
    effect ns s []
      (mkState (<[this := mkVector RawMemory_default 0]> (objs s))
               (heap s) (next s) (raw_destroyed s))
| effect_swapped a b v w :
    a ∈ ns → b ∈ ns → objs s !! a = Some v → objs s !! b = Some w →
    effect ns s []
      (mkState (<[b := v]> (<[a := w]> (objs s)))
               (heap s) (next s) (raw_destroyed s))
| effect_moved this other w :
    this ∈ ns → other ∈ ns → objs s !! this = None → objs s !! other = Some w →
    effect ns s []
      (mkState (delete other (<[this := w]> (objs s)))
               (heap s) (next s) (raw_destroyed s))
| effect_destroyed this v :
    this ∈ ns → objs s !! this = Some v →
    effect ns s []
      (mkState (delete this (objs s)) (release (heap s) (data_ v))
               (next s) (raw_destroyed s)).

(** The shapes of the state when a call throws: nothing changed but,
    possibly, the number of blocks handed out so far; or the block of one
    vector was rewritten and its fields were not; or the call had already
    made one of the changes above. *)
Inductive interrupted {T} {E : Env T} (ns : list nat) (s : state T)
  : list ptr → state T → Prop :=
| interrupted_unchanged d n' :
    interrupted ns s d (mkState (objs s) (heap s) n' (raw_destroyed s))
| interrupted_in_place d this v blk' :
    this ∈ ns → objs s !! this = Some v →
    interrupted ns s d
      (mkState (objs s) (overwrite (heap s) (data_ v) blk') (next s)
               (raw_destroyed s))
| interrupted_after d s' :
    effect ns s d s' → interrupted ns s d s'.

(** Every block of the heap belongs to a vector. *)
Definition no_leak {T} (s : state T) : Prop :=
  ∀ b, is_Some (heap s !! b) →
       ∃ a v, objs s !! a = Some v ∧ base (buffer_ (data_ v)) = Some b.

Section Effects.

Context {T : Type} {E : Env T}.
Implicit Types (h : gmap nat (list (slot T))) (blk : list (slot T)).
Implicit Types (o : gmap nat Vector) (n : nat) (r : list ptr) (l lr xs : list T).
Implicit Types (v w : Vector) (m : RawMemory) (s : state T) (ns : list nat).

Lemma wf_destroyed o h n r this v :
  wf (mkState o h n r) → o !! this = Some v →
  wf (mkState (delete this o) (release h (data_ v)) n r).
Proof.
  intros (Hf & Hreps & Hown) Hv. fields.
  assert (Hkeep : ∀ a va b, a ≠ this → o !! a = Some va →
            base (buffer_ (data_ va)) = Some b → release h (data_ v) !! b = h !! b).
  { intros a va b Hne Hva Hb. unfold release.
    destruct (base (buffer_ (data_ v))) as [bv|] eqn:Hbv; [|done].
    rewrite lookup_delete_ne; [done|]. intros ->. apply Hne. by eapply Hown. }
  split; [|split]; fields.
  - intros b Hb. unfold release.
    destruct (base (buffer_ (data_ v))) as [bv|]; [|by apply Hf].
    rewrite lookup_delete. case_decide; [done|]. by apply Hf.
  - intros a va. rewrite lookup_delete. case_decide; [done|]. intros Hva.
    destruct (Hreps _ _ Hva) as (la & Hla). exists la.
    eapply rep_frame; [done|]. intros b Hb. by eapply Hkeep.
  - intros a1 a2 v1 v2 b. rewrite !lookup_delete.
    repeat case_decide; try done. apply Hown.
Qed.

Lemma effect_log ns s d s' :
  effect ns s d s' → raw_destroyed s' = raw_destroyed s ++ d.
Proof. intros []; simpl; try done; by rewrite app_nil_r. Qed.

Lemma effect_wf ns s d s' : wf s → effect ns s d s' → wf s'.
Proof.
  destruct s as [o h n r]. intros Hwf Heff.
  destruct Heff as [d r' _|this v l' z d r' _ Hv Hz Hle _
                   |this v c l' z d r' _ Hv Hc Hm Hz Hle _
                   |this c l' z _ Hnone Hc Hm Hz Hle|this _ Hnone
                   |a b v w _ _ Hv Hw|this other w _ _ Hnone Hw|this v _ Hv]; fields.
  - destruct Hwf as (Hf & Hreps & Hown). by split.
  - eapply wf_in_place; try done. lia.
  - eapply wf_reallocated; try done. lia.
  - eapply wf_constructed; try done. lia.
  - by apply wf_constructed_empty.
  - by apply wf_swap.
  - apply wf_moved; [done|done|]. intros ->. congruence.
  - by apply wf_destroyed.
Qed.

Lemma effect_no_leak ns s d s' :
  wf s → no_leak s → effect ns s d s' → no_leak s'.
Proof.
  destruct s as [o h n r]. intros Hwf Htight Heff. unfold no_leak in *. fields.
  pose proof Hwf as (Hf & Hreps & Hown). fields.
  destruct Heff as [d r' _|this v l' z d r' _ Hv Hz Hle _
                   |this v c l' z d r' _ Hv Hc Hm Hz Hle _
                   |this c l' z _ Hnone Hc Hm Hz Hle|this _ Hnone
                   |a b v w _ _ Hv Hw|this other w _ _ Hnone Hw|this v _ Hv];
    fields; intros blk Hblk.
  - by apply Htight.
  - assert (Hold : is_Some (h !! blk)).
    { unfold overwrite in Hblk. destruct (base (buffer_ (data_ v))) as [bv|] eqn:Hbv;
        [|done].
      destruct (decide (blk = bv)) as [->|Hne].
      - destruct (Hreps _ _ Hv) as (l & Hrep). by eapply rep_owned.
      - by rewrite lookup_insert_ne in Hblk. }
    destruct (Htight _ Hold) as (a & va & Hva & Hb).
    destruct (decide (a = this)) as [->|Hne].
    + exists this. eexists. split; [apply lookup_insert_eq|]. simpl. congruence.
    + exists a, va. by rewrite lookup_insert_ne.
  - destruct (decide (blk = n)) as [->|Hne].
    { exists this. eexists. split; [apply lookup_insert_eq|]. done. }
    rewrite lookup_insert_ne in Hblk by done.
    assert (Hold : is_Some (h !! blk) ∧ base (buffer_ (data_ v)) ≠ Some blk).
    { unfold release in Hblk. destruct (base (buffer_ (data_ v))) as [bv|]; [|done].
      destruct (decide (blk = bv)) as [->|Hne'].
      - rewrite lookup_delete_eq in Hblk. by destruct Hblk.
      - rewrite lookup_delete_ne in Hblk by done. split; [done|congruence]. }
    destruct Hold as [Hold Hnot].
    destruct (Htight _ Hold) as (a & va & Hva & Hb).
    exists a, va. split; [|done]. rewrite lookup_insert_ne; [done|].
    intros ->. congruence.
  - destruct (decide (blk = n)) as [->|Hne].
    { exists this. eexists. split; [apply lookup_insert_eq|]. done. }
    rewrite lookup_insert_ne in Hblk by done.
    destruct (Htight _ Hblk) as (a & va & Hva & Hb).
    exists a, va. split; [|done]. rewrite lookup_insert_ne; [done|].
    intros ->. congruence.
  - destruct (Htight _ Hblk) as (a & va & Hva & Hb).
    exists a, va. split; [|done]. rewrite lookup_insert_ne; [done|].
    intros ->. congruence.
  - destruct (Htight _ Hblk) as (c & vc & Hvc & Hb).
    destruct (decide (c = a)) as [->|Hca].
    + exists b, vc. split; [|done]. rewrite lookup_insert_eq. congruence.
    + destruct (decide (c = b)) as [->|Hcb].
      * exists a, vc. split; [|done].
        rewrite lookup_insert_ne by done. rewrite lookup_insert_eq. congruence.
      * exists c, vc. by rewrite !lookup_insert_ne.
  - destruct (Htight _ Hblk) as (c & vc & Hvc & Hb).
    assert (c ≠ this) by (intros ->; congruence).
    assert (this ≠ other) by (intros ->; congruence).
    destruct (decide (c = other)) as [->|Hco].
    + exists this, vc. split; [|done].
      rewrite lookup_delete_ne by done.
      rewrite lookup_insert_eq. congruence.
    + exists c, vc. by rewrite lookup_delete_ne, lookup_insert_ne.
  - assert (Hold : is_Some (h !! blk) ∧ base (buffer_ (data_ v)) ≠ Some blk).
    { unfold release in Hblk. destruct (base (buffer_ (data_ v))) as [bv|]; [|done].
      destruct (decide (blk = bv)) as [->|Hne'].
      - rewrite lookup_delete_eq in Hblk. by destruct Hblk.
      - rewrite lookup_delete_ne in Hblk by done. split; [done|congruence]. }
    destruct Hold as [Hold Hnot].
    destruct (Htight _ Hold) as (a & va & Hva & Hb).
    exists a, va. split; [|done]. rewrite lookup_delete_ne; [done|].
    intros ->. congruence.
Qed.

(** A vector the call does not name keeps its fields and its block. *)
Lemma effect_frame ns s d s' a v :
  wf s → effect ns s d s' → a ∉ ns → objs s !! a = Some v →
  objs s' !! a = Some v ∧
  (∀ b, base (buffer_ (data_ v)) = Some b → heap s' !! b = heap s !! b).
Proof.
  destruct s as [o h n r]. intros Hwf Heff Ha Hva.
  pose proof Hwf as (Hf & Hreps & Hown). fields.
  assert (Hbelow : ∀ b, base (buffer_ (data_ v)) = Some b → b ≠ n).
  { intros b Hb ->. destruct (Hreps _ _ Hva) as (l & Hrep).
    destruct (rep_owned _ _ _ _ Hrep Hb) as [_ [blk Hblk]].
    rewrite Hf in Hblk; [done|lia]. }
  assert (Hother : ∀ this w b, this ∈ ns → o !! this = Some w →
            base (buffer_ (data_ v)) = Some b → base (buffer_ (data_ w)) ≠ Some b).
  { intros this w b Hin Hw Hb Hb'. apply Ha.
    by rewrite (Hown _ _ _ _ _ Hva Hw Hb Hb'). }
  destruct Heff as [d r' _|this w l' z d r' Hin Hv Hz Hle _
                   |this w c l' z d r' Hin Hv Hc Hm Hz Hle _
                   |this c l' z Hin Hnone Hc Hm Hz Hle|this Hin Hnone
                   |a1 a2 w1 w2 Hin1 Hin2 Hv Hw|this other w Hin1 Hin2 Hnone Hw
                   |this w Hin Hv]; fields.
  - done.
  - assert (a ≠ this) by (intros ->; done).
    split; [by rewrite lookup_insert_ne|]. intros b Hb. unfold overwrite.
    destruct (base (buffer_ (data_ w))) as [bw|] eqn:Hbw; [|done].
    rewrite lookup_insert_ne; [done|]. intros ->.
    eapply (Hother this w b); try done.
  - assert (a ≠ this) by (intros ->; done).
    split; [by rewrite lookup_insert_ne|]. intros b Hb.
    rewrite lookup_insert_ne by (intros <-; by eapply Hbelow).
    unfold release.
    destruct (base (buffer_ (data_ w))) as [bw|] eqn:Hbw; [|done].
    rewrite lookup_delete_ne; [done|]. intros ->.
    eapply (Hother this w b); try done.
  - assert (a ≠ this) by (intros ->; done).
    split; [by rewrite lookup_insert_ne|]. intros b Hb.
    rewrite lookup_insert_ne; [done|]. intros <-. by eapply Hbelow.
  - assert (a ≠ this) by (intros ->; done).
    split; [by rewrite lookup_insert_ne|done].
  - assert (a ≠ a1) by (intros ->; done). assert (a ≠ a2) by (intros ->; done).
    split; [by rewrite !lookup_insert_ne|done].
  - assert (a ≠ this) by (intros ->; done). assert (a ≠ other) by (intros ->; done).
    split; [by rewrite lookup_delete_ne, lookup_insert_ne|done].
  - assert (a ≠ this) by (intros ->; done).
    split; [by rewrite lookup_delete_ne|]. intros b Hb. unfold release.
    destruct (base (buffer_ (data_ w))) as [bw|] eqn:Hbw; [|done].
    rewrite lookup_delete_ne; [done|]. intros ->.
    eapply (Hother this w b); try done.
Qed.

Lemma interrupted_log ns s d s' :
  interrupted ns s d s' →
  raw_destroyed s' = raw_destroyed s ∨ raw_destroyed s' = raw_destroyed s ++ d.
Proof.
  intros [d' n'|d' this v blk' _ _|d' s'' Heff]; [by left|by left|].
  right. by eapply effect_log.
Qed.

(** No block is leaked when a call throws. *)
Lemma interrupted_no_leak ns s d s' :
  wf s → no_leak s → interrupted ns s d s' → no_leak s'.
Proof.
  intros Hwf Htight [d' n'|d' this v blk' _ Hv|d' s'' Heff].
  - exact Htight.
  - intros b Hb. cbn [heap objs] in *. apply Htight.
    unfold overwrite in Hb. destruct (base (buffer_ (data_ v))) as [bv|] eqn:Hbv;
      [|done].
    destruct (decide (b = bv)) as [->|Hne]; [|by rewrite lookup_insert_ne in Hb].
    destruct Hwf as (_ & Hreps & _). destruct (Hreps _ _ Hv) as (l & Hrep).
    by eapply rep_owned.
  - by eapply effect_no_leak.
Qed.

(** A vector the call does not name keeps its fields and its block when
    the call throws. *)
Lemma interrupted_frame ns s d s' a v :
  wf s → interrupted ns s d s' → a ∉ ns → objs s !! a = Some v →
  objs s' !! a = Some v ∧
  (∀ b, base (buffer_ (data_ v)) = Some b → heap s' !! b = heap s !! b).
Proof.
  intros Hwf [d' n'|d' this w blk' Hin Hw|d' s'' Heff] Ha Hva.
  - done.
  - split; [done|]. intros b Hb. cbn [heap]. unfold overwrite.
    destruct (base (buffer_ (data_ w))) as [bw|] eqn:Hbw; [|done].
    rewrite lookup_insert_ne; [done|]. intros ->. apply Ha.
    destruct Hwf as (_ & _ & Hown). by rewrite (Hown _ _ _ _ _ Hva Hw Hb Hbw).
  - by eapply effect_frame.
Qed.

End Effects.

(** ** The effect of each operation *)

Section OperationEffects.

Context {T : Type} {E : Env T}.
Implicit Types (h : gmap nat (list (slot T))) (blk : list (slot T)).
Implicit Types (o : gmap nat Vector) (n : nat) (r : list ptr) (l lr xs : list T).
Implicit Types (v w : Vector) (m : RawMemory) (a : ctor_arg (T := T)).
Implicit Types (ns : list nat).

Local Ltac side := try done; try lia; try (simpl; by rewrite app_nil_r).

Lemma interrupted_same ns (s s' : state T) d :
  objs s' = objs s → heap s' = heap s → raw_destroyed s' = raw_destroyed s →
  interrupted ns s d s'.
Proof.
  destruct s' as [o' h' n' r']. simpl. intros -> -> ->.
  apply interrupted_unchanged.
Qed.

Local Ltac same := intros ? (? & ? & ? & _); by apply interrupted_same.

Lemma push_effect ns o h n r this v a :
  wf (mkState o h n r) → o !! this = Some v → this ∈ ns →
  runs (push this a) (mkState o h n r)
    (λ _ s', effect ns (mkState o h n r) [] s' ∧ wf s' ∧ is_Some (objs s' !! this))
    (λ s', interrupted ns (mkState o h n r) [] s').
Proof.
  intros Hwf Hv Hin. destruct (wf_rep _ _ _ _ _ _ Hwf Hv) as (Hf & l & Hrep).
  destruct (rep_bounds _ _ _ Hrep) as (Hsz & Hcap & Hlen).
  assert (Hl1 : Z.of_nat (length (l ++ [arg_value a])) = size_ v + 1).
  { rewrite length_app. simpl. lia. }
  eapply runs_conseq; [by eapply push_spec| |same].
  intros [] s' Hpost. cbv beta in Hpost.
  assert (Heff : effect ns (mkState o h n r) [] s').
  { destruct (size_ v =? capacity_ (data_ v)) eqn:Hfull.
    - apply Z.eqb_eq in Hfull. destruct Hpost as [Hmax ->].
      destruct (grown_room v l Hfull Hlen) as [Hg Hroom].
      eapply (effect_reallocated ns (mkState o h n r) this v (grown v)
                (l ++ [arg_value a])); try rewrite length_replicate; side.
    - apply Z.eqb_neq in Hfull. subst s'.
      eapply (effect_in_place ns (mkState o h n r) this v (l ++ [arg_value a]));
        try rewrite length_replicate; side. }
  split; [done|]. split; [by eapply effect_wf|].
  destruct (size_ v =? capacity_ (data_ v)).
  - destruct Hpost as [_ ->]. fields. by rewrite lookup_insert_eq.
  - subst s'. fields. by rewrite lookup_insert_eq.
Qed.

Lemma EmplaceBack_effect ns o h n r this v a :
  wf (mkState o h n r) → o !! this = Some v → this ∈ ns →
  runs (EmplaceBack this a) (mkState o h n r)
    (λ _ s', effect ns (mkState o h n r) [] s')
    (λ s', interrupted ns (mkState o h n r) [] s').
Proof.
  intros Hwf Hv Hin. unfold EmplaceBack.
  eapply runs_step_or_throw; [by eapply push_effect| |done].
  intros [] [o' h' n' r'] (Heff & Hwf' & [v' Hv']). fields.
  destruct (wf_rep _ _ _ _ _ _ Hwf' Hv') as (_ & l' & Hrep').
  destruct (rep_bounds _ _ _ Hrep') as (Hsz & Hcap & Hlen).
  eapply runs_step; [by apply load_eq|].
  eapply runs_step; [apply RawMemory_plus_eq; lia|].
  by apply runs_ret.
Qed.

Lemma PopBack_effect ns o h n r this v :
  wf (mkState o h n r) → o !! this = Some v → this ∈ ns → 0 < size_ v →
  runs (PopBack this) (mkState o h n r)
    (λ _ s', effect ns (mkState o h n r) [] s')
    (λ s', interrupted ns (mkState o h n r) [] s').
Proof.
  intros Hwf Hv Hin Hpos. destruct (wf_rep _ _ _ _ _ _ Hwf Hv) as (Hf & l & Hrep).
  destruct (rep_bounds _ _ _ Hrep) as (Hsz & Hcap & Hlen).
  destruct (exists_last (l := l)) as (l0 & x & ->).
  { intros ->. simpl in Hlen. lia. }
  rewrite length_app in Hlen. simpl in Hlen.
  eapply runs_eq; [by eapply PopBack_spec|].
  eapply (effect_in_place ns (mkState o h n r) this v l0); try rewrite length_replicate; side.
Qed.

Lemma Emplace_effect ns o h n r this v i a :
  wf (mkState o h n r) → o !! this = Some v → this ∈ ns → Z.of_nat i ≤ size_ v →
  runs (Emplace this (ptr_add (buffer_ (data_ v)) (Z.of_nat i)) a) (mkState o h n r)
    (λ _ s', effect ns (mkState o h n r) [] s')
    (λ s', interrupted ns (mkState o h n r) [] s').
Proof.
  intros Hwf Hv Hin Hi. destruct (wf_rep _ _ _ _ _ _ Hwf Hv) as (Hf & l & Hrep).
  destruct (rep_bounds _ _ _ Hrep) as (Hsz & Hcap & Hlen).
  pose proof (length_inserted l i (arg_value a)) as Hli.
  destruct (decide (size_ v = capacity_ (data_ v))) as [Hfull|Hroom].
  - eapply runs_conseq; [eapply Emplace_reallocates; try done; lia| |same].
    intros p s' (Hmax & _ & ->).
    destruct (grown_room v l Hfull Hlen) as [Hg Hgl].
    eapply (effect_reallocated ns (mkState o h n r) this v (grown v)
              (inserted l i (arg_value a))); try rewrite length_replicate; side.
  - assert (Hnz : capacity_ (data_ v) ≠ 0) by lia.
    destruct (rep_block _ _ _ Hrep Hnz) as (b & Hbuf & Hblk).
    rewrite Hbuf, ptr_add_nat.
    unfold Emplace.
    eapply runs_conseq;
      [eapply Emplace_from_in_place; [..|apply make_yields]; try done; lia| |].
    + intros p s' (_ & ->).
      eapply (effect_in_place ns (mkState o h n r) this v (inserted l i (arg_value a)));
        try rewrite length_replicate; side.
    + intros s' [-> _]. rewrite <- (overwrite_block h (data_ v) _ b) by done.
      by eapply (interrupted_in_place ns (mkState o h n r) [] this v).
Qed.

Lemma Erase_effect ns o h n r this v i :
  wf (mkState o h n r) → o !! this = Some v → this ∈ ns → Z.of_nat i < size_ v →
  runs (Erase this (ptr_add (buffer_ (data_ v)) (Z.of_nat i))) (mkState o h n r)
    (λ _ s', effect ns (mkState o h n r) [] s')
    (λ s', interrupted ns (mkState o h n r) [] s').
Proof.
  intros Hwf Hv Hin Hi. destruct (wf_rep _ _ _ _ _ _ Hwf Hv) as (Hf & l & Hrep).
  destruct (rep_bounds _ _ _ Hrep) as (Hsz & Hcap & Hlen).
  assert (Hnz : capacity_ (data_ v) ≠ 0) by lia.
  destruct (rep_block _ _ _ Hrep Hnz) as (b & Hbuf & Hblk).
  destruct (lookup_lt_is_Some_2 l i) as [y Hy]; [lia|].
  pose proof (take_drop_middle _ _ _ Hy) as Hsplit.
  assert (Hti : length (take i l) = i) by (rewrite length_take; lia).
  rewrite <- Hsplit in Hrep. rewrite Hbuf, ptr_add_nat.
  rewrite <- Hti at 1.
  eapply runs_eq; [by eapply Erase_spec|].
  assert (Hl2 : Z.of_nat (length (take i l ++ drop (S i) l)) = size_ v - 1).
  { rewrite length_app, length_take, length_drop. lia. }
  eapply (effect_in_place ns (mkState o h n r) this v (take i l ++ drop (S i) l));
    try rewrite length_replicate; side.
Qed.

Lemma Reserve_effect ns o h n r this v k :
  wf (mkState o h n r) → o !! this = Some v → this ∈ ns →
  k * sizeof_T < size_t_modulus →
  runs (Reserve this k) (mkState o h n r)
    (λ _ s', effect ns (mkState o h n r)
               (if capacity_ (data_ v) <? k then raw_part v else []) s')
    (λ s', interrupted ns (mkState o h n r)
             (if capacity_ (data_ v) <? k then raw_part v else []) s').
Proof.
  intros Hwf Hv Hin Hk. destruct (wf_rep _ _ _ _ _ _ Hwf Hv) as (Hf & l & Hrep).
  destruct (rep_bounds _ _ _ Hrep) as (Hsz & Hcap & Hlen).
  destruct (decide (k ≤ capacity_ (data_ v))) as [Hle|Hgt].
  - rewrite (proj2 (Z.ltb_ge _ _)) by lia.
    eapply runs_eq; [by eapply Reserve_enough|].
    apply (effect_none ns (mkState o h n r) [] r); side.
  - rewrite (proj2 (Z.ltb_lt _ _)) by lia.
    eapply runs_conseq; [eapply Reserve_spec; try done; lia| |same].
    intros [] s' (Hmax & ->).
    eapply (effect_reallocated ns (mkState o h n r) this v k l); side.
Qed.

Lemma Resize_effect ns o h n r this v k :
  wf (mkState o h n r) → o !! this = Some v → this ∈ ns →
  0 ≤ k → k * sizeof_T < size_t_modulus →
  runs (Resize this k) (mkState o h n r)
    (λ _ s', effect ns (mkState o h n r)
               (if capacity_ (data_ v) <? k then raw_part v else []) s')
    (λ s', interrupted ns (mkState o h n r)
             (if capacity_ (data_ v) <? k then raw_part v else []) s').
Proof.
  intros Hwf Hv Hin Hk0 Hk. destruct (wf_rep _ _ _ _ _ _ Hwf Hv) as (Hf & l & Hrep).
  destruct (rep_bounds _ _ _ Hrep) as (Hsz & Hcap & Hlen).
  assert (Hfill : size_ v < k →
            Z.of_nat (length (l ++ replicate (Z.to_nat (k - size_ v)) default_init)) = k).
  { intros. rewrite length_app, length_replicate. lia. }
  destruct (decide (k ≤ capacity_ (data_ v))) as [Hle|Hgt].
  - rewrite (proj2 (Z.ltb_ge _ _)) by lia.
    destruct (Z.lt_trichotomy k (size_ v)) as [Hlt|[Heq|Hlt]].
    + eapply runs_eq; [eapply Resize_shrinks; try done; lia|].
      assert (Z.of_nat (length (take (Z.to_nat k) l)) = k)
        by (rewrite length_take; lia).
      eapply (effect_in_place ns (mkState o h n r) this v (take (Z.to_nat k) l));
        side.
    + eapply runs_eq; [by eapply Resize_same|].
      apply (effect_none ns (mkState o h n r) [] r); side.
    + specialize (Hfill Hlt).
      eapply runs_conseq; [eapply Resize_fills; try done; lia| |].
      * intros [] s' ->.
        eapply (effect_in_place ns (mkState o h n r) this v
                  (l ++ replicate (Z.to_nat (k - size_ v)) default_init)); side.
      * intros s' [-> _]. apply (interrupted_unchanged ns (mkState o h n r)).
  - rewrite (proj2 (Z.ltb_lt _ _)) by lia.
    assert (Hlt : size_ v < k) by lia. specialize (Hfill Hlt).
    eapply runs_conseq; [eapply Resize_reallocates; try done; lia| |].
    + intros [] s' (Hmax & ->).
      eapply (effect_reallocated ns (mkState o h n r) this v k
                (l ++ replicate (Z.to_nat (k - size_ v)) default_init)); side.
    + intros s' [(Ho & Hh & Hr & _)|(Hmax & -> & _)];
        [by apply interrupted_same|].
      apply interrupted_after.
      eapply (effect_reallocated ns (mkState o h n r) this v k l); side.
Qed.

Lemma Vector_sized_effect ns o h n r this k :
  wf (mkState o h n r) → o !! this = None → this ∈ ns →
  0 ≤ k → k * sizeof_T < size_t_modulus →
  runs (Vector_sized this k) (mkState o h n r)
    (λ _ s', effect ns (mkState o h n r) [] s')
    (λ s', interrupted ns (mkState o h n r) [] s').
Proof.
  intros Hwf Hnone Hin Hk0 Hk. pose proof Hwf as (Hf & _). fields.
  eapply runs_conseq; [by eapply Vector_sized_spec| |same].
  intros [] s' Hpost. cbv beta in Hpost. destruct (k =? 0) eqn:Hz.
  - subst s'. by apply (effect_constructed_empty ns (mkState o h n r) this).
  - apply Z.eqb_neq in Hz. destruct Hpost as (Hmax & ->).
    eapply (effect_constructed ns (mkState o h n r) this k
              (replicate (Z.to_nat k) value_init));
      try rewrite length_replicate; side.
Qed.

Lemma Vector_copy_effect ns o h n r this other w :
  wf (mkState o h n r) → o !! this = None → this ∈ ns → o !! other = Some w →
  runs (Vector_copy this other) (mkState o h n r)
    (λ _ s', effect ns (mkState o h n r) [] s')
    (λ s', interrupted ns (mkState o h n r) [] s').
Proof.
  intros Hwf Hnone Hin Hw. destruct (wf_rep _ _ _ _ _ _ Hwf Hw) as (Hf & lr & Hrep).
  destruct (rep_bounds _ _ _ Hrep) as (Hsz & Hcap & Hlen).
  pose proof (size_le_max _ _ _ Hrep) as Hmax.
  destruct (decide (size_ w = 0)) as [Hz|Hnz].
  - eapply runs_eq; [by eapply Vector_copy_empty|].
    by apply (effect_constructed_empty ns (mkState o h n r) this).
  - eapply runs_conseq; [eapply Vector_copy_spec; try done; lia| |same].
    intros [] s' ->. rewrite <- block_of_full, <- Hlen.
    eapply (effect_constructed ns (mkState o h n r) this (size_ w) lr);
      try rewrite length_replicate; side.
Qed.

Lemma operator_assign_effect ns o h n r this rhs v w :
  wf (mkState o h n r) → o !! this = Some v → o !! rhs = Some w → this ∈ ns →
  runs (operator_assign this rhs) (mkState o h n r)
    (λ _ s', effect ns (mkState o h n r) [] s')
    (λ s', interrupted ns (mkState o h n r) [] s').
Proof.
  intros Hwf Hv Hw Hin. destruct (wf_rep _ _ _ _ _ _ Hwf Hv) as (Hf & l & Hrep).
  destruct (wf_rep _ _ _ _ _ _ Hwf Hw) as (_ & lr & Hrepw).
  destruct (rep_bounds _ _ _ Hrep) as (Hsz & Hcap & Hlen).
  destruct (rep_bounds _ _ _ Hrepw) as (Hszw & Hcapw & Hlenw).
  pose proof (size_le_max _ _ _ Hrepw) as Hmax.
  destruct (decide (this = rhs)) as [->|Hne].
  - eapply runs_eq; [|apply (effect_none ns (mkState o h n r) [] r); side].
    unfold operator_assign. by rewrite Nat.eqb_refl.
  - destruct (decide (size_ w ≤ capacity_ (data_ v))) as [Hle|Hgt].
    + eapply runs_conseq;
        [eapply (operator_assign_in_place _ _ _ _ this rhs v w l lr); try done| |].
      * intros b Hb Hb'. apply Hne.
        destruct Hwf as (_ & _ & Hown). by eapply Hown.
      * intros [] s' ->.
        eapply (effect_in_place ns (mkState o h n r) this v lr); try rewrite length_replicate; side.
      * intros s' [[blk' ->] _].
        by eapply (interrupted_in_place ns (mkState o h n r) [] this v).
    + eapply runs_conseq;
        [eapply (operator_assign_reallocates _ _ _ _ this rhs v w l lr); try done; lia
        | |same].
      intros [] s' ->. rewrite <- block_of_full, <- Hlenw.
      eapply (effect_reallocated ns (mkState o h n r) this v (size_ w) lr);
        try rewrite length_replicate; side.
Qed.

Lemma Vector_dtor_effect ns o h n r this v :
  wf (mkState o h n r) → o !! this = Some v → this ∈ ns →
  runs (Vector_dtor this;; end_of_scope this) (mkState o h n r)
    (λ _ s', effect ns (mkState o h n r) [] s')
    (λ s', interrupted ns (mkState o h n r) [] s').
Proof.
  intros Hwf Hv Hin. destruct (wf_rep _ _ _ _ _ _ Hwf Hv) as (Hf & l & Hrep).
  eapply runs_step; [by eapply Vector_dtor_spec|].
  eapply runs_eq; [reflexivity|].
  by apply (effect_destroyed ns (mkState o h n r) this v).
Qed.

End OperationEffects.

(** ** Lifetimes: sequences of calls with destructors *)

(** A call of the public interface, or the end of the scope of a vector:
    its destructor, after which the object is gone. *)
Inductive call (T : Type) : Type :=
| Do (c : op T)
| Destroy (this : nat).
Arguments Do {T} c.
Arguments Destroy {T} this.

Section Lifetimes.

Context {T : Type} {E : Env T}.
Implicit Types (h : gmap nat (list (slot T))) (blk : list (slot T)).
Implicit Types (o : gmap nat Vector) (n : nat) (r : list ptr) (l lr xs : list T).
Implicit Types (v w : Vector) (m : RawMemory) (s : state T).

Definition exec_call (c : call T) : M T unit :=
  match c with
  | Do c => exec c
  | Destroy this => Vector_dtor this;; end_of_scope this
  end.

Fixpoint run_calls (cs : list (call T)) : M T unit :=
  match cs with
  | [] => ret tt
  | c :: cs' => exec_call c;; run_calls cs'
  end.

(** The vectors a call names. *)
Definition named (c : call T) : list nat :=
  match c with
  | Do (NewVector this) | Do (NewSized this _) => [this]
  | Do (NewCopy this other) | Do (NewMove this other) => [this; other]
  | Do (CallAssign this rhs) | Do (CallMoveAssign this rhs)
  | Do (CallSwap this rhs) => [this; rhs]
  | Do (CallReserve this _) | Do (CallResize this _)
  | Do (CallPushBack this _) | Do (CallPushBackRvalue this _)
  | Do (CallPopBack this) | Do (CallEmplaceBack this _)
  | Do (CallInsert this _ _) | Do (CallInsertRvalue this _ _)
  | Do (CallEmplace this _ _) | Do (CallErase this _) => [this]
  | Destroy this => [this]
  end.

(** A constructor runs at an address where no vector lives; a destructor
    runs on a vector that exists; the other calls are as in [pre]. *)
Definition vacant s (this : nat) : bool :=
  match objs s !! this with
  | Some _ => false
  | None => true
  end.

Definition pre_call s (c : call T) : bool :=
  match c with
  | Do (NewVector this as c') | Do (NewSized this _ as c')
  | Do (NewCopy this _ as c') | Do (NewMove this _ as c') =>
      pre s c' && vacant s this
  | Do c' => pre s c'
  | Destroy this => alive s this
  end.

Fixpoint admissible_calls (cs : list (call T)) s : bool :=
  match cs with
  | [] => true
  | c :: cs' =>
      pre_call s c &&
      match exec_call c s with
      | Ok _ s1 => admissible_calls cs' s1
      | _ => true
      end
  end.

(** The raw slots a call runs a destructor on: those of the old arena, for
    [Reserve] and [Resize] above the capacity (line 274); none otherwise. *)
Definition destroyed_raw s (c : call T) : list ptr :=
  match c with
  | Do (CallReserve this k) | Do (CallResize this k) =>
      match objs s !! this with
      | Some v => if capacity_ (data_ v) <? k then raw_part v else []
      | None => []
      end
  | _ => []
  end.

(** The raw slots the calls of a sequence run a destructor on, in order. *)
Fixpoint destroyed_by (cs : list (call T)) s : list ptr :=
  match cs with
  | [] => []
  | c :: cs' =>
      destroyed_raw s c ++
      match exec_call c s with
      | Ok _ s1 => destroyed_by cs' s1
      | _ => []
      end
  end.

Lemma vacant_true s this : vacant s this = true → objs s !! this = None.
Proof. unfold vacant. by destruct (objs s !! this). Qed.

Lemma runs_discard_result {A} (mm : M T A) s (Q : state T → Prop) X :
  runs mm s (λ _ s', Q s') X → runs (let! _ := mm in ret tt) s (λ _ s', Q s') X.
Proof. intros H. apply runs_bind. eapply runs_conseq; [exact H| |done]. done. Qed.

Lemma nth_position_eq o h n r this v i :
  o !! this = Some v →
  nth_position this i (mkState o h n r)
  = Ok (ptr_add (buffer_ (data_ v)) (Z.of_nat i)) (mkState o h n r).
Proof.
  intros Hv. unfold nth_position.
  by rewrite (bind_ok _ _ _ _ _ (begin_eq o h n r this v Hv)).
Qed.

Lemma exec_call_effect c s :
  wf s → pre_call s c = true →
  runs (exec_call c) s (λ _ s', effect (named c) s (destroyed_raw s c) s')
       (λ s', interrupted (named c) s (destroyed_raw s c) s').
Proof.
  destruct s as [o h n r]. intros Hwf Hpre.
  destruct c as [c|this]; [destruct c|];
    cbn [exec_call exec pre_call pre named destroyed_raw] in *.
  - apply andb_prop in Hpre as [_ Hvac%vacant_true]. fields.
    eapply runs_eq; [apply Vector_default_spec|].
    apply (effect_constructed_empty _ (mkState o h n r) this); [set_solver|done].
  - apply andb_prop in Hpre as [[? ?]%fits_true Hvac%vacant_true]. fields.
    apply Vector_sized_effect; try done. set_solver.
  - apply andb_prop in Hpre as [[w Hw]%alive_true Hvac%vacant_true]. fields.
    eapply Vector_copy_effect; try done. set_solver.
  - apply andb_prop in Hpre as [Hpre Hvac%vacant_true].
    apply andb_prop in Hpre as [[w Hw]%alive_true Hne]. fields.
    eapply runs_eq.
    { eapply Vector_move_spec; [done|]. intros ->. congruence. }
    apply (effect_moved _ (mkState o h n r) this other w); try done; set_solver.
  - apply andb_prop in Hpre as [[v Hv]%alive_true [w Hw]%alive_true].
    eapply operator_assign_effect; try done. set_solver.
  - apply andb_prop in Hpre as [[v Hv]%alive_true [w Hw]%alive_true]. fields.
    unfold operator_assign_move. destruct (negb (this =? rhs)%nat).
    + eapply runs_eq; [by eapply Swap_spec|].
      apply (effect_swapped _ (mkState o h n r) this rhs v w); try done; set_solver.
    + apply runs_ret. apply (effect_none _ (mkState o h n r) [] r).
      simpl. by rewrite app_nil_r.
  - apply andb_prop in Hpre as [[v Hv]%alive_true [w Hw]%alive_true]. fields.
    eapply runs_eq; [by eapply Swap_spec|].
    apply (effect_swapped _ (mkState o h n r) this other v w); try done; set_solver.
  - apply andb_prop in Hpre as [[v Hv]%alive_true [? ?]%fits_true].
    fields. rewrite Hv. eapply Reserve_effect; try done. set_solver.
  - apply andb_prop in Hpre as [[v Hv]%alive_true [? ?]%fits_true].
    fields. rewrite Hv. eapply Resize_effect; try done. set_solver.
  - apply alive_true in Hpre as [v Hv]. unfold PushBack.
    eapply runs_conseq; [eapply (push_effect [this]); try done; set_solver| |done].
    by intros ? ? [? ?].
  - apply alive_true in Hpre as [v Hv]. unfold PushBack_rvalue.
    eapply runs_conseq; [eapply (push_effect [this]); try done; set_solver| |done].
    by intros ? ? [? ?].
  - apply with_size_true in Hpre as (v & Hv & Hp). fields.
    eapply PopBack_effect; try done; [set_solver|lia].
  - apply alive_true in Hpre as [v Hv]. fields.
    apply runs_discard_result. eapply EmplaceBack_effect; try done. set_solver.
  - apply with_size_true in Hpre as (v & Hv & Hp). fields.
    eapply runs_step; [by apply nth_position_eq|].
    apply runs_discard_result. unfold Insert.
    eapply Emplace_effect; try done; [set_solver|lia].
  - apply with_size_true in Hpre as (v & Hv & Hp). fields.
    eapply runs_step; [by apply nth_position_eq|].
    apply runs_discard_result. unfold Insert_rvalue.
    eapply Emplace_effect; try done; [set_solver|lia].
  - apply with_size_true in Hpre as (v & Hv & Hp). fields.
    eapply runs_step; [by apply nth_position_eq|].
    apply runs_discard_result.
    eapply Emplace_effect; try done; [set_solver|lia].
  - apply with_size_true in Hpre as (v & Hv & Hp). fields.
    eapply runs_step; [by apply nth_position_eq|].
    apply runs_discard_result.
    eapply Erase_effect; try done; [set_solver|lia].
  - apply alive_true in Hpre as [v Hv]. fields.
    eapply Vector_dtor_effect; try done. set_solver.
Qed.

Lemma no_leak_empty s : no_leak s → objs s = ∅ → heap s = ∅.
Proof.
  intros Htight Ho. apply map_eq. intros b. rewrite lookup_empty.
  destruct (heap s !! b) as [blk|] eqn:Hb; [|done].
  destruct (Htight b ltac:(by eexists)) as (a & v & Hv & _).
  rewrite Ho, lookup_empty in Hv. done.
Qed.

Lemma run_calls_invariant cs : ∀ s,
  wf s → no_leak s → admissible_calls cs s = true →
  runs (run_calls cs) s
    (λ _ s', wf s' ∧ no_leak s' ∧
             raw_destroyed s' = raw_destroyed s ++ destroyed_by cs s)
    (λ s', no_leak s' ∧
           ∃ d, d `prefix_of` destroyed_by cs s ∧
                raw_destroyed s' = raw_destroyed s ++ d).
Proof.
  induction cs as [|c cs IH]; intros s Hwf Htight Hadm.
  - apply runs_ret. simpl. by rewrite app_nil_r.
  - cbn [admissible_calls run_calls destroyed_by] in *.
    apply andb_prop in Hadm as [Hpre Hrest].
    pose proof (exec_call_effect c s Hwf Hpre) as Hc.
    apply runs_bind. unfold runs in Hc |- *.
    destruct (exec_call c s) as [[] s1|s1|]; [| |done].
    + pose proof (effect_log _ _ _ _ Hc) as Hlog.
      pose proof (IH s1 (effect_wf _ _ _ _ Hwf Hc)
                    (effect_no_leak _ _ _ _ Hwf Htight Hc) Hrest) as Hnext.
      unfold runs in Hnext.
      destruct (run_calls cs s1) as [[] s2|s2|]; [| |done].
      * destruct Hnext as (? & ? & ->). rewrite Hlog. by rewrite app_assoc.
      * destruct Hnext as (? & d & Hd & ->). split; [done|].
        exists (destroyed_raw s c ++ d). split; [by apply prefix_app|].
        rewrite Hlog. by rewrite app_assoc.
    + split; [by eapply interrupted_no_leak|]. rewrite app_nil_r.
      destruct (interrupted_log _ _ _ _ Hc) as [Hlog|Hlog].
      * exists []. split; [apply prefix_nil|]. by rewrite app_nil_r.
      * by exists (destroyed_raw s c).
Qed.

Lemma run_calls_frame cs : ∀ s a v,
  wf s → admissible_calls cs s = true → objs s !! a = Some v →
  (∀ c, c ∈ cs → a ∉ named c) →
  let kept s' :=
    objs s' !! a = Some v ∧
    ∀ b, base (buffer_ (data_ v)) = Some b → heap s' !! b = heap s !! b in
  runs (run_calls cs) s (λ _ s', kept s') (λ s', kept s').
Proof.
  induction cs as [|c cs IH]; intros s a v Hwf Hadm Hv Hnot kept; subst kept.
  - by apply runs_ret.
  - cbn [admissible_calls run_calls] in *. apply andb_prop in Hadm as [Hpre Hrest].
    pose proof (exec_call_effect c s Hwf Hpre) as Hc.
    assert (Hc_not : a ∉ named c) by (apply Hnot; set_solver).
    apply runs_bind. unfold runs in Hc |- *.
    destruct (exec_call c s) as [[] s1|s1|] eqn:Hrun; [| |done].
    + destruct (effect_frame _ _ _ _ a v Hwf Hc) as [Hv1 Hb1]; [done|done|].
      pose proof (IH s1 a v (effect_wf _ _ _ _ Hwf Hc) Hrest Hv1) as Hnext.
      cbv zeta in Hnext. unfold runs in Hnext.
      assert (Hrest_not : ∀ c', c' ∈ cs → a ∉ named c').
      { intros c' Hc'. apply Hnot. set_solver. }
      specialize (Hnext Hrest_not).
      destruct (run_calls cs s1) as [[] s2|s2|]; [| |done].
      * destruct Hnext as [Hv2 Hb2].
        split; [done|]. intros b Hb. rewrite (Hb2 b Hb). by apply Hb1.
      * destruct Hnext as [Hv2 Hb2].
        split; [done|]. intros b Hb. rewrite (Hb2 b Hb). by apply Hb1.
    + by eapply interrupted_frame.
Qed.

End Lifetimes.

(** ** No leak, and no interference *)

Lemma no_leak_nothing {T} o n r : no_leak (mkState (T := T) o ∅ n r).
Proof. intros b [blk Hb]. simpl in Hb. by rewrite lookup_empty in Hb. Qed.

(** X18.  Blocks are never leaked and the invariant is kept: for every
    sequence of constructors, operations and destructors run from a
    well-formed state in which every block belongs to a vector, each call
    made in a state that meets its requirement (the vector exists, a
    constructor runs where no vector lives, a position is in range, a
    requested count times the element size fits [size_t]), the run does not
    fault.  If it ends normally the state is well formed, every vector
    satisfies the invariant, every block of the heap belongs to a vector,
    the heap is empty once all vectors are destroyed, and the raw slots a
    destructor has been run on are those of the calls of [Reserve] and
    [Resize] above the capacity (line 274), which [destroyed_by] lists.  If
    a call throws, every block still belongs to a vector, and the raw slots
    a destructor has been run on are among those listed. *)
Theorem no_block_leaks {T} {E : Env T} (cs : list (call T)) (s : state T) :
  wf s → no_leak s → admissible_calls cs s = true →
  runs (run_calls cs) s
    (λ _ s', wf s' ∧ no_leak s' ∧ (objs s' = ∅ → heap s' = ∅) ∧
             (∀ a v, objs s' !! a = Some v → invariant (heap s') v) ∧
             raw_destroyed s' = raw_destroyed s ++ destroyed_by cs s)
    (λ s', no_leak s' ∧
           ∃ d, d `prefix_of` destroyed_by cs s ∧
                raw_destroyed s' = raw_destroyed s ++ d).
Proof.
  intros Hwf Htight Hadm.
  eapply runs_conseq; [by apply run_calls_invariant| |done].
  intros [] s' (Hwf' & Htight' & Hlog). split; [done|]. split; [done|].
  split; [by apply no_leak_empty|]. split; [|done].
  intros a v Hv. by eapply wf_invariant.
Qed.

(** Two vectors live through appends, an insertion, an erasure, a copy, a
    reservation, assignments, an exchange and a move, and die.  [Reserve]
    is called on a full vector, and no moved-from vector is used. *)
Definition two_lifetimes : list (call Z) :=
  [Do (NewVector 7); Do (CallPushBack 7 1); Do (CallPushBack 7 2);
   Do (CallPushBack 7 3); Do (CallInsert 7 1 99); Do (CallErase 7 0);
   Do (NewCopy 8 7); Do (CallReserve 8 20); Do (CallResize 8 5);
   Do (CallPopBack 8); Do (CallAssign 7 8); Do (CallSwap 7 8);
   Do (NewMove 9 8); Do (CallMoveAssign 9 7); Destroy 7; Destroy 9].

Lemma no_block_leaks_witness :
  ∃ s', run_calls two_lifetimes (mkState ∅ ∅ 0 []) = Ok tt s' ∧
        objs s' = ∅ ∧ heap s' = ∅ ∧ raw_destroyed s' = [].
Proof.
  pose proof (no_block_leaks two_lifetimes (mkState ∅ ∅ 0 [])
                wf_empty (no_leak_nothing _ _ _)) as Hrun.
  assert (Hadm : admissible_calls two_lifetimes (mkState (T := Z) ∅ ∅ 0 []) = true)
    by by vm_compute.
  specialize (Hrun Hadm).
  assert (Hend : ∃ n, run_calls two_lifetimes (mkState ∅ ∅ 0 [])
                      = Ok tt (mkState ∅ ∅ n [])) by (eexists; by vm_compute).
  destruct Hend as [n Hend]. unfold runs in Hrun. rewrite Hend in Hrun.
  destruct Hrun as (_ & _ & Hempty & _ & _).
  exists (mkState ∅ ∅ n []). split; [exact Hend|].
  split; [reflexivity|]. split; [|reflexivity]. by apply Hempty.
Defined.

(** X19.  A call changes only the vectors it names: for every admissible
    sequence of constructors, operations and destructors run from a
    well-formed state, a vector that no call of the sequence names has the
    fields and the elements it had, in the same block, when the sequence
    ends, and also when one of its calls throws. *)
Theorem calls_change_named_only {T} {E : Env T} (cs : list (call T)) (s : state T)
    (a : nat) v (l : list T) :
  wf s → admissible_calls cs s = true →
  objs s !! a = Some v → rep (heap s) v l →
  (∀ c, c ∈ cs → a ∉ named c) →
  let kept s' := objs s' !! a = Some v ∧ rep (heap s') v l ∧ elements_are s' a l in
  runs (run_calls cs) s (λ _ s', kept s') (λ s', kept s').
Proof.
  intros Hwf Hadm Hv Hrep Hnot kept.
  assert (Hkept : ∀ s',
            objs s' !! a = Some v ∧
            (∀ b, base (buffer_ (data_ v)) = Some b → heap s' !! b = heap s !! b) →
            kept s').
  { intros s' [Hv' Hsame].
    assert (Hrep' : rep (heap s') v l) by by eapply rep_frame.
    split; [done|]. split; [done|]. by eapply rep_elements_are. }
  eapply runs_conseq; [by apply (run_calls_frame cs s a v)| |].
  - intros [] s'. apply Hkept.
  - apply Hkept.
Qed.

(** [small_and_large] is the state after these calls. *)
Definition small_and_large_history : list (call Z) :=
  [Do (NewSized 9 1); Destroy 9;
   Do (NewVector 7); Do (CallPushBack 7 5);
   Do (NewVector 8); Do (CallReserve 8 2);
   Do (CallPushBack 8 10); Do (CallPushBack 8 20)].

Lemma small_and_large_wf : wf small_and_large.
Proof.
  assert (Hrun : run_calls small_and_large_history (mkState ∅ ∅ 0 [])
                 = Ok tt small_and_large) by by vm_compute.
  pose proof (run_calls_invariant small_and_large_history (mkState ∅ ∅ 0 [])
                wf_empty (no_leak_nothing _ _ _)) as Hinv.
  assert (Hadm : admissible_calls small_and_large_history
                   (mkState (T := Z) ∅ ∅ 0 []) = true) by by vm_compute.
  specialize (Hinv Hadm). unfold runs in Hinv. rewrite Hrun in Hinv.
  by destruct Hinv.
Qed.

Lemma calls_change_named_only_witness :
  ∃ s', run_calls [Do (CallPushBack 7 1); Do (CallErase 7 0);
                   Do (CallResize 7 0); Destroy 7] small_and_large = Ok tt s' ∧
        objs s' !! 8%nat = Some (mkVector (mkRawMemory (slot_ptr 2 0) 2) 2) ∧
        rep (heap s') (mkVector (mkRawMemory (slot_ptr 2 0) 2) 2) [10; 20] ∧
        elements_are s' 8 [10; 20].
Proof.
  assert (Hnot : ∀ c : call Z,
            c ∈ [Do (CallPushBack 7 1); Do (CallErase 7 0);
                 Do (CallResize 7 0); Destroy 7] → 8%nat ∉ named c).
  { intros c Hc. repeat (apply elem_of_cons in Hc as [->|Hc]); simpl;
      try (intros Hin; repeat (apply elem_of_cons in Hin as [Hin|Hin]);
           try discriminate; by apply elem_of_nil in Hin).
    by apply elem_of_nil in Hc. }
  assert (Hadm : admissible_calls
                   [Do (CallPushBack 7 1); Do (CallErase 7 0);
                    Do (CallResize 7 0); Destroy 7] small_and_large = true)
    by by vm_compute.
  pose proof (calls_change_named_only
                [Do (CallPushBack 7 1); Do (CallErase 7 0);
                 Do (CallResize 7 0); Destroy 7]
                small_and_large 8%nat
                (mkVector (mkRawMemory (slot_ptr 2 0) 2) 2) [10; 20]
                small_and_large_wf Hadm eq_refl large_rep Hnot) as Hrun.
  cbv zeta in Hrun. unfold runs in Hrun.
  destruct (run_calls _ small_and_large) as [[] s'|s'|] eqn:Heq;
    [|by vm_compute in Heq|done].
  by exists s'.
Defined.

(** ** An insertion interrupted after the shift *)

Section Interrupted.

Context {T : Type} {E : Env T}.
Implicit Types (h : gmap nat (list (slot T))) (blk : list (slot T)).
Implicit Types (o : gmap nat Vector) (n : nat) (r : list ptr) (l mid : list T).
Implicit Types (v w : Vector) (m : RawMemory).

(** The block when the value to insert is about to be built (line 167):
    the last element is in slot [size], the elements from the position on
    are one slot up, and the slot at the position is moved-from. *)
Definition shifted (l1 mid : list T) (z : T) (cap : Z) : list (slot T) :=
  (Live <$> l1) ++ Live (moved_from (hd z mid)) :: (Live <$> mid)
  ++ Live z :: replicate (Z.to_nat cap - S (length (l1 ++ mid ++ [z]))) Raw.

Lemma Emplace_shift_then_throw o h n r this v (l1 : list T) mid z x b :
  o !! this = Some v → rep h v (l1 ++ mid ++ [z]) →
  size_ v < capacity_ (data_ v) → buffer_ (data_ v) = slot_ptr b 0 →
  (∀ s, copy_throws s x = true) →
  Emplace this (slot_ptr b (length l1)) (CopyOf x) (mkState o h n r)
  = Throw (mkState o (<[b := shifted l1 mid z (capacity_ (data_ v))]> h) n r).
Proof.
  intros Hv Hrep Hroom Hbuf Hthrows.
  set (l := l1 ++ mid ++ [z]) in *. set (i := length l1).
  destruct (rep_bounds _ _ _ Hrep) as (Hsz & Hcap & Hlen).
  assert (Hll : length l = (i + length mid + 1)%nat).
  { unfold l, i. rewrite !length_app. simpl. lia. }
  assert (Hnz : capacity_ (data_ v) ≠ 0) by lia.
  destruct (rep_block _ _ _ Hrep Hnz) as (b' & Hbuf' & Hblk).
  rewrite Hbuf in Hbuf'. injection Hbuf' as <-.
  assert (Hgoal : runs (Emplace this (slot_ptr b i) (CopyOf x)) (mkState o h n r)
                    (λ _ _, False)
                    (λ s', s' = mkState o (<[b := shifted l1 mid z (capacity_ (data_ v))]> h)
                                        n r)).
  { unfold Emplace, Emplace_from, cbegin, cend, RawMemory_Capacity.
    eapply runs_step; [by apply begin_eq|]. rewrite Hbuf.
    eapply runs_step; [apply pdiff_eq|]. cbv zeta.
    replace (wrap (Z.of_nat i - Z.of_nat 0)) with (Z.of_nat i); cycle 1.
    { rewrite wrap_small; unfold PTRDIFF_MAX, size_t_modulus in *; lia. }
    eapply runs_step; [by apply load_eq|].
    rewrite (proj2 (Z.gtb_lt _ _)) by lia.
    apply runs_bind.
    rewrite (proj2 (Z.eqb_neq (Z.of_nat i) (size_ v))) by lia.
    rewrite block_of_room in Hblk by lia.
    unfold l in Hblk at 1. rewrite !fmap_app, <- !app_assoc in Hblk.
    simpl in Hblk.
    eapply runs_step; [apply end_eq; [done|lia]|].
    eapply runs_step; [apply end_eq; [done|lia]|].
    rewrite Hbuf.
    replace (ptr_add (ptr_add (slot_ptr b 0) (size_ v)) (-1))
      with (slot_ptr b (i + length mid)) by (rewrite Hlen, Hll; ptr_eq).
    replace (ptr_add (slot_ptr b 0) (size_ v))
      with (slot_ptr b (S (i + length mid))) by (rewrite Hlen, Hll; ptr_eq).
    eapply runs_step.
    { eapply (move_out_middle _ _ _ _ b _ ((Live <$> l1) ++ (Live <$> mid))).
      - rewrite Hblk. by rewrite <- app_assoc.
      - by rewrite length_app, !length_fmap. }
    eapply runs_step.
    { eapply (construct_at_middle _ _ _ _ b _
                (((Live <$> l1) ++ (Live <$> mid)) ++ [Live (moved_from z)])).
      - by rewrite lookup_insert_eq, snoc_app.
      - rewrite !length_app, !length_fmap. simpl. unfold i. lia. }
    rewrite insert_insert_eq.
    eapply runs_step; [by apply begin_eq|].
    eapply runs_step; [apply end_eq; [done|lia]|].
    eapply runs_step; [apply end_eq; [done|lia]|].
    rewrite Hbuf, ptr_add_nat.
    replace (ptr_add (ptr_add (slot_ptr b 0) (size_ v)) (-1))
      with (slot_ptr b (i + length mid)) by (rewrite Hlen, Hll; ptr_eq).
    replace (ptr_add (slot_ptr b 0) (size_ v))
      with (slot_ptr b (S (i + length mid))) by (rewrite Hlen, Hll; ptr_eq).
    eapply runs_step.
    { eapply (move_backward_spec _ _ _ _ b (Live <$> l1) (moved_from z) mid);
        [by rewrite length_fmap|done|done|].
      rewrite lookup_insert_eq. by rewrite <- !app_assoc. }
    rewrite insert_insert_eq.
    apply runs_bind. unfold runs, make, copy_value. rewrite Hthrows.
    unfold shifted. by rewrite vacated_front_hd. }
  unfold runs in Hgoal.
  destruct (Emplace this (slot_ptr b i) (CopyOf x) (mkState o h n r)) as [p s'|s'|];
    [done|by subst|done].
Qed.

Lemma shifted_lookup_end (l1 : list T) mid z cap :
  shifted l1 mid z cap !! length (l1 ++ mid ++ [z]) = Some (Live z).
Proof.
  unfold shifted. rewrite app_comm_cons, (app_assoc (Live <$> l1)).
  apply (list_lookup_middle
           ((Live <$> l1) ++ Live (moved_from (hd z mid)) :: (Live <$> mid)) _ (Live z)).
  rewrite !length_app. simpl. rewrite !length_fmap. lia.
Qed.

End Interrupted.

(** X20.  [Insert] of a copy before an existing element, with room left
    (lines 161-168), when the copy of the value throws: the exception leaves
    [Insert] after the elements were shifted.  The size is unchanged, the
    slot at the position holds a moved-from element, and the last element
    now sits in slot [size], outside the live range: the vector no longer
    satisfies its invariant. *)
Theorem insert_interrupted {T} {E : Env T} o (h : gmap nat (list (slot T))) n r this v
    (l1 mid : list T) (z x : T) :
  o !! this = Some v → rep h v (l1 ++ mid ++ [z]) →
  size_ v < capacity_ (data_ v) →
  (∀ s, copy_throws s x = true) →
  let pos := ptr_add (buffer_ (data_ v)) (Z.of_nat (length l1)) in
  ∃ s', Insert this pos x (mkState o h n r) = Throw s' ∧
        objs s' = o ∧ Size this s' = Ok (size_ v) s' ∧
        read pos s' = Ok (moved_from (hd z mid)) s' ∧
        read (ptr_add (buffer_ (data_ v)) (size_ v)) s' = Ok z s' ∧
        ∀ l', ¬ rep (heap s') v l'.
Proof.
  intros Hv Hrep Hroom Hthrows pos.
  destruct (rep_bounds _ _ _ Hrep) as (Hsz & Hcap & Hlen).
  destruct (rep_block _ _ _ Hrep ltac:(lia)) as (b & Hbuf & Hblk).
  unfold pos. rewrite Hbuf, ptr_add_nat.
  eexists. split; [unfold Insert; by eapply Emplace_shift_then_throw|]. fields.
  split; [done|]. split; [by erewrite Size_eq|].
  split.
  { eapply read_block; [apply lookup_insert_eq|].
    unfold shifted. apply list_lookup_middle. by rewrite length_fmap. }
  split.
  { rewrite Hlen, ptr_add_nat. eapply read_block; [apply lookup_insert_eq|].
    apply shifted_lookup_end. }
  intros l' Hrep'.
  destruct (rep_bounds _ _ _ Hrep') as (_ & _ & Hlen').
  destruct (rep_block _ _ _ Hrep' ltac:(lia)) as (b' & Hbuf' & Hblk').
  rewrite Hbuf in Hbuf'. injection Hbuf' as <-.
  rewrite lookup_insert_eq in Hblk'. injection Hblk' as Hblk'.
  pose proof (shifted_lookup_end l1 mid z (capacity_ (data_ v))) as Hlive.
  rewrite Hblk', block_of_room in Hlive by lia.
  assert (Hsame : length (l1 ++ mid ++ [z]) = length l') by lia.
  rewrite Hsame in Hlive.
  rewrite list_lookup_middle in Hlive by by rewrite length_fmap.
  discriminate Hlive.
Qed.

(** [int] elements whose copy throws for the value 13. *)
Definition unlucky_ints : Env Z := {|
  sizeof_T := 4;
  sizeof_T_pos := eq_refl;
  sizeof_T_max := int_size_max;
  relocate_by_move := true;
  moved_from := λ x, x;
  value_init := 0;
  default_init := 0;
  init_throws := λ _, false;
  copy_throws := λ _ x, x =? 13;
  alloc_fails := λ _ _, false
|}.

Lemma insert_interrupted_witness :
  ∃ s', Insert (E := unlucky_ints) 7 (ptr_add (slot_ptr 2 0) (Z.of_nat (length [10]))) 13
               two_of_four = Throw s' ∧
        objs s' = objs two_of_four ∧
        Size 7 s' = Ok 2 s' ∧
        read (ptr_add (slot_ptr 2 0) (Z.of_nat (length [10]))) s'
        = Ok (hd 20 []) s' ∧
        read (ptr_add (slot_ptr 2 0) 2) s' = Ok 20 s' ∧
        ∀ l', ¬ rep (E := unlucky_ints) (heap s')
                  (mkVector (mkRawMemory (slot_ptr 2 0) 4) 2) l'.
Proof.
  refine (insert_interrupted (E := unlucky_ints)
            (objs two_of_four) (heap two_of_four) (next two_of_four) []
            7%nat (mkVector (mkRawMemory (slot_ptr 2 0) 4) 2) [10] [] 20 13
            _ _ _ _).
  - reflexivity.
  - unfold rep, arena. simpl. repeat split; try reflexivity; try discriminate.
    exists 2%nat. split; reflexivity.
  - simpl. lia.
  - intros s. reflexivity.
Defined.

(** ** Destructors and raw slots *)

(** [Reserve] and [Resize], the two calls that can reach line 274. *)
Definition reserves {T} (c : call T) : bool :=
  match c with
  | Do (CallReserve _ _) | Do (CallResize _ _) => true
  | _ => false
  end.

Section RawSlots.

Context {T : Type} {E : Env T}.
Implicit Types (s : state T).

Lemma destroyed_raw_nil s (c : call T) : reserves c = false → destroyed_raw s c = [].
Proof. by destruct c as [[]|]. Qed.

End RawSlots.

(** X21.  No call other than [Reserve] and [Resize] runs a destructor on a
    raw slot: over every admissible sequence of constructors, operations and
    destructors that contains neither, run from a well-formed state, the
    log of destroyed raw slots is what it was, when the sequence ends and
    also when one of its calls throws. *)
Theorem raw_slots_not_destroyed {T} {E : Env T} (cs : list (call T)) (s : state T) :
  wf s → admissible_calls cs s = true →
  (∀ c, c ∈ cs → reserves c = false) →
  runs (run_calls cs) s (λ _ s', raw_destroyed s' = raw_destroyed s)
       (λ s', raw_destroyed s' = raw_destroyed s).
Proof.
  revert s. induction cs as [|c cs IH]; intros s Hwf Hadm Hnone.
  - by apply runs_ret.
  - cbn [admissible_calls run_calls] in *. apply andb_prop in Hadm as [Hpre Hrest].
    pose proof (exec_call_effect c s Hwf Hpre) as Hc.
    assert (Hquiet : destroyed_raw s c = []).
    { apply destroyed_raw_nil, Hnone. set_solver. }
    apply runs_bind. unfold runs in Hc |- *.
    destruct (exec_call c s) as [[] s1|s1|]; [| |done].
    + pose proof (effect_log _ _ _ _ Hc) as Hlog.
      rewrite Hquiet, app_nil_r in Hlog.
      pose proof (IH s1 (effect_wf _ _ _ _ Hwf Hc) Hrest) as Hnext.
      unfold runs in Hnext.
      assert (Hrest_none : ∀ c', c' ∈ cs → reserves c' = false).
      { intros c' Hc'. apply Hnone. set_solver. }
      specialize (Hnext Hrest_none).
      destruct (run_calls cs s1) as [[] s2|s2|]; [| |done]; by rewrite Hnext.
    + destruct (interrupted_log _ _ _ _ Hc) as [Hlog|Hlog]; [done|].
      by rewrite Hquiet, app_nil_r in Hlog.
Qed.

Definition quiet_lifetimes : list (call Z) :=
  [Do (NewVector 7); Do (CallPushBack 7 1); Do (CallPushBack 7 2);
   Do (CallPushBack 7 3); Do (CallInsert 7 1 99); Do (CallErase 7 0);
   Do (NewCopy 8 7); Do (CallPopBack 8); Do (CallEmplaceBack 8 (MoveOf 4));
   Do (CallAssign 7 8); Do (CallSwap 7 8); Do (NewMove 9 8);
   Do (CallMoveAssign 9 7); Destroy 7; Destroy 9].

Lemma raw_slots_not_destroyed_witness :
  ∃ s', run_calls quiet_lifetimes (mkState ∅ ∅ 0 []) = Ok tt s' ∧
        raw_destroyed s' = [].
Proof.
  assert (Hnone : ∀ c, c ∈ quiet_lifetimes → reserves c = false).
  { intros c Hc. unfold quiet_lifetimes in Hc.
    repeat (apply elem_of_cons in Hc as [->|Hc]; [reflexivity|]).
    by apply elem_of_nil in Hc. }
  assert (Hadm : admissible_calls quiet_lifetimes (mkState (T := Z) ∅ ∅ 0 []) = true)
    by by vm_compute.
  pose proof (raw_slots_not_destroyed quiet_lifetimes (mkState ∅ ∅ 0 [])
                wf_empty Hadm Hnone) as Hrun.
  assert (Hend : ∃ n, run_calls quiet_lifetimes (mkState ∅ ∅ 0 [])
                      = Ok tt (mkState ∅ ∅ n [])) by (eexists; by vm_compute).
  destruct Hend as [n Hend]. unfold runs in Hrun. rewrite Hend in Hrun.
  exists (mkState ∅ ∅ n []). split; [exact Hend|exact Hrun].
Defined.

(** X22.  [Resize(k)] with [k] above the capacity (lines 322-326) goes
    through [Reserve]: on a well-formed vector it runs the destructor on the
    [capacity - size] raw slots of the old arena as well, before it
    default-constructs the new elements.  When it throws, either the
    allocation was refused or a copy threw and nothing has changed, or a
    default construction threw (line 326) after [Reserve] had replaced the
    arena, and the destructor has been run on those raw slots. *)
Theorem resize_destroys_raw_slots {T} {E : Env T} o (h : gmap nat (list (slot T))) n r
    this v (l : list T) k :
  o !! this = Some v → rep h v l → unused_from h n →
  capacity_ (data_ v) < k → k * sizeof_T < size_t_modulus →
  (Z.of_nat (length (raw_part v)) = capacity_ (data_ v) - size_ v ∧
   ∀ p, p ∈ raw_part v → slot_at h p = Some Raw) ∧
  runs (Resize this k) (mkState o h n r)
    (λ _ s', raw_destroyed s' = r ++ raw_part v)
    (λ s', (objs s' = o ∧ heap s' = h ∧ raw_destroyed s' = r ∧
            (refused (mkState o h n r) (k * sizeof_T) ∨ copy_may_throw))
           ∨ (raw_destroyed s' = r ++ raw_part v ∧ init_may_throw)).
Proof.
  intros Hv Hrep Hf Hk Hfits.
  destruct (rep_bounds _ _ _ Hrep) as (Hsz & Hcap & Hlen).
  split.
  { split; [by eapply length_raw_part|].
    intros p Hp. unfold raw_part in Hp.
    destruct (decide (capacity_ (data_ v) = 0)) as [Hz|Hnz].
    { destruct (rep_null _ _ _ Hrep Hz) as (Hnull & _). rewrite Hnull in Hp.
      simpl in Hp. by apply elem_of_nil in Hp. }
    destruct (rep_block _ _ _ Hrep Hnz) as (b & Hbuf & Hblk).
    rewrite Hbuf in Hp. simpl in Hp.
    apply list_elem_of_fmap in Hp as (j & -> & Hj).
    apply elem_of_seq in Hj.
    rewrite (slot_at_block _ _ _ _ Hblk). unfold block_of.
    rewrite lookup_app_r by (rewrite length_fmap; lia).
    apply lookup_replicate_2. rewrite length_fmap. lia. }
  eapply runs_conseq; [by eapply Resize_reallocates| |].
  - intros [] s' (_ & ->). by fields.
  - intros s' [Hsame|(_ & -> & Hinit)]; [by left|right]. by fields.
Qed.

(** [Resize(5)] on a vector holding [10; 20] in an arena of capacity 4
    returns, and has run the destructor on slots 2 and 3 of the old arena. *)
Lemma resize_destroys_raw_slots_witness :
  ∃ s', Resize 7 5 two_of_four = Ok tt s' ∧
        raw_destroyed s' = [slot_ptr 2 2; slot_ptr 2 3] ∧
        slot_at (heap two_of_four) (slot_ptr 2 2) = Some Raw ∧
        slot_at (heap two_of_four) (slot_ptr 2 3) = Some Raw.
Proof.
  assert (Hsmall : 5 * sizeof_T (T := Z) < size_t_modulus) by by vm_compute.
  pose proof (resize_destroys_raw_slots (T := Z)
                (objs two_of_four) (heap two_of_four) (next two_of_four) []
                7%nat (mkVector (mkRawMemory (slot_ptr 2 0) 4) 2) [10; 20] 5
                eq_refl two_of_four_rep two_of_four_fresh ltac:(simpl; lia) Hsmall)
    as [[_ Hraw] Hrun].
  destruct (runs_returns _ _ _ _ Hrun) as ([] & s' & Heq & Hlog).
  - intros s' [(_ & _ & _ & [Href|Hc])|[_ Hinit]];
      [|by apply int_copies|by apply int_inits].
    eapply int_allocates; [|exact Href]. by vm_compute.
  - exists s'. split; [exact Heq|]. split; [exact Hlog|].
    assert (Hpart : raw_part (mkVector (mkRawMemory (slot_ptr 2 0) 4) 2)
                    = [slot_ptr 2 2; slot_ptr 2 3]) by reflexivity.
    rewrite Hpart in Hraw. split; apply Hraw; repeat constructor.
Defined.

(** ** Reserving before appending *)

Section AppendLog.

Context {T : Type} {E : Env T}.
Implicit Types (s : state T) (l xs : list T).

(** Appending runs no destructor on a raw slot. *)
Lemma push_log s this l b c a :
  holds_at s this l b c →
  runs (push this a) s (λ _ s', raw_destroyed s' = raw_destroyed s)
       (λ s', raw_destroyed s' = raw_destroyed s).
Proof.
  destruct s as [o h n r]. intros (v & Hv & Hrep & Hf & Hbuf & Hc). fields.
  eapply runs_conseq; [by eapply push_spec| |by intros s' (_ & _ & ? & _)].
  intros [] s' Hpost. cbv beta in Hpost.
  destruct (size_ v =? capacity_ (data_ v)); [by destruct Hpost as [_ ->]|by subst].
Qed.

Lemma push_all_log xs : ∀ s this l b c,
  holds_at s this l b c →
  runs (push_all this xs) s (λ _ s', raw_destroyed s' = raw_destroyed s)
       (λ s', raw_destroyed s' = raw_destroyed s).
Proof.
  induction xs as [|x xs IH]; intros s this l b c Hh.
  - by apply runs_ret.
  - cbn [push_all]. unfold PushBack.
    eapply runs_step_or_throw;
      [exact (runs_both _ _ _ _ _ _ (push_step s this l b c (CopyOf x) Hh)
                (push_log s this l b c (CopyOf x) Hh))| |].
    + intros [] s1 [Hstep Hlog]. cbv beta in Hstep.
      destruct (Z.of_nat (length l) =? c).
      * destruct Hstep as [[b' Hh1] _].
        eapply runs_conseq; [exact (IH s1 this _ _ _ Hh1)| |]; cbv beta; congruence.
      * destruct Hstep as [Hh1 _].
        eapply runs_conseq; [exact (IH s1 this _ _ _ Hh1)| |]; cbv beta; congruence.
    + by intros s1 [_ Hlog].
Qed.

End AppendLog.

(** X23.  [Reserve(c)] followed by a run of [PushBack] calls that append
    [xs], with [size + length xs ≤ c], on a well-formed vector holding [l].
    When the run returns, the vector holds [l ++ xs] with the larger of its
    old capacity and [c], at most one block was allocated, by [Reserve] (the
    appends allocate nothing), and, when [Reserve] allocated, the destructor
    has been run on the raw slots of the old arena (line 274) and on no
    other raw slot.  The run throws only if [Reserve] has to allocate and
    that allocation is refused, or if a copy of an element can throw. *)
Theorem reserve_then_append {T} {E : Env T} o (h : gmap nat (list (slot T))) n r
    this v (l xs : list T) c :
  o !! this = Some v → rep h v l → unused_from h n →
  c * sizeof_T < size_t_modulus → Z.of_nat (length l + length xs) ≤ c →
  runs (Reserve this c;; push_all this xs) (mkState o h n r)
    (λ _ s', holds s' this (l ++ xs) ∧ elements_are s' this (l ++ xs) ∧
             Capacity this s' = Ok (Z.max (capacity_ (data_ v)) c) s' ∧
             next s' = (if capacity_ (data_ v) <? c then S n else n) ∧
             raw_destroyed s'
             = r ++ (if capacity_ (data_ v) <? c then raw_part v else []))
    (λ _, (capacity_ (data_ v) < c ∧ refused (mkState o h n r) (c * sizeof_T))
          ∨ copy_may_throw).
Proof.
  intros Hv Hrep Hf Hfits Hroom.
  destruct (rep_bounds _ _ _ Hrep) as (Hsz & Hcap & Hlen).
  assert (Hfinish : ∀ s1 b c1,
            holds_at s1 this l b c1 → Z.of_nat (length l + length xs) ≤ c1 →
            runs (push_all this xs) s1
              (λ _ s', holds s' this (l ++ xs) ∧ elements_are s' this (l ++ xs) ∧
                       Capacity this s' = Ok c1 s' ∧ next s' = next s1 ∧
                       raw_destroyed s' = raw_destroyed s1)
              (λ _, (capacity_ (data_ v) < c
                     ∧ refused (mkState o h n r) (c * sizeof_T))
                    ∨ copy_may_throw)).
  { intros s1 b c1 Hh Hc1.
    eapply runs_conseq;
      [exact (runs_both _ _ _ _ _ _ (push_all_in_place xs s1 this l b c1 Hh Hc1)
                (push_all_log xs s1 this l b c1 Hh))| |].
    - intros [] s' [[Hh' Hn'] Hlog].
      pose proof (holds_at_holds _ _ _ _ _ Hh') as Hholds.
      split; [done|]. split; [by apply holds_elements_are|].
      split; [by eapply holds_at_Capacity|done].
    - intros s' [Hcp _]. by right. }
  destruct (decide (c ≤ capacity_ (data_ v))) as [Hle|Hgt].
  - rewrite (proj2 (Z.ltb_ge _ _)) by lia. rewrite app_nil_r.
    replace (Z.max (capacity_ (data_ v)) c) with (capacity_ (data_ v)) by lia.
    eapply runs_step; [by eapply Reserve_enough|].
    destruct (decide (capacity_ (data_ v) = 0)) as [Hz|Hnz].
    + assert (xs = []) as -> by (apply nil_length_inv; lia).
      apply runs_ret. rewrite app_nil_r.
      assert (Hh : holds (mkState o h n r) this l) by by exists v.
      split; [done|]. split; [by apply holds_elements_are|].
      split; [by apply Capacity_eq|done].
    + destruct (rep_block _ _ _ Hrep Hnz) as (b & Hbuf & Hblk).
      apply (Hfinish (mkState o h n r) b (capacity_ (data_ v))); [by exists v|lia].
  - rewrite (proj2 (Z.ltb_lt _ _)) by lia.
    replace (Z.max (capacity_ (data_ v)) c) with c by lia.
    eapply runs_step_or_throw; [eapply Reserve_spec; try done; lia| |].
    + intros [] s1 (Hmax & ->).
      apply (Hfinish (mkState (<[this := mkVector (mkRawMemory (slot_ptr n 0) c)
                                                  (size_ v)]> o)
                               (<[n := block_of l c]> (release h (data_ v)))
                               (S n) (r ++ raw_part v)) n c); [|lia].
      eexists. fields. split; [apply lookup_insert_eq|]. fields.
      split; [apply rep_new; lia|].
      split; [by apply unused_reallocated|done].
    + intros s1 (_ & _ & _ & [Href|Hcp]); [left|by right]. split; [lia|done].
Qed.

(** [Reserve(6)] and four appends on a vector holding [10; 20] in an arena
    of capacity 4 return: one block is allocated, and the destructor has
    been run on the two raw slots of the old arena. *)
Lemma reserve_then_append_witness :
  ∃ s', (Reserve 7 6;; push_all 7 [30; 40; 50; 60]) two_of_four = Ok tt s' ∧
        holds s' 7 [10; 20; 30; 40; 50; 60] ∧
        elements_are s' 7 [10; 20; 30; 40; 50; 60] ∧
        Capacity 7 s' = Ok 6 s' ∧ next s' = 4%nat ∧
        raw_destroyed s' = [slot_ptr 2 2; slot_ptr 2 3].
Proof.
  assert (Hsmall : 6 * sizeof_T (T := Z) < size_t_modulus) by by vm_compute.
  pose proof (reserve_then_append (T := Z)
                (objs two_of_four) (heap two_of_four) (next two_of_four) []
                7%nat (mkVector (mkRawMemory (slot_ptr 2 0) 4) 2) [10; 20]
                [30; 40; 50; 60] 6
                eq_refl two_of_four_rep two_of_four_fresh Hsmall ltac:(simpl; lia))
    as Hrun.
  destruct (runs_returns _ _ _ _ Hrun) as ([] & s' & Heq & Hpost).
  - intros s' [[_ Href]|Hc]; [|by apply int_copies].
    eapply int_allocates; [|exact Href]. by vm_compute.
  - exists s'. split; [exact Heq|exact Hpost].
Defined.

(** ** A copy assignment interrupted in place *)

Section AssignInterrupted.

Context {T : Type} {E : Env T}.
Implicit Types (h : gmap nat (list (slot T))) (blk : list (slot T)).
Implicit Types (o : gmap nat Vector) (n : nat) (r : list ptr) (l lr xs ys : list T).
Implicit Types (v w : Vector) (m : RawMemory).

(** The loop [data_[i] = rhs.data_[i]] when a copy throws: a prefix has been
    assigned. *)
Lemma copy_assign_loop_throws o h n r bv bw cv cw V1 ys V2 W1 xs W2 (i : nat) :
  bv ≠ bw → length ys = length xs → i = length V1 → i = length W1 →
  Z.of_nat (i + length xs) ≤ cv → Z.of_nat (i + length xs) ≤ cw →
  h !! bv = Some (V1 ++ (Live <$> ys) ++ V2) →
  h !! bw = Some (W1 ++ (Live <$> xs) ++ W2) →
  runs (copy_assign_loop (mkRawMemory (slot_ptr bv 0) cv)
                         (mkRawMemory (slot_ptr bw 0) cw)
                         (Z.of_nat i) (length xs))
       (mkState o h n r)
       (λ _ s', s' = mkState o (<[bv := V1 ++ (Live <$> xs) ++ V2]> h) n r)
       (λ s', ∃ j, (j ≤ length xs)%nat ∧
                   s' = mkState o
                          (<[bv := V1 ++ (Live <$> (take j xs ++ drop j ys)) ++ V2]> h)
                          n r).
Proof.
  intros Hne. revert ys V1 W1 i h.
  induction xs as [|x xs IH]; intros ys V1 W1 i h Hlen Hi Hi' Hcv Hcw Hv Hw.
  - destruct ys; [|done]. simpl. apply runs_ret. by rewrite insert_id.
  - destruct ys as [|y ys]; [done|].
    rewrite !fmap_cons in Hv, Hw. rewrite <- !app_comm_cons in Hv, Hw.
    cbn [length] in *. cbn [copy_assign_loop].
    eapply runs_step; [apply RawMemory_at_eq; simpl; lia|].
    fields. rewrite ptr_add_nat.
    eapply runs_step; [by eapply read_middle|].
    apply runs_bind.
    unfold runs at 1, copy_value at 1.
    destruct (copy_throws _ x) eqn:Hthrow.
    { exists 0%nat. split; [lia|]. rewrite take_0, drop_0. simpl.
      by rewrite insert_id. }
    eapply runs_step; [apply RawMemory_at_eq; simpl; lia|].
    fields. rewrite ptr_add_nat.
    eapply runs_step; [by eapply assign_at_middle|].
    replace (Z.of_nat i + 1) with (Z.of_nat (S i)) by lia.
    eapply runs_conseq.
    { eapply (IH ys (V1 ++ [Live x]) (W1 ++ [Live x]) (S i)).
      - lia.
      - rewrite length_app. simpl. lia.
      - rewrite length_app. simpl. lia.
      - lia.
      - lia.
      - by rewrite lookup_insert_eq, snoc_app.
      - rewrite lookup_insert_ne by done. by rewrite snoc_app. }
    + intros [] s' ->. rewrite insert_insert_eq, snoc_app.
      by rewrite fmap_cons, <- app_comm_cons.
    + intros s' (j & Hj & ->). exists (S j). split; [lia|].
      rewrite insert_insert_eq, <- app_assoc. cbn [take drop app].
      by rewrite fmap_cons.
Qed.

Lemma drop_take_drop l (j k : nat) :
  (j ≤ k)%nat → (k ≤ length l)%nat → drop j (take k l) ++ drop k l = drop j l.
Proof.
  intros Hj Hk. rewrite <- (take_drop k l) at 3.
  rewrite drop_app_le; [done|]. rewrite length_take. lia.
Qed.

(** Copy assignment into an arena that suffices, when a copy throws: the
    destination holds a prefix of the source followed by the rest of its own
    elements. *)
Lemma operator_assign_in_place_throws o h n r this rhs v w l lr :
  this ≠ rhs → o !! this = Some v → o !! rhs = Some w →
  rep h v l → rep h w lr →
  (∀ b, base (buffer_ (data_ v)) = Some b → base (buffer_ (data_ w)) ≠ Some b) →
  size_ w ≤ capacity_ (data_ v) →
  runs (operator_assign this rhs) (mkState o h n r)
    (λ _ _, True)
    (λ s', ∃ j, (j ≤ length l)%nat ∧ (j ≤ length lr)%nat ∧
                s' = mkState o
                       (overwrite h (data_ v)
                          (block_of (take j lr ++ drop j l) (capacity_ (data_ v))))
                       n r).
Proof.
  intros Hne Hv Hw Hrep Hrep' Hdisj Hfit.
  destruct (rep_bounds _ _ _ Hrep) as (Hsz & Hcap & Hlen).
  destruct (rep_bounds _ _ _ Hrep') as (Hsz' & Hcap' & Hlen').
  unfold operator_assign.
  rewrite (proj2 (Nat.eqb_neq _ _) Hne). cbn [negb].
  eapply runs_step; [by apply load_eq|].
  eapply runs_step; [by apply load_eq|].
  unfold RawMemory_Capacity.
  replace (capacity_ (data_ v) >=? size_ w) with true
    by (symmetry; rewrite Z.geb_leb; apply Z.leb_le; lia).
  destruct (decide (lr = [])) as [->|Hlr].
  { (* the source is empty: no element is read *)
    apply runs_bind.
    change (size_ w = 0) in Hlen'. rewrite Hlen'.
    destruct (decide (capacity_ (data_ v) = 0)) as [Hz|Hnz].
    - destruct (rep_null _ _ _ Hrep Hz) as (Hbuf & -> & Hsz0).
      rewrite Hsz0. simpl.
      eapply runs_step; [reflexivity|].
      eapply runs_step; [apply RawMemory_plus_eq; lia|].
      eapply runs_step; [apply RawMemory_plus_eq; lia|].
      eapply runs_eq; [apply uninitialized_copy_n_zero|].
      eapply runs_eq; [by apply set_size_eq|done].
    - destruct (rep_block _ _ _ Hrep Hnz) as (bv & Hbuf & Hblk).
      unfold block_of in Hblk.
      destruct (size_ v >? 0) eqn:Hcmp.
      + eapply runs_step; [reflexivity|].
        eapply runs_step; [apply RawMemory_plus_eq; lia|].
        rewrite Hbuf, ptr_add_0, Z.sub_0_r.
        rewrite wrap_small by (unfold PTRDIFF_MAX, size_t_modulus in *; lia).
        eapply runs_eq.
        { eapply (destroy_n_spec _ _ _ _ bv [] (Live <$> l)); try done.
          by rewrite length_fmap. }
        eapply runs_eq; [by apply set_size_eq|done].
      + rewrite Z.gtb_ltb in Hcmp. apply Z.ltb_ge in Hcmp.
        assert (l = []) as -> by (apply nil_length_inv; lia).
        change (size_ v = 0) in Hlen. rewrite Hlen.
        eapply runs_step; [reflexivity|].
        eapply runs_step; [apply RawMemory_plus_eq; lia|].
        eapply runs_step; [apply RawMemory_plus_eq; lia|].
        eapply runs_eq; [apply uninitialized_copy_n_zero|].
        eapply runs_eq; [by apply set_size_eq|done]. }
  apply runs_bind.
  assert (0 < length lr)%nat as Hpos.
  { destruct lr; [done|]. simpl. lia. }
  destruct (rep_block _ _ _ Hrep ltac:(lia)) as (bv & Hbuf & Hblk).
  destruct (rep_block _ _ _ Hrep' ltac:(lia)) as (bw & Hbuf' & Hblk').
  assert (bv ≠ bw) as Hbb.
  { intros ->. eapply Hdisj; [by rewrite Hbuf|by rewrite Hbuf']. }
  unfold block_of in Hblk, Hblk'.
  destruct (size_ v >? size_ w) eqn:Hcmp.
  - apply Z.gtb_lt in Hcmp.
    assert (Hk : length (take (length lr) l) = length lr)
      by (rewrite length_take; lia).
    rewrite <- (take_drop (length lr) l) in Hblk at 1.
    rewrite fmap_app, <- app_assoc in Hblk.
    eapply (runs_step_or_throw _ _ _
              (λ _ s', s' = mkState o
                 (<[bv := (Live <$> lr) ++ (Live <$> drop (length lr) l)
                          ++ replicate (Z.to_nat (capacity_ (data_ v)) - length l) Raw]> h)
                 n r)
              (λ s', ∃ j, (j ≤ length lr)%nat ∧
                 s' = mkState o
                        (<[bv := [] ++ (Live <$> (take j lr ++ drop j (take (length lr) l)))
                                 ++ (Live <$> drop (length lr) l)
                                 ++ replicate (Z.to_nat (capacity_ (data_ v)) - length l) Raw]> h)
                        n r)).
    + rewrite Hlen', Nat2Z.id.
      destruct v as [[pv cv] sv], w as [[pw cw] sw]. fields. subst pv pw.
      eapply (copy_assign_loop_throws _ _ _ _ bv bw cv cw []
                (take (length lr) l) _ [] lr _ 0%nat); try done; simpl; lia.
    + intros [] s' ->.
      eapply runs_step; [apply RawMemory_plus_eq; lia|].
      rewrite Hbuf, Hlen', ptr_add_nat.
      rewrite wrap_small by (unfold PTRDIFF_MAX, size_t_modulus in *; lia).
      eapply runs_eq.
      { eapply (destroy_n_spec _ _ _ _ bv (Live <$> lr)
                  (Live <$> drop (length lr) l));
          [|by rewrite length_fmap|apply lookup_insert_eq].
        rewrite length_fmap, length_drop. lia. }
      eapply runs_eq; [by apply set_size_eq|done].
    + intros s' (j & Hj & ->). exists j. split; [lia|]. split; [done|].
      rewrite (overwrite_block _ _ _ bv) by done.
      do 2 f_equal. simpl. unfold block_of.
      rewrite !fmap_app, <- !app_assoc. f_equal.
      rewrite app_assoc, <- fmap_app, drop_take_drop by lia.
      f_equal. f_equal.
      rewrite length_app, length_take, length_drop. lia.
  - rewrite Z.gtb_ltb in Hcmp. apply Z.ltb_ge in Hcmp.
    assert (Hk : length (take (length l) lr) = length l)
      by (rewrite length_take; lia).
    assert (Hraw : replicate (Z.to_nat (capacity_ (data_ v)) - length l) (@Raw T)
                   = replicate (length (drop (length l) lr)) Raw
                       ++ replicate (Z.to_nat (capacity_ (data_ v)) - length lr) Raw).
    { rewrite <- replicate_add. f_equal. rewrite length_drop. lia. }
    assert (Hfull : ∀ j, (j ≤ length l)%nat →
              block_of (take j lr ++ drop j l) (capacity_ (data_ v))
              = (Live <$> (take j (take (length l) lr) ++ drop j l))
                  ++ replicate (Z.to_nat (capacity_ (data_ v)) - length l) Raw).
    { intros j Hj. unfold block_of. rewrite take_take, Nat.min_l by done.
      do 2 f_equal. rewrite length_app, length_take, length_drop. lia. }
    rewrite <- (take_drop (length l) lr) in Hblk' at 1.
    rewrite fmap_app, <- app_assoc in Hblk'.
    eapply (runs_step_or_throw _ _ _
              (λ _ s', s' = mkState o
                 (<[bv := (Live <$> take (length l) lr)
                          ++ replicate (Z.to_nat (capacity_ (data_ v)) - length l) Raw]> h)
                 n r)
              (λ s', ∃ j, (j ≤ length (take (length l) lr))%nat ∧
                 s' = mkState o
                        (<[bv := [] ++ (Live <$> (take j (take (length l) lr) ++ drop j l))
                                 ++ replicate (Z.to_nat (capacity_ (data_ v)) - length l) Raw]> h)
                        n r)).
    + rewrite Hlen, Nat2Z.id. rewrite <- Hk at 1.
      destruct v as [[pv cv] sv], w as [[pw cw] sw]. fields. subst pv pw.
      eapply (copy_assign_loop_throws _ _ _ _ bv bw cv cw [] l _ []
                (take (length l) lr) _ 0%nat); try done; simpl; lia.
    + intros [] s' ->.
      eapply runs_step; [apply RawMemory_plus_eq; lia|].
      eapply runs_step; [apply RawMemory_plus_eq; lia|].
      rewrite Hbuf, Hbuf', Hlen, !ptr_add_nat.
      rewrite wrap_small by (unfold PTRDIFF_MAX, size_t_modulus in *; lia).
      unfold uninitialized_copy_n.
      replace (Z.to_nat (size_ w - Z.of_nat (length l)))
        with (length (drop (length l) lr)) by (rewrite length_drop; lia).
      rewrite Hraw.
      pose proof (uninitialized_copy_loop_spec o
                    (<[bv := (Live <$> take (length l) lr)
                        ++ replicate (length (drop (length l) lr)) Raw
                        ++ replicate (Z.to_nat (capacity_ (data_ v)) - length lr) Raw]> h)
                    n r bw bv (Live <$> take (length l) lr)
                    (replicate (Z.to_nat (capacity_ (data_ w)) - length lr) Raw)
                    (Live <$> take (length l) lr)
                    (replicate (Z.to_nat (capacity_ (data_ v)) - length lr) Raw)
                    (drop (length l) lr) ltac:(done)) as Hloop.
      rewrite !length_fmap, Hk in Hloop.
      specialize (Hloop ltac:(by rewrite lookup_insert_ne)
                        ltac:(apply lookup_insert_eq)).
      eapply runs_conseq; [exact Hloop| |].
      * intros [] s' ->. eapply runs_eq; [by apply set_size_eq|done].
      * intros s' [-> _]. exists (length l). split; [done|]. split; [lia|].
        rewrite (overwrite_block _ _ _ bv) by done.
        do 2 f_equal. rewrite (Hfull (length l)) by done.
        rewrite <- Hraw. do 2 f_equal.
        rewrite take_take, Nat.min_id, drop_all. by rewrite app_nil_r.
    + intros s' (j & Hj & ->). rewrite Hk in Hj.
      exists j. split; [done|]. split; [lia|].
      rewrite (overwrite_block _ _ _ bv) by done.
      do 2 f_equal. simpl. by rewrite Hfull.
Qed.

End AssignInterrupted.

(** X24.  Copy assignment (lines 279-301) into an arena that suffices gives
    the basic guarantee: when a copy throws, the destination is still a
    well-formed vector with the size and the capacity it had, and it holds
    the first [j] elements of the source followed by its own elements from
    [j] on, for some [j]; the source is as it was, and nothing was allocated
    or released.  When no copy throws the destination holds the elements of
    the source. *)
Theorem copy_assignment_interrupted {T} {E : Env T} o (h : gmap nat (list (slot T))) n r
    this rhs v w (l lr : list T) :
  this ≠ rhs → o !! this = Some v → o !! rhs = Some w →
  rep h v l → rep h w lr → unused_from h n →
  (∀ b, base (buffer_ (data_ v)) = Some b → base (buffer_ (data_ w)) ≠ Some b) →
  size_ w ≤ capacity_ (data_ v) →
  runs (operator_assign this rhs) (mkState o h n r)
    (λ _ s', holds s' this lr)
    (λ s', ∃ j, (j ≤ length l)%nat ∧ (j ≤ length lr)%nat ∧
                holds s' this (take j lr ++ drop j l) ∧
                elements_are s' this (take j lr ++ drop j l) ∧
                objs s' = o ∧ rep (heap s') w lr ∧
                next s' = n ∧ raw_destroyed s' = r).
Proof.
  intros Hne Hv Hw Hrep Hrepw Hf Hdisj Hle.
  destruct (rep_bounds _ _ _ Hrep) as (Hsz & Hcap & Hlen).
  destruct (rep_bounds _ _ _ Hrepw) as (Hszw & Hcapw & Hlenw).
  pose proof (operator_assign_in_place o h n r this rhs v w l lr
                Hne Hv Hw Hrep Hrepw Hdisj Hle) as Hok.
  pose proof (operator_assign_in_place_throws o h n r this rhs v w l lr
                Hne Hv Hw Hrep Hrepw Hdisj Hle) as Hthrow.
  unfold runs in *.
  destruct (operator_assign this rhs (mkState o h n r)) as [[] s'|s'|]; [| |done].
  - subst s'. eapply holds_in_place; try done; lia.
  - destruct Hthrow as (j & Hj & Hjr & ->). exists j.
    split; [done|]. split; [done|].
    assert (Hlen' : Z.of_nat (length (take j lr ++ drop j l)) = size_ v).
    { rewrite length_app, length_take, length_drop. lia. }
    assert (Hh : holds (mkState o
                    (overwrite h (data_ v)
                       (block_of (take j lr ++ drop j l) (capacity_ (data_ v)))) n r)
                   this (take j lr ++ drop j l)).
    { exists v. fields. split; [done|]. split.
      - pose proof (rep_in_place h v l (take j lr ++ drop j l) Hrep ltac:(lia)) as Hr.
        rewrite Hlen' in Hr. by destruct v.
      - destruct Hrep as (_ & _ & Har). by eapply unused_overwrite. }
    split; [done|]. split; [by apply holds_elements_are|].
    fields. split; [done|]. split; [|done].
    eapply rep_frame; [done|]. intros b Hb. unfold overwrite.
    destruct (base (buffer_ (data_ v))) as [bv|] eqn:Hbv; [|done].
    rewrite lookup_insert_ne; [done|]. intros ->. by eapply Hdisj.
Qed.

(** With elements whose copy throws for 13: a vector at 7 holding [5; 13]
    and a vector at 8 holding [10; 20], and the state in which the
    assignment [8 = 7] leaves them: the first element was assigned, the copy
    of the second threw. *)
Definition unlucky_pair : state Z :=
  mkState {[ 7%nat := mkVector (mkRawMemory (slot_ptr 1 0) 2) 2;
             8%nat := mkVector (mkRawMemory (slot_ptr 2 0) 2) 2 ]}
          {[ 1%nat := [Live 5; Live 13]; 2%nat := [Live 10; Live 20] ]} 3 [].

Definition unlucky_pair_interrupted : state Z :=
  mkState {[ 7%nat := mkVector (mkRawMemory (slot_ptr 1 0) 2) 2;
             8%nat := mkVector (mkRawMemory (slot_ptr 2 0) 2) 2 ]}
          {[ 1%nat := [Live 5; Live 13]; 2%nat := [Live 5; Live 20] ]} 3 [].

Lemma copy_assignment_interrupted_witness :
  operator_assign (E := unlucky_ints) 8 7 unlucky_pair
  = Throw unlucky_pair_interrupted ∧
  ∃ j, (j ≤ length [10; 20])%nat ∧ (j ≤ length [5; 13])%nat ∧
       holds (E := unlucky_ints) unlucky_pair_interrupted 8
             (take j [5; 13] ++ drop j [10; 20]) ∧
       elements_are (E := unlucky_ints) unlucky_pair_interrupted 8
             (take j [5; 13] ++ drop j [10; 20]) ∧
       objs unlucky_pair_interrupted = objs unlucky_pair ∧
       rep (E := unlucky_ints) (heap unlucky_pair_interrupted)
           (mkVector (mkRawMemory (slot_ptr 1 0) 2) 2) [5; 13] ∧
       next unlucky_pair_interrupted = 3%nat ∧
       raw_destroyed unlucky_pair_interrupted = [].
Proof.
  assert (Hthrows : operator_assign (E := unlucky_ints) 8 7 unlucky_pair
                    = Throw unlucky_pair_interrupted) by by vm_compute.
  split; [exact Hthrows|].
  assert (Hsrc : rep (E := unlucky_ints) (heap unlucky_pair)
                     (mkVector (mkRawMemory (slot_ptr 1 0) 2) 2) [5; 13]).
  { unfold rep, arena. simpl. repeat split; try reflexivity; try discriminate.
    exists 1%nat. split; reflexivity. }
  assert (Hdst : rep (E := unlucky_ints) (heap unlucky_pair)
                     (mkVector (mkRawMemory (slot_ptr 2 0) 2) 2) [10; 20]).
  { unfold rep, arena. simpl. repeat split; try reflexivity; try discriminate.
    exists 2%nat. split; reflexivity. }
  assert (Hfresh : unused_from (heap unlucky_pair) 3)
    by (apply unused_check; by vm_compute).
  assert (Hapart : ∀ b, base (slot_ptr 2 0) = Some b → base (slot_ptr 1 0) ≠ Some b)
    by (intros b Hb; simpl in *; congruence).
  pose proof (copy_assignment_interrupted (T := Z) (E := unlucky_ints)
                (objs unlucky_pair) (heap unlucky_pair) (next unlucky_pair) []
                8%nat 7%nat
                (mkVector (mkRawMemory (slot_ptr 2 0) 2) 2)
                (mkVector (mkRawMemory (slot_ptr 1 0) 2) 2) [10; 20] [5; 13]
                ltac:(discriminate) eq_refl eq_refl Hdst Hsrc Hfresh Hapart
                ltac:(simpl; lia)) as Hrun.
  unfold runs in Hrun.
  change (mkState (objs unlucky_pair) (heap unlucky_pair) (next unlucky_pair) [])
    with unlucky_pair in Hrun.
  rewrite Hthrows in Hrun. exact Hrun.
Defined.
